(** * Shallow embedding of the concurrent compilation pipeline

    The development follows the sources

    - [src/compiler-dispatcher/optimizing-compile-dispatcher.cc]
      (module [Turbofan]),
    - [src/maglev/maglev-concurrent-dispatcher.cc] (module [Maglev]),
    - [src/compiler/backend/riscv/instruction-selector-riscv.h]
      (module [Riscv]),
    - [src/maglev/arm64/maglev-ir-arm64.cc] (modules [Arm64] and
      [Arm64Arith]),
    - [src/maglev/arm/maglev-assembler-arm.cc] (module [ArmPrologue]),
    - [src/maglev/maglev-ir.cc] (module [Deopt]).

    Machine integers are values of [Z]; every place where the C++ code
    computes in a fixed width has its wrap-around written out.  The
    worker threads of the dispatchers hold their jobs in [in_flight_] and
    take their steps, in an arbitrary schedule, where the main thread
    blocks on the job handle.  The definitions come first, the lemmas
    about them second. *)

From Stdlib Require Import ZArith Bool Lia Sorted.
From stdpp Require Import base list.

Local Open Scope Z_scope.
Set Warnings "-register-all".

(** ** Fixed-width arithmetic *)

(** [size_t] on the 64-bit targets. *)
Definition size_t_bits : Z := 64.
Definition size_t_mod : Z := 2 ^ size_t_bits.
Definition wrap_size_t (x : Z) : Z := x mod size_t_mod.

(** ** Compilation jobs *)

(** [CompilationJob::Status]. *)
Inductive Status := SUCCEEDED | FAILED.

Definition Status_eqb (a b : Status) : bool :=
  match a, b with
  | SUCCEEDED, SUCCEEDED | FAILED, FAILED => true
  | _, _ => false
  end.

(** [BlockingBehavior]. *)
Inductive BlockingBehavior := kBlock | kDontBlock.

Inductive CodeKind := MAGLEV | TURBOFAN.

(** What the dispatchers read from a job: its identity, the function it
    compiles ([compilation_info()->closure()]), the requested code kind,
    whether it is an on-stack-replacement job, and the status its Execute
    phase returns when a worker runs it. *)
Record Job := mkJob {
  job_id : nat;
  closure : nat;
  code_kind : CodeKind;
  is_osr : bool;
  ExecuteJob : Status
}.

(** The platform's job handle; a fresh one is numbered by [PostJob]. *)
Definition JobHandle := nat.

(** Calls that leave the dispatcher, in program order. *)
Inductive Event :=
| EvDispose (j : Job) (restore_function_code : bool)
| EvFinalize (j : Job)
| EvJoin (h : JobHandle)
| EvCancel (h : JobHandle)
| EvPostJob (h : JobHandle)
| EvNotifyConcurrencyIncrease (h : JobHandle)
| EvRequestInstallCode
| EvRequestInstallMaglevCode.

(** The jobs disposed in a trace, with the flag each was disposed with. *)
Definition disposals (t : list Event) : list (Job * bool) :=
  omap (fun e => match e with
                 | EvDispose j r => Some (j, r)
                 | _ => None
                 end) t.

(** The calls on the job handle and the platform in a trace. *)
Definition handle_calls (t : list Event) : list Event :=
  List.filter (fun e => match e with
                        | EvJoin _ | EvCancel _ | EvPostJob _ => true
                        | _ => false
                        end) t.

Definition succeeded (j : Job) : bool := Status_eqb (ExecuteJob j) SUCCEEDED.

(** What one turn of the loop of [InstallOptimizedFunctions] may add to
    the trace for the job it popped: the job is finalized, or it is not an
    OSR job and is disposed without restoring the function code. *)
Definition install_event (j : Job) (e : Event) : Prop :=
  e = EvFinalize j \/ (is_osr j = false /\ e = EvDispose j false).

(** The collaborators of the dispatcher in [Compiler] and [JSFunction],
    whose code is outside the dispatcher: they act on the heap. *)
Class CompilerEnv := {
  Heap : Type;
  DisposeTurbofanCompilationJob : Heap -> Job -> bool -> Heap;
  FinalizeTurbofanCompilationJob : Job -> Heap -> Heap;
  HasAvailableCodeKind : Heap -> nat -> CodeKind -> bool
}.

(** ** The optimizing compile dispatcher *)

Module Turbofan.
Section Dispatcher.
Context `{CompilerEnv}.

(** The fields of [OptimizingCompileDispatcher].  [input_queue_] is the
    array behind the ring buffer, a null pointer being [None];
    [in_flight_] are the jobs a worker holds between [NextInput] and the
    push of [CompileNext]; [trace] and [heap] record the outside world. *)
Record Dispatcher := mkDispatcher {
  input_queue_ : list (option Job);
  input_queue_capacity_ : Z;
  input_queue_length_ : Z;
  input_queue_shift_ : Z;
  output_queue_ : list Job;
  job_handle_ : JobHandle;
  finalize_ : bool;
  in_flight_ : list Job;
  heap : Heap;
  trace : list Event
}.

Definition set_input (d : Dispatcher) (q : list (option Job)) (len shift : Z)
  : Dispatcher :=
  mkDispatcher q (input_queue_capacity_ d) len shift (output_queue_ d)
    (job_handle_ d) (finalize_ d) (in_flight_ d) (heap d) (trace d).

Definition set_output (d : Dispatcher) (o : list Job) : Dispatcher :=
  mkDispatcher (input_queue_ d) (input_queue_capacity_ d)
    (input_queue_length_ d) (input_queue_shift_ d) o
    (job_handle_ d) (finalize_ d) (in_flight_ d) (heap d) (trace d).

Definition set_job_handle (d : Dispatcher) (h : JobHandle) : Dispatcher :=
  mkDispatcher (input_queue_ d) (input_queue_capacity_ d)
    (input_queue_length_ d) (input_queue_shift_ d) (output_queue_ d)
    h (finalize_ d) (in_flight_ d) (heap d) (trace d).

Definition set_in_flight (d : Dispatcher) (l : list Job) : Dispatcher :=
  mkDispatcher (input_queue_ d) (input_queue_capacity_ d)
    (input_queue_length_ d) (input_queue_shift_ d) (output_queue_ d)
    (job_handle_ d) (finalize_ d) l (heap d) (trace d).

Definition set_heap (d : Dispatcher) (hp : Heap) : Dispatcher :=
  mkDispatcher (input_queue_ d) (input_queue_capacity_ d)
    (input_queue_length_ d) (input_queue_shift_ d) (output_queue_ d)
    (job_handle_ d) (finalize_ d) (in_flight_ d) hp (trace d).

Definition emit (d : Dispatcher) (e : Event) : Dispatcher :=
  mkDispatcher (input_queue_ d) (input_queue_capacity_ d)
    (input_queue_length_ d) (input_queue_shift_ d) (output_queue_ d)
    (job_handle_ d) (finalize_ d) (in_flight_ d) (heap d) (trace d ++ [e]).

(** Modelled from the spec: [InputQueueIndex] is declared in the
    dispatcher's header, which is not among the sources; the input queue
    uses index arithmetic modulo the capacity of the ring buffer. *)
Definition InputQueueIndex (d : Dispatcher) (i : Z) : Z :=
  Z.rem (i + input_queue_shift_ d) (input_queue_capacity_ d).

(** Reading the array; a slot outside of it reads as a null pointer. *)
Definition slot (q : list (option Job)) (i : Z) : option Job :=
  if i <? 0 then None else mjoin (q !! Z.to_nat i).

(** [InputQueueLength], read under the lock. *)
Definition InputQueueLength (d : Dispatcher) : Z := input_queue_length_ d.

(** [NextInput]: [None] is the null pointer of the empty queue. *)
Definition NextInput (d : Dispatcher) : option Job * Dispatcher :=
  if input_queue_length_ d =? 0 then (None, d)
  else
    let job := slot (input_queue_ d) (InputQueueIndex d 0) in
    (job, set_input d (input_queue_ d) (input_queue_length_ d - 1)
            (InputQueueIndex d 1)).

(** [QueueForOptimization]: the job goes to the back of the ring. *)
Definition QueueForOptimization (job : Job) (d : Dispatcher) : Dispatcher :=
  let i := InputQueueIndex d (input_queue_length_ d) in
  let d1 := set_input d (<[Z.to_nat i := Some job]> (input_queue_ d))
              (input_queue_length_ d + 1) (input_queue_shift_ d) in
  emit d1 (EvNotifyConcurrencyIncrease (job_handle_ d1)).

(** [CompileNext]: the status of the Execute phase is computed and not
    looked at ([USE(status)]); the job is pushed in every case. *)
Definition CompileNext (job : option Job) (d : Dispatcher) : Dispatcher :=
  match job with
  | None => d
  | Some j =>
      let status := ExecuteJob j in
      let d1 := set_output d (output_queue_ d ++ [j]) in
      if finalize_ d1 then emit d1 EvRequestInstallCode else d1
  end.

(** [CompileTask::Run].  [delegate n] is the answer of the [n]-th call of
    [ShouldYield]; every turn of the loop takes a job from the input
    queue, so [fuel] above the queue length is never used up. *)
Fixpoint Run_loop (fuel : nat) (delegate : nat -> bool) (calls : nat)
    (d : Dispatcher) : Dispatcher :=
  match fuel with
  | O => d
  | S fuel' =>
      if delegate calls then d
      else
        match NextInput d with
        | (None, d1) => d1
        | (Some j, d1) =>
            Run_loop fuel' delegate (S calls) (CompileNext (Some j) d1)
        end
  end.

Definition Run (delegate : nat -> bool) (d : Dispatcher) : Dispatcher :=
  Run_loop (S (Z.to_nat (input_queue_length_ d))) delegate 0 d.

(** [CompileTask::GetMaxConcurrency]: [size_t] arithmetic. *)
Definition GetMaxConcurrency (max_threads : Z) (d : Dispatcher)
    (worker_count : Z) : Z :=
  let num_tasks := wrap_size_t (wrap_size_t (InputQueueLength d) + worker_count) in
  if 0 <? max_threads then Z.min max_threads num_tasks else num_tasks.

Definition dispose (restore_function_code : bool) (d : Dispatcher) (j : Job)
  : Dispatcher :=
  emit (set_heap d (DisposeTurbofanCompilationJob (heap d) j
                      restore_function_code))
       (EvDispose j restore_function_code).

(** [FlushOutputQueue]: the loop pops the front until the queue is empty. *)
Fixpoint FlushOutputQueue_loop (restore_function_code : bool)
    (pending : list Job) (d : Dispatcher) : Dispatcher :=
  match pending with
  | [] => d
  | j :: rest =>
      FlushOutputQueue_loop restore_function_code rest
        (dispose restore_function_code (set_output d rest) j)
  end.

Definition FlushOutputQueue (restore_function_code : bool) (d : Dispatcher)
  : Dispatcher :=
  FlushOutputQueue_loop restore_function_code (output_queue_ d) d.

(** [FlushInputQueue]: [while (input_queue_length_ > 0)]; a null slot has
    no job to dispose. *)
Fixpoint FlushInputQueue_loop (fuel : nat) (d : Dispatcher) : Dispatcher :=
  match fuel with
  | O => d
  | S fuel' =>
      if 0 <? input_queue_length_ d then
        let job := slot (input_queue_ d) (InputQueueIndex d 0) in
        let d1 := set_input d (input_queue_ d) (input_queue_length_ d - 1)
                    (InputQueueIndex d 1) in
        FlushInputQueue_loop fuel'
          (match job with Some j => dispose true d1 j | None => d1 end)
      else d
  end.

Definition FlushInputQueue (d : Dispatcher) : Dispatcher :=
  FlushInputQueue_loop (Z.to_nat (input_queue_length_ d)) d.

(** *** Workers during a join *)

(** What happens next among the workers while the main thread waits in
    [JobHandle::Join]: the worker that holds the [k]-th in-flight job
    gets through the rest of [CompileNext] with it, or a worker calls
    [NextInput] and holds the job it is given. *)
Inductive WorkerStep :=
| Finish (k : nat)
| Take.

Definition worker_step (d : Dispatcher) (a : WorkerStep) : Dispatcher :=
  match a with
  | Finish k =>
      match in_flight_ d !! k with
      | Some j =>
          CompileNext (Some j) (set_in_flight d (delete k (in_flight_ d)))
      | None => d
      end
  | Take =>
      match NextInput d with
      | (Some j, d1) => set_in_flight d1 (in_flight_ d1 ++ [j])
      | (None, d1) => d1
      end
  end.

(** What the steps of the workers keep: the array and the capacity of
    the ring, the handle, the flag, the heap, and the disposals and handle
    calls of the trace. *)
Definition same_frame (d d' : Dispatcher) : Prop :=
  input_queue_ d' = input_queue_ d /\
  input_queue_capacity_ d' = input_queue_capacity_ d /\
  job_handle_ d' = job_handle_ d /\
  finalize_ d' = finalize_ d /\
  heap d' = heap d /\
  disposals (trace d') = disposals (trace d) /\
  handle_calls (trace d') = handle_calls (trace d).

(** Modelled from the spec: [JobHandle::Join] belongs to the platform,
    which is not among the sources; joining blocks until the queued and
    the in-flight jobs have finished, and the platform guarantees no
    order of completion among the workers.  [schedule] lists the steps
    the workers take in the order they happen to take them; the workers
    that hold a job after it complete [CompileNext] one after the other,
    and the joining thread, which contributes to the job, goes through
    [Run] for what is left of the queue. *)
Definition Join (schedule : list WorkerStep) (d : Dispatcher) : Dispatcher :=
  let d1 := foldl worker_step d schedule in
  let d2 := foldl (fun acc j => CompileNext (Some j) acc)
              (set_in_flight d1 []) (in_flight_ d1) in
  emit (Run (fun _ => false) d2) (EvJoin (job_handle_ d)).

(** [PostJob] hands out the next handle. *)
Definition PostJob (d : Dispatcher) : Dispatcher :=
  let h := S (job_handle_ d) in
  emit (set_job_handle d h) (EvPostJob h).

(** [AwaitCompileTasks]. *)
Definition AwaitCompileTasks (schedule : list WorkerStep) (d : Dispatcher)
  : Dispatcher :=
  PostJob (Join schedule d).

(** [FlushQueues]; [schedule] is what the workers do while the blocking
    flush waits for them. *)
Definition FlushQueues (schedule : list WorkerStep)
    (blocking_behavior : BlockingBehavior)
    (restore_function_code : bool) (d : Dispatcher) : Dispatcher :=
  let d1 := FlushInputQueue d in
  let d2 := match blocking_behavior with
            | kBlock => AwaitCompileTasks schedule d1
            | kDontBlock => d1
            end in
  FlushOutputQueue restore_function_code d2.

(** [Flush]. *)
Definition Flush (schedule : list WorkerStep)
    (blocking_behavior : BlockingBehavior) (d : Dispatcher) : Dispatcher :=
  FlushQueues schedule blocking_behavior true d.

(** [Stop]. *)
Definition Stop (schedule : list WorkerStep) (d : Dispatcher) : Dispatcher :=
  FlushQueues schedule kBlock false d.

(** One turn of the loop of [InstallOptimizedFunctions] on the job that
    was popped. *)
Definition install_one (d : Dispatcher) (job : Job) : Dispatcher :=
  if negb (is_osr job)
     && HasAvailableCodeKind (heap d) (closure job) (code_kind job)
  then dispose false d job
  else emit (set_heap d (FinalizeTurbofanCompilationJob job (heap d)))
            (EvFinalize job).

(** [InstallOptimizedFunctions]. *)
Fixpoint InstallOptimizedFunctions_loop (pending : list Job) (d : Dispatcher)
  : Dispatcher :=
  match pending with
  | [] => d
  | job :: rest =>
      InstallOptimizedFunctions_loop rest (install_one (set_output d rest) job)
  end.

Definition InstallOptimizedFunctions (d : Dispatcher) : Dispatcher :=
  InstallOptimizedFunctions_loop (output_queue_ d) d.

(** The constructor: an empty ring of the configured capacity. *)
Definition new_dispatcher (capacity : Z) (hp : Heap) : Dispatcher :=
  mkDispatcher (replicate (Z.to_nat capacity) None) capacity 0 0 [] 0%nat true
    [] hp [EvPostJob 0%nat].

(** The ring buffer is in a sound state: the fields are within their
    bounds and the occupied window holds jobs. *)
Definition ring_ok (d : Dispatcher) : Prop :=
  0 < input_queue_capacity_ d /\
  length (input_queue_ d) = Z.to_nat (input_queue_capacity_ d) /\
  0 <= input_queue_shift_ d < input_queue_capacity_ d /\
  0 <= input_queue_length_ d <= input_queue_capacity_ d.

(** The jobs of the occupied window, front first. *)
Definition pending_from (d : Dispatcher) (n : nat) : list (option Job) :=
  map (fun i => slot (input_queue_ d) (InputQueueIndex d (Z.of_nat i)))
      (seq 0 n).

Definition pending (d : Dispatcher) : list (option Job) :=
  pending_from d (Z.to_nat (input_queue_length_ d)).

(** [n] calls of [NextInput], with what each returned. *)
Fixpoint NextInput_n (n : nat) (d : Dispatcher)
  : list (option Job) * Dispatcher :=
  match n with
  | O => ([], d)
  | S n' =>
      let '(j, d1) := NextInput d in
      let '(js, d2) := NextInput_n n' d1 in
      (j :: js, d2)
  end.

(** The queue lengths seen before each of [n] calls of [NextInput]. *)
Fixpoint NextInput_lengths (n : nat) (d : Dispatcher) : list Z :=
  match n with
  | O => [input_queue_length_ d]
  | S n' => input_queue_length_ d :: NextInput_lengths n' (snd (NextInput d))
  end.

Definition QueueForOptimization_all (jobs : list Job) (d : Dispatcher)
  : Dispatcher :=
  foldl (fun acc j => QueueForOptimization j acc) d jobs.

(** The queue lengths seen while [jobs] are enqueued one after another. *)
Fixpoint QueueForOptimization_lengths (jobs : list Job) (d : Dispatcher)
  : list Z :=
  match jobs with
  | [] => [input_queue_length_ d]
  | j :: rest =>
      input_queue_length_ d
        :: QueueForOptimization_lengths rest (QueueForOptimization j d)
  end.

(** *** The input queue under interleaved use *)

(** A use of the input queue: the main thread enqueues a job, or a worker
    asks for the next one. *)
Inductive QueueOp :=
| OpQueueForOptimization (job : Job)
| OpNextInput.

(** The operations in order, with the answer of each [NextInput]. *)
Fixpoint run_ops (ops : list QueueOp) (d : Dispatcher)
  : list (option Job) * Dispatcher :=
  match ops with
  | [] => ([], d)
  | OpQueueForOptimization job :: rest =>
      run_ops rest (QueueForOptimization job d)
  | OpNextInput :: rest =>
      let '(j, d1) := NextInput d in
      let '(js, d2) := run_ops rest d1 in
      (j :: js, d2)
  end.

(** The reference behaviour: a first-in first-out list of jobs. *)
Fixpoint fifo_ops (ops : list QueueOp) (q : list Job)
  : list (option Job) * list Job :=
  match ops with
  | [] => ([], q)
  | OpQueueForOptimization job :: rest => fifo_ops rest (q ++ [job])
  | OpNextInput :: rest =>
      match q with
      | [] => let '(js, q') := fifo_ops rest [] in (None :: js, q')
      | j :: q1 => let '(js, q') := fifo_ops rest q1 in (Some j :: js, q')
      end
  end.

(** The operations never enqueue into a queue that holds [capacity]
    jobs ([DCHECK_LT(input_queue_length_, input_queue_capacity_)]). *)
Fixpoint within_capacity (capacity : nat) (ops : list QueueOp) (len : nat)
  : bool :=
  match ops with
  | [] => true
  | OpQueueForOptimization _ :: rest =>
      Nat.ltb len capacity && within_capacity capacity rest (S len)
  | OpNextInput :: rest => within_capacity capacity rest (Nat.pred len)
  end.

(** The job an event is about. *)
Definition event_job (e : Event) : option Job :=
  match e with
  | EvDispose j _ | EvFinalize j => Some j
  | _ => None
  end.

End Dispatcher.
End Turbofan.

(** ** The concurrent Maglev dispatcher *)

Module Maglev.

(** Modelled from the spec: [LockedQueue], the type of both queues, is not
    among the sources; it is the thread-safe FIFO of the data model, with
    [Enqueue] at the back, [Dequeue] from the front answering whether it
    found a job, [IsEmpty] and [size]. *)
Definition QueueT := list Job.

Definition IsEmpty (q : QueueT) : bool :=
  match q with [] => true | _ => false end.

Definition Enqueue (j : Job) (q : QueueT) : QueueT := q ++ [j].

Definition Dequeue (q : QueueT) : option Job * QueueT :=
  match q with
  | [] => (None, [])
  | j :: rest => (Some j, rest)
  end.

Definition size (q : QueueT) : Z := Z.of_nat (length q).

(** The fields of [MaglevConcurrentDispatcher]; [in_flight_] and [trace]
    are as for the optimizing dispatcher, [destroyed] lists the jobs whose
    owning pointer went out of scope. *)
Record Dispatcher := mkDispatcher {
  incoming_queue_ : QueueT;
  outgoing_queue_ : QueueT;
  job_handle_ : JobHandle;
  in_flight_ : list Job;
  destroyed : list Job;
  trace : list Event
}.

Definition emit (d : Dispatcher) (e : Event) : Dispatcher :=
  mkDispatcher (incoming_queue_ d) (outgoing_queue_ d) (job_handle_ d)
    (in_flight_ d) (destroyed d) (trace d ++ [e]).

(** The body of the loop of [JobTask::Run] for the job it dequeued: the
    job is enqueued on the outgoing queue when its status is [SUCCEEDED]
    and destroyed at the end of the scope otherwise. *)
Definition Run_body (job : Job) (d : Dispatcher) : Dispatcher :=
  let status := ExecuteJob job in
  if Status_eqb status SUCCEEDED then
    mkDispatcher (incoming_queue_ d) (Enqueue job (outgoing_queue_ d))
      (job_handle_ d) (in_flight_ d) (destroyed d) (trace d)
  else
    mkDispatcher (incoming_queue_ d) (outgoing_queue_ d)
      (job_handle_ d) (in_flight_ d) (destroyed d ++ [job]) (trace d).

(** [JobTask::Run]: [while (!incoming_queue()->IsEmpty() &&
    !delegate->ShouldYield())]; the recursion is on the incoming queue,
    which loses its front in every turn. *)
Fixpoint Run_loop (incoming : QueueT) (delegate : nat -> bool) (calls : nat)
    (d : Dispatcher) : Dispatcher :=
  match incoming with
  | [] => d
  | job :: rest =>
      if delegate calls then d
      else
        Run_loop rest delegate (S calls)
          (Run_body job
             (mkDispatcher rest (outgoing_queue_ d) (job_handle_ d)
                (in_flight_ d) (destroyed d) (trace d)))
  end.

Definition Run (delegate : nat -> bool) (d : Dispatcher) : Dispatcher :=
  emit (Run_loop (incoming_queue_ d) delegate 0 d) EvRequestInstallMaglevCode.

(** [JobTask::GetMaxConcurrency]. *)
Definition GetMaxConcurrency (max_threads : Z) (d : Dispatcher)
    (worker_count : Z) : Z :=
  let num_tasks := wrap_size_t (size (incoming_queue_ d) + worker_count) in
  if 0 <? max_threads then Z.min max_threads num_tasks else num_tasks.

(** [EnqueueJob]. *)
Definition EnqueueJob (job : Job) (d : Dispatcher) : Dispatcher :=
  emit (mkDispatcher (Enqueue job (incoming_queue_ d)) (outgoing_queue_ d)
          (job_handle_ d) (in_flight_ d) (destroyed d) (trace d))
       (EvNotifyConcurrencyIncrease (job_handle_ d)).

(** The two draining loops of [Flush]: [while (!queue.IsEmpty())] with a
    [Dequeue] into an owning pointer that destroys the job at the end of
    the loop body. *)
Fixpoint drain_incoming (q : QueueT) (d : Dispatcher) : Dispatcher :=
  match q with
  | [] => d
  | job :: rest =>
      drain_incoming rest
        (mkDispatcher rest (outgoing_queue_ d) (job_handle_ d) (in_flight_ d)
           (destroyed d ++ [job]) (trace d))
  end.

Fixpoint drain_outgoing (q : QueueT) (d : Dispatcher) : Dispatcher :=
  match q with
  | [] => d
  | job :: rest =>
      drain_outgoing rest
        (mkDispatcher (incoming_queue_ d) rest (job_handle_ d) (in_flight_ d)
           (destroyed d ++ [job]) (trace d))
  end.

(** *** Workers during a join or a cancellation *)

(** What happens next among the workers while the main thread waits in
    [JobHandle::Join] or [JobHandle::Cancel]: the worker that holds the
    [k]-th in-flight job completes the body of the loop of [Run] with it
    and comes to the test of the loop, or a worker enters [Run] and comes
    to the test of the loop; [yield] is the answer [ShouldYield] has for
    it there. *)
Inductive WorkerStep :=
| Finish (k : nat) (yield : bool)
| Start (yield : bool).

Definition set_in_flight (d : Dispatcher) (l : list Job) : Dispatcher :=
  mkDispatcher (incoming_queue_ d) (outgoing_queue_ d) (job_handle_ d) l
    (destroyed d) (trace d).

(** The test of the loop of [JobTask::Run] and what follows it: with a
    job in the incoming queue and no request to yield the worker dequeues
    the job and holds it; otherwise it leaves the loop, and [Run] ends
    with [RequestInstallMaglevCode]. *)
Definition Run_next (yield : bool) (d : Dispatcher) : Dispatcher :=
  match incoming_queue_ d with
  | [] => emit d EvRequestInstallMaglevCode
  | job :: rest =>
      if yield then emit d EvRequestInstallMaglevCode
      else mkDispatcher rest (outgoing_queue_ d) (job_handle_ d)
             (in_flight_ d ++ [job]) (destroyed d) (trace d)
  end.

Definition worker_step (d : Dispatcher) (a : WorkerStep) : Dispatcher :=
  match a with
  | Finish k yield =>
      match in_flight_ d !! k with
      | Some j =>
          Run_next yield
            (Run_body j (set_in_flight d (delete k (in_flight_ d))))
      | None => d
      end
  | Start yield => Run_next yield d
  end.

(** The workers that hold a job complete the body of the loop with it
    and leave [Run], one after the other. *)
Definition finish_workers (d : Dispatcher) : Dispatcher :=
  foldl (fun acc j => emit (Run_body j acc) EvRequestInstallMaglevCode)
    (set_in_flight d []) (in_flight_ d).

(** After [Cancel] every worker is asked to yield. *)
Definition yielding (a : WorkerStep) : WorkerStep :=
  match a with
  | Finish k _ => Finish k true
  | Start _ => Start true
  end.

(** Modelled from the spec: [JobHandle::Cancel] belongs to the platform,
    which is not among the sources; cancelling asks every worker to
    yield and blocks until each has returned from [Run], a job in its
    Execute phase being completed first (there is no kill in the middle
    of it).  [schedule] lists the steps the workers take in the order
    they happen to take them; the workers that hold a job after it
    complete it and leave one after the other. *)
Definition Cancel (schedule : list WorkerStep) (d : Dispatcher) : Dispatcher :=
  let d1 := foldl (fun acc a => worker_step acc (yielding a)) d schedule in
  emit (finish_workers d1) (EvCancel (job_handle_ d)).

Definition PostJob (d : Dispatcher) : Dispatcher :=
  let h := S (job_handle_ d) in
  emit (mkDispatcher (incoming_queue_ d) (outgoing_queue_ d) h
          (in_flight_ d) (destroyed d) (trace d))
       (EvPostJob h).

(** [Flush]; [schedule] is what the workers do while the blocking flush
    waits for them. *)
Definition Flush (schedule : list WorkerStep) (behavior : BlockingBehavior)
    (d : Dispatcher) : Dispatcher :=
  let d1 := drain_incoming (incoming_queue_ d) d in
  let d2 := match behavior with
            | kBlock => PostJob (Cancel schedule d1)
            | kDontBlock => d1
            end in
  drain_outgoing (outgoing_queue_ d2) d2.

(** [FinalizeFinishedJobs]: the loop dequeues from the outgoing queue and
    hands each job to [Compiler::FinalizeMaglevCompilationJob]. *)
Fixpoint FinalizeFinishedJobs_loop (q : QueueT) (d : Dispatcher) : Dispatcher :=
  match q with
  | [] => d
  | job :: rest =>
      FinalizeFinishedJobs_loop rest
        (mkDispatcher (incoming_queue_ d) rest (job_handle_ d) (in_flight_ d)
           (destroyed d ++ [job]) (trace d ++ [EvFinalize job]))
  end.

Definition FinalizeFinishedJobs (d : Dispatcher) : Dispatcher :=
  FinalizeFinishedJobs_loop (outgoing_queue_ d) d.

(** Modelled from the spec: [JobHandle::Join] belongs to the platform,
    which is not among the sources; joining blocks until no job is queued
    or running, and the platform guarantees no order of completion among
    the workers.  [schedule] lists the steps the workers take in the
    order they happen to take them; the workers that hold a job after it
    complete it and leave one after the other, and the joining thread,
    which contributes to the job, goes through [Run] when jobs are left
    in the incoming queue. *)
Definition Join (schedule : list WorkerStep) (d : Dispatcher) : Dispatcher :=
  let d1 := finish_workers (foldl worker_step d schedule) in
  let d2 := if IsEmpty (incoming_queue_ d1) then d1
            else Run (fun _ => false) d1 in
  emit d2 (EvJoin (job_handle_ d)).

(** [AwaitCompileJobs]. *)
Definition AwaitCompileJobs (schedule : list WorkerStep) (d : Dispatcher)
  : Dispatcher :=
  PostJob (Join schedule d).

End Maglev.

(** ** The RISC-V instruction selector *)

Module Riscv.

(** [V8_TARGET_ARCH_RISCV64] or [V8_TARGET_ARCH_RISCV32]. *)
Inductive Arch := RISCV64 | RISCV32.

Definition arch_size_t_bits (a : Arch) : Z :=
  match a with RISCV64 => 64 | RISCV32 => 32 end.

Definition wrap_size (a : Arch) (x : Z) : Z := x mod 2 ^ arch_size_t_bits a.

Definition wrap32 (x : Z) : Z := x mod 2 ^ 32.

Definition int32_min : Z := - 2 ^ 31.

(** The operators of the graph that the selector looks at. *)
Inductive IrOpcode :=
| kDead
| kParameter
| kInt32Constant
| kInt64Constant
| kFloat32Constant
| kFloat64Constant
| kNumberConstant
| kCompressedHeapConstant
| kWord32And
| kWord32Shl
| kWord32Sar
| kWord32Equal
| kInt32LessThan
| kInt32LessThanOrEqual
| kUint32LessThan
| kUint32LessThanOrEqual
| kTruncateInt64ToInt32
| kSwitch.

Definition IrOpcode_eqb (a b : IrOpcode) : bool :=
  match a, b with
  | kDead, kDead | kParameter, kParameter | kInt32Constant, kInt32Constant
  | kInt64Constant, kInt64Constant | kFloat32Constant, kFloat32Constant
  | kFloat64Constant, kFloat64Constant | kNumberConstant, kNumberConstant
  | kCompressedHeapConstant, kCompressedHeapConstant
  | kWord32And, kWord32And | kWord32Shl, kWord32Shl | kWord32Sar, kWord32Sar
  | kWord32Equal, kWord32Equal | kInt32LessThan, kInt32LessThan
  | kInt32LessThanOrEqual, kInt32LessThanOrEqual
  | kUint32LessThan, kUint32LessThan
  | kUint32LessThanOrEqual, kUint32LessThanOrEqual
  | kTruncateInt64ToInt32, kTruncateInt64ToInt32 | kSwitch, kSwitch => true
  | _, _ => false
  end.

(** A node: its identity (the pointer), its operator, the parameter of the
    operator (the value of an integer constant, the bit pattern of a
    floating-point one) and its inputs. *)
Inductive Node := mkNode {
  id : nat;
  opcode : IrOpcode;
  param : Z;
  inputs : list Node
}.

Definition dead : Node := mkNode 0 kDead 0 [].

Definition InputAt (n : Node) (i : nat) : Node := nth i (inputs n) dead.

(** The architecture opcodes named by the selector. *)
Inductive ArchOpcode :=
| kArchNop
| kArchTableSwitch
| kArchBinarySearchSwitch
| kRiscvShl32
| kRiscvShr32
| kRiscvSar32
| kRiscvSub32
| kRiscvSignExtendByte
| kRiscvSignExtendShort
| kRiscvCmp
| kRiscvCmp32
| kRiscvCmpZero
| kRiscvTst32
| kRiscvTst64.

Definition InstructionCode := ArchOpcode.

Definition is_Tst64 (o : InstructionCode) : bool :=
  match o with kRiscvTst64 => true | _ => false end.

Definition is_Tst32 (o : InstructionCode) : bool :=
  match o with kRiscvTst32 => true | _ => false end.

(** The operand policies; a node stands for its virtual register and is
    named by its identity. *)
Inductive InstructionOperand :=
| DefineAsRegister (n : nat)
| UseRegister (n : nat)
| UseImmediate (n : nat)
| TempImmediate (v : Z)
| TempRegister.

Inductive FlagsCondition :=
| kEqual
| kNotEqual
| kSignedLessThan
| kSignedGreaterThanOrEqual
| kSignedLessThanOrEqual
| kSignedGreaterThan
| kUnsignedLessThan
| kUnsignedGreaterThanOrEqual
| kUnsignedLessThanOrEqual
| kUnsignedGreaterThan
| kOverflow
| kNotOverflow.

Inductive FlagsMode :=
| kFlags_none
| kFlags_branch
| kFlags_deoptimize
| kFlags_set
| kFlags_trap
| kFlags_select.

Record FlagsContinuation := mkCont {
  mode : FlagsMode;
  condition : FlagsCondition
}.

Definition IsSet (c : FlagsContinuation) : bool :=
  match mode c with kFlags_set => true | _ => false end.

(** Modelled from the spec: [CommuteFlagsCondition] and
    [FlagsContinuation::Commute] are declared with the instruction codes,
    which are not among the sources; commuting flips the direction of the
    comparison for swapped operands and leaves equality alone. *)
Definition CommuteFlagsCondition (c : FlagsCondition) : FlagsCondition :=
  match c with
  | kSignedLessThan => kSignedGreaterThan
  | kSignedGreaterThanOrEqual => kSignedLessThanOrEqual
  | kSignedLessThanOrEqual => kSignedGreaterThanOrEqual
  | kSignedGreaterThan => kSignedLessThan
  | kUnsignedLessThan => kUnsignedGreaterThan
  | kUnsignedGreaterThanOrEqual => kUnsignedLessThanOrEqual
  | kUnsignedLessThanOrEqual => kUnsignedGreaterThanOrEqual
  | kUnsignedGreaterThan => kUnsignedLessThan
  | kEqual | kNotEqual | kOverflow | kNotOverflow => c
  end.

Definition Commute (c : FlagsContinuation) : FlagsContinuation :=
  mkCont (mode c) (CommuteFlagsCondition (condition c)).

(** An emitted instruction. *)
Record Instruction := mkInstruction {
  instr_opcode : InstructionCode;
  instr_outputs : list InstructionOperand;
  instr_inputs : list InstructionOperand;
  instr_cont : option FlagsContinuation
}.

(** What the selector asks of the rest of the back end: the coverage
    query of the scheduler, the integer-constant test and the immediate
    ranges of the two RISC-V variants (declared in this header, defined
    outside), and the roots table behind compressed heap constants. *)
Class SelectorEnv := {
  arch : Arch;
  CanCover : Node -> Node -> bool;
  IsIntegerConstant : Node -> bool;
  GetIntegerConstantValue : Node -> Z;
  CanBeImmediateValue : Z -> InstructionCode -> bool;
  COMPRESS_POINTERS_BOOL : bool;
  builtin_without_static_roots : bool;
  root_index_of : Node -> option nat;
  IsReadOnly : nat -> bool;
  ReadOnlyRootPtr : nat -> Z
}.

Section Selector.
Context `{SelectorEnv}.

(** [RiscvOperandGeneratorT::CanBeImmediate(Node*, InstructionCode)]. *)
Definition CanBeImmediate (node : Node) (mode : InstructionCode) : bool :=
  if IrOpcode_eqb (opcode node) kCompressedHeapConstant then
    if negb COMPRESS_POINTERS_BOOL then false
    else if builtin_without_static_roots then false
    else
      match root_index_of node with
      | Some root_index =>
          if negb (IsReadOnly root_index) then false
          else CanBeImmediateValue (ReadOnlyRootPtr root_index) mode
      | None => false
      end
  else IsIntegerConstant node
       && CanBeImmediateValue (GetIntegerConstantValue node) mode.

(** [UseOperand]. *)
Definition UseOperand (node : Node) (opcode : InstructionCode)
  : InstructionOperand :=
  if CanBeImmediate node opcode then UseImmediate (id node)
  else UseRegister (id node).

Definition IsFloatConstant (node : Node) : bool :=
  IrOpcode_eqb (opcode node) kFloat32Constant
  || IrOpcode_eqb (opcode node) kFloat64Constant.

(** [UseRegisterOrImmediateZero]; a floating-point constant carries its
    bit pattern, which is zero for positive zero only. *)
Definition UseRegisterOrImmediateZero (node : Node) : InstructionOperand :=
  if (IsIntegerConstant node && (GetIntegerConstantValue node =? 0))
     || (IsFloatConstant node && (param node =? 0))
  then UseImmediate (id node)
  else UseRegister (id node).

(** Modelled from the spec: the node matchers ([Int32BinopMatcher],
    [NumberBinopMatcher]) are not among the sources.  A side of a binary
    node has a resolved value when it is a constant of the matcher's kind;
    the matcher of a commutative operator, and every matcher built with
    [allow_input_swap], puts a lone constant on the right. *)
Definition HasResolvedValue (n : Node) : bool :=
  IrOpcode_eqb (opcode n) kInt32Constant.

Definition ResolvedValue (n : Node) : Z := param n.

Definition Is (n : Node) (v : Z) : bool :=
  HasResolvedValue n && (ResolvedValue n =? v).

Definition IsInRange (n : Node) (lo hi : Z) : bool :=
  HasResolvedValue n && (lo <=? ResolvedValue n) && (ResolvedValue n <=? hi).

Definition IsCommutative (o : IrOpcode) : bool :=
  match o with
  | kWord32And | kWord32Equal => true
  | _ => false
  end.

Record BinopMatcher := mkMatcher { m_left : Node; m_right : Node }.

Definition PutConstantOnRight (m : BinopMatcher) : BinopMatcher :=
  if HasResolvedValue (m_left m) && negb (HasResolvedValue (m_right m))
  then mkMatcher (m_right m) (m_left m)
  else m.

Definition Int32BinopMatcher (node : Node) : BinopMatcher :=
  let m := mkMatcher (InputAt node 0) (InputAt node 1) in
  if IsCommutative (opcode node) then PutConstantOnRight m else m.

Definition Int32BinopMatcher_swap (node : Node) : BinopMatcher :=
  PutConstantOnRight (mkMatcher (InputAt node 0) (InputAt node 1)).

Definition HasResolvedNumber (n : Node) : bool :=
  IrOpcode_eqb (opcode n) kNumberConstant.

Definition NumberBinopMatcher_swap (node : Node) : BinopMatcher :=
  let m := mkMatcher (InputAt node 0) (InputAt node 1) in
  if HasResolvedNumber (m_left m) && negb (HasResolvedNumber (m_right m))
  then mkMatcher (m_right m) (m_left m)
  else m.

Definition IsZero (n : Node) : bool :=
  HasResolvedNumber n && (param n =? 0).

(** [VisitRRO]. *)
Definition VisitRRO (opcode : ArchOpcode) (node : Node) : list Instruction :=
  [mkInstruction opcode [DefineAsRegister (id node)]
     [UseRegister (id (InputAt node 0)); UseOperand (InputAt node 1) opcode]
     None].

(** [VisitCompare] and [VisitWordCompareZero]. *)
Definition VisitCompare (opcode : InstructionCode)
    (l r : InstructionOperand) (cont : FlagsContinuation) : Instruction :=
  mkInstruction opcode [] [l; r] (Some cont).

Definition VisitWordCompareZero (value : InstructionOperand)
    (cont : FlagsContinuation) : Instruction :=
  mkInstruction kRiscvCmpZero [] [value] (Some cont).

(** The test of the opcode that selects the first arm: both [Tst]
    opcodes on the 64-bit target, [kRiscvTst32] on the 32-bit one. *)
Definition is_Tst (opcode : InstructionCode) : bool :=
  match arch with
  | RISCV64 => is_Tst64 opcode || is_Tst32 opcode
  | RISCV32 => is_Tst32 opcode
  end.

(** The conditions of a comparison [left cond right] after whose
    commutation the RISC-V compare takes an immediate on the right
    (set-less-than and its negation, signed and unsigned). *)
Definition immediate_after_commute (c : FlagsCondition) : bool :=
  match c with
  | kSignedGreaterThan | kSignedLessThanOrEqual
  | kUnsignedGreaterThan | kUnsignedLessThanOrEqual => true
  | _ => false
  end.

(** The conditions after whose commutation both operands go to
    registers. *)
Definition register_after_commute (c : FlagsCondition) : bool :=
  match c with
  | kSignedLessThan | kSignedGreaterThanOrEqual
  | kUnsignedLessThan | kUnsignedGreaterThanOrEqual
  | kOverflow | kNotOverflow => true
  | _ => false
  end.

(** [VisitWordCompare]. *)
Definition VisitWordCompare (node : Node) (opcode : InstructionCode)
    (cont : FlagsContinuation) (commutative : bool) : Instruction :=
  let left0 := InputAt node 0 in
  let right0 := InputAt node 1 in
  let swap := negb (CanBeImmediate right0 opcode)
              && CanBeImmediate left0 opcode in
  let cont := if swap then Commute cont else cont in
  let left := if swap then right0 else left0 in
  let right := if swap then left0 else right0 in
  if CanBeImmediate right opcode then
    if is_Tst opcode then
      if IrOpcode_eqb (Riscv.opcode left) kTruncateInt64ToInt32 then
        VisitCompare opcode (UseRegister (id (InputAt left 0)))
          (UseImmediate (id right)) cont
      else
        VisitCompare opcode (UseRegister (id left)) (UseImmediate (id right))
          cont
    else
      match condition cont with
      | kEqual | kNotEqual =>
          if IsSet cont then
            VisitCompare opcode (UseRegister (id left))
              (UseImmediate (id right)) cont
          else
            let m := Int32BinopMatcher_swap node in
            let n := NumberBinopMatcher_swap node in
            if Is (m_right m) 0 || IsZero (m_right n) then
              VisitWordCompareZero (UseRegisterOrImmediateZero left) cont
            else
              VisitCompare opcode (UseRegister (id left))
                (UseRegister (id right)) cont
      | kSignedLessThan | kSignedGreaterThanOrEqual
      | kUnsignedLessThan | kUnsignedGreaterThanOrEqual =>
          let m := Int32BinopMatcher_swap node in
          if Is (m_right m) 0 then
            VisitWordCompareZero (UseRegisterOrImmediateZero left) cont
          else
            VisitCompare opcode (UseRegister (id left))
              (UseImmediate (id right)) cont
      | _ =>
          let m := Int32BinopMatcher_swap node in
          if Is (m_right m) 0 then
            VisitWordCompareZero (UseRegisterOrImmediateZero left) cont
          else
            VisitCompare opcode (UseRegister (id left))
              (UseRegister (id right)) cont
      end
  else
    VisitCompare opcode (UseRegister (id left)) (UseRegister (id right)) cont.

(** What [VisitSwitch] reads from [SwitchInfo]: two [size_t] counts and
    the least case value, an [int32_t]. *)
Record SwitchInfo := mkSwitchInfo {
  case_count : Z;
  value_range : Z;
  min_value : Z
}.

(** [enable_switch_jump_table_]. *)
Inductive EnableSwitchJumpTable :=
| kDisableSwitchJumpTable
| kEnableSwitchJumpTable.

Definition kMaxTableSwitchValueRange : Z := Z.shiftl 2 16.

(** The four costs of [VisitSwitch], in [size_t]. *)
Definition table_space_cost (sw : SwitchInfo) : Z :=
  wrap_size arch (10 + wrap_size arch (2 * value_range sw)).
Definition table_time_cost : Z := 3.
Definition lookup_space_cost (sw : SwitchInfo) : Z :=
  wrap_size arch (2 + wrap_size arch (2 * case_count sw)).
Definition lookup_time_cost (sw : SwitchInfo) : Z := case_count sw.

(** The condition under which [VisitSwitch] generates a table lookup. *)
Definition use_table_switch (sw : SwitchInfo) : bool :=
  (0 <? case_count sw)
  && (wrap_size arch (table_space_cost sw
                      + wrap_size arch (3 * table_time_cost))
      <=? wrap_size arch (lookup_space_cost sw
                          + wrap_size arch (3 * lookup_time_cost sw)))
  && (int32_min <? min_value sw)
  && (value_range sw <=? kMaxTableSwitchValueRange).

(** [VisitSwitch]; [EmitTableSwitch] and [EmitBinarySearchSwitch] each
    emit the instruction of their name on the operand they are given. *)
Definition VisitSwitch (enable_switch_jump_table_ : EnableSwitchJumpTable)
    (node : Node) (sw : SwitchInfo) : list Instruction :=
  let value_operand := UseRegister (id (InputAt node 0)) in
  let binary_search :=
    [mkInstruction kArchBinarySearchSwitch [] [value_operand] None] in
  match enable_switch_jump_table_ with
  | kEnableSwitchJumpTable =>
      if use_table_switch sw then
        if min_value sw =? 0 then
          [mkInstruction kArchTableSwitch [] [value_operand] None]
        else
          [mkInstruction kRiscvSub32 [TempRegister]
             [value_operand; TempImmediate (min_value sw)] None;
           mkInstruction kArchTableSwitch [] [TempRegister] None]
      else binary_search
  | kDisableSwitchJumpTable => binary_search
  end.

(** The instruction that ends the lowering of a switch. *)
Definition switch_opcode (l : list Instruction) : option InstructionCode :=
  option_map instr_opcode (last l).

(** Modelled from the spec: [base::bits::CountPopulation] and
    [base::bits::CountLeadingZeros32] are not among the sources; they
    count the set bits of a 32-bit word and its clear bits above the
    highest set one. *)
Fixpoint popcount_below (n : nat) (x : Z) : Z :=
  match n with
  | O => 0
  | S k => (if Z.testbit x (Z.of_nat k) then 1 else 0) + popcount_below k x
  end.

Definition CountPopulation (x : Z) : Z := popcount_below 32 x.

Fixpoint leading_zeros_below (n : nat) (x : Z) : Z :=
  match n with
  | O => 0
  | S k => if Z.testbit x (Z.of_nat k) then 0
           else 1 + leading_zeros_below k x
  end.

Definition CountLeadingZeros32 (x : Z) : Z := leading_zeros_below 32 x.

(** The shapes of the nodes the two shift patterns are made of. *)
Definition is_binop (n : Node) (op : IrOpcode) (l r : Node) : Prop :=
  opcode n = op /\ inputs n = [l; r].

Definition is_int32 (n : Node) (v : Z) : Prop :=
  opcode n = kInt32Constant /\ param n = v.

(** What [Word32Shl] and [Word32And] compute on 32-bit words. *)
Definition word32_shl (x k : Z) : Z := wrap32 (Z.shiftl x k).
Definition word32_and (x y : Z) : Z := Z.land (wrap32 x) (wrap32 y).

(** [VisitWord32Shl]. *)
Definition VisitWord32Shl (node : Node) : list Instruction :=
  let m := Int32BinopMatcher node in
  let fallback := VisitRRO kRiscvShl32 node in
  if IrOpcode_eqb (opcode (m_left m)) kWord32And
     && CanCover node (m_left m)
     && IsInRange (m_right m) 1 31 then
    let mleft := Int32BinopMatcher (m_left m) in
    if HasResolvedValue (m_right mleft) then
      let mask := wrap32 (ResolvedValue (m_right mleft)) in
      let mask_width := CountPopulation mask in
      let mask_msb := CountLeadingZeros32 mask in
      if negb (mask_width =? 0) && (wrap32 (mask_msb + mask_width) =? 32) then
        let shift := wrap32 (ResolvedValue (m_right m)) in
        if 32 <=? wrap32 (shift + mask_width) then
          [mkInstruction kRiscvShl32 [DefineAsRegister (id node)]
             [UseRegister (id (m_left mleft)); UseImmediate (id (m_right m))]
             None]
        else fallback
      else fallback
    else fallback
  else fallback.

(** [VisitWord32Sar]. *)
Definition VisitWord32Sar (node : Node) : list Instruction :=
  let m := Int32BinopMatcher node in
  let fallback := VisitRRO kRiscvSar32 node in
  if CanCover node (m_left m) then
    if IrOpcode_eqb (opcode (m_left m)) kWord32Shl then
      let mleft := Int32BinopMatcher (m_left m) in
      if HasResolvedValue (m_right m) && HasResolvedValue (m_right mleft) then
        let sar := wrap32 (ResolvedValue (m_right m)) in
        let shl := wrap32 (ResolvedValue (m_right mleft)) in
        if (sar =? shl) && (sar =? 16) then
          [mkInstruction kRiscvSignExtendShort [DefineAsRegister (id node)]
             [UseRegister (id (m_left mleft))] None]
        else if (sar =? shl) && (sar =? 24) then
          [mkInstruction kRiscvSignExtendByte [DefineAsRegister (id node)]
             [UseRegister (id (m_left mleft))] None]
        else if (sar =? shl) && (sar =? 32) then
          [mkInstruction kRiscvShl32 [DefineAsRegister (id node)]
             [UseRegister (id (m_left mleft)); TempImmediate 0] None]
        else fallback
      else fallback
    else fallback
  else fallback.

End Selector.

(** A selector environment to run the selector on: the 64-bit target, every
    node covered by its user, integer constants of both widths, and the
    12-bit signed immediate of the RISC-V compare and shift encodings. *)
Definition is_int12 (v : Z) : bool := (-2048 <=? v) && (v <=? 2047).

#[local] Instance example_env : SelectorEnv := {|
  arch := RISCV64;
  CanCover := fun _ _ => true;
  IsIntegerConstant := fun n =>
    IrOpcode_eqb (opcode n) kInt32Constant
    || IrOpcode_eqb (opcode n) kInt64Constant;
  GetIntegerConstantValue := param;
  CanBeImmediateValue := fun v _ => is_int12 v;
  COMPRESS_POINTERS_BOOL := false;
  builtin_without_static_roots := false;
  root_index_of := fun _ => None;
  IsReadOnly := fun _ => false;
  ReadOnlyRootPtr := fun _ => 0
|}.

Definition example_x : Node := mkNode 1 kParameter 0 [].
Definition example_const (i : nat) (v : Z) : Node :=
  mkNode i kInt32Constant v [].

(** [5 < x], a branch on signed less-than. *)
Definition example_less_than : Node :=
  mkNode 3 kInt32LessThan 0 [example_const 2 5; example_x].

(** [(x << 24) >> 24]. *)
Definition example_sar_shl : Node :=
  mkNode 5 kWord32Sar 0
    [mkNode 4 kWord32Shl 0 [example_x; example_const 2 24];
     example_const 3 24].

(** [(x & 0xFFFF0000) << 1]: the mask is a run of set bits that reaches
    the top bit. *)
Definition example_shl_top_mask : Node :=
  mkNode 5 kWord32Shl 0
    [mkNode 4 kWord32And 0 [example_x; example_const 2 0xFFFF0000];
     example_const 3 1].

(** [(x & 0xFFFF) << 16]: the mask is a run of set bits from bit 0 that
    the shift moves up to the top bit. *)
Definition example_shl_low_mask : Node :=
  mkNode 5 kWord32Shl 0
    [mkNode 4 kWord32And 0 [example_x; example_const 2 0xFFFF];
     example_const 3 16].

(** What [EmitPrepareResults] reads of a [PushParameter]: the node, which
    is absent for an alignment hole, and of the location whether it is a
    caller frame slot, its machine type and its size in pointers. *)
Inductive MachineType := Float32 | Float64 | OtherMachineType.

Record LinkageLocation := mkLinkageLocation {
  IsCallerFrameSlot : bool;
  GetType : MachineType;
  GetSizeInPointers : Z
}.

Record PushParameter := mkPushParameter {
  node : option Node;
  location : LinkageLocation
}.

(** What the selector does for a result: it marks the representation of a
    floating-point node, and emits a [kRiscvPeek] that defines the node
    from the immediate [reverse_slot]. *)
Inductive ResultAction :=
| MarkAsFloat32 (n : Node)
| MarkAsFloat64 (n : Node)
| EmitPeek (output : InstructionOperand) (reverse_slot : Z).

(** The value of an [int] after an addition. *)
Definition wrap_int (x : Z) : Z := (x + 2 ^ 31) mod 2 ^ 32 - 2 ^ 31.

(** The loop of [EmitPrepareResults], with its counter [reverse_slot]. *)
Fixpoint EmitPrepareResults_loop (results : list PushParameter)
    (reverse_slot : Z) : list ResultAction :=
  match results with
  | [] => []
  | output :: rest =>
      if negb (IsCallerFrameSlot (location output)) then
        EmitPrepareResults_loop rest reverse_slot
      else
        match node output with
        | Some n =>
            match GetType (location output) with
            | Float32 => [MarkAsFloat32 n]
            | Float64 => [MarkAsFloat64 n]
            | OtherMachineType => []
            end
            ++ [EmitPeek (DefineAsRegister (id n)) reverse_slot]
        | None => []
        end
        ++ EmitPrepareResults_loop rest
             (wrap_int (reverse_slot
                        + GetSizeInPointers (location output)))
  end.

(** [EmitPrepareResults]. *)
Definition EmitPrepareResults (results : list PushParameter)
  : list ResultAction :=
  EmitPrepareResults_loop results 1.

(** The slots that the emitted peeks read, in the order of emission. *)
Definition peeked_slots (actions : list ResultAction) : list Z :=
  omap (fun a => match a with
                 | EmitPeek _ reverse_slot => Some reverse_slot
                 | _ => None
                 end) actions.

(** The results that come back in caller frame slots. *)
Definition caller_frame_results (results : list PushParameter)
  : list PushParameter :=
  List.filter (fun output => IsCallerFrameSlot (location output)) results.

(** Two results on the stack around an alignment hole, between two
    results in registers. *)
Definition example_results : list PushParameter :=
  [mkPushParameter (Some example_x) (mkLinkageLocation false OtherMachineType 1);
   mkPushParameter (Some (mkNode 7 kParameter 0 []))
     (mkLinkageLocation true Float64 1);
   mkPushParameter None (mkLinkageLocation true OtherMachineType 1);
   mkPushParameter (Some (mkNode 8 kParameter 0 []))
     (mkLinkageLocation true OtherMachineType 1);
   mkPushParameter (Some (mkNode 9 kParameter 0 []))
     (mkLinkageLocation false OtherMachineType 1)].


End Riscv.

(** ** The bounds checks of Maglev on ARM64 *)

Module Arm64.

Definition wrap64 (x : Z) : Z := x mod 2 ^ 64.

(** The value of a 64-bit register read as a signed number. *)
Definition signed64 (x : Z) : Z := if x <? 2 ^ 63 then x else x - 2 ^ 64.

Definition Register := nat.

Inductive Condition :=
| eq | ne | hs | lo | mi | pl | vs | vc | hi | ls | ge | lt | gt | le.


Inductive DeoptimizeReason := kOutOfBounds | kWrongMap | kOverflow.

Inductive AbortReason := kUnexpectedValue | kOperandIsASmi.

Inductive InstanceType := JS_TYPED_ARRAY_TYPE | JS_DATA_VIEW_TYPE | OTHER_TYPE.

Definition InstanceType_eqb (a b : InstanceType) : bool :=
  match a, b with
  | JS_TYPED_ARRAY_TYPE, JS_TYPED_ARRAY_TYPE
  | JS_DATA_VIEW_TYPE, JS_DATA_VIEW_TYPE
  | OTHER_TYPE, OTHER_TYPE => true
  | _, _ => false
  end.

(** The fields of the receiver that the checks load. *)
Inductive FieldOffset := kRawByteLengthOffset.

Inductive Operand :=
| OpRegister (r : Register)
| OpShifted (r : Register) (lsl : Z)
| OpImmediate (v : Z).

(** The macro-assembler calls made by the two checks. *)
Inductive Instr :=
| AssertNotSmi (object : Register)
| IsObjectType (object : Register) (t : InstanceType)
| Assert (c : Condition) (reason : AbortReason)
| LoadBoundedSizeFromObject (dst object : Register) (offset : FieldOffset)
| Cmp (rn : Register) (op : Operand)
| Subs (rd rn : Register) (op : Operand)
| EmitEagerDeoptIf (c : Condition) (reason : DeoptimizeReason).









(** *** The machine the generated code runs on *)

Record Flags := mkFlags { flagN : bool; flagZ : bool; flagC : bool; flagV : bool }.

(** The receiver objects of the heap, as the checks see them. *)
Record HeapObject := mkHeapObject {
  is_smi : bool;
  instance_type : InstanceType;
  raw_byte_length : Z
}.

Record State := mkState {
  regs : Register -> Z;
  flags : Flags;
  objects : Z -> HeapObject
}.

Inductive Outcome :=
| Fallthrough (s : State)
| Deoptimized (reason : DeoptimizeReason)
| Aborted (reason : AbortReason).

Definition set_reg (s : State) (r : Register) (v : Z) : State :=
  mkState (fun r' => if Nat.eqb r' r then v else regs s r') (flags s)
    (objects s).

Definition set_flags (s : State) (f : Flags) : State :=
  mkState (regs s) f (objects s).

Definition operand_value (s : State) (op : Operand) : Z :=
  match op with
  | OpRegister r => regs s r
  | OpShifted r k => wrap64 (Z.shiftl (regs s r) k)
  | OpImmediate v => wrap64 v
  end.

(** The flags of a 64-bit subtraction [a - b]. *)
Definition sub_flags (a b : Z) : Flags :=
  let result := wrap64 (a - b) in
  let exact := signed64 a - signed64 b in
  mkFlags (2 ^ 63 <=? result) (result =? 0) (b <=? a)
    (negb ((- 2 ^ 63 <=? exact) && (exact <? 2 ^ 63))).

Definition holds (c : Condition) (f : Flags) : bool :=
  match c with
  | eq => flagZ f
  | ne => negb (flagZ f)
  | hs => flagC f
  | lo => negb (flagC f)
  | mi => flagN f
  | pl => negb (flagN f)
  | vs => flagV f
  | vc => negb (flagV f)
  | hi => flagC f && negb (flagZ f)
  | ls => negb (flagC f) || flagZ f
  | ge => Bool.eqb (flagN f) (flagV f)
  | lt => negb (Bool.eqb (flagN f) (flagV f))
  | gt => negb (flagZ f) && Bool.eqb (flagN f) (flagV f)
  | le => flagZ f || negb (Bool.eqb (flagN f) (flagV f))
  end.

Definition step (i : Instr) (s : State) : Outcome :=
  match i with
  | AssertNotSmi object =>
      if is_smi (objects s (regs s object)) then Aborted kOperandIsASmi
      else Fallthrough s
  | IsObjectType object t =>
      let same := InstanceType_eqb (instance_type (objects s (regs s object))) t in
      Fallthrough (set_flags s (mkFlags false same same false))
  | Assert c reason =>
      if holds c (flags s) then Fallthrough s else Aborted reason
  | LoadBoundedSizeFromObject dst object _ =>
      Fallthrough (set_reg s dst (raw_byte_length (objects s (regs s object))))
  | Cmp rn op =>
      Fallthrough (set_flags s (sub_flags (regs s rn) (operand_value s op)))
  | Subs rd rn op =>
      let a := regs s rn in
      let b := operand_value s op in
      Fallthrough (set_flags (set_reg s rd (wrap64 (a - b))) (sub_flags a b))
  | EmitEagerDeoptIf c reason =>
      if holds c (flags s) then Deoptimized reason else Fallthrough s
  end.

Fixpoint run (code : list Instr) (s : State) : Outcome :=
  match code with
  | [] => Fallthrough s
  | i :: rest =>
      match step i s with
      | Fallthrough s' => run rest s'
      | stop => stop
      end
  end.

(** The registers the register allocator hands to the checks. *)
Definition r_object : Register := 0%nat.
Definition r_index : Register := 1%nat.

(** A state with the receiver at address 8, its byte length, and the
    index register. *)
Definition example_state (t : InstanceType) (byte_length index : Z) : State :=
  mkState (fun r => if Nat.eqb r r_object then 8
                    else if Nat.eqb r r_index then index else 0)
    (mkFlags false false false false)
    (fun _ => mkHeapObject false t byte_length).

End Arm64.

(** ** The ARM64 code of the Maglev [Int32] arithmetic nodes *)

Module Arm64Arith.

(** A general-purpose register under one of its two views: [W()] is the
    32-bit view and [X()] the 64-bit one of the same register code. *)
Record Register := mkRegister { code : nat; SizeInBits : Z }.

Definition W (r : Register) : Register := mkRegister (code r) 32.
Definition X (r : Register) : Register := mkRegister (code r) 64.

Definition Register_eqb (a b : Register) : bool :=
  Nat.eqb (code a) (code b) && (SizeInBits a =? SizeInBits b).

Inductive DeoptimizeReason := kOverflow | kNotInt32 | kDivisionByZero.

Definition kMinInt : Z := - 2 ^ 31.

(** A label of the node's own code, or the entry of an eager deopt. *)
Inductive Label :=
| mkLabel (n : nat)
| DeoptLabel (reason : DeoptimizeReason).

Definition GetDeoptLabel (reason : DeoptimizeReason) : Label :=
  DeoptLabel reason.

Definition Label_eqb (a b : Label) : bool :=
  match a, b with
  | mkLabel n, mkLabel m => Nat.eqb n m
  | DeoptLabel kOverflow, DeoptLabel kOverflow
  | DeoptLabel kNotInt32, DeoptLabel kNotInt32
  | DeoptLabel kDivisionByZero, DeoptLabel kDivisionByZero => true
  | _, _ => false
  end.

Inductive Operand :=
| OpRegister (r : Register)
| Immediate (v : Z)
| OperandSXTW (r : Register).

(** The macro-assembler calls made by the arithmetic nodes. *)
Inductive Instr :=
| Adds (rd rn : Register) (op : Operand)
| Subs (rd rn : Register) (op : Operand)
| Add (rd rn : Register) (op : Operand)
| Negs (rd : Register) (op : Operand)
| Neg (rd : Register) (op : Operand)
| Cmp (rn : Register) (op : Operand)
| Tst (rn : Register) (op : Operand)
| Smull (rd rn rm : Register)
| Sdiv (rd rn rm : Register)
| Udiv (rd rn rm : Register)
| Msub (rd rn rm ra : Register)
| Orr (rd rn rm : Register)
| And (rd rn rm : Register)
| Move (rd rm : Register)
| MoveImmediate (rd : Register) (v : Z)
| Cbz (rt : Register) (label : Label)
| CompareAndBranch (rn : Register) (op : Operand) (c : Arm64.Condition)
    (label : Label)
| JumpIf (c : Arm64.Condition) (label : Label)
| Jump (label : Label)
| Bind (label : Label)
| EmitEagerDeoptIf (c : Arm64.Condition) (reason : DeoptimizeReason)
| EmitEagerDeopt (reason : DeoptimizeReason).

(** The code of a node: instructions in line, and conditional jumps to
    deferred code, which is emitted out of line. *)
Inductive Code :=
| Plain (i : Instr)
| JumpToDeferredIf (c : Arm64.Condition) (deferred : list Instr).

(** [Int32NegateWithOverflow::GenerateCode]. *)
Definition Int32NegateWithOverflow_GenerateCode (value_input result : Register)
  : list Code :=
  let value := W value_input in
  let out := W result in
  let fail := GetDeoptLabel kOverflow in
  [Plain (Cbz value fail);
   Plain (Negs out (OpRegister value));
   Plain (EmitEagerDeoptIf Arm64.vs kOverflow)].

(** [Int32IncrementWithOverflow::GenerateCode]. *)
Definition Int32IncrementWithOverflow_GenerateCode
    (value_input result : Register) : list Code :=
  let value := W value_input in
  let out := W result in
  [Plain (Adds out value (Immediate 1));
   Plain (EmitEagerDeoptIf Arm64.vs kOverflow)].

(** [Int32DecrementWithOverflow::GenerateCode]. *)
Definition Int32DecrementWithOverflow_GenerateCode
    (value_input result : Register) : list Code :=
  let value := W value_input in
  let out := W result in
  [Plain (Subs out value (Immediate 1));
   Plain (EmitEagerDeoptIf Arm64.vs kOverflow)].

(** [Int32AddWithOverflow::GenerateCode]. *)
Definition Int32AddWithOverflow_GenerateCode
    (left_input right_input result : Register) : list Code :=
  let left := W left_input in
  let right := W right_input in
  let out := W result in
  [Plain (Adds out left (OpRegister right));
   Plain (EmitEagerDeoptIf Arm64.vs kOverflow)].

(** [Int32SubtractWithOverflow::GenerateCode]. *)
Definition Int32SubtractWithOverflow_GenerateCode
    (left_input right_input result : Register) : list Code :=
  let left := W left_input in
  let right := W right_input in
  let out := W result in
  [Plain (Subs out left (OpRegister right));
   Plain (EmitEagerDeoptIf Arm64.vs kOverflow)].

(** [Int32MultiplyWithOverflow::GenerateCode]; [scratch0] and [scratch1]
    are the registers that the scratch scope hands out first and second. *)
Definition Int32MultiplyWithOverflow_GenerateCode
    (left_input right_input result scratch0 scratch1 : Register) : list Code :=
  let left := W left_input in
  let right := W right_input in
  let out := W result in
  let out_alias_input := Register_eqb out left || Register_eqb out right in
  let res := if out_alias_input then scratch0 else X out in
  let temp := W (if out_alias_input then scratch1 else scratch0) in
  let end_ := mkLabel 0 in
  [Plain (Smull res left right);
   Plain (Cmp res (OperandSXTW (W res)));
   Plain (EmitEagerDeoptIf Arm64.ne kOverflow);
   Plain (CompareAndBranch res (Immediate 0) Arm64.ne end_);
   Plain (Orr temp left right);
   Plain (Cmp temp (Immediate 0));
   Plain (EmitEagerDeoptIf Arm64.lt kOverflow);
   Plain (Bind end_)]
  ++ (if out_alias_input then [Plain (Move out (W res))] else []).

(** [Int32DivideWithOverflow::GenerateCode]. *)
Definition Int32DivideWithOverflow_GenerateCode
    (left_input right_input result scratch0 scratch1 : Register) : list Code :=
  let left := W left_input in
  let right := W right_input in
  let out := W result in
  let done := mkLabel 0 in
  [Plain (Cmp right (Immediate 0));
   JumpToDeferredIf Arm64.le
     [EmitEagerDeoptIf Arm64.eq kNotInt32;
      Cmp left (Immediate 0);
      EmitEagerDeoptIf Arm64.eq kNotInt32;
      Cmp left (Immediate kMinInt);
      JumpIf Arm64.ne done;
      Cmp right (Immediate (-1));
      JumpIf Arm64.ne done;
      EmitEagerDeopt kNotInt32];
   Plain (Bind done)]
  ++ (let out_alias_input := Register_eqb out left || Register_eqb out right in
      let res := if out_alias_input then W scratch0 else out in
      let temp := W (if out_alias_input then scratch1 else scratch0) in
      [Plain (Sdiv res left right);
       Plain (Msub temp res right left);
       Plain (Cmp temp (Immediate 0));
       Plain (EmitEagerDeoptIf Arm64.ne kNotInt32);
       Plain (Move out res)]).

(** [Int32ModulusWithOverflow::GenerateCode]. *)
Definition Int32ModulusWithOverflow_GenerateCode
    (left_input right_input result scratch0 : Register) : list Code :=
  let lhs := W left_input in
  let rhs := W right_input in
  let out := W result in
  let deopt_reason := kDivisionByZero in
  if Register_eqb lhs rhs then
    [Plain (Tst lhs (OpRegister lhs));
     Plain (EmitEagerDeoptIf Arm64.mi deopt_reason);
     Plain (MoveImmediate result 0)]
  else
    let done := mkLabel 0 in
    let rhs_checked := mkLabel 1 in
    let rhs_not_power_of_2 := mkLabel 2 in
    let mask := W scratch0 in
    [Plain (Cmp rhs (Immediate 0));
     JumpToDeferredIf Arm64.le
       [Negs rhs (OpRegister rhs);
        EmitEagerDeoptIf Arm64.eq deopt_reason;
        Jump rhs_checked];
     Plain (Bind rhs_checked);
     Plain (Cmp lhs (Immediate 0));
     JumpToDeferredIf Arm64.lt
       (let res := W scratch0 in
        [Neg lhs (OpRegister lhs);
         Udiv res lhs rhs;
         Msub out res rhs lhs;
         Cmp out (Immediate 0);
         EmitEagerDeoptIf Arm64.eq deopt_reason;
         Neg out (OpRegister out);
         Jump done]);
     Plain (Add mask rhs (Immediate (-1)));
     Plain (Tst mask (OpRegister rhs));
     Plain (JumpIf Arm64.ne rhs_not_power_of_2);
     Plain (And out mask lhs);
     Plain (Jump done);
     Plain (Bind rhs_not_power_of_2)]
    ++ (let res := mask in
        [Plain (Udiv res lhs rhs);
         Plain (Msub out res rhs lhs);
         Plain (Bind done)]).

(** *** The machine the generated code runs on *)

(** Modelled from the spec: the macro assembler and the instruction set
    are not among the sources.  A register file of 64-bit registers, of
    which a [W] view reads the low 32 bits and writes them with the upper
    bits cleared; the flags of additions and subtractions of the width of
    the destination; signed and unsigned division, which give 0 for a
    zero divisor; forward jumps to labels bound later in the code. *)
Record State := mkState {
  regs : nat -> Z;
  flags : Arm64.Flags
}.

Inductive Outcome :=
| Done (s : State)
| Deoptimized (reason : DeoptimizeReason)
| Undefined.

Definition read (s : State) (r : Register) : Z :=
  regs s (code r) mod 2 ^ SizeInBits r.

Definition write (s : State) (r : Register) (v : Z) : State :=
  mkState (fun c => if Nat.eqb c (code r) then v mod 2 ^ SizeInBits r
                    else regs s c)
    (flags s).

Definition set_flags (s : State) (f : Arm64.Flags) : State :=
  mkState (regs s) f.

(** A [w]-bit pattern read as a signed number. *)
Definition signed (w : Z) (x : Z) : Z :=
  if x <? 2 ^ (w - 1) then x else x - 2 ^ w.

Definition operand_value (w : Z) (s : State) (op : Operand) : Z :=
  match op with
  | OpRegister r => read s r
  | Immediate v => v mod 2 ^ w
  | OperandSXTW r => signed 32 (read s (W r)) mod 2 ^ w
  end.

Definition in_signed_range (w : Z) (x : Z) : bool :=
  (- 2 ^ (w - 1) <=? x) && (x <? 2 ^ (w - 1)).

Definition add_flags (w : Z) (a b : Z) : Arm64.Flags :=
  let result := (a + b) mod 2 ^ w in
  Arm64.mkFlags (2 ^ (w - 1) <=? result) (result =? 0) (2 ^ w <=? a + b)
    (negb (in_signed_range w (signed w a + signed w b))).

Definition sub_flags (w : Z) (a b : Z) : Arm64.Flags :=
  let result := (a - b) mod 2 ^ w in
  Arm64.mkFlags (2 ^ (w - 1) <=? result) (result =? 0) (b <=? a)
    (negb (in_signed_range w (signed w a - signed w b))).

Definition logic_flags (w : Z) (result : Z) : Arm64.Flags :=
  Arm64.mkFlags (2 ^ (w - 1) <=? result) (result =? 0) false false.

(** What one instruction does: go on, branch, or leave the code. *)
Inductive Step :=
| Next (s : State)
| Goto (label : Label) (s : State)
| Leave (reason : DeoptimizeReason).

Definition branch (label : Label) (s : State) : Step :=
  match label with
  | DeoptLabel reason => Leave reason
  | mkLabel _ => Goto label s
  end.

Definition is_zero_immediate (op : Operand) : bool :=
  match op with Immediate 0 => true | _ => false end.

Definition exec (i : Instr) (s : State) : Step :=
  match i with
  | Adds rd rn op =>
      let w := SizeInBits rd in
      let a := read s rn in
      let b := operand_value w s op in
      Next (set_flags (write s rd (a + b)) (add_flags w a b))
  | Subs rd rn op =>
      let w := SizeInBits rd in
      let a := read s rn in
      let b := operand_value w s op in
      Next (set_flags (write s rd (a - b)) (sub_flags w a b))
  | Add rd rn op =>
      Next (write s rd (read s rn + operand_value (SizeInBits rd) s op))
  | Negs rd op =>
      let w := SizeInBits rd in
      let b := operand_value w s op in
      Next (set_flags (write s rd (0 - b)) (sub_flags w 0 b))
  | Neg rd op =>
      Next (write s rd (0 - operand_value (SizeInBits rd) s op))
  | Cmp rn op =>
      let w := SizeInBits rn in
      Next (set_flags s (sub_flags w (read s rn) (operand_value w s op)))
  | Tst rn op =>
      let w := SizeInBits rn in
      Next (set_flags s
              (logic_flags w (Z.land (read s rn) (operand_value w s op))))
  | Smull rd rn rm =>
      Next (write s rd (signed 32 (read s (W rn)) * signed 32 (read s (W rm))))
  | Sdiv rd rn rm =>
      let w := SizeInBits rd in
      Next (write s rd (Z.quot (signed w (read s rn)) (signed w (read s rm))))
  | Udiv rd rn rm =>
      Next (write s rd (read s rn / read s rm))
  | Msub rd rn rm ra =>
      Next (write s rd (read s ra - read s rn * read s rm))
  | Orr rd rn rm =>
      Next (write s rd (Z.lor (read s rn) (read s rm)))
  | And rd rn rm =>
      Next (write s rd (Z.land (read s rn) (read s rm)))
  | Move rd rm => Next (write s rd (read s rm))
  | MoveImmediate rd v => Next (write s rd v)
  | Cbz rt label =>
      if read s rt =? 0 then branch label s else Next s
  | CompareAndBranch rn op c label =>
      (* compare-with-zero branches test the register and leave the flags *)
      let w := SizeInBits rn in
      let f := sub_flags w (read s rn) (operand_value w s op) in
      let s' :=
        if is_zero_immediate op
           && match c with
              | Arm64.eq | Arm64.ne | Arm64.hi | Arm64.ls
              | Arm64.lt | Arm64.ge => true
              | _ => false
              end
        then s else set_flags s f in
      if Arm64.holds c f then branch label s' else Next s'
  | JumpIf c label =>
      if Arm64.holds c (flags s) then branch label s else Next s
  | Jump label => branch label s
  | Bind _ => Next s
  | EmitEagerDeoptIf c reason =>
      if Arm64.holds c (flags s) then Leave reason else Next s
  | EmitEagerDeopt reason => Leave reason
  end.

(** Deferred code runs until it jumps back or deoptimizes. *)
Fixpoint run_deferred (deferred : list Instr) (s : State) : option Step :=
  match deferred with
  | [] => None
  | i :: rest =>
      match exec i s with
      | Next s' => run_deferred rest s'
      | stop => Some stop
      end
  end.

(** Running in line, or skipping ahead to where a label is bound. *)
Inductive Mode := Running | Seeking (label : Label).

Fixpoint run (instrs : list Code) (m : Mode) (s : State) : Outcome :=
  match instrs with
  | [] => match m with Running => Done s | Seeking _ => Undefined end
  | c :: rest =>
      match m with
      | Seeking l =>
          match c with
          | Plain (Bind l') =>
              if Label_eqb l l' then run rest Running s
              else run rest (Seeking l) s
          | _ => run rest (Seeking l) s
          end
      | Running =>
          match c with
          | Plain i =>
              match exec i s with
              | Next s' => run rest Running s'
              | Goto l s' => run rest (Seeking l) s'
              | Leave reason => Deoptimized reason
              end
          | JumpToDeferredIf cond deferred =>
              if Arm64.holds cond (flags s) then
                match run_deferred deferred s with
                | Some (Goto l s') => run rest (Seeking l) s'
                | Some (Leave reason) => Deoptimized reason
                | Some (Next _) | None => Undefined
                end
              else run rest Running s
          end
      end
  end.

(** The value of a 32-bit register as an [int32_t]. *)
Definition int32_of (s : State) (r : Register) : Z := signed 32 (read s (W r)).

Definition is_int32 (x : Z) : Prop := - 2 ^ 31 <= x < 2 ^ 31.

(** Registers to run the code on: [x0], [x1], [x2] and the scratch
    registers [x16] and [x17]. *)
Definition x0 : Register := mkRegister 0 64.
Definition x1 : Register := mkRegister 1 64.
Definition x2 : Register := mkRegister 2 64.
Definition x16 : Register := mkRegister 16 64.
Definition x17 : Register := mkRegister 17 64.

(** A state with the given [int32_t] values in [w0] and [w1]. *)
Definition example_state (a b : Z) : State :=
  mkState (fun c => if Nat.eqb c 0 then a mod 2 ^ 32
                    else if Nat.eqb c 1 then b mod 2 ^ 32 else 0)
    (Arm64.mkFlags false false false false).

End Arm64Arith.

(** ** The frame set-up of the Maglev prologue on ARM *)

Module ArmPrologue.

Definition Register := nat.

(** Modelled from the spec: the register assignments and the frame
    constants of the ARM port are not among the sources; [sp] is r13,
    [fp] is r11, [ip] is r12, the context register is r7, the function
    register r1 and the argument count register r0; a pointer has 4
    bytes, and the fixed part of a standard frame below [fp] holds the
    context, the function and the argument count. *)
Definition r4 : Register := 4%nat.
Definition r8 : Register := 8%nat.
Definition ip : Register := 12%nat.
Definition sp : Register := 13%nat.
Definition fp : Register := 11%nat.
Definition kContextRegister : Register := 7%nat.
Definition kJSFunctionRegister : Register := 1%nat.
Definition kJavaScriptCallArgCountRegister : Register := 0%nat.
Definition kSystemPointerSize : Z := 4.
Definition kFixedFrameSizeFromFp : Z := 3 * kSystemPointerSize.

Definition wrap32 (x : Z) : Z := x mod 2 ^ 32.

Inductive SBit := SetCC | LeaveCC.

Inductive Condition := eq | kGreaterThan.

Inductive Label := entry_label | deferred_flags_need_processing | loop.

Definition Label_eqb (a b : Label) : bool :=
  match a, b with
  | entry_label, entry_label
  | deferred_flags_need_processing, deferred_flags_need_processing
  | loop, loop => true
  | _, _ => false
  end.

Inductive AbortReason := kOsrUnexpectedStackSize.

(** The assembler calls of [Prologue]. *)
Inductive Instr :=
| BailoutIfDeoptimized
| bind (l : Label)
| MoveFeedbackVector (dst : Register)
| LoadFeedbackVectorFlagsAndJumpIfNeedsProcessing
    (flags feedback_vector : Register) (target : Label)
| add (rd rn : Register) (imm : Z) (s : SBit)
| cmp (rn rm : Register)
| Assert (c : Condition) (reason : AbortReason)
| Move (rd : Register) (imm : Z)
| Push (r : Register)
| sub (rd rn : Register) (imm : Z) (s : SBit)
| b (c : Condition) (l : Label)
| EnterFrame.

(** What [Prologue] reads of the graph, each a [uint32_t] or a flag. *)
Record Graph := mkGraph {
  is_osr : bool;
  has_recursive_calls : bool;
  tagged_stack_slots : Z;
  untagged_stack_slots : Z;
  min_maglev_stackslots_for_unoptimized_frame_size : Z
}.

Record Flags := mkFlags {
  turbofan : bool;
  maglev_assert_stack_size : bool;
  debug_code : bool
}.

Definition kLoopUnrollSize : Z := 8.

(** The value of an [int] initialized from a [uint32_t]. *)
Definition wrap_int (x : Z) : Z := (x + 2 ^ 31) mod 2 ^ 32 - 2 ^ 31.

(** The block of [Prologue] that initializes the stack slots of a frame
    that is not entered by OSR: the tagged slots are pushed as zeros,
    unrolled or in a loop of [kLoopUnrollSize] pushes, and the untagged
    ones are reserved; [scratch] and [unroll_counter] are the registers
    acquired from the scratch scope. *)
Definition Prologue_InitializeStackSlots (graph : Graph)
    (scratch unroll_counter : Register) : list Instr :=
  (if 0 <? tagged_stack_slots graph then
     [Move scratch 0]
     ++ (let tagged_slots := wrap_int (tagged_stack_slots graph) in
         if tagged_slots <? kLoopUnrollSize then
           replicate (Z.to_nat tagged_slots) (Push scratch)
         else
           let first_slots := Z.rem tagged_slots kLoopUnrollSize in
           replicate (Z.to_nat first_slots) (Push scratch)
           ++ [Move unroll_counter (Z.quot tagged_slots kLoopUnrollSize);
               bind loop]
           ++ replicate (Z.to_nat kLoopUnrollSize) (Push scratch)
           ++ [sub unroll_counter unroll_counter 1 SetCC;
               b kGreaterThan loop])
   else [])
  ++ (if 0 <? untagged_stack_slots graph then
        [sub sp sp (wrap32 (untagged_stack_slots graph * kSystemPointerSize))
           LeaveCC]
      else []).

(** The block of [Prologue] for a frame entered by OSR; a failed [CHECK]
    gives no code. *)
Definition Prologue_GrowFrameForOSR (flags : Flags) (graph : Graph)
    (scratch : Register) : option (list Instr) :=
  let source_frame_size :=
    min_maglev_stackslots_for_unoptimized_frame_size graph in
  let assert_stack_size :=
    if maglev_assert_stack_size flags && debug_code flags then
      [add scratch sp
         (wrap32 (wrap32 (source_frame_size * kSystemPointerSize)
                  + kFixedFrameSizeFromFp)) SetCC;
       cmp scratch fp;
       Assert eq kOsrUnexpectedStackSize]
    else [] in
  let target_frame_size :=
    wrap32 (tagged_stack_slots graph + untagged_stack_slots graph) in
  if negb (source_frame_size <=? target_frame_size) then None
  else if source_frame_size <? target_frame_size then
    let additional_tagged :=
      if source_frame_size <? tagged_stack_slots graph
      then wrap32 (tagged_stack_slots graph - source_frame_size)
      else 0 in
    let size_so_far := wrap32 (source_frame_size + additional_tagged) in
    if negb (size_so_far <=? target_frame_size) then None
    else
      Some (assert_stack_size
            ++ (if negb (additional_tagged =? 0) then [Move scratch 0] else [])
            ++ replicate (Z.to_nat additional_tagged) (Push scratch)
            ++ (if size_so_far <? target_frame_size then
                  [sub sp sp
                     (wrap32 (wrap32 (target_frame_size - size_so_far)
                              * kSystemPointerSize)) LeaveCC]
                else []))
  else Some assert_stack_size.

(** Modelled from the spec: the scratch scope is not among the sources;
    with r4 and r8 included it hands out r4, then r8, then [ip]. *)
Definition temps : list Register := [r4; r8; ip].

(** [MaglevAssembler::Prologue]. *)
Definition Prologue (flags : Flags) (graph : Graph) : option (list Instr) :=
  if is_osr graph && has_recursive_calls graph then None
  else
    let head :=
      (if negb (is_osr graph) then [BailoutIfDeoptimized] else [])
      ++ (if has_recursive_calls graph then [bind entry_label] else [])
      ++ (if turbofan flags && negb (is_osr graph) then
            let flags_register := nth 0 temps ip in
            let feedback_vector := nth 1 temps ip in
            [MoveFeedbackVector feedback_vector;
             LoadFeedbackVectorFlagsAndJumpIfNeedsProcessing flags_register
               feedback_vector deferred_flags_need_processing]
          else []) in
    if is_osr graph then
      option_map (app head)
        (Prologue_GrowFrameForOSR flags graph (nth 0 temps ip))
    else
      Some (head
            ++ [EnterFrame;
                Push kContextRegister;
                Push kJSFunctionRegister;
                Push kJavaScriptCallArgCountRegister]
            ++ Prologue_InitializeStackSlots graph (nth 0 temps ip)
                 (nth 1 temps ip)).

(** *** The machine the frame set-up runs on *)

(** Modelled from the spec: the instruction set is not among the sources.
    Registers of 32 bits; a memory of words, of which a word that was
    never written is uninitialized; [Push] moves [sp] down a pointer and
    stores there; a failed [Assert] aborts.  The calls that leave the
    frame set-up (the bailout and the tiering check) and [EnterFrame]
    are not part of this machine. *)
Record State := mkState {
  regs : Register -> Z;
  mem : Z -> option Z;
  flags_ : Arm64.Flags
}.

Definition set_reg (s : State) (r : Register) (v : Z) : State :=
  mkState (fun r' => if Nat.eqb r' r then wrap32 v else regs s r') (mem s)
    (flags_ s).

Definition store (s : State) (a : Z) (v : Z) : State :=
  mkState (regs s) (fun a' => if a' =? a then Some v else mem s a')
    (flags_ s).

Definition set_flags (s : State) (f : Arm64.Flags) : State :=
  mkState (regs s) (mem s) f.

Definition holds (c : Condition) (f : Arm64.Flags) : bool :=
  match c with
  | eq => Arm64.holds Arm64.eq f
  | kGreaterThan => Arm64.holds Arm64.gt f
  end.

Definition with_flags (sbit : SBit) (f : Arm64.Flags) (s : State) : State :=
  match sbit with SetCC => set_flags s f | LeaveCC => s end.

Definition exec (i : Instr) (s : State) : option State :=
  match i with
  | bind _ => Some s
  | Move rd imm => Some (set_reg s rd imm)
  | Push r =>
      let sp' := wrap32 (regs s sp - kSystemPointerSize) in
      Some (set_reg (store s sp' (regs s r)) sp sp')
  | sub rd rn imm sbit =>
      let a := regs s rn in
      let v := wrap32 imm in
      Some (with_flags sbit (Arm64Arith.sub_flags 32 a v)
              (set_reg s rd (a - v)))
  | add rd rn imm sbit =>
      let a := regs s rn in
      let v := wrap32 imm in
      Some (with_flags sbit (Arm64Arith.add_flags 32 a v)
              (set_reg s rd (a + v)))
  | cmp rn rm =>
      Some (set_flags s (Arm64Arith.sub_flags 32 (regs s rn) (regs s rm)))
  | Assert c _ => if holds c (flags_ s) then Some s else None
  | b _ _ => Some s
  | BailoutIfDeoptimized | MoveFeedbackVector _
  | LoadFeedbackVectorFlagsAndJumpIfNeedsProcessing _ _ _
  | EnterFrame => None
  end.

(** The position after the [bind] of a label. *)
Fixpoint find_label (l : Label) (code : list Instr) : option nat :=
  match code with
  | [] => None
  | bind l' :: rest =>
      if Label_eqb l l' then Some 1%nat
      else option_map S (find_label l rest)
  | _ :: rest => option_map S (find_label l rest)
  end.

(** Running from the position [pc] until the end of the code. *)
Fixpoint run (fuel : nat) (code : list Instr) (pc : nat) (s : State)
  : option State :=
  match fuel with
  | O => None
  | S fuel' =>
      match nth_error code pc with
      | None => Some s
      | Some (b c l) =>
          if holds c (flags_ s) then
            match find_label l code with
            | Some pc' => run fuel' code pc' s
            | None => None
            end
          else run fuel' code (S pc) s
      | Some i =>
          match exec i s with
          | Some s' => run fuel' code (S pc) s'
          | None => None
          end
      end
  end.

(** A state with the stack pointer at [sp0]. *)
Definition example_state (sp0 : Z) : State :=
  mkState (fun r => if Nat.eqb r sp then sp0 else 0) (fun _ => None)
    (Arm64.mkFlags false false false false).

End ArmPrologue.

(** ** Deoptimization frames *)

Module Deopt.

Definition ValueNode := nat.

(** The four frame types with what [GetInputLocationsArraySize] reads of
    each: the size of the frame state of an interpreted frame for its
    unit, and the vectors of the other three. *)
Inductive FrameData :=
| kInterpretedFrame (frame_state_size : Z)
| kInlinedArgumentsFrame (arguments : list ValueNode)
| kConstructStubFrame (arguments_without_receiver : list ValueNode)
| kBuiltinContinuationFrame (parameters : list ValueNode).

Inductive DeoptFrame :=
| mkDeoptFrame (data : FrameData) (parent : option DeoptFrame).

Definition data (f : DeoptFrame) : FrameData :=
  match f with mkDeoptFrame d _ => d end.

Definition parent (f : DeoptFrame) : option DeoptFrame :=
  match f with mkDeoptFrame _ p => p end.

Definition kClosureSize : Z := 1.
Definition kReceiverSize : Z := 1.
Definition kContextSize : Z := 1.

Definition vector_size {A} (v : list A) : Z := Z.of_nat (length v).

(** The [do ... while (frame != nullptr)] loop of
    [GetInputLocationsArraySize], with its accumulator [size]. *)
Fixpoint GetInputLocationsArraySize_loop (frame : DeoptFrame) (size : Z) : Z :=
  match frame with
  | mkDeoptFrame d p =>
      let size :=
        match d with
        | kInterpretedFrame frame_state_size =>
            wrap_size_t (size + wrap_size_t (kClosureSize + frame_state_size))
        | kInlinedArgumentsFrame arguments =>
            wrap_size_t (size + wrap_size_t (kClosureSize + vector_size arguments))
        | kConstructStubFrame arguments_without_receiver =>
            wrap_size_t
              (size
               + wrap_size_t
                   (wrap_size_t
                      (kClosureSize + kReceiverSize
                       + vector_size arguments_without_receiver)
                    + kContextSize))
        | kBuiltinContinuationFrame parameters =>
            wrap_size_t (size + wrap_size_t (vector_size parameters + kContextSize))
        end in
      match p with
      | None => size
      | Some frame' => GetInputLocationsArraySize_loop frame' size
      end
  end.

Definition GetInputLocationsArraySize (top_frame : DeoptFrame) : Z :=
  GetInputLocationsArraySize_loop top_frame 0.

(** An input location: its operand and the id of its next use; the array
    from the zone is raw memory until the constructor has run. *)
Inductive InputLocation :=
| Uninitialised
| mkInputLocation (operand : option nat) (next_use_id : option nat).

Definition InputLocation_new : InputLocation := mkInputLocation None None.

Record DeoptInfo := mkDeoptInfo {
  top_frame_ : DeoptFrame;
  feedback_to_update_ : nat;
  input_locations_ : list InputLocation
}.

(** The initialising [for] loop of the constructor, from index [i]. *)
Fixpoint init_input_locations (fuel : nat) (i : Z) (n : Z)
    (a : list InputLocation) : list InputLocation :=
  match fuel with
  | O => a
  | S fuel' =>
      if i <? n then
        init_input_locations fuel' (wrap_size_t (i + 1)) n
          (<[Z.to_nat i := InputLocation_new]> a)
      else a
  end.

(** [DeoptInfo::DeoptInfo]. *)
Definition DeoptInfo_new (top_frame : DeoptFrame) (feedback_to_update : nat)
  : DeoptInfo :=
  let n := GetInputLocationsArraySize top_frame in
  mkDeoptInfo top_frame feedback_to_update
    (init_input_locations (Z.to_nat n) 0 n
       (replicate (Z.to_nat n) Uninitialised)).

(** *** The frame size of the specification *)

(** The frames from the top frame up through its parents. *)
Fixpoint frames (f : DeoptFrame) : list FrameData :=
  match f with
  | mkDeoptFrame d None => [d]
  | mkDeoptFrame d (Some p) => d :: frames p
  end.

(** The contribution of one frame, by frame type. *)
Definition spec_frame_size (d : FrameData) : Z :=
  match d with
  | kInterpretedFrame frame_state_size => 1 + frame_state_size
  | kInlinedArgumentsFrame arguments => 1 + Z.of_nat (length arguments)
  | kConstructStubFrame arguments_without_receiver =>
      1 + 1 + Z.of_nat (length arguments_without_receiver) + 1
  | kBuiltinContinuationFrame parameters => Z.of_nat (length parameters) + 1
  end.

(** The statically computed size: the sum over all frames. *)
Definition spec_input_locations_size (top_frame : DeoptFrame) : Z :=
  foldr Z.add 0 (map spec_frame_size (frames top_frame)).

(** Every interpreted frame of the chain has a frame state whose size is
    a [size_t]. *)
Definition frame_ok (d : FrameData) : Prop :=
  match d with
  | kInterpretedFrame frame_state_size => 0 <= frame_state_size
  | _ => True
  end.

(** An interpreted frame inlined into a construct stub below a builtin
    continuation. *)
Definition example_frame : DeoptFrame :=
  mkDeoptFrame (kInterpretedFrame 7)
    (Some (mkDeoptFrame (kInlinedArgumentsFrame [1; 2; 3]%nat)
       (Some (mkDeoptFrame (kConstructStubFrame [4; 5]%nat)
          (Some (mkDeoptFrame (kBuiltinContinuationFrame [6]%nat) None)))))).

(** *** The result registers of a lazy deopt *)

(** An interpreter register, by its index. *)
Record Register := mkRegister { index : Z }.

Definition Register_eqb (a b : Register) : bool := index a =? index b.

(** What [IsResultRegister] reads of a [LazyDeoptInfo]. *)
Record LazyDeoptInfo := mkLazyDeoptInfo {
  top_frame : DeoptFrame;
  result_location_ : Register;
  result_size : Z
}.

Definition is_construct_stub_frame (f : DeoptFrame) : bool :=
  match data f with
  | kConstructStubFrame _ => true
  | _ => false
  end.

(** The value of an [int] after an addition. *)
Definition wrap_int (x : Z) : Z := (x + 2 ^ 31) mod 2 ^ 32 - 2 ^ 31.

(** [LazyDeoptInfo::IsResultRegister]; the virtual accumulator is a
    register of the interpreter, declared outside the sources. *)
Definition IsResultRegister (virtual_accumulator : Register)
    (info : LazyDeoptInfo) (reg : Register) : bool :=
  if is_construct_stub_frame (top_frame info) then
    Register_eqb reg virtual_accumulator
  else if result_size info =? 1 then
    Register_eqb reg (result_location_ info)
  else if result_size info =? 0 then false
  else
    Register_eqb reg (result_location_ info)
    || Register_eqb reg
         (mkRegister (wrap_int (index (result_location_ info) + 1))).

End Deopt.

(** ** Concrete inputs *)

Module Examples.

Definition CodeKind_eqb (a b : CodeKind) : bool :=
  match a, b with
  | MAGLEV, MAGLEV | TURBOFAN, TURBOFAN => true
  | _, _ => false
  end.

(** A heap that lists, per function, the code kinds installed on it:
    finalizing a job that is not an OSR job installs its code kind on its
    function. *)
#[local] Instance example_compiler : CompilerEnv := {|
  Heap := list (nat * CodeKind);
  DisposeTurbofanCompilationJob := fun hp _ _ => hp;
  FinalizeTurbofanCompilationJob := fun j hp =>
    if is_osr j then hp else (closure j, code_kind j) :: hp;
  HasAvailableCodeKind := fun hp f k =>
    existsb (fun e => Nat.eqb (fst e) f && CodeKind_eqb (snd e) k) hp
|}.

Definition job_a : Job := mkJob 1 10 TURBOFAN false SUCCEEDED.
Definition job_b : Job := mkJob 2 11 TURBOFAN false SUCCEEDED.
Definition job_c : Job := mkJob 3 12 TURBOFAN false SUCCEEDED.
Definition job_failed : Job := mkJob 4 13 TURBOFAN false FAILED.
Definition job_osr : Job := mkJob 5 10 TURBOFAN true SUCCEEDED.

(** An optimizing dispatcher with a ring of four slots. *)
Definition turbofan0 : Turbofan.Dispatcher := Turbofan.new_dispatcher 4 [].

(** The same with one finished job waiting in the output queue. *)
Definition turbofan_with_output : Turbofan.Dispatcher :=
  Turbofan.set_output (Turbofan.QueueForOptimization job_a turbofan0) [job_b].

(** Function 10 has optimized code already; the output queue holds a job
    for it and an OSR job for it. *)
Definition turbofan_osr : Turbofan.Dispatcher :=
  Turbofan.set_heap (Turbofan.set_output turbofan0 [job_a; job_osr])
    [(10%nat, TURBOFAN)].

(** A Maglev dispatcher with nothing queued. *)
Definition maglev0 : Maglev.Dispatcher := Maglev.mkDispatcher [] [] 0%nat [] [] [].

Definition maglev_with_output : Maglev.Dispatcher :=
  Maglev.mkDispatcher [job_a] [job_b] 0%nat [] [] [].

(** A worker holds a job while one is pending and one is finished. *)
Definition turbofan_busy : Turbofan.Dispatcher :=
  Turbofan.set_in_flight turbofan_with_output [job_failed].

Definition maglev_busy : Maglev.Dispatcher :=
  Maglev.mkDispatcher [job_a; job_failed] [job_b] 0%nat [job_c] [] [].

(** An interleaving of the main thread and a worker on the input queue. *)
Definition example_ops : list Turbofan.QueueOp :=
  [Turbofan.OpQueueForOptimization job_a;
   Turbofan.OpQueueForOptimization job_b;
   Turbofan.OpNextInput;
   Turbofan.OpQueueForOptimization job_c;
   Turbofan.OpNextInput; Turbofan.OpNextInput; Turbofan.OpNextInput].

End Examples.

(** * Lemmas *)

(** ** The ring buffer of the optimizing dispatcher *)

Section TurbofanRing.
Context `{CompilerEnv}.
Import Turbofan.

Lemma rem_ring (x c : Z) :
  0 < c -> 0 <= x < 2 * c -> Z.rem x c = if x <? c then x else x - c.
Proof.
  intros Hc Hx. rewrite Z.rem_mod_nonneg by lia.
  destruct (x <? c) eqn:E.
  - apply Z.ltb_lt in E. apply Z.mod_small. lia.
  - apply Z.ltb_ge in E.
    replace x with ((x - c) + 1 * c) at 1 by lia.
    rewrite Z.mod_add by lia. apply Z.mod_small. lia.
Qed.

Lemma rem_ring_bounds (x c : Z) :
  0 < c -> 0 <= x < 2 * c -> 0 <= Z.rem x c < c.
Proof.
  intros Hc Hx. rewrite rem_ring by lia. destruct (x <? c) eqn:E.
  - apply Z.ltb_lt in E. lia.
  - apply Z.ltb_ge in E. lia.
Qed.

Lemma rem_ring_shift (i s c : Z) :
  0 < c -> 0 <= s < c -> 0 <= i -> i + 1 <= c ->
  Z.rem (i + Z.rem (1 + s) c) c = Z.rem (i + 1 + s) c.
Proof.
  intros Hc Hs Hi Hic.
  rewrite (rem_ring (1 + s)) by lia.
  rewrite (rem_ring (i + 1 + s)) by lia.
  destruct (1 + s <? c) eqn:E1.
  - apply Z.ltb_lt in E1. replace (i + (1 + s)) with (i + 1 + s) by lia.
    apply rem_ring; lia.
  - apply Z.ltb_ge in E1. rewrite rem_ring by lia.
    destruct (i + (1 + s - c) <? c) eqn:E2, (i + 1 + s <? c) eqn:E3;
      rewrite ?Z.ltb_lt, ?Z.ltb_ge in *; lia.
Qed.

Lemma rem_ring_inj (i j s c : Z) :
  0 < c -> 0 <= s < c -> 0 <= i < c -> 0 <= j < c ->
  Z.rem (i + s) c = Z.rem (j + s) c -> i = j.
Proof.
  intros Hc Hs Hi Hj. rewrite !rem_ring by lia.
  destruct (i + s <? c) eqn:E1, (j + s <? c) eqn:E2;
    rewrite ?Z.ltb_lt, ?Z.ltb_ge in *; lia.
Qed.

Lemma pending_from_S (d : Dispatcher) (n : nat) :
  pending_from d (S n) =
  pending_from d n ++ [slot (input_queue_ d) (InputQueueIndex d (Z.of_nat n))].
Proof.
  unfold pending_from. rewrite seq_S, map_app. reflexivity.
Qed.

Lemma pending_from_length (d : Dispatcher) (n : nat) :
  length (pending_from d n) = n.
Proof. unfold pending_from. rewrite length_map, length_seq. reflexivity. Qed.

(** Two dispatchers whose windows read the same slots have the same
    pending jobs. *)
Lemma pending_from_ext (d d' : Dispatcher) (n : nat) :
  (forall i : nat, (i < n)%nat ->
     slot (input_queue_ d) (InputQueueIndex d (Z.of_nat i)) =
     slot (input_queue_ d') (InputQueueIndex d' (Z.of_nat i))) ->
  pending_from d n = pending_from d' n.
Proof.
  intros Hext. unfold pending_from. apply map_ext_in.
  intros i Hi. apply in_seq in Hi. apply Hext. lia.
Qed.

Lemma pending_from_cons (d : Dispatcher) (n : nat) :
  pending_from d (S n) =
  slot (input_queue_ d) (InputQueueIndex d 0)
  :: map (fun i => slot (input_queue_ d) (InputQueueIndex d (Z.of_nat (S i))))
       (seq 0 n).
Proof.
  unfold pending_from. cbn [seq map]. rewrite <- seq_shift, map_map.
  reflexivity.
Qed.

(** Enqueueing keeps the ring sound and adds the job at the back. *)
Lemma QueueForOptimization_ring (j : Job) (d : Dispatcher) :
  ring_ok d -> input_queue_length_ d < input_queue_capacity_ d ->
  ring_ok (QueueForOptimization j d) /\
  input_queue_length_ (QueueForOptimization j d) = input_queue_length_ d + 1 /\
  pending (QueueForOptimization j d) = pending d ++ [Some j].
Proof.
  intros (Hc & Hlen & Hs & Hl) Hlt.
  split; [|split].
  - unfold ring_ok, QueueForOptimization; simpl.
    rewrite length_insert. lia.
  - reflexivity.
  - unfold pending. cbn [QueueForOptimization emit set_input input_queue_length_].
    replace (Z.to_nat (input_queue_length_ d + 1))
      with (S (Z.to_nat (input_queue_length_ d))) by lia.
    rewrite pending_from_S. f_equal.
    + apply pending_from_ext. intros i Hi.
      unfold QueueForOptimization, InputQueueIndex; simpl.
      set (k := Z.rem (Z.of_nat i + input_queue_shift_ d) (input_queue_capacity_ d)).
      set (k' := Z.rem (input_queue_length_ d + input_queue_shift_ d)
                   (input_queue_capacity_ d)).
      assert (0 <= k < input_queue_capacity_ d)
        by (apply rem_ring_bounds; lia).
      assert (0 <= k' < input_queue_capacity_ d)
        by (apply rem_ring_bounds; lia).
      assert (k <> k').
      { intros E. subst k k'. apply rem_ring_inj in E. all: lia. }
      unfold slot. destruct (k <? 0); [reflexivity|].
      rewrite list_lookup_insert_ne by lia. reflexivity.
    + f_equal. unfold QueueForOptimization, InputQueueIndex; simpl.
      rewrite Z2Nat.id by lia.
      set (k' := Z.rem _ _).
      assert (0 <= k' < input_queue_capacity_ d)
        by (apply rem_ring_bounds; lia).
      unfold slot. destruct (k' <? 0) eqn:E; [apply Z.ltb_lt in E; lia|].
      rewrite list_lookup_insert_eq by lia. reflexivity.
Qed.

(** Dequeueing from a non-empty ring returns the front job and keeps the
    rest in order. *)
Lemma NextInput_ring (d : Dispatcher) :
  ring_ok d -> 0 < input_queue_length_ d ->
  ring_ok (snd (NextInput d)) /\
  input_queue_length_ (snd (NextInput d)) = input_queue_length_ d - 1 /\
  pending d = fst (NextInput d) :: pending (snd (NextInput d)).
Proof.
  intros (Hc & Hlen & Hs & Hl) Hpos.
  unfold NextInput.
  destruct (input_queue_length_ d =? 0) eqn:E; [apply Z.eqb_eq in E; lia|].
  cbn [fst snd]. split; [|split].
  - unfold ring_ok; simpl. unfold InputQueueIndex.
    pose proof (rem_ring_bounds (1 + input_queue_shift_ d)
                  (input_queue_capacity_ d)). lia.
  - reflexivity.
  - unfold pending. cbn [set_input input_queue_length_].
    replace (Z.to_nat (input_queue_length_ d))
      with (S (Z.to_nat (input_queue_length_ d - 1))) by lia.
    rewrite pending_from_cons. f_equal.
    unfold pending_from. apply map_ext_in. intros i Hi. apply in_seq in Hi.
    unfold InputQueueIndex; simpl. f_equal.
    rewrite rem_ring_shift by lia. f_equal. lia.
Qed.

Lemma NextInput_empty (d : Dispatcher) :
  input_queue_length_ d = 0 -> NextInput d = (None, d).
Proof. intros E. unfold NextInput. rewrite E. reflexivity. Qed.

(** The length of the queue never goes below zero. *)
Lemma NextInput_length_nonneg (d : Dispatcher) :
  0 <= input_queue_length_ d -> 0 <= input_queue_length_ (snd (NextInput d)).
Proof.
  intros Hl. unfold NextInput.
  destruct (input_queue_length_ d =? 0) eqn:E; simpl; [lia|].
  apply Z.eqb_neq in E. lia.
Qed.

Lemma QueueForOptimization_length_nonneg (j : Job) (d : Dispatcher) :
  0 <= input_queue_length_ d ->
  0 <= input_queue_length_ (QueueForOptimization j d).
Proof. simpl. lia. Qed.

Lemma QueueForOptimization_all_ring (jobs : list Job) (d : Dispatcher) :
  ring_ok d ->
  input_queue_length_ d + Z.of_nat (length jobs) <= input_queue_capacity_ d ->
  ring_ok (QueueForOptimization_all jobs d) /\
  input_queue_length_ (QueueForOptimization_all jobs d)
    = input_queue_length_ d + Z.of_nat (length jobs) /\
  pending (QueueForOptimization_all jobs d) = pending d ++ map Some jobs /\
  Forall (fun n => 0 <= n) (QueueForOptimization_lengths jobs d).
Proof.
  revert d. induction jobs as [|j jobs IH]; intros d Hok Hcap.
  - simpl. rewrite app_nil_r.
    split; [exact Hok|]. split; [lia|]. split; [reflexivity|].
    constructor; [destruct Hok as (_ & _ & _ & ?); lia | constructor].
  - change (length (j :: jobs)) with (S (length jobs)) in Hcap.
    destruct (QueueForOptimization_ring j d Hok) as (Hok1 & Hl1 & Hp1); [lia|].
    destruct (IH (QueueForOptimization j d) Hok1) as (Hok2 & Hl2 & Hp2 & Hf2);
      [rewrite Hl1;
       change (input_queue_capacity_ (QueueForOptimization j d))
         with (input_queue_capacity_ d); lia|].
    change (QueueForOptimization_all (j :: jobs) d)
      with (QueueForOptimization_all jobs (QueueForOptimization j d)).
    split; [exact Hok2|]. split; [|split].
    + rewrite Hl2, Hl1. change (length (j :: jobs)) with (S (length jobs)). lia.
    + rewrite Hp2, Hp1, <- app_assoc. reflexivity.
    + simpl. constructor; [destruct Hok as (_ & _ & _ & ?); lia | exact Hf2].
Qed.

Lemma NextInput_n_ring (n : nat) (d : Dispatcher) :
  ring_ok d -> input_queue_length_ d = Z.of_nat n ->
  fst (NextInput_n n d) = pending d /\
  input_queue_length_ (snd (NextInput_n n d)) = 0 /\
  Forall (fun n => 0 <= n) (NextInput_lengths n d).
Proof.
  revert d. induction n as [|n IH]; intros d Hok Hl.
  - simpl. unfold pending. rewrite Hl. simpl.
    split; [reflexivity|]. split; [reflexivity|].
    constructor; [lia | constructor].
  - destruct (NextInput_ring d Hok) as (Hok1 & Hl1 & Hp1); [lia|].
    simpl. destruct (NextInput d) as [j d1] eqn:E. simpl in *.
    destruct (IH d1 Hok1) as (Hf & Hz & Hall); [lia|].
    destruct (NextInput_n n d1) as [js d2] eqn:E2. simpl in *.
    split; [|split].
    + rewrite Hp1, Hf. reflexivity.
    + exact Hz.
    + constructor; [lia | exact Hall].
Qed.

End TurbofanRing.

(** ** C8: the input queue is first-in first-out *)

(** C8.  Queue FIFO: from an empty, sound ring, any [jobs] that fit the
    capacity and are enqueued by [QueueForOptimization] with no dequeue in
    between come back from as many calls of [NextInput] in the order they
    were enqueued; the next call finds the queue empty; and the queue
    length read before and after each of these calls is never negative. *)
Theorem input_queue_fifo `{CompilerEnv} (d : Turbofan.Dispatcher)
    (jobs : list Job) :
  Turbofan.ring_ok d ->
  Turbofan.input_queue_length_ d = 0 ->
  Z.of_nat (length jobs) <= Turbofan.input_queue_capacity_ d ->
  let d1 := Turbofan.QueueForOptimization_all jobs d in
  let d2 := snd (Turbofan.NextInput_n (length jobs) d1) in
  fst (Turbofan.NextInput_n (length jobs) d1) = map Some jobs /\
  fst (Turbofan.NextInput d2) = None /\
  Forall (fun len => 0 <= len)
    (Turbofan.QueueForOptimization_lengths jobs d
     ++ Turbofan.NextInput_lengths (length jobs) d1).
Proof.
  intros Hok Hempty Hcap d1 d2.
  destruct (QueueForOptimization_all_ring jobs d Hok) as (Hok1 & Hl1 & Hp1 & Hf1);
    [lia|].
  destruct (NextInput_n_ring (length jobs) d1 Hok1) as (Hf & Hz & Hall).
  { subst d1. rewrite Hl1. lia. }
  split; [|split].
  - rewrite Hf. subst d1. rewrite Hp1. unfold Turbofan.pending at 1.
    rewrite Hempty. reflexivity.
  - subst d2. rewrite NextInput_empty by exact Hz. reflexivity.
  - apply Forall_app. split; assumption.
Qed.

Lemma input_queue_fifo_witness :
  fst (Turbofan.NextInput_n 3
         (Turbofan.QueueForOptimization_all
            [Examples.job_a; Examples.job_b; Examples.job_c]
            Examples.turbofan0))
  = [Some Examples.job_a; Some Examples.job_b; Some Examples.job_c].
Proof.
  refine (proj1 (input_queue_fifo Examples.turbofan0
            [Examples.job_a; Examples.job_b; Examples.job_c] _ _ _)).
  - unfold Turbofan.ring_ok. simpl. lia.
  - reflexivity.
  - simpl. lia.
Defined.

(** ** C2: the concurrency the dispatchers ask for *)

(** C2.  For a queue length and a worker count that are not negative and
    whose sum is a [size_t], [GetMaxConcurrency] of either dispatcher is
    the lesser of the configured maximum and queue length plus worker
    count when the maximum is positive, and queue length plus worker
    count when the maximum is zero. *)
Theorem GetMaxConcurrency_bound `{CompilerEnv} (dt : Turbofan.Dispatcher)
    (dm : Maglev.Dispatcher) (max_threads worker_count : Z) :
  0 <= Turbofan.InputQueueLength dt ->
  0 <= worker_count ->
  Turbofan.InputQueueLength dt + worker_count < size_t_mod ->
  Maglev.size (Maglev.incoming_queue_ dm) + worker_count < size_t_mod ->
  (0 < max_threads ->
   Turbofan.GetMaxConcurrency max_threads dt worker_count
     = Z.min max_threads (Turbofan.InputQueueLength dt + worker_count) /\
   Maglev.GetMaxConcurrency max_threads dm worker_count
     = Z.min max_threads
         (Maglev.size (Maglev.incoming_queue_ dm) + worker_count)) /\
  (max_threads = 0 ->
   Turbofan.GetMaxConcurrency max_threads dt worker_count
     = Turbofan.InputQueueLength dt + worker_count /\
   Maglev.GetMaxConcurrency max_threads dm worker_count
     = Maglev.size (Maglev.incoming_queue_ dm) + worker_count).
Proof.
  intros Hq Hw Ht Hm.
  assert (Hsz : 0 <= Maglev.size (Maglev.incoming_queue_ dm))
    by (unfold Maglev.size; lia).
  unfold Turbofan.GetMaxConcurrency, Maglev.GetMaxConcurrency, wrap_size_t.
  rewrite (Z.mod_small (Turbofan.InputQueueLength dt)) by lia.
  rewrite !Z.mod_small by lia.
  split.
  - intros Hpos. apply Z.ltb_lt in Hpos. rewrite Hpos. split; reflexivity.
  - intros ->. split; reflexivity.
Qed.

Lemma GetMaxConcurrency_bound_witness :
  Turbofan.GetMaxConcurrency 4
    (Turbofan.QueueForOptimization Examples.job_a Examples.turbofan0) 2 = 3
  /\ Maglev.GetMaxConcurrency 4 Examples.maglev_with_output 2 = 3.
Proof.
  refine (proj1 (GetMaxConcurrency_bound
                   (Turbofan.QueueForOptimization Examples.job_a
                      Examples.turbofan0)
                   Examples.maglev_with_output 4 2 _ _ _ _) _).
  all: vm_compute; congruence.
Defined.

(** ** C1: which jobs a worker pushes to the output queue *)

Lemma disposals_app (a b : list Event) :
  disposals (a ++ b) = disposals a ++ disposals b.
Proof. unfold disposals. apply omap_app. Qed.

Lemma handle_calls_app (a b : list Event) :
  handle_calls (a ++ b) = handle_calls a ++ handle_calls b.
Proof. unfold handle_calls. apply List.filter_app. Qed.

Section Workers.
Context `{CompilerEnv}.

(** [CompileNext] leaves the ring, the in-flight jobs, the handle and the
    heap alone and pushes its job. *)
Lemma CompileNext_frame (j : Job) (d : Turbofan.Dispatcher) :
  let d' := Turbofan.CompileNext (Some j) d in
  Turbofan.output_queue_ d' = Turbofan.output_queue_ d ++ [j] /\
  Turbofan.input_queue_ d' = Turbofan.input_queue_ d /\
  Turbofan.input_queue_capacity_ d' = Turbofan.input_queue_capacity_ d /\
  Turbofan.input_queue_length_ d' = Turbofan.input_queue_length_ d /\
  Turbofan.input_queue_shift_ d' = Turbofan.input_queue_shift_ d /\
  Turbofan.in_flight_ d' = Turbofan.in_flight_ d /\
  Turbofan.job_handle_ d' = Turbofan.job_handle_ d /\
  Turbofan.finalize_ d' = Turbofan.finalize_ d /\
  Turbofan.heap d' = Turbofan.heap d /\
  disposals (Turbofan.trace d') = disposals (Turbofan.trace d) /\
  handle_calls (Turbofan.trace d') = handle_calls (Turbofan.trace d).
Proof.
  destruct d as [q c l s o h f fl hp t].
  unfold Turbofan.CompileNext, Turbofan.set_output, Turbofan.emit.
  cbn [Turbofan.output_queue_ Turbofan.input_queue_
       Turbofan.input_queue_capacity_ Turbofan.input_queue_length_
       Turbofan.input_queue_shift_ Turbofan.in_flight_ Turbofan.job_handle_
       Turbofan.finalize_ Turbofan.heap Turbofan.trace].
  destruct f;
    cbn [Turbofan.output_queue_ Turbofan.input_queue_
         Turbofan.input_queue_capacity_ Turbofan.input_queue_length_
         Turbofan.input_queue_shift_ Turbofan.in_flight_ Turbofan.job_handle_
         Turbofan.finalize_ Turbofan.heap Turbofan.trace];
    rewrite ?disposals_app, ?handle_calls_app;
    cbn [disposals handle_calls omap List.filter];
    rewrite ?app_nil_r; repeat split; reflexivity.
Qed.

Lemma CompileNext_ring_ok (j : Job) (d : Turbofan.Dispatcher) :
  Turbofan.ring_ok d -> Turbofan.ring_ok (Turbofan.CompileNext (Some j) d).
Proof.
  destruct (CompileNext_frame j d) as (_ & Hq & Hc & Hl & Hs & _).
  unfold Turbofan.ring_ok. rewrite Hq, Hc, Hl, Hs. trivial.
Qed.

Lemma CompileNext_pending (j : Job) (d : Turbofan.Dispatcher) :
  Turbofan.pending (Turbofan.CompileNext (Some j) d) = Turbofan.pending d.
Proof.
  destruct (CompileNext_frame j d) as (_ & Hq & Hc & Hl & Hs & _).
  unfold Turbofan.pending. rewrite Hl.
  apply pending_from_ext. intros i _.
  unfold Turbofan.InputQueueIndex. rewrite Hq, Hc, Hs. reflexivity.
Qed.

Lemma NextInput_frame (d : Turbofan.Dispatcher) :
  let d1 := snd (Turbofan.NextInput d) in
  Turbofan.output_queue_ d1 = Turbofan.output_queue_ d /\
  Turbofan.in_flight_ d1 = Turbofan.in_flight_ d /\
  Turbofan.job_handle_ d1 = Turbofan.job_handle_ d /\
  Turbofan.finalize_ d1 = Turbofan.finalize_ d /\
  Turbofan.heap d1 = Turbofan.heap d /\
  Turbofan.trace d1 = Turbofan.trace d /\
  Turbofan.input_queue_capacity_ d1 = Turbofan.input_queue_capacity_ d.
Proof.
  unfold Turbofan.NextInput.
  destruct (Turbofan.input_queue_length_ d =? 0); cbn; auto 10.
Qed.

Lemma pending_jobs_length (d : Turbofan.Dispatcher) (js : list Job) :
  Turbofan.pending d = map Some js ->
  length js = Z.to_nat (Turbofan.input_queue_length_ d).
Proof.
  intros Hp. apply (f_equal (@length _)) in Hp.
  unfold Turbofan.pending in Hp.
  rewrite pending_from_length, length_map in Hp. symmetry. exact Hp.
Qed.

(** The loop of [CompileTask::Run] takes jobs from the front of the input
    queue until the delegate asks it to yield or the queue is empty, and
    pushes each of them, whatever its status. *)
Lemma Turbofan_Run_loop_pushes (fuel : nat) (delegate : nat -> bool)
    (calls : nat) (d : Turbofan.Dispatcher) (js : list Job) :
  Turbofan.ring_ok d ->
  Turbofan.pending d = map Some js ->
  (length js < fuel)%nat ->
  exists n : nat,
    let d' := Turbofan.Run_loop fuel delegate calls d in
    (n <= length js)%nat /\
    (forall i, (i < n)%nat -> delegate (calls + i)%nat = false) /\
    ((n < length js)%nat -> delegate (calls + n)%nat = true) /\
    Turbofan.pending d' = map Some (drop n js) /\
    Turbofan.output_queue_ d' = Turbofan.output_queue_ d ++ take n js /\
    Turbofan.ring_ok d'.
Proof.
  revert calls d js. induction fuel as [|fuel IH];
    intros calls d js Hok Hp Hfuel; [lia|].
  cbn [Turbofan.Run_loop]. cbn zeta.
  destruct (delegate calls) eqn:Hy.
  { exists 0%nat. rewrite Nat.add_0_r, drop_0, take_0, app_nil_r.
    split; [lia|]. split; [intros i Hi; lia|]. auto. }
  pose proof (pending_jobs_length d js Hp) as Hlen.
  destruct js as [|j js].
  { assert (E : Turbofan.input_queue_length_ d = 0)
      by (destruct Hok as (_ & _ & _ & ?); simpl in Hlen; lia).
    rewrite (NextInput_empty d E).
    exists 0%nat. rewrite drop_0, take_0, app_nil_r.
    split; [lia|]. split; [intros i Hi; lia|].
    split; [simpl; lia|]. auto. }
  assert (Hpos : 0 < Turbofan.input_queue_length_ d)
    by (simpl in Hlen; lia).
  destruct (NextInput_ring d Hok Hpos) as (Hok1 & Hl1 & Hp1).
  destruct (NextInput_frame d) as (Ho1 & _). cbn zeta in Ho1.
  destruct (Turbofan.NextInput d) as [j' d1]. cbn [fst snd] in *.
  rewrite Hp in Hp1. simpl in Hp1. injection Hp1 as Hj Hrest. subst j'.
  destruct (IH (S calls) (Turbofan.CompileNext (Some j) d1) js)
    as (n & Hn & Hfalse & Htrue & Hpend & Hout & Hok').
  - apply CompileNext_ring_ok. exact Hok1.
  - rewrite CompileNext_pending. symmetry. exact Hrest.
  - simpl in Hfuel. lia.
  - exists (S n). cbn zeta in *.
    split; [simpl; lia|].
    split.
    { intros i Hi. destruct i as [|i].
      - rewrite Nat.add_0_r. exact Hy.
      - replace (calls + S i)%nat with (S calls + i)%nat by lia.
        apply Hfalse. lia. }
    split.
    { intros Hlt. replace (calls + S n)%nat with (S calls + n)%nat by lia.
      apply Htrue. simpl in Hlt. lia. }
    split; [exact Hpend|].
    split; [|exact Hok'].
    rewrite Hout.
    destruct (CompileNext_frame j d1) as (Ho & _). cbn zeta in Ho.
    rewrite Ho, Ho1, <- app_assoc. reflexivity.
Qed.

(** The loop of [JobTask::Run] takes jobs from the front of the incoming
    queue until the delegate asks it to yield or the queue is empty,
    enqueues the jobs that succeeded and destroys the others. *)
Lemma Maglev_Run_loop_pushes (incoming : Maglev.QueueT)
    (delegate : nat -> bool) (calls : nat) (d : Maglev.Dispatcher) :
  Maglev.incoming_queue_ d = incoming ->
  exists n : nat,
    let d' := Maglev.Run_loop incoming delegate calls d in
    (n <= length incoming)%nat /\
    (forall i, (i < n)%nat -> delegate (calls + i)%nat = false) /\
    ((n < length incoming)%nat -> delegate (calls + n)%nat = true) /\
    Maglev.incoming_queue_ d' = drop n incoming /\
    Maglev.outgoing_queue_ d'
      = Maglev.outgoing_queue_ d ++ List.filter succeeded (take n incoming) /\
    Maglev.destroyed d'
      = Maglev.destroyed d
        ++ List.filter (fun j => negb (succeeded j)) (take n incoming).
Proof.
  revert calls d. induction incoming as [|job rest IH]; intros calls d Hin.
  - exists 0%nat. simpl. rewrite !app_nil_r.
    split; [lia|]. split; [intros i Hi; lia|]. split; [lia|]. auto.
  - cbn [Maglev.Run_loop]. destruct (delegate calls) eqn:Hy.
    + exists 0%nat. cbn zeta. rewrite Nat.add_0_r, drop_0, take_0.
      cbn [List.filter]. rewrite !app_nil_r.
      split; [lia|]. split; [intros i Hi; lia|]. auto.
    + destruct (IH (S calls)
                  (Maglev.Run_body job
                     (Maglev.mkDispatcher rest (Maglev.outgoing_queue_ d)
                        (Maglev.job_handle_ d) (Maglev.in_flight_ d)
                        (Maglev.destroyed d) (Maglev.trace d))))
        as (n & Hn & Hfalse & Htrue & Hinc & Hout & Hdes).
      { unfold Maglev.Run_body.
        destruct (Status_eqb (ExecuteJob job) SUCCEEDED); reflexivity. }
      exists (S n). cbn zeta in *. split; [simpl; lia|].
      split.
      { intros i Hi. destruct i as [|i].
        - rewrite Nat.add_0_r. exact Hy.
        - replace (calls + S i)%nat with (S calls + i)%nat by lia.
          apply Hfalse. lia. }
      split.
      { intros Hlt. replace (calls + S n)%nat with (S calls + n)%nat by lia.
        apply Htrue. simpl in Hlt. lia. }
      rewrite Hinc, Hout, Hdes. simpl take. simpl List.filter. simpl drop.
      split; [reflexivity|].
      unfold Maglev.Run_body, succeeded in *.
      destruct (Status_eqb (ExecuteJob job) SUCCEEDED) eqn:E; simpl.
      * unfold Maglev.Enqueue. rewrite <- app_assoc. simpl.
        split; reflexivity.
      * rewrite <- app_assoc. simpl. split; reflexivity.
Qed.

(** The loop of [CompileTask::Run] leaves the workers, the array of the
    ring, the handle and the flag alone, and disposes of nothing. *)
Lemma Run_loop_frame (fuel : nat) (delegate : nat -> bool) (calls : nat)
    (d : Turbofan.Dispatcher) :
  let d' := Turbofan.Run_loop fuel delegate calls d in
  Turbofan.in_flight_ d' = Turbofan.in_flight_ d /\
  Turbofan.input_queue_ d' = Turbofan.input_queue_ d /\
  Turbofan.input_queue_capacity_ d' = Turbofan.input_queue_capacity_ d /\
  Turbofan.job_handle_ d' = Turbofan.job_handle_ d /\
  Turbofan.finalize_ d' = Turbofan.finalize_ d /\
  disposals (Turbofan.trace d') = disposals (Turbofan.trace d) /\
  handle_calls (Turbofan.trace d') = handle_calls (Turbofan.trace d).
Proof.
  revert calls d. induction fuel as [|fuel IH]; intros calls d.
  - cbn. auto 10.
  - cbn [Turbofan.Run_loop]. cbn zeta.
    destruct (delegate calls); [auto 10|].
    destruct (NextInput_frame d) as (F1 & F2 & F3 & F4 & F5 & F6 & F7).
    assert (Fq : Turbofan.input_queue_ (snd (Turbofan.NextInput d))
                 = Turbofan.input_queue_ d).
    { unfold Turbofan.NextInput.
      destruct (Turbofan.input_queue_length_ d =? 0); reflexivity. }
    cbn zeta in *.
    destruct (Turbofan.NextInput d) as [[j|] d1]; cbn [fst snd] in *.
    + destruct (IH (S calls) (Turbofan.CompileNext (Some j) d1))
        as (I1 & I2 & I3 & I4 & I5 & I6 & I7).
      destruct (CompileNext_frame j d1)
        as (G1 & G2 & G3 & G4 & G5 & G6 & G7 & G8 & G9 & G10 & G11).
      cbn zeta in *.
      rewrite I1, I2, I3, I4, I5, I6, I7, G2, G3, G6, G7, G8, G10, G11,
        F2, F3, F4, F6, F7, Fq.
      auto 10.
    + rewrite F2, F3, F4, F6, F7, Fq. auto 10.
Qed.

End Workers.

(** C1 (as stated) fails for the optimizing dispatcher: a worker runs a
    job whose Execute phase fails, and the job is in the output queue. *)
Lemma failed_job_is_pushed :
  let d := Turbofan.Run (fun _ => false)
             (Turbofan.QueueForOptimization Examples.job_failed
                Examples.turbofan0) in
  ~ (In Examples.job_failed (Turbofan.output_queue_ d)
     <-> ExecuteJob Examples.job_failed = SUCCEEDED).
Proof.
  intros d [Hpushed _].
  assert (Hin : In Examples.job_failed (Turbofan.output_queue_ d))
    by (vm_compute; left; reflexivity).
  specialize (Hpushed Hin). discriminate Hpushed.
Qed.

(** C1 (amended).  A worker of the Maglev dispatcher takes jobs from the
    front of the incoming queue until it is asked to yield or the queue
    is empty, and enqueues on the outgoing queue exactly the jobs of them
    whose Execute phase succeeded, the others being destroyed; in one
    turn of its loop the job is enqueued if and only if it succeeded.  A
    worker of the optimizing dispatcher takes jobs from the front of the
    input queue until it is asked to yield or the queue is empty, and
    every job it has taken is pushed to the output queue, whatever the
    status of its Execute phase: the jobs that left the input queue are
    the jobs that reached the output queue. *)
Theorem worker_pushes `{CompilerEnv} (delegate : nat -> bool)
    (dm : Maglev.Dispatcher) (dt : Turbofan.Dispatcher) (js : list Job)
    (job : Job) :
  Turbofan.ring_ok dt ->
  Turbofan.pending dt = map Some js ->
  (exists n : nat,
     (n <= length (Maglev.incoming_queue_ dm))%nat /\
     (forall i, (i < n)%nat -> delegate i = false) /\
     ((n < length (Maglev.incoming_queue_ dm))%nat -> delegate n = true) /\
     Maglev.incoming_queue_ (Maglev.Run delegate dm)
       = drop n (Maglev.incoming_queue_ dm) /\
     Maglev.outgoing_queue_ (Maglev.Run delegate dm)
       = Maglev.outgoing_queue_ dm
         ++ List.filter succeeded (take n (Maglev.incoming_queue_ dm)) /\
     Maglev.destroyed (Maglev.Run delegate dm)
       = Maglev.destroyed dm
         ++ List.filter (fun j => negb (succeeded j))
              (take n (Maglev.incoming_queue_ dm))) /\
  (Maglev.outgoing_queue_ (Maglev.Run_body job dm)
     = Maglev.outgoing_queue_ dm ++ [job]
   <-> ExecuteJob job = SUCCEEDED) /\
  (ExecuteJob job = FAILED ->
   Maglev.outgoing_queue_ (Maglev.Run_body job dm) = Maglev.outgoing_queue_ dm) /\
  (exists n : nat,
     (n <= length js)%nat /\
     (forall i, (i < n)%nat -> delegate i = false) /\
     ((n < length js)%nat -> delegate n = true) /\
     Turbofan.pending (Turbofan.Run delegate dt) = map Some (drop n js) /\
     Turbofan.output_queue_ (Turbofan.Run delegate dt)
       = Turbofan.output_queue_ dt ++ take n js) /\
  Turbofan.output_queue_ (Turbofan.CompileNext (Some job) dt)
    = Turbofan.output_queue_ dt ++ [job].
Proof.
  intros Hok Hp. split; [|split; [|split; [|split]]].
  - destruct (Maglev_Run_loop_pushes (Maglev.incoming_queue_ dm) delegate 0 dm
                eq_refl) as (n & Hn & Hfalse & Htrue & Hinc & Hout & Hdes).
    exists n. unfold Maglev.Run. simpl. auto 10.
  - unfold Maglev.Run_body.
    destruct (ExecuteJob job); simpl; split; try reflexivity; try discriminate.
    intros E. exfalso.
    apply (f_equal (@length Job)) in E. rewrite length_app in E.
    simpl in E. lia.
  - intros E. unfold Maglev.Run_body. rewrite E. reflexivity.
  - destruct (Turbofan_Run_loop_pushes
                (S (Z.to_nat (Turbofan.input_queue_length_ dt))) delegate 0
                dt js Hok Hp)
      as (n & Hn & Hfalse & Htrue & Hpend & Hout & _).
    { rewrite (pending_jobs_length dt js Hp). lia. }
    exists n. unfold Turbofan.Run. auto 10.
  - apply CompileNext_frame.
Qed.

Lemma worker_pushes_witness :
  exists n : nat,
    (n <= 1)%nat /\
    (forall i, (i < n)%nat -> (fun _ : nat => false) i = false) /\
    ((n < 1)%nat -> (fun _ : nat => false) n = true) /\
    Turbofan.pending
      (Turbofan.Run (fun _ => false)
         (Turbofan.QueueForOptimization Examples.job_failed
            Examples.turbofan0))
    = map Some (drop n [Examples.job_failed]) /\
    Turbofan.output_queue_
      (Turbofan.Run (fun _ => false)
         (Turbofan.QueueForOptimization Examples.job_failed
            Examples.turbofan0))
    = Turbofan.output_queue_
        (Turbofan.QueueForOptimization Examples.job_failed
           Examples.turbofan0)
      ++ take n [Examples.job_failed].
Proof.
  refine (proj1 (proj2 (proj2 (proj2
            (worker_pushes (fun _ => false) Examples.maglev_with_output
               (Turbofan.QueueForOptimization Examples.job_failed
                  Examples.turbofan0)
               [Examples.job_failed] Examples.job_failed _ _))))).
  - unfold Turbofan.ring_ok. simpl. lia.
  - reflexivity.
Defined.

(** ** C4: flushing the queues *)

Section Flushing.
Context `{CompilerEnv}.

Lemma dispose_pending (r : bool) (d : Turbofan.Dispatcher) (j : Job) :
  Turbofan.pending (Turbofan.dispose r d j) = Turbofan.pending d.
Proof. reflexivity. Qed.

(** The input flush disposes the pending jobs in order and touches
    nothing but the ring, the heap and the trace. *)
Lemma FlushInputQueue_loop_spec (fuel : nat) (d : Turbofan.Dispatcher)
    (js : list Job) :
  Turbofan.ring_ok d ->
  Turbofan.pending d = map Some js ->
  (Z.to_nat (Turbofan.input_queue_length_ d) <= fuel)%nat ->
  exists shift' hp',
    0 <= shift' < Turbofan.input_queue_capacity_ d /\
    Turbofan.FlushInputQueue_loop fuel d
    = Turbofan.mkDispatcher (Turbofan.input_queue_ d)
        (Turbofan.input_queue_capacity_ d) 0 shift'
        (Turbofan.output_queue_ d) (Turbofan.job_handle_ d)
        (Turbofan.finalize_ d) (Turbofan.in_flight_ d) hp'
        (Turbofan.trace d ++ map (fun j => EvDispose j true) js).
Proof.
  revert d js. induction fuel as [|fuel IH]; intros d js Hok Hp Hfuel.
  - assert (E : Turbofan.input_queue_length_ d = 0)
      by (destruct Hok as (_ & _ & _ & ?); lia).
    unfold Turbofan.pending in Hp. rewrite E in Hp. simpl in Hp.
    destruct js; [|discriminate].
    exists (Turbofan.input_queue_shift_ d), (Turbofan.heap d).
    split; [destruct Hok as (_ & _ & ? & _); assumption|].
    simpl. rewrite app_nil_r. destruct d; simpl in *. subst. reflexivity.
  - cbn [Turbofan.FlushInputQueue_loop].
    destruct (0 <? Turbofan.input_queue_length_ d) eqn:E.
    + apply Z.ltb_lt in E.
      destruct (NextInput_ring d Hok E) as (Hok1 & Hl1 & Hp1).
      unfold Turbofan.NextInput in Hok1, Hl1, Hp1.
      destruct (Turbofan.input_queue_length_ d =? 0) eqn:E0;
        [apply Z.eqb_eq in E0; lia|].
      cbn [fst snd] in *.
      rewrite Hp in Hp1. destruct js as [|j js]; [discriminate|].
      simpl in Hp1. injection Hp1 as Hj Hrest. rewrite <- Hj.
      set (d1 := Turbofan.set_input d (Turbofan.input_queue_ d)
                   (Turbofan.input_queue_length_ d - 1)
                   (Turbofan.InputQueueIndex d 1)) in *.
      destruct (IH (Turbofan.dispose true d1 j) js)
        as (shift' & hp' & Hs & Heq).
      * exact Hok1.
      * rewrite dispose_pending. symmetry. exact Hrest.
      * change (Turbofan.input_queue_length_ (Turbofan.dispose true d1 j))
          with (Turbofan.input_queue_length_ d - 1). lia.
      * exists shift', hp'. split; [exact Hs|]. rewrite Heq. simpl.
        rewrite <- app_assoc. reflexivity.
    + apply Z.ltb_ge in E.
      assert (E0 : Turbofan.input_queue_length_ d = 0)
        by (destruct Hok as (_ & _ & _ & ?); lia).
      unfold Turbofan.pending in Hp. rewrite E0 in Hp. simpl in Hp.
      destruct js; [|discriminate].
      exists (Turbofan.input_queue_shift_ d), (Turbofan.heap d).
      split; [destruct Hok as (_ & _ & ? & _); assumption|].
      simpl. rewrite app_nil_r. destruct d; simpl in *. subst. reflexivity.
Qed.

(** The output flush disposes the jobs of the output queue in order and
    leaves the queue empty. *)
Lemma FlushOutputQueue_loop_spec (r : bool) (out : list Job)
    (d : Turbofan.Dispatcher) :
  Turbofan.output_queue_ d = out ->
  exists hp',
    Turbofan.FlushOutputQueue_loop r out d
    = Turbofan.mkDispatcher (Turbofan.input_queue_ d)
        (Turbofan.input_queue_capacity_ d) (Turbofan.input_queue_length_ d)
        (Turbofan.input_queue_shift_ d) [] (Turbofan.job_handle_ d)
        (Turbofan.finalize_ d) (Turbofan.in_flight_ d) hp'
        (Turbofan.trace d ++ map (fun j => EvDispose j r) out).
Proof.
  revert d. induction out as [|j out IH]; intros d Hout.
  - exists (Turbofan.heap d). simpl. rewrite app_nil_r.
    destruct d; simpl in *. subst. reflexivity.
  - simpl. destruct (IH (Turbofan.dispose r (Turbofan.set_output d out) j))
      as (hp' & Heq); [reflexivity|].
    exists hp'. rewrite Heq. simpl. rewrite <- app_assoc. reflexivity.
Qed.

(** Joining with an empty input queue completes the in-flight jobs. *)
Lemma foldl_CompileNext (l : list Job) (d : Turbofan.Dispatcher) :
  let d' := foldl (fun acc j => Turbofan.CompileNext (Some j) acc) d l in
  Turbofan.output_queue_ d' = Turbofan.output_queue_ d ++ l /\
  Turbofan.input_queue_ d' = Turbofan.input_queue_ d /\
  Turbofan.input_queue_capacity_ d' = Turbofan.input_queue_capacity_ d /\
  Turbofan.input_queue_length_ d' = Turbofan.input_queue_length_ d /\
  Turbofan.input_queue_shift_ d' = Turbofan.input_queue_shift_ d /\
  Turbofan.in_flight_ d' = Turbofan.in_flight_ d /\
  Turbofan.job_handle_ d' = Turbofan.job_handle_ d /\
  Turbofan.finalize_ d' = Turbofan.finalize_ d /\
  Turbofan.heap d' = Turbofan.heap d /\
  disposals (Turbofan.trace d') = disposals (Turbofan.trace d) /\
  handle_calls (Turbofan.trace d') = handle_calls (Turbofan.trace d).
Proof.
  revert d. induction l as [|j l IH]; intros d.
  - simpl. rewrite app_nil_r. repeat split; reflexivity.
  - cbn [foldl]. cbn zeta.
    destruct (IH (Turbofan.CompileNext (Some j) d))
      as (H1 & H2 & H3 & H4 & H5 & H6 & H7 & H8 & H9 & H10 & H11).
    destruct (CompileNext_frame j d)
      as (G1 & G2 & G3 & G4 & G5 & G6 & G7 & G8 & G9 & G10 & G11).
    cbn zeta in *.
    rewrite H1, H2, H3, H4, H5, H6, H7, H8, H9, H10, H11.
    rewrite G1, G2, G3, G4, G5, G6, G7, G8, G9, G10, G11.
    rewrite <- app_assoc. repeat split; reflexivity.
Qed.

(** *** Workers during a join *)

Lemma same_frame_refl (d : Turbofan.Dispatcher) : Turbofan.same_frame d d.
Proof. unfold Turbofan.same_frame. auto 10. Qed.

Lemma same_frame_trans (a b c : Turbofan.Dispatcher) :
  Turbofan.same_frame a b -> Turbofan.same_frame b c ->
  Turbofan.same_frame a c.
Proof.
  unfold Turbofan.same_frame.
  intros (A1 & A2 & A3 & A4 & A5 & A6 & A7) (B1 & B2 & B3 & B4 & B5 & B6 & B7).
  rewrite B1, B2, B3, B4, B5, B6, B7. auto 10.
Qed.

(** One step of a worker moves a job from the queue to the workers or
    from the workers to the output queue. *)
Lemma worker_step_spec (a : Turbofan.WorkerStep) (d : Turbofan.Dispatcher)
    (js : list Job) :
  Turbofan.ring_ok d ->
  Turbofan.pending d = map Some js ->
  let d' := Turbofan.worker_step d a in
  exists done js' : list Job,
    Turbofan.ring_ok d' /\
    Turbofan.pending d' = map Some js' /\
    Turbofan.output_queue_ d' = Turbofan.output_queue_ d ++ done /\
    Permutation (done ++ Turbofan.in_flight_ d' ++ js')
      (Turbofan.in_flight_ d ++ js) /\
    Turbofan.same_frame d d'.
Proof.
  intros Hok Hp. destruct a as [k|]; cbn [Turbofan.worker_step]; cbn zeta.
  - destruct (Turbofan.in_flight_ d !! k) as [j|] eqn:Hk.
    + set (d0 := Turbofan.set_in_flight d (delete k (Turbofan.in_flight_ d))).
      destruct (CompileNext_frame j d0)
        as (G1 & G2 & G3 & G4 & G5 & G6 & G7 & G8 & G9 & G10 & G11).
      cbn zeta in *.
      exists [j], js. split; [|split; [|split; [|split]]].
      * apply CompileNext_ring_ok. exact Hok.
      * rewrite CompileNext_pending. exact Hp.
      * rewrite G1. reflexivity.
      * rewrite G6. subst d0. cbn [Turbofan.set_in_flight Turbofan.in_flight_].
        apply (Permutation_app_tail js
                 (l := j :: delete k (Turbofan.in_flight_ d))).
        symmetry. apply delete_Permutation. exact Hk.
      * unfold Turbofan.same_frame. rewrite G2, G3, G7, G8, G9, G10, G11.
        subst d0. cbn. auto 10.
    + exists [], js. rewrite app_nil_r. cbn [app].
      split; [exact Hok|]. split; [exact Hp|]. split; [reflexivity|].
      split; [reflexivity | apply same_frame_refl].
  - pose proof (pending_jobs_length d js Hp) as Hlen.
    destruct js as [|j js].
    + assert (E : Turbofan.input_queue_length_ d = 0)
        by (destruct Hok as (_ & _ & _ & ?); simpl in Hlen; lia).
      rewrite (NextInput_empty d E).
      exists [], []. rewrite app_nil_r. cbn [app].
      split; [exact Hok|]. split; [exact Hp|]. split; [reflexivity|].
      split; [reflexivity | apply same_frame_refl].
    + assert (Hpos : 0 < Turbofan.input_queue_length_ d)
        by (simpl in Hlen; lia).
      destruct (NextInput_ring d Hok Hpos) as (Hok1 & Hl1 & Hp1).
      destruct (NextInput_frame d) as (F1 & F2 & F3 & F4 & F5 & F6 & F7).
      assert (Fq : Turbofan.input_queue_ (snd (Turbofan.NextInput d))
                   = Turbofan.input_queue_ d).
      { unfold Turbofan.NextInput.
        destruct (Turbofan.input_queue_length_ d =? 0); reflexivity. }
      cbn zeta in *.
      destruct (Turbofan.NextInput d) as [j' d1]. cbn [fst snd] in *.
      rewrite Hp in Hp1. simpl in Hp1. injection Hp1 as Hj Hrest. subst j'.
      exists [], js. cbn [app]. rewrite app_nil_r.
      split; [exact Hok1|]. split; [symmetry; exact Hrest|].
      split; [exact F1|]. split.
      * cbn [Turbofan.set_in_flight Turbofan.in_flight_]. rewrite F2.
        rewrite <- app_assoc. reflexivity.
      * unfold Turbofan.same_frame. cbn.
        rewrite Fq, F3, F4, F5, F6, F7. auto 10.
Qed.

Lemma worker_steps_spec (schedule : list Turbofan.WorkerStep)
    (d : Turbofan.Dispatcher) (js : list Job) :
  Turbofan.ring_ok d ->
  Turbofan.pending d = map Some js ->
  let d' := foldl Turbofan.worker_step d schedule in
  exists done js' : list Job,
    Turbofan.ring_ok d' /\
    Turbofan.pending d' = map Some js' /\
    Turbofan.output_queue_ d' = Turbofan.output_queue_ d ++ done /\
    Permutation (done ++ Turbofan.in_flight_ d' ++ js')
      (Turbofan.in_flight_ d ++ js) /\
    Turbofan.same_frame d d'.
Proof.
  revert d js. induction schedule as [|a schedule IH]; intros d js Hok Hp.
  - exists [], js. cbn. rewrite app_nil_r.
    split; [exact Hok|]. split; [exact Hp|]. split; [reflexivity|].
    split; [reflexivity | apply same_frame_refl].
  - cbn [foldl]. cbn zeta.
    destruct (worker_step_spec a d js Hok Hp)
      as (done1 & js1 & Hok1 & Hp1 & Ho1 & Hperm1 & Hf1).
    cbn zeta in *.
    destruct (IH (Turbofan.worker_step d a) js1 Hok1 Hp1)
      as (done2 & js2 & Hok2 & Hp2 & Ho2 & Hperm2 & Hf2).
    cbn zeta in *.
    exists (done1 ++ done2), js2.
    split; [exact Hok2|]. split; [exact Hp2|].
    split; [rewrite Ho2, Ho1, <- app_assoc; reflexivity|].
    split; [|exact (same_frame_trans _ _ _ Hf1 Hf2)].
    rewrite <- app_assoc. rewrite Hperm2. exact Hperm1.
Qed.

(** Joining: the output queue gains the in-flight and the pending jobs
    in the order the workers complete them, nothing stays queued or in
    flight, and no job is disposed of. *)
Lemma Join_spec (schedule : list Turbofan.WorkerStep)
    (d : Turbofan.Dispatcher) (js : list Job) :
  Turbofan.ring_ok d ->
  Turbofan.pending d = map Some js ->
  let d' := Turbofan.Join schedule d in
  exists order : list Job,
    Permutation order (Turbofan.in_flight_ d ++ js) /\
    (schedule = [] -> order = Turbofan.in_flight_ d ++ js) /\
    Turbofan.output_queue_ d' = Turbofan.output_queue_ d ++ order /\
    Turbofan.input_queue_length_ d' = 0 /\
    Turbofan.in_flight_ d' = [] /\
    Turbofan.ring_ok d' /\
    Turbofan.input_queue_ d' = Turbofan.input_queue_ d /\
    Turbofan.input_queue_capacity_ d' = Turbofan.input_queue_capacity_ d /\
    Turbofan.job_handle_ d' = Turbofan.job_handle_ d /\
    Turbofan.finalize_ d' = Turbofan.finalize_ d /\
    disposals (Turbofan.trace d') = disposals (Turbofan.trace d) /\
    handle_calls (Turbofan.trace d')
      = handle_calls (Turbofan.trace d) ++ [EvJoin (Turbofan.job_handle_ d)].
Proof.
  intros Hok Hp. cbn zeta. unfold Turbofan.Join.
  destruct (worker_steps_spec schedule d js Hok Hp)
    as (done & js1 & Hok1 & Hp1 & Ho1 & Hperm & Hf).
  cbn zeta in *.
  set (d1 := foldl Turbofan.worker_step d schedule) in *.
  destruct Hf as (F1 & F2 & F3 & F4 & F5 & F6 & F7).
  set (d1' := Turbofan.set_in_flight d1 []).
  destruct (foldl_CompileNext (Turbofan.in_flight_ d1) d1')
    as (H1 & H2 & H3 & H4 & H5 & H6 & H7 & H8 & H9 & H10 & H11).
  cbn zeta in *.
  set (d2 := foldl _ d1' (Turbofan.in_flight_ d1)) in *.
  assert (Hok2 : Turbofan.ring_ok d2).
  { unfold Turbofan.ring_ok. rewrite H2, H3, H4, H5. exact Hok1. }
  assert (Hp2 : Turbofan.pending d2 = map Some js1).
  { rewrite <- Hp1. unfold Turbofan.pending. rewrite H4.
    apply pending_from_ext. intros i _.
    unfold Turbofan.InputQueueIndex. rewrite H2, H3, H5. reflexivity. }
  destruct (Turbofan_Run_loop_pushes
              (S (Z.to_nat (Turbofan.input_queue_length_ d2)))
              (fun _ => false) 0 d2 js1 Hok2 Hp2)
    as (n & Hn & _ & Htrue & Hpend & Hout & Hok3).
  { rewrite (pending_jobs_length d2 js1 Hp2). lia. }
  cbn zeta in *. fold (Turbofan.Run (fun _ => false) d2) in *.
  assert (n = length js1).
  { destruct (Nat.eq_dec n (length js1)) as [E|E]; [exact E|].
    assert (Hlt : (n < length js1)%nat) by lia.
    specialize (Htrue Hlt). discriminate Htrue. }
  subst n. rewrite firstn_all in Hout. rewrite drop_all in Hpend.
  set (d3 := Turbofan.Run (fun _ => false) d2) in *.
  assert (Hframe3 : Turbofan.in_flight_ d3 = Turbofan.in_flight_ d2 /\
                    Turbofan.input_queue_ d3 = Turbofan.input_queue_ d2 /\
                    Turbofan.input_queue_capacity_ d3
                    = Turbofan.input_queue_capacity_ d2 /\
                    Turbofan.job_handle_ d3 = Turbofan.job_handle_ d2 /\
                    Turbofan.finalize_ d3 = Turbofan.finalize_ d2 /\
                    disposals (Turbofan.trace d3)
                    = disposals (Turbofan.trace d2) /\
                    handle_calls (Turbofan.trace d3)
                    = handle_calls (Turbofan.trace d2)).
  { subst d3. unfold Turbofan.Run. apply Run_loop_frame. }
  destruct Hframe3 as (R1 & R2 & R3 & R4 & R5 & R6 & R7).
  exists (done ++ Turbofan.in_flight_ d1 ++ js1).
  split; [exact Hperm|].
  split.
  { intros ->. subst d1. cbn [foldl] in *.
    assert (done = []).
    { apply (f_equal (@length _)) in Ho1. rewrite length_app in Ho1.
      destruct done; [reflexivity | simpl in Ho1; lia]. }
    subst done. cbn [app]. f_equal.
    rewrite Hp in Hp1. clear -Hp1.
    revert js1 Hp1. induction js as [|x js IH]; intros [|y js1] E;
      try discriminate; [reflexivity|].
    simpl in E. injection E as -> E. f_equal. apply IH. exact E. }
  cbn [Turbofan.emit Turbofan.output_queue_ Turbofan.input_queue_length_
       Turbofan.in_flight_ Turbofan.input_queue_ Turbofan.job_handle_
       Turbofan.input_queue_capacity_ Turbofan.finalize_ Turbofan.trace].
  split; [rewrite Hout, H1; subst d1'; cbn [Turbofan.set_in_flight
            Turbofan.output_queue_]; rewrite Ho1, <- !app_assoc;
          reflexivity|].
  split.
  { rewrite <- (Z2Nat.id (Turbofan.input_queue_length_ d3))
      by (destruct Hok3 as (_ & _ & _ & ?); lia).
    rewrite <- (pending_jobs_length d3 [] Hpend). reflexivity. }
  split; [rewrite R1, H6; reflexivity|].
  split.
  { unfold Turbofan.ring_ok in *.
    cbn [Turbofan.input_queue_capacity_ Turbofan.input_queue_
         Turbofan.input_queue_shift_ Turbofan.input_queue_length_].
    exact Hok3. }
  split; [rewrite R2, H2; subst d1'; cbn; exact F1|].
  split; [rewrite R3, H3; subst d1'; cbn; exact F2|].
  split; [rewrite R4, H7; subst d1'; cbn; exact F3|].
  split; [rewrite R5, H8; subst d1'; cbn; exact F4|].
  rewrite disposals_app, handle_calls_app, R6, R7, H10, H11.
  subst d1'. cbn [Turbofan.set_in_flight Turbofan.trace].
  rewrite F6, F7. cbn [disposals handle_calls omap List.filter].
  rewrite app_nil_r. split; reflexivity.
Qed.

Lemma disposals_map_dispose (r : bool) (l : list Job) :
  disposals (map (fun j => EvDispose j r) l) = map (fun j => (j, r)) l.
Proof.
  induction l as [|x l IH]; [reflexivity|].
  simpl. unfold disposals in IH. simpl. f_equal. exact IH.
Qed.

Lemma handle_calls_map_dispose (r : bool) (l : list Job) :
  handle_calls (map (fun j => EvDispose j r) l) = [].
Proof. induction l as [|x l IH]; [reflexivity | exact IH]. Qed.

(** What [FlushQueues] leaves behind, field by field; [order] is the
    order in which the workers complete the jobs that were in flight. *)
Lemma FlushQueues_spec (schedule : list Turbofan.WorkerStep)
    (b : BlockingBehavior) (r : bool)
    (d : Turbofan.Dispatcher) (js : list Job) :
  Turbofan.ring_ok d ->
  Turbofan.pending d = map Some js ->
  exists shift' hp' tr' order,
    Turbofan.FlushQueues schedule b r d
    = Turbofan.mkDispatcher (Turbofan.input_queue_ d)
        (Turbofan.input_queue_capacity_ d) 0 shift' []
        (match b with
         | kBlock => S (Turbofan.job_handle_ d)
         | kDontBlock => Turbofan.job_handle_ d
         end)
        (Turbofan.finalize_ d)
        (match b with kBlock => [] | kDontBlock => Turbofan.in_flight_ d end)
        hp' tr' /\
    match b with
    | kBlock =>
        Permutation order (Turbofan.in_flight_ d) /\
        (schedule = [] -> order = Turbofan.in_flight_ d)
    | kDontBlock => order = []
    end /\
    disposals tr'
    = disposals (Turbofan.trace d) ++ map (fun j => (j, true)) js
      ++ map (fun j => (j, r)) (Turbofan.output_queue_ d ++ order) /\
    handle_calls tr'
    = handle_calls (Turbofan.trace d)
      ++ match b with
         | kBlock => [EvJoin (Turbofan.job_handle_ d);
                      EvPostJob (S (Turbofan.job_handle_ d))]
         | kDontBlock => []
         end.
Proof.
  intros Hok Hp.
  destruct (FlushInputQueue_loop_spec
              (Z.to_nat (Turbofan.input_queue_length_ d)) d js Hok Hp
              (le_n _)) as (shift' & hp1 & Hshift & Hin).
  unfold Turbofan.FlushQueues, Turbofan.FlushInputQueue. rewrite Hin.
  clear Hin. destruct b.
  - set (d1 := Turbofan.mkDispatcher _ _ 0 shift' _ _ _ _ hp1 _).
    assert (Hok1 : Turbofan.ring_ok d1).
    { destruct Hok as (Hc & Hl & _ & _).
      unfold Turbofan.ring_ok. subst d1.
      cbn [Turbofan.input_queue_capacity_ Turbofan.input_queue_
           Turbofan.input_queue_shift_ Turbofan.input_queue_length_].
      split; [exact Hc|]. split; [exact Hl|]. lia. }
    assert (Hp1 : Turbofan.pending d1 = map Some []) by reflexivity.
    destruct (Join_spec schedule d1 [] Hok1 Hp1)
      as (order & Hperm & Hdefault & J1 & J2 & J3 & J4 & J5 & J6 & J7 & J8
          & J9 & J10).
    cbn zeta in *. rewrite app_nil_r in Hperm, Hdefault.
    unfold Turbofan.AwaitCompileTasks, Turbofan.FlushOutputQueue.
    set (d2 := Turbofan.Join schedule d1) in *.
    match goal with
    | |- context [Turbofan.FlushOutputQueue_loop r ?o ?dd] =>
        destruct (FlushOutputQueue_loop_spec r o dd eq_refl) as (hp2 & Hout)
    end.
    rewrite Hout. clear Hout.
    cbn [Turbofan.PostJob Turbofan.emit Turbofan.set_job_handle
         Turbofan.input_queue_length_ Turbofan.output_queue_
         Turbofan.in_flight_ Turbofan.job_handle_ Turbofan.trace
         Turbofan.input_queue_ Turbofan.input_queue_capacity_
         Turbofan.input_queue_shift_ Turbofan.finalize_ Turbofan.heap].
    rewrite J1, J2, J3, J5, J6, J7, J8.
    eexists _, _, _, order. split; [subst d1; reflexivity|].
    split; [split; [exact Hperm | exact Hdefault]|].
    rewrite !disposals_app, !handle_calls_app, J9, J10.
    subst d1.
    cbn [Turbofan.output_queue_ Turbofan.in_flight_
         Turbofan.job_handle_ Turbofan.trace].
    rewrite !disposals_app, !handle_calls_app,
      !disposals_map_dispose, !handle_calls_map_dispose.
    cbn [disposals handle_calls omap List.filter app].
    rewrite !app_nil_r, <- !app_assoc. split; reflexivity.
  - unfold Turbofan.FlushOutputQueue.
    match goal with
    | |- context [Turbofan.FlushOutputQueue_loop r ?o ?dd] =>
        destruct (FlushOutputQueue_loop_spec r o dd eq_refl) as (hp2 & Hout)
    end.
    rewrite Hout. clear Hout.
    cbn [Turbofan.input_queue_length_ Turbofan.output_queue_
         Turbofan.in_flight_ Turbofan.job_handle_ Turbofan.trace
         Turbofan.input_queue_ Turbofan.input_queue_capacity_
         Turbofan.input_queue_shift_ Turbofan.finalize_ Turbofan.heap].
    eexists _, _, _, []. split; [reflexivity|]. split; [reflexivity|].
    rewrite !disposals_app, !handle_calls_app,
      !disposals_map_dispose, !handle_calls_map_dispose.
    rewrite !app_nil_r, <- !app_assoc. split; reflexivity.
Qed.

End Flushing.

Lemma drain_incoming_spec (q : Maglev.QueueT) (d : Maglev.Dispatcher) :
  Maglev.incoming_queue_ d = q ->
  Maglev.drain_incoming q d
  = Maglev.mkDispatcher [] (Maglev.outgoing_queue_ d) (Maglev.job_handle_ d)
      (Maglev.in_flight_ d) (Maglev.destroyed d ++ q) (Maglev.trace d).
Proof.
  revert d. induction q as [|j q IH]; intros d Hq.
  - simpl. rewrite app_nil_r. destruct d; simpl in *. subst. reflexivity.
  - simpl. rewrite IH by reflexivity. simpl. rewrite <- app_assoc.
    reflexivity.
Qed.

Lemma drain_outgoing_spec (q : Maglev.QueueT) (d : Maglev.Dispatcher) :
  Maglev.outgoing_queue_ d = q ->
  Maglev.drain_outgoing q d
  = Maglev.mkDispatcher (Maglev.incoming_queue_ d) [] (Maglev.job_handle_ d)
      (Maglev.in_flight_ d) (Maglev.destroyed d ++ q) (Maglev.trace d).
Proof.
  revert d. induction q as [|j q IH]; intros d Hq.
  - simpl. rewrite app_nil_r. destruct d; simpl in *. subst. reflexivity.
  - simpl. rewrite IH by reflexivity. simpl. rewrite <- app_assoc.
    reflexivity.
Qed.

(** The test of the loop either takes the front job of the incoming
    queue or ends [Run] with its request. *)
Lemma Run_next_spec (yield : bool) (d : Maglev.Dispatcher) :
  exists (taken : list Job) (n : nat),
    Maglev.Run_next yield d
    = Maglev.mkDispatcher (drop (length taken) (Maglev.incoming_queue_ d))
        (Maglev.outgoing_queue_ d) (Maglev.job_handle_ d)
        (Maglev.in_flight_ d ++ taken) (Maglev.destroyed d)
        (Maglev.trace d ++ replicate n EvRequestInstallMaglevCode) /\
    Maglev.incoming_queue_ d
    = taken ++ drop (length taken) (Maglev.incoming_queue_ d) /\
    (n + length taken = 1)%nat /\
    (yield = true -> taken = []).
Proof.
  unfold Maglev.Run_next, Maglev.emit.
  destruct (Maglev.incoming_queue_ d) as [|job rest] eqn:E.
  - exists [], 1%nat. rewrite app_nil_r. cbn. auto.
  - destruct yield.
    + exists [], 1%nat. rewrite app_nil_r. cbn. auto.
    + exists [job], 0%nat. cbn. rewrite app_nil_r.
      split; [reflexivity|]. split; [reflexivity|].
      split; [reflexivity | discriminate].
Qed.

(** The workers that hold a job complete it and leave, each with its
    request. *)
Lemma finish_workers_spec (d : Maglev.Dispatcher) :
  Maglev.finish_workers d
  = Maglev.mkDispatcher (Maglev.incoming_queue_ d)
      (Maglev.outgoing_queue_ d
       ++ List.filter succeeded (Maglev.in_flight_ d))
      (Maglev.job_handle_ d) []
      (Maglev.destroyed d
       ++ List.filter (fun j => negb (succeeded j)) (Maglev.in_flight_ d))
      (Maglev.trace d
       ++ replicate (length (Maglev.in_flight_ d)) EvRequestInstallMaglevCode).
Proof.
  unfold Maglev.finish_workers.
  generalize (Maglev.in_flight_ d). intros l.
  assert (G : forall d0 : Maglev.Dispatcher,
            foldl (fun acc j =>
                     Maglev.emit (Maglev.Run_body j acc)
                       EvRequestInstallMaglevCode) d0 l
            = Maglev.mkDispatcher (Maglev.incoming_queue_ d0)
                (Maglev.outgoing_queue_ d0 ++ List.filter succeeded l)
                (Maglev.job_handle_ d0) (Maglev.in_flight_ d0)
                (Maglev.destroyed d0
                 ++ List.filter (fun j => negb (succeeded j)) l)
                (Maglev.trace d0
                 ++ replicate (length l) EvRequestInstallMaglevCode)).
  { induction l as [|j l IH]; intros d0.
    - cbn. rewrite !app_nil_r. destruct d0; reflexivity.
    - cbn [foldl]. rewrite IH. unfold Maglev.Run_body, Maglev.emit, succeeded.
      cbn [List.filter length replicate].
      destruct (Status_eqb (ExecuteJob j) SUCCEEDED);
        cbn [negb Maglev.incoming_queue_ Maglev.outgoing_queue_
             Maglev.job_handle_ Maglev.in_flight_ Maglev.destroyed
             Maglev.trace];
        unfold Maglev.Enqueue; rewrite <- ?app_assoc; reflexivity. }
  rewrite G. reflexivity.
Qed.

(** One step of a worker: jobs leave the front of the incoming queue for
    the workers, and the workers for the outgoing queue or destruction;
    a worker that leaves [Run] sends its request. *)
Lemma Maglev_worker_step_spec (a : Maglev.WorkerStep) (d : Maglev.Dispatcher) :
  let d' := Maglev.worker_step d a in
  exists (done taken : list Job) (n : nat),
    Maglev.incoming_queue_ d = taken ++ Maglev.incoming_queue_ d' /\
    Permutation (done ++ Maglev.in_flight_ d')
      (Maglev.in_flight_ d ++ taken) /\
    Maglev.outgoing_queue_ d'
    = Maglev.outgoing_queue_ d ++ List.filter succeeded done /\
    Maglev.destroyed d'
    = Maglev.destroyed d ++ List.filter (fun j => negb (succeeded j)) done /\
    Maglev.trace d'
    = Maglev.trace d ++ replicate n EvRequestInstallMaglevCode /\
    Maglev.job_handle_ d' = Maglev.job_handle_ d /\
    (length (Maglev.in_flight_ d) <= n + length (Maglev.in_flight_ d'))%nat /\
    (Nat.min 1 (length done) <= n + length (Maglev.in_flight_ d'))%nat.
Proof.
  cbn zeta. destruct a as [k yield | yield]; cbn [Maglev.worker_step].
  - destruct (Maglev.in_flight_ d !! k) as [j|] eqn:Hk.
    + set (d0 := Maglev.Run_body j
                   (Maglev.set_in_flight d (delete k (Maglev.in_flight_ d)))).
      destruct (Run_next_spec yield d0) as (taken & n & -> & Hinc & Hn & _).
      assert (Hd0 : Maglev.incoming_queue_ d0 = Maglev.incoming_queue_ d /\
                    Maglev.in_flight_ d0 = delete k (Maglev.in_flight_ d) /\
                    Maglev.job_handle_ d0 = Maglev.job_handle_ d /\
                    Maglev.trace d0 = Maglev.trace d /\
                    Maglev.outgoing_queue_ d0
                    = Maglev.outgoing_queue_ d ++ List.filter succeeded [j] /\
                    Maglev.destroyed d0
                    = Maglev.destroyed d
                      ++ List.filter (fun j => negb (succeeded j)) [j]).
      { subst d0. unfold Maglev.Run_body, Maglev.set_in_flight, succeeded.
        cbn [List.filter].
        destruct (Status_eqb (ExecuteJob j) SUCCEEDED); cbn;
          rewrite ?app_nil_r; auto 10. }
      destruct Hd0 as (D1 & D2 & D3 & D4 & D5 & D6).
      pose proof (delete_Permutation _ _ _ Hk) as Hperm.
      pose proof (Permutation_length Hperm) as Hlen. cbn [length] in Hlen.
      exists [j], taken, n.
      cbn [Maglev.incoming_queue_ Maglev.outgoing_queue_ Maglev.job_handle_
           Maglev.in_flight_ Maglev.destroyed Maglev.trace].
      rewrite D2, D3, D4, D5, D6, <- D1.
      split; [exact Hinc|].
      split.
      { apply (Permutation_app_tail taken
                 (l := j :: delete k (Maglev.in_flight_ d))).
        symmetry. exact Hperm. }
      rewrite length_app. cbn [length].
      repeat split; try reflexivity; lia.
    + exists [], [], 0%nat. cbn. rewrite !app_nil_r.
      repeat split; try reflexivity; lia.
  - destruct (Run_next_spec yield d) as (taken & n & -> & Hinc & Hn & _).
    exists [], taken, n.
    cbn [Maglev.incoming_queue_ Maglev.outgoing_queue_ Maglev.job_handle_
         Maglev.in_flight_ Maglev.destroyed Maglev.trace List.filter app].
    rewrite !app_nil_r, length_app.
    repeat split; try reflexivity; try lia. exact Hinc.
Qed.

Lemma Maglev_worker_steps_spec (schedule : list Maglev.WorkerStep)
    (d : Maglev.Dispatcher) :
  let d' := foldl Maglev.worker_step d schedule in
  exists (done taken : list Job) (n : nat),
    Maglev.incoming_queue_ d = taken ++ Maglev.incoming_queue_ d' /\
    Permutation (done ++ Maglev.in_flight_ d')
      (Maglev.in_flight_ d ++ taken) /\
    Maglev.outgoing_queue_ d'
    = Maglev.outgoing_queue_ d ++ List.filter succeeded done /\
    Maglev.destroyed d'
    = Maglev.destroyed d ++ List.filter (fun j => negb (succeeded j)) done /\
    Maglev.trace d'
    = Maglev.trace d ++ replicate n EvRequestInstallMaglevCode /\
    Maglev.job_handle_ d' = Maglev.job_handle_ d /\
    (length (Maglev.in_flight_ d) <= n + length (Maglev.in_flight_ d'))%nat /\
    (Nat.min 1 (length done) <= n + length (Maglev.in_flight_ d'))%nat /\
    (schedule = [] -> done = [] /\ taken = [] /\ n = 0%nat).
Proof.
  revert d. induction schedule as [|a schedule IH]; intros d.
  - exists [], [], 0%nat. cbn. rewrite !app_nil_r.
    repeat split; try reflexivity; lia.
  - cbn [foldl]. cbn zeta.
    destruct (Maglev_worker_step_spec a d)
      as (done1 & taken1 & n1 & A1 & A2 & A3 & A4 & A5 & A6 & A7 & A8).
    destruct (IH (Maglev.worker_step d a))
      as (done2 & taken2 & n2 & B1 & B2 & B3 & B4 & B5 & B6 & B7 & B8 & _).
    cbn zeta in *.
    exists (done1 ++ done2), (taken1 ++ taken2), (n1 + n2)%nat.
    split; [rewrite A1, B1, <- app_assoc; reflexivity|].
    split.
    { rewrite <- app_assoc, B2, !app_assoc.
      apply Permutation_app_tail. exact A2. }
    split; [rewrite B3, A3, List.filter_app, <- app_assoc; reflexivity|].
    split; [rewrite B4, A4, List.filter_app, <- app_assoc; reflexivity|].
    split; [rewrite B5, A5, replicate_add, <- app_assoc; reflexivity|].
    split; [rewrite B6, A6; reflexivity|].
    rewrite length_app.
    split; [lia|]. split; [lia | discriminate].
Qed.

Lemma foldl_yielding (schedule : list Maglev.WorkerStep)
    (d : Maglev.Dispatcher) :
  foldl (fun acc a => Maglev.worker_step acc (Maglev.yielding a)) d schedule
  = foldl Maglev.worker_step d (map Maglev.yielding schedule).
Proof.
  revert d. induction schedule as [|a schedule IH]; intros d;
    [reflexivity|]. cbn [foldl map]. apply IH.
Qed.

(** What [Flush] of the Maglev dispatcher leaves behind; [order] is the
    order in which the cancelled workers complete the jobs they hold,
    [n] the number of requests they send on leaving [Run]. *)
Lemma Maglev_Flush_spec (schedule : list Maglev.WorkerStep)
    (b : BlockingBehavior) (d : Maglev.Dispatcher) :
  exists (order : list Job) (n : nat),
    match b with
    | kBlock =>
        Permutation order (Maglev.in_flight_ d) /\
        (length (Maglev.in_flight_ d) <= n)%nat /\
        (schedule = [] ->
         order = Maglev.in_flight_ d /\ n = length (Maglev.in_flight_ d))
    | kDontBlock => order = [] /\ n = 0%nat
    end /\
    Maglev.Flush schedule b d
    = Maglev.mkDispatcher [] []
        (match b with
         | kBlock => S (Maglev.job_handle_ d)
         | kDontBlock => Maglev.job_handle_ d
         end)
        (match b with kBlock => [] | kDontBlock => Maglev.in_flight_ d end)
        (Maglev.destroyed d ++ Maglev.incoming_queue_ d
         ++ List.filter (fun j => negb (succeeded j)) order
         ++ Maglev.outgoing_queue_ d
         ++ List.filter succeeded order)
        (Maglev.trace d
         ++ match b with
            | kBlock => replicate n EvRequestInstallMaglevCode
                        ++ [EvCancel (Maglev.job_handle_ d);
                            EvPostJob (S (Maglev.job_handle_ d))]
            | kDontBlock => []
            end).
Proof.
  unfold Maglev.Flush. rewrite (drain_incoming_spec _ d eq_refl).
  destruct b.
  - unfold Maglev.Cancel. rewrite foldl_yielding.
    set (d1 := Maglev.mkDispatcher [] _ _ _ _ _).
    destruct (Maglev_worker_steps_spec (map Maglev.yielding schedule) d1)
      as (done & taken & n & A1 & A2 & A3 & A4 & A5 & A6 & A7 & A8 & A9).
    cbn zeta in *.
    set (d2 := foldl Maglev.worker_step d1 (map Maglev.yielding schedule)) in *.
    assert (Htaken : taken = [] /\ Maglev.incoming_queue_ d2 = []).
    { subst d1. cbn [Maglev.incoming_queue_] in A1. symmetry in A1.
      apply app_eq_nil in A1. exact A1. }
    destruct Htaken as [-> Hinc2]. rewrite app_nil_r in A2.
    rewrite finish_workers_spec.
    rewrite (drain_outgoing_spec _ _ eq_refl).
    cbn [Maglev.PostJob Maglev.emit Maglev.incoming_queue_
         Maglev.outgoing_queue_ Maglev.job_handle_ Maglev.in_flight_
         Maglev.destroyed Maglev.trace].
    rewrite Hinc2, A3, A4, A5, A6. subst d1.
    cbn [Maglev.incoming_queue_ Maglev.outgoing_queue_ Maglev.job_handle_
         Maglev.in_flight_ Maglev.destroyed Maglev.trace] in *.
    exists (done ++ Maglev.in_flight_ d2),
      (n + length (Maglev.in_flight_ d2))%nat.
    split.
    { split; [exact A2|]. split; [exact A7|].
      intros ->. destruct (A9 eq_refl) as (-> & _ & ->).
      subst d2. cbn. auto. }
    rewrite !List.filter_app, replicate_add, <- !app_assoc. reflexivity.
  - rewrite (drain_outgoing_spec _ _ eq_refl).
    cbn [Maglev.incoming_queue_ Maglev.outgoing_queue_ Maglev.job_handle_
         Maglev.in_flight_ Maglev.destroyed Maglev.trace].
    exists [], 0%nat. split; [auto|].
    cbn [List.filter app]. rewrite !app_nil_r, <- !app_assoc. reflexivity.
Qed.

(** C4 (as stated) fails: a non-blocking flush does not leave the output
    queue untouched, it drains it. *)
Lemma nonblocking_flush_drains_output :
  Turbofan.output_queue_
    (Turbofan.Flush [] kDontBlock Examples.turbofan_with_output)
    <> Turbofan.output_queue_ Examples.turbofan_with_output
  /\ Maglev.outgoing_queue_
       (Maglev.Flush [] kDontBlock Examples.maglev_with_output)
     <> Maglev.outgoing_queue_ Examples.maglev_with_output.
Proof. split; vm_compute; discriminate. Qed.

(** C4 (amended).  [Flush] of either dispatcher removes and disposes every
    pending job of the input queue and drains the output queue, whether it
    blocks or not.  When it blocks, the optimizing dispatcher joins its
    worker job and posts a new one, the Maglev dispatcher cancels its
    worker job and posts a new one, and the jobs that were in flight are
    finished, in whatever order the workers complete them, and drained
    with the output queue; every Maglev worker that held a job sends its
    request to install code before the cancellation returns.  When it
    does not block, the job handle and the in-flight jobs are left as
    they are. *)
Theorem Flush_effect `{CompilerEnv} (st : list Turbofan.WorkerStep)
    (sm : list Maglev.WorkerStep) (b : BlockingBehavior)
    (dt : Turbofan.Dispatcher) (js : list Job) (dm : Maglev.Dispatcher) :
  Turbofan.ring_ok dt ->
  Turbofan.pending dt = map Some js ->
  let dt' := Turbofan.Flush st b dt in
  let dm' := Maglev.Flush sm b dm in
  let ht := Turbofan.job_handle_ dt in
  let hm := Maglev.job_handle_ dm in
  Turbofan.input_queue_length_ dt' = 0 /\
  Turbofan.output_queue_ dt' = [] /\
  Maglev.incoming_queue_ dm' = [] /\
  Maglev.outgoing_queue_ dm' = [] /\
  match b with
  | kBlock =>
      exists (order_t order_m : list Job) (n : nat),
        Permutation order_t (Turbofan.in_flight_ dt) /\
        Permutation order_m (Maglev.in_flight_ dm) /\
        (length (Maglev.in_flight_ dm) <= n)%nat /\
        disposals (Turbofan.trace dt')
          = disposals (Turbofan.trace dt)
            ++ map (fun j => (j, true))
                 (js ++ Turbofan.output_queue_ dt ++ order_t) /\
        Turbofan.in_flight_ dt' = [] /\
        Turbofan.job_handle_ dt' = S ht /\
        handle_calls (Turbofan.trace dt')
          = handle_calls (Turbofan.trace dt) ++ [EvJoin ht; EvPostJob (S ht)] /\
        Maglev.destroyed dm'
          = Maglev.destroyed dm ++ Maglev.incoming_queue_ dm
            ++ List.filter (fun j => negb (succeeded j)) order_m
            ++ Maglev.outgoing_queue_ dm
            ++ List.filter succeeded order_m /\
        Maglev.in_flight_ dm' = [] /\
        Maglev.job_handle_ dm' = S hm /\
        Maglev.trace dm'
          = Maglev.trace dm ++ replicate n EvRequestInstallMaglevCode
            ++ [EvCancel hm; EvPostJob (S hm)]
  | kDontBlock =>
      disposals (Turbofan.trace dt')
        = disposals (Turbofan.trace dt)
          ++ map (fun j => (j, true)) (js ++ Turbofan.output_queue_ dt) /\
      Turbofan.in_flight_ dt' = Turbofan.in_flight_ dt /\
      Turbofan.job_handle_ dt' = ht /\
      handle_calls (Turbofan.trace dt') = handle_calls (Turbofan.trace dt) /\
      Maglev.destroyed dm'
        = Maglev.destroyed dm ++ Maglev.incoming_queue_ dm
          ++ Maglev.outgoing_queue_ dm /\
      Maglev.in_flight_ dm' = Maglev.in_flight_ dm /\
      Maglev.job_handle_ dm' = hm /\
      Maglev.trace dm' = Maglev.trace dm
  end.
Proof.
  intros Hok Hp dt' dm' ht hm. subst dt' dm' ht hm.
  unfold Turbofan.Flush.
  destruct (FlushQueues_spec st b true dt js Hok Hp)
    as (shift' & hp' & tr' & order_t & -> & Ht & Hdis & Hcalls).
  destruct (Maglev_Flush_spec sm b dm) as (order_m & n & Hm & ->).
  cbn [Turbofan.input_queue_length_ Turbofan.output_queue_
       Turbofan.in_flight_ Turbofan.job_handle_ Turbofan.trace
       Maglev.incoming_queue_ Maglev.outgoing_queue_ Maglev.job_handle_
       Maglev.in_flight_ Maglev.destroyed Maglev.trace].
  do 4 (split; [reflexivity|]).
  destruct b.
  - destruct Ht as [Hpt _]. destruct Hm as (Hpm & Hn & _).
    exists order_t, order_m, n.
    rewrite Hdis, Hcalls, !map_app.
    auto 15.
  - destruct Hm as [-> ->]. subst order_t.
    rewrite Hdis, Hcalls, !map_app, !app_nil_r.
    cbn [List.filter app]. rewrite ?app_nil_r.
    auto 15.
Qed.

Lemma Flush_effect_witness :
  Turbofan.input_queue_length_
    (Turbofan.Flush [Turbofan.Finish 0] kBlock Examples.turbofan_busy) = 0.
Proof.
  refine (proj1 (Flush_effect [Turbofan.Finish 0] [Maglev.Finish 0 false]
                   kBlock Examples.turbofan_busy
                   [Examples.job_a] Examples.maglev_busy _ _)).
  - unfold Turbofan.ring_ok. simpl. lia.
  - reflexivity.
Defined.

(** ** C10: the racing-completion check spares OSR jobs *)

Section Installing.
Context `{CompilerEnv}.

Lemma InstallOptimizedFunctions_loop_trace (out : list Job)
    (d : Turbofan.Dispatcher) :
  Turbofan.output_queue_ d = out ->
  exists evs,
    Turbofan.trace (Turbofan.InstallOptimizedFunctions_loop out d)
      = Turbofan.trace d ++ evs /\
    Forall2 install_event out evs /\
    Turbofan.output_queue_ (Turbofan.InstallOptimizedFunctions_loop out d) = [].
Proof.
  revert d. induction out as [|j out IH]; intros d Hout.
  - exists []. simpl. rewrite app_nil_r. repeat split; [constructor | exact Hout].
  - cbn [Turbofan.InstallOptimizedFunctions_loop].
    set (d1 := Turbofan.install_one (Turbofan.set_output d out) j).
    destruct (IH d1) as (evs & Htr & Hall & Hempty).
    { subst d1. unfold Turbofan.install_one.
      destruct (negb (is_osr j) && _); reflexivity. }
    assert (Hone : exists e, Turbofan.trace d1 = Turbofan.trace d ++ [e]
                             /\ install_event j e).
    { subst d1. unfold Turbofan.install_one, install_event.
      destruct (is_osr j) eqn:Eosr; simpl.
      - exists (EvFinalize j). auto.
      - destruct (HasAvailableCodeKind _ _ _); simpl.
        + exists (EvDispose j false). auto.
        + exists (EvFinalize j). auto. }
    destruct Hone as (e & Htr1 & He).
    exists (e :: evs). split; [|split].
    + rewrite Htr, Htr1, <- app_assoc. reflexivity.
    + constructor; assumption.
    + exact Hempty.
Qed.

End Installing.

(** C10.  Every job of the output queue that is marked OSR is finalized by
    [InstallOptimizedFunctions], whatever code its function has available;
    a job that this run disposes of is not an OSR job; and the run leaves
    the output queue empty. *)
Theorem InstallOptimizedFunctions_osr `{CompilerEnv}
    (d : Turbofan.Dispatcher) (job : Job) :
  In job (Turbofan.output_queue_ d) ->
  is_osr job = true ->
  exists evs,
    Turbofan.trace (Turbofan.InstallOptimizedFunctions d)
      = Turbofan.trace d ++ evs /\
    In (EvFinalize job) evs /\
    (forall j r, In (EvDispose j r) evs -> is_osr j = false) /\
    length evs = length (Turbofan.output_queue_ d) /\
    Turbofan.output_queue_ (Turbofan.InstallOptimizedFunctions d) = [].
Proof.
  intros Hin Hosr.
  destruct (InstallOptimizedFunctions_loop_trace (Turbofan.output_queue_ d) d
              eq_refl) as (evs & Htr & Hall & Hempty).
  exists evs. split; [exact Htr|]. split; [|split; [|split]].
  - clear Htr Hempty. induction Hall as [|j e out evs He Hall IH].
    + destruct Hin.
    + destruct Hin as [-> | Hin].
      * destruct He as [-> | [Hno _]]; [left; reflexivity|congruence].
      * right. apply IH. exact Hin.
  - clear Htr Hempty Hin. intros j r Hd.
    induction Hall as [|j' e out evs He Hall IH].
    + destruct Hd.
    + destruct Hd as [-> | Hd].
      * destruct He as [He | [Hno He]]; [discriminate|].
        injection He as <- _. exact Hno.
      * apply IH. exact Hd.
  - symmetry. eapply Forall2_length. exact Hall.
  - exact Hempty.
Qed.

Lemma InstallOptimizedFunctions_osr_witness :
  HasAvailableCodeKind (Turbofan.heap Examples.turbofan_osr)
    (closure Examples.job_osr) (code_kind Examples.job_osr) = true
  /\ exists evs,
       Turbofan.trace (Turbofan.InstallOptimizedFunctions Examples.turbofan_osr)
         = Turbofan.trace Examples.turbofan_osr ++ evs
       /\ In (EvFinalize Examples.job_osr) evs.
Proof.
  split; [reflexivity|].
  destruct (InstallOptimizedFunctions_osr Examples.turbofan_osr
              Examples.job_osr) as (evs & Htr & Hfin & _).
  - right. left. reflexivity.
  - reflexivity.
  - exists evs. split; assumption.
Defined.

(** ** C9: the size of the input-location array *)

Lemma DeoptFrame_chain_ind (P : Deopt.DeoptFrame -> Prop) :
  (forall d, P (Deopt.mkDeoptFrame d None)) ->
  (forall d p, P p -> P (Deopt.mkDeoptFrame d (Some p))) ->
  forall f, P f.
Proof.
  intros Hroot Hstep. fix IH 1. intros [d [p|]].
  - apply Hstep. apply IH.
  - apply Hroot.
Qed.

Lemma spec_frame_size_pos (d : Deopt.FrameData) :
  Deopt.frame_ok d -> 1 <= Deopt.spec_frame_size d.
Proof. destruct d; simpl; intros; lia. Qed.

Lemma spec_input_locations_size_pos (f : Deopt.DeoptFrame) :
  Forall Deopt.frame_ok (Deopt.frames f) ->
  1 <= Deopt.spec_input_locations_size f.
Proof.
  unfold Deopt.spec_input_locations_size.
  induction f as [d | d p IH] using DeoptFrame_chain_ind; simpl; intros Hok.
  - apply Forall_inv in Hok. apply spec_frame_size_pos in Hok. lia.
  - pose proof (spec_frame_size_pos d (Forall_inv Hok)).
    specialize (IH (Forall_inv_tail Hok)). lia.
Qed.

(** One turn of the loop adds the size of the frame by its type. *)
Lemma frame_contribution (d : Deopt.FrameData) (size : Z) :
  Deopt.frame_ok d -> 0 <= size ->
  size + Deopt.spec_frame_size d < size_t_mod ->
  match d with
  | Deopt.kInterpretedFrame frame_state_size =>
      wrap_size_t (size + wrap_size_t (Deopt.kClosureSize + frame_state_size))
  | Deopt.kInlinedArgumentsFrame arguments =>
      wrap_size_t (size + wrap_size_t (Deopt.kClosureSize
                                       + Deopt.vector_size arguments))
  | Deopt.kConstructStubFrame arguments_without_receiver =>
      wrap_size_t
        (size
         + wrap_size_t
             (wrap_size_t
                (Deopt.kClosureSize + Deopt.kReceiverSize
                 + Deopt.vector_size arguments_without_receiver)
              + Deopt.kContextSize))
  | Deopt.kBuiltinContinuationFrame parameters =>
      wrap_size_t (size + wrap_size_t (Deopt.vector_size parameters
                                       + Deopt.kContextSize))
  end = size + Deopt.spec_frame_size d.
Proof.
  intros Hok Hsize Hfit.
  unfold wrap_size_t, Deopt.kClosureSize, Deopt.kReceiverSize,
    Deopt.kContextSize, Deopt.vector_size.
  destruct d; cbn [Deopt.spec_frame_size Deopt.frame_ok] in *;
    repeat match goal with
           | |- context [?x mod size_t_mod] => rewrite (Z.mod_small x) by lia
           end; lia.
Qed.

(** The loop of the code computes the sum of the specification. *)
Lemma GetInputLocationsArraySize_loop_spec (f : Deopt.DeoptFrame) :
  forall size : Z,
  Forall Deopt.frame_ok (Deopt.frames f) ->
  0 <= size ->
  size + Deopt.spec_input_locations_size f < size_t_mod ->
  Deopt.GetInputLocationsArraySize_loop f size
  = size + Deopt.spec_input_locations_size f.
Proof.
  unfold Deopt.spec_input_locations_size.
  induction f as [d | d p IH] using DeoptFrame_chain_ind;
    intros size Hok Hsize Hfit; cbn [Deopt.frames map foldr] in *.
  - cbn [Deopt.GetInputLocationsArraySize_loop].
    rewrite frame_contribution; [lia | exact (Forall_inv Hok) | lia | lia].
  - pose proof (spec_frame_size_pos d (Forall_inv Hok)) as Hd.
    pose proof (spec_input_locations_size_pos p (Forall_inv_tail Hok)) as Hp.
    unfold Deopt.spec_input_locations_size in Hp.
    cbn [Deopt.GetInputLocationsArraySize_loop].
    rewrite frame_contribution; [| exact (Forall_inv Hok) | lia | lia].
    rewrite IH; [lia | exact (Forall_inv_tail Hok) | lia | lia].
Qed.

(** The constructor's loop initialises every slot of the array. *)
Lemma init_input_locations_spec (fuel : nat) :
  forall (i n : Z) (a : list Deopt.InputLocation),
  0 <= i <= n -> n < size_t_mod ->
  length a = Z.to_nat n ->
  (Z.to_nat (n - i) <= fuel)%nat ->
  Forall (fun l => l = Deopt.InputLocation_new) (take (Z.to_nat i) a) ->
  length (Deopt.init_input_locations fuel i n a) = length a /\
  Forall (fun l => l = Deopt.InputLocation_new)
    (Deopt.init_input_locations fuel i n a).
Proof.
  induction fuel as [|fuel IH]; intros i n a Hi Hn Hlen Hfuel Hinit.
  - simpl. split; [reflexivity|].
    rewrite take_ge in Hinit by lia. exact Hinit.
  - cbn [Deopt.init_input_locations].
    destruct (i <? n) eqn:E.
    + apply Z.ltb_lt in E.
      unfold wrap_size_t. rewrite Z.mod_small by lia.
      destruct (IH (i + 1) n (<[Z.to_nat i := Deopt.InputLocation_new]> a))
        as (Hl & Hall); try lia.
      * rewrite length_insert. exact Hlen.
      * replace (Z.to_nat (i + 1)) with (S (Z.to_nat i)) by lia.
        rewrite (take_S_r _ _ Deopt.InputLocation_new)
          by (apply list_lookup_insert_eq; lia).
        rewrite take_insert_ge by lia.
        apply Forall_app. split; [exact Hinit|].
        constructor; [reflexivity | constructor].
      * rewrite length_insert in Hl. split; assumption.
    + apply Z.ltb_ge in E. split; [reflexivity|].
      rewrite take_ge in Hinit by lia. exact Hinit.
Qed.

(** C9.  For every deopt frame with its chain of parent frames, the array
    of input locations that the constructor of [DeoptInfo] allocates has
    as many slots as the frame sizes summed over all frames: closure plus
    frame-state size for an interpreted frame, closure plus argument count
    for an inlined-arguments frame, closure, receiver, arguments without
    receiver and context for a construct-stub frame, parameters plus
    context for a builtin-continuation frame; and every slot is
    initialised. *)
Theorem DeoptInfo_input_locations_size (top_frame : Deopt.DeoptFrame)
    (feedback_to_update : nat) :
  Forall Deopt.frame_ok (Deopt.frames top_frame) ->
  Deopt.spec_input_locations_size top_frame < size_t_mod ->
  Deopt.GetInputLocationsArraySize top_frame
    = Deopt.spec_input_locations_size top_frame /\
  Z.of_nat (length (Deopt.input_locations_
                      (Deopt.DeoptInfo_new top_frame feedback_to_update)))
    = Deopt.spec_input_locations_size top_frame /\
  Forall (fun l => l = Deopt.InputLocation_new)
    (Deopt.input_locations_ (Deopt.DeoptInfo_new top_frame feedback_to_update)).
Proof.
  intros Hok Hfit.
  pose proof (spec_input_locations_size_pos top_frame Hok) as Hpos.
  assert (Hsize : Deopt.GetInputLocationsArraySize top_frame
                  = Deopt.spec_input_locations_size top_frame).
  { unfold Deopt.GetInputLocationsArraySize.
    rewrite GetInputLocationsArraySize_loop_spec; [lia | exact Hok | lia | lia]. }
  split; [exact Hsize|].
  unfold Deopt.DeoptInfo_new. cbn [Deopt.input_locations_]. rewrite Hsize.
  set (n := Deopt.spec_input_locations_size top_frame) in *.
  destruct (init_input_locations_spec (Z.to_nat n) 0 n
              (replicate (Z.to_nat n) Deopt.Uninitialised))
    as (Hl & Hall); try lia.
  - apply length_replicate.
  - simpl. constructor.
  - split; [|exact Hall].
    rewrite Hl, length_replicate. lia.
Qed.

Lemma DeoptInfo_input_locations_size_witness :
  Z.of_nat (length (Deopt.input_locations_
                      (Deopt.DeoptInfo_new Deopt.example_frame 0))) = 19.
Proof.
  refine (proj1 (proj2 (DeoptInfo_input_locations_size Deopt.example_frame 0
                          _ _))).
  - repeat constructor. simpl. lia.
  - reflexivity.
Defined.

(** ** C3: the lowering of a switch *)

Lemma arch_size_t_bits_cases (a : Riscv.Arch) :
  2 ^ Riscv.arch_size_t_bits a = 2 ^ 64 \/ 2 ^ Riscv.arch_size_t_bits a = 2 ^ 32.
Proof. destruct a; [left | right]; reflexivity. Qed.

(** Without wrap-around in the lookup cost, the test of [VisitSwitch] is
    the comparison of the two weighted costs, gated by the value range. *)
Lemma use_table_switch_spec `{Riscv.SelectorEnv} (sw : Riscv.SwitchInfo) :
  0 <= Riscv.case_count sw ->
  0 <= Riscv.value_range sw ->
  2 + 5 * Riscv.case_count sw < 2 ^ Riscv.arch_size_t_bits Riscv.arch ->
  Riscv.use_table_switch sw = true <->
  (0 < Riscv.case_count sw /\
   10 + 2 * Riscv.value_range sw + 3 * 3
     <= 2 + 2 * Riscv.case_count sw + 3 * Riscv.case_count sw /\
   - 2 ^ 31 < Riscv.min_value sw /\
   Riscv.value_range sw <= 131072).
Proof.
  intros Hcc Hvr Hfit.
  unfold Riscv.use_table_switch, Riscv.table_space_cost,
    Riscv.table_time_cost, Riscv.lookup_space_cost, Riscv.lookup_time_cost,
    Riscv.wrap_size, Riscv.int32_min.
  change Riscv.kMaxTableSwitchValueRange with 131072.
  set (M := 2 ^ Riscv.arch_size_t_bits Riscv.arch) in *.
  assert (HM : 2 ^ 32 <= M)
    by (subst M; destruct (arch_size_t_bits_cases Riscv.arch) as [-> | ->]; lia).
  rewrite !andb_true_iff, !Z.ltb_lt, !Z.leb_le.
  destruct (Z_le_gt_dec (Riscv.value_range sw) 131072) as [Hsmall | Hbig].
  - repeat match goal with
           | |- context [?x mod M] => rewrite (Z.mod_small x) by lia
           end.
    lia.
  - lia.
Qed.

(** C3 (as stated) fails at its first instance: for five cases over a
    value range of six the selector generates a binary search, the table
    costing 10 + 2 * 6 + 3 * 3 = 31 against 2 + 2 * 5 + 3 * 5 = 27. *)
Lemma five_cases_range_six_is_binary_search :
  Riscv.switch_opcode
    (Riscv.VisitSwitch (H := Riscv.example_env) Riscv.kEnableSwitchJumpTable
       (Riscv.mkNode 9 Riscv.kSwitch 0 [Riscv.example_x])
       (Riscv.mkSwitchInfo 5 6 0))
  <> Some Riscv.kArchTableSwitch.
Proof. vm_compute. discriminate. Qed.

(** C3 (amended).  With jump tables enabled, [VisitSwitch] generates a
    table switch when there is at least one case, the table cost
    [10 + 2 * value_range + 3 * 3] is at most the lookup cost
    [2 + 2 * case_count + 3 * case_count], the least case value is above
    the least [int32_t], and the value range is at most [2 << 16]; it
    generates a binary search otherwise, and always when jump tables are
    disabled.  For five cases over a range of six, and for three cases
    over a range of 1000000, that is a binary search; for six cases over
    a range of six it is a table. *)
Theorem VisitSwitch_decision `{Riscv.SelectorEnv} (node : Riscv.Node)
    (sw : Riscv.SwitchInfo) :
  0 <= Riscv.case_count sw ->
  0 <= Riscv.value_range sw ->
  2 + 5 * Riscv.case_count sw < 2 ^ Riscv.arch_size_t_bits Riscv.arch ->
  let table :=
    0 < Riscv.case_count sw /\
    10 + 2 * Riscv.value_range sw + 3 * 3
      <= 2 + 2 * Riscv.case_count sw + 3 * Riscv.case_count sw /\
    - 2 ^ 31 < Riscv.min_value sw /\
    Riscv.value_range sw <= 131072 in
  let chosen :=
    Riscv.switch_opcode (Riscv.VisitSwitch Riscv.kEnableSwitchJumpTable node sw) in
  (table -> chosen = Some Riscv.kArchTableSwitch) /\
  (~ table -> chosen = Some Riscv.kArchBinarySearchSwitch) /\
  Riscv.switch_opcode (Riscv.VisitSwitch Riscv.kDisableSwitchJumpTable node sw)
    = Some Riscv.kArchBinarySearchSwitch /\
  (Riscv.case_count sw = 5 -> Riscv.value_range sw = 6 ->
   chosen = Some Riscv.kArchBinarySearchSwitch) /\
  (Riscv.case_count sw = 3 -> Riscv.value_range sw = 1000000 ->
   chosen = Some Riscv.kArchBinarySearchSwitch) /\
  (Riscv.case_count sw = 6 -> Riscv.value_range sw = 6 ->
   - 2 ^ 31 < Riscv.min_value sw ->
   chosen = Some Riscv.kArchTableSwitch).
Proof.
  intros Hcc Hvr Hfit table chosen.
  pose proof (use_table_switch_spec sw Hcc Hvr Hfit) as Hspec.
  fold table in Hspec.
  assert (Hyes : table -> chosen = Some Riscv.kArchTableSwitch).
  { intros Ht. apply Hspec in Ht. subst chosen. unfold Riscv.VisitSwitch.
    rewrite Ht. destruct (Riscv.min_value sw =? 0); reflexivity. }
  assert (Hno : ~ table -> chosen = Some Riscv.kArchBinarySearchSwitch).
  { intros Hn. subst chosen. unfold Riscv.VisitSwitch.
    destruct (Riscv.use_table_switch sw) eqn:E; [|reflexivity].
    exfalso. apply Hn, Hspec. reflexivity. }
  split; [exact Hyes|]. split; [exact Hno|]. split; [reflexivity|].
  split; [|split].
  - intros E5 E6. apply Hno. subst table. lia.
  - intros E3 Er. apply Hno. subst table. lia.
  - intros E6 Er Hmin. apply Hyes. subst table. lia.
Qed.

Lemma VisitSwitch_decision_witness :
  Riscv.switch_opcode
    (Riscv.VisitSwitch (H := Riscv.example_env) Riscv.kEnableSwitchJumpTable
       (Riscv.mkNode 9 Riscv.kSwitch 0 [Riscv.example_x])
       (Riscv.mkSwitchInfo 6 6 1))
  = Some Riscv.kArchTableSwitch.
Proof.
  refine (proj1 (VisitSwitch_decision (H := Riscv.example_env)
                   (Riscv.mkNode 9 Riscv.kSwitch 0 [Riscv.example_x])
                   (Riscv.mkSwitchInfo 6 6 1) _ _ _) _).
  all: vm_compute; repeat split; congruence.
Defined.

(** ** C5: operands of a word comparison with an immediate on the left *)

(** C5 (as stated) fails: for [5 < x] the selector swaps the operands and
    commutes the condition to greater-than, for which the RISC-V compare
    has no immediate form, and the constant goes to a register. *)
Lemma swapped_immediate_is_materialized :
  let node := Riscv.example_less_than in
  let i := Riscv.VisitWordCompare (H := Riscv.example_env) node Riscv.kRiscvCmp
             (Riscv.mkCont Riscv.kFlags_branch Riscv.kSignedLessThan) false in
  Riscv.CanBeImmediate (H := Riscv.example_env) (Riscv.InputAt node 0)
    Riscv.kRiscvCmp = true /\
  Riscv.CanBeImmediate (H := Riscv.example_env) (Riscv.InputAt node 1)
    Riscv.kRiscvCmp = false /\
  In (Riscv.UseRegister (Riscv.id (Riscv.InputAt node 0)))
     (Riscv.instr_inputs i).
Proof. vm_compute. repeat split; auto. Qed.

(** C5 (amended).  For a word comparison whose left operand can be an
    immediate of the comparison opcode and whose right operand cannot, the
    selector commutes the condition of the continuation and swaps the
    operands: the right operand comes first, the left operand second, or
    the comparison becomes a comparison of the right operand with zero.
    The left operand is encoded as an immediate for the test opcodes, for
    equality conditions of a set continuation, and for the conditions
    whose commuted form is less-than or greater-or-equal; for the other
    conditions, and for equality conditions of a continuation that is not
    a set, it is put in a register.  Outside the test opcodes the
    comparison becomes a comparison with zero exactly when the matcher
    finds the constant zero and the condition is not an equality of a set
    continuation. *)
Theorem VisitWordCompare_swap `{Riscv.SelectorEnv} (node : Riscv.Node)
    (opcode : Riscv.InstructionCode) (cont : Riscv.FlagsContinuation)
    (commutative : bool) :
  Riscv.CanBeImmediate (Riscv.InputAt node 0) opcode = true ->
  Riscv.CanBeImmediate (Riscv.InputAt node 1) opcode = false ->
  let left := Riscv.InputAt node 0 in
  let right := Riscv.InputAt node 1 in
  let i := Riscv.VisitWordCompare node opcode cont commutative in
  let zero := Riscv.Is (Riscv.m_right (Riscv.Int32BinopMatcher_swap node)) 0 in
  let zero_number :=
    Riscv.IsZero (Riscv.m_right (Riscv.NumberBinopMatcher_swap node)) in
  let equality := Riscv.condition cont = Riscv.kEqual
                  \/ Riscv.condition cont = Riscv.kNotEqual in
  Riscv.instr_cont i = Some (Riscv.Commute cont) /\
  ((Riscv.instr_opcode i = Riscv.kRiscvCmpZero /\
    Riscv.instr_inputs i = [Riscv.UseRegisterOrImmediateZero right]) \/
   (Riscv.instr_opcode i = opcode /\
    exists r, (r = right \/ r = Riscv.InputAt right 0) /\
      (Riscv.instr_inputs i
         = [Riscv.UseRegister (Riscv.id r); Riscv.UseImmediate (Riscv.id left)]
       \/ Riscv.instr_inputs i
         = [Riscv.UseRegister (Riscv.id r); Riscv.UseRegister (Riscv.id left)]))) /\
  (Riscv.is_Tst opcode = true ->
   exists r, Riscv.instr_inputs i
     = [Riscv.UseRegister (Riscv.id r); Riscv.UseImmediate (Riscv.id left)]) /\
  (Riscv.is_Tst opcode = false -> zero = false ->
   Riscv.immediate_after_commute (Riscv.condition cont) = true ->
   Riscv.instr_inputs i
     = [Riscv.UseRegister (Riscv.id right); Riscv.UseImmediate (Riscv.id left)]) /\
  (Riscv.is_Tst opcode = false -> zero = false ->
   Riscv.register_after_commute (Riscv.condition cont) = true ->
   Riscv.instr_inputs i
     = [Riscv.UseRegister (Riscv.id right); Riscv.UseRegister (Riscv.id left)]) /\
  (Riscv.is_Tst opcode = false -> equality ->
   Riscv.IsSet cont = true ->
   Riscv.instr_opcode i = opcode /\
   Riscv.instr_inputs i
     = [Riscv.UseRegister (Riscv.id right); Riscv.UseImmediate (Riscv.id left)]) /\
  (Riscv.is_Tst opcode = false -> equality ->
   Riscv.IsSet cont = false -> zero || zero_number = false ->
   Riscv.instr_opcode i = opcode /\
   Riscv.instr_inputs i
     = [Riscv.UseRegister (Riscv.id right); Riscv.UseRegister (Riscv.id left)]) /\
  (Riscv.is_Tst opcode = false -> equality ->
   Riscv.IsSet cont = false -> zero || zero_number = true ->
   Riscv.instr_opcode i = Riscv.kRiscvCmpZero /\
   Riscv.instr_inputs i = [Riscv.UseRegisterOrImmediateZero right]) /\
  (Riscv.is_Tst opcode = false -> ~ equality -> zero = true ->
   Riscv.instr_opcode i = Riscv.kRiscvCmpZero /\
   Riscv.instr_inputs i = [Riscv.UseRegisterOrImmediateZero right]).
Proof.
  intros Hl Hr left right i zero zero_number equality.
  subst i zero zero_number equality left right.
  unfold Riscv.VisitWordCompare.
  rewrite Hl, Hr. cbn [negb andb]. rewrite Hl.
  set (left := Riscv.InputAt node 0) in *.
  set (right := Riscv.InputAt node 1) in *.
  destruct (Riscv.is_Tst opcode) eqn:ET.
  - destruct (Riscv.IrOpcode_eqb (Riscv.opcode right)
                Riscv.kTruncateInt64ToInt32);
      cbn [Riscv.VisitCompare Riscv.instr_cont Riscv.instr_opcode
           Riscv.instr_inputs];
      (split; [reflexivity|]); (split; [right; split; [reflexivity|]|]);
      try (split; [intros _; eexists; reflexivity|]);
      try (split; [intros; discriminate|]);
      try (split; [intros; discriminate|]);
      try (split; [intros; discriminate|]);
      try (split; [intros; discriminate|]);
      try (split; [intros; discriminate|]);
      try (intros; discriminate).
    + exists (Riscv.InputAt right 0). split; [right; reflexivity|].
      left. reflexivity.
    + exists right. split; [left; reflexivity|]. left. reflexivity.
  - assert (HS : Riscv.IsSet (Riscv.Commute cont) = Riscv.IsSet cont)
      by reflexivity.
    rewrite HS. clear HS.
    destruct cont as [m c].
    destruct c, (Riscv.IsSet (Riscv.mkCont m _)) eqn:ES;
      cbn [Riscv.Commute Riscv.CommuteFlagsCondition Riscv.condition
           Riscv.mode Riscv.immediate_after_commute
           Riscv.register_after_commute] in *;
      destruct (Riscv.Is (Riscv.m_right (Riscv.Int32BinopMatcher_swap node)) 0)
        eqn:EZ;
      cbn [orb];
      try destruct (Riscv.IsZero
                      (Riscv.m_right (Riscv.NumberBinopMatcher_swap node)));
      cbn [Riscv.VisitCompare Riscv.VisitWordCompareZero Riscv.instr_cont
           Riscv.instr_opcode Riscv.instr_inputs];
      (split; [reflexivity|]);
      (split;
       [first [ left; split; reflexivity
              | right; split; [reflexivity|]; exists right;
                split; [left; reflexivity|];
                first [left; reflexivity | right; reflexivity] ]
       |]);
      (split; [intros; discriminate|]);
      (split; [intros; first [discriminate | reflexivity]|]);
      (split; [intros; first [discriminate | reflexivity]|]);
      (split; [intros _ Heq; intros;
               first [ discriminate
                     | destruct Heq; discriminate
                     | split; reflexivity ]|]);
      (split; [intros _ Heq; intros;
               first [ discriminate
                     | destruct Heq; discriminate
                     | split; reflexivity ]|]);
      (split; [intros _ Heq; intros;
               first [ discriminate
                     | destruct Heq; discriminate
                     | split; reflexivity ]|]);
      intros _ Hne; intros;
      first [ discriminate
            | exfalso; apply Hne; auto; fail
            | split; reflexivity ].
Qed.

Lemma VisitWordCompare_swap_witness :
  Riscv.instr_cont
    (Riscv.VisitWordCompare (H := Riscv.example_env) Riscv.example_less_than
       Riscv.kRiscvCmp
       (Riscv.mkCont Riscv.kFlags_branch Riscv.kSignedLessThan) false)
  = Some (Riscv.mkCont Riscv.kFlags_branch Riscv.kSignedGreaterThan).
Proof.
  refine (proj1 (VisitWordCompare_swap (H := Riscv.example_env)
                   Riscv.example_less_than Riscv.kRiscvCmp
                   (Riscv.mkCont Riscv.kFlags_branch Riscv.kSignedLessThan)
                   false _ _)); reflexivity.
Defined.

(** ** C6: fusion of shift patterns *)

Lemma InputAt_binop (n l r : Riscv.Node) (op : Riscv.IrOpcode) :
  Riscv.is_binop n op l r ->
  Riscv.opcode n = op /\ Riscv.InputAt n 0 = l /\ Riscv.InputAt n 1 = r.
Proof.
  intros [Hop Hin]. unfold Riscv.InputAt. rewrite Hin. auto.
Qed.

(** A run of [w] set bits from bit 0 has [w] set bits and [32 - w] clear
    bits above them. *)
Lemma low_mask_counts (w : Z) :
  1 <= w <= 32 ->
  Riscv.CountPopulation (2 ^ w - 1) = w /\
  Riscv.CountLeadingZeros32 (2 ^ w - 1) = 32 - w.
Proof.
  intros Hw.
  assert (Hall : forallb
            (fun v => (Riscv.CountPopulation (2 ^ v - 1) =? v)
                      && (Riscv.CountLeadingZeros32 (2 ^ v - 1) =? 32 - v))
            (map Z.of_nat (seq 1 32)) = true) by (vm_compute; reflexivity).
  rewrite List.forallb_forall in Hall.
  specialize (Hall w). rewrite andb_true_iff, !Z.eqb_eq in Hall.
  apply Hall. apply List.in_map_iff. exists (Z.to_nat w).
  split; [lia|]. apply List.in_seq. lia.
Qed.

(** The fused shift computes the word of the unfused pattern: the bits
    that the mask clears are shifted out. *)
Lemma shl_of_low_mask (x k w : Z) :
  0 <= k -> 0 <= w -> 32 <= k + w ->
  Riscv.word32_shl (Riscv.word32_and x (2 ^ w - 1)) k = Riscv.word32_shl x k.
Proof.
  intros Hk Hw Hkw. unfold Riscv.word32_shl, Riscv.word32_and, Riscv.wrap32.
  apply Z.bits_inj'. intros n Hn.
  rewrite !Z.testbit_mod_pow2 by lia.
  destruct (n <? 32) eqn:E; [|reflexivity]. apply Z.ltb_lt in E.
  cbn [andb]. rewrite !Z.shiftl_spec by lia.
  destruct (Z.lt_ge_cases (n - k) 0) as [Hneg | Hpos].
  - rewrite !Z.testbit_neg_r by lia. reflexivity.
  - rewrite Z.land_spec, !Z.testbit_mod_pow2 by lia.
    replace (n - k <? 32) with true by (symmetry; apply Z.ltb_lt; lia).
    cbn [andb].
    replace (2 ^ w - 1) with (Z.ones w)
      by (rewrite Z.ones_equiv; lia).
    rewrite Z.ones_spec_low by lia. apply andb_true_r.
Qed.

(** A mask that reaches the top bit without reaching bit 0 is not such a
    mask: fusing would change the word. *)
Lemma shl_of_top_mask_differs :
  Riscv.word32_shl (Riscv.word32_and 1 0xFFFF0000) 1 <> Riscv.word32_shl 1 1.
Proof. vm_compute. discriminate. Qed.

(** C6 (as stated) fails for the shift-left pattern: with the mask
    [0xFFFF0000], a run of set bits that reaches the top bit, the shift is
    not taken on [x] but on the masked value, which stays in the code. *)
Lemma top_mask_is_not_fused :
  Riscv.VisitWord32Shl (H := Riscv.example_env) Riscv.example_shl_top_mask
  <> [Riscv.mkInstruction Riscv.kRiscvShl32 [Riscv.DefineAsRegister 5]
        [Riscv.UseRegister (Riscv.id Riscv.example_x); Riscv.UseImmediate 3]
        None].
Proof. vm_compute. discriminate. Qed.

(** C6 (amended).  When the intermediate node is covered by its consumer:
    shift-left by a constant [k] in 1..31 of the bitwise-and of [x] with a
    constant mask that is a run of [w] set bits starting at bit 0, where
    [k + w >= 32] so that the shifted run reaches or passes the top bit,
    is lowered to one 32-bit shift-left of [x] by the immediate [k]; and
    arithmetic-shift-right by [k] of shift-left of [x] by the same
    constant [k] is lowered to one sign-extend-short for [k = 16], one
    sign-extend-byte for [k = 24], and one 32-bit shift-left by the
    immediate 0, which sign-extends the word, for [k = 32]. *)
Theorem shift_fusion `{Riscv.SelectorEnv} :
  (forall (node and_node x mask_node k_node : Riscv.Node) (mask k w : Z),
     Riscv.is_binop node Riscv.kWord32Shl and_node k_node ->
     Riscv.is_binop and_node Riscv.kWord32And x mask_node ->
     Riscv.is_int32 mask_node mask ->
     Riscv.is_int32 k_node k ->
     Riscv.CanCover node and_node = true ->
     1 <= k <= 31 -> 1 <= w <= 32 ->
     Riscv.wrap32 mask = 2 ^ w - 1 ->
     32 <= k + w ->
     Riscv.VisitWord32Shl node
     = [Riscv.mkInstruction Riscv.kRiscvShl32
          [Riscv.DefineAsRegister (Riscv.id node)]
          [Riscv.UseRegister (Riscv.id x); Riscv.UseImmediate (Riscv.id k_node)]
          None]) /\
  (forall (node shl_node x k1_node k2_node : Riscv.Node) (k : Z),
     Riscv.is_binop node Riscv.kWord32Sar shl_node k2_node ->
     Riscv.is_binop shl_node Riscv.kWord32Shl x k1_node ->
     Riscv.is_int32 k1_node k ->
     Riscv.is_int32 k2_node k ->
     Riscv.CanCover node shl_node = true ->
     (k = 16 ->
      Riscv.VisitWord32Sar node
      = [Riscv.mkInstruction Riscv.kRiscvSignExtendShort
           [Riscv.DefineAsRegister (Riscv.id node)]
           [Riscv.UseRegister (Riscv.id x)] None]) /\
     (k = 24 ->
      Riscv.VisitWord32Sar node
      = [Riscv.mkInstruction Riscv.kRiscvSignExtendByte
           [Riscv.DefineAsRegister (Riscv.id node)]
           [Riscv.UseRegister (Riscv.id x)] None]) /\
     (k = 32 ->
      Riscv.VisitWord32Sar node
      = [Riscv.mkInstruction Riscv.kRiscvShl32
           [Riscv.DefineAsRegister (Riscv.id node)]
           [Riscv.UseRegister (Riscv.id x); Riscv.TempImmediate 0] None])).
Proof.
  split.
  - intros node and_node x mask_node k_node mask k w
      Hshl Hand [Hmop Hmv] [Hkop Hkv] Hcover Hk Hw Hmask Hkw.
    apply InputAt_binop in Hshl. destruct Hshl as (Hop & Hi0 & Hi1).
    apply InputAt_binop in Hand. destruct Hand as (Haop & Ha0 & Ha1).
    destruct (low_mask_counts w Hw) as (Hpop & Hclz).
    unfold Riscv.VisitWord32Shl, Riscv.Int32BinopMatcher.
    rewrite Hop, Hi0, Hi1. cbn [Riscv.IsCommutative Riscv.m_left Riscv.m_right].
    rewrite Haop, Ha0, Ha1, Hcover.
    cbn [Riscv.IrOpcode_eqb Riscv.IsCommutative andb].
    unfold Riscv.IsInRange, Riscv.PutConstantOnRight, Riscv.HasResolvedValue,
      Riscv.ResolvedValue.
    cbn [Riscv.m_left Riscv.m_right].
    rewrite Hkop, Hmop. cbn [Riscv.IrOpcode_eqb negb andb].
    rewrite andb_false_r. cbn [Riscv.m_left Riscv.m_right].
    rewrite Hmop, Hkv, Hmv. cbn [Riscv.IrOpcode_eqb andb].
    replace (1 <=? k) with true by (symmetry; apply Z.leb_le; lia).
    replace (k <=? 31) with true by (symmetry; apply Z.leb_le; lia).
    rewrite Hmask, Hpop, Hclz. cbn [andb].
    replace (w =? 0) with false by (symmetry; apply Z.eqb_neq; lia).
    replace (32 - w + w) with 32 by lia.
    change (Riscv.wrap32 32 =? 32) with true. cbn [negb andb].
    unfold Riscv.wrap32. rewrite (Z.mod_small k) by lia.
    rewrite (Z.mod_small (k + w)) by lia.
    replace (32 <=? k + w) with true by (symmetry; apply Z.leb_le; lia).
    reflexivity.
  - intros node shl_node x k1_node k2_node k
      Hsar Hshl [H1op H1v] [H2op H2v] Hcover.
    apply InputAt_binop in Hsar. destruct Hsar as (Hop & Hi0 & Hi1).
    apply InputAt_binop in Hshl. destruct Hshl as (Hsop & Hs0 & Hs1).
    unfold Riscv.VisitWord32Sar, Riscv.Int32BinopMatcher.
    rewrite Hop, Hi0, Hi1. cbn [Riscv.IsCommutative Riscv.m_left Riscv.m_right].
    rewrite Hsop, Hs0, Hs1, Hcover.
    cbn [Riscv.IrOpcode_eqb Riscv.IsCommutative Riscv.m_left Riscv.m_right].
    unfold Riscv.HasResolvedValue, Riscv.ResolvedValue.
    rewrite H1op, H2op, H1v, H2v. cbn [Riscv.IrOpcode_eqb andb].
    repeat split; intros ->; reflexivity.
Qed.

Lemma shift_fusion_witness :
  Riscv.VisitWord32Shl (H := Riscv.example_env) Riscv.example_shl_low_mask
  = [Riscv.mkInstruction Riscv.kRiscvShl32 [Riscv.DefineAsRegister 5]
       [Riscv.UseRegister 1; Riscv.UseImmediate 3] None]
  /\ Riscv.VisitWord32Sar (H := Riscv.example_env) Riscv.example_sar_shl
     = [Riscv.mkInstruction Riscv.kRiscvSignExtendByte
          [Riscv.DefineAsRegister 5] [Riscv.UseRegister 1] None].
Proof.
  split.
  - refine (proj1 (shift_fusion (H := Riscv.example_env))
              Riscv.example_shl_low_mask
              (Riscv.InputAt Riscv.example_shl_low_mask 0) Riscv.example_x
              (Riscv.example_const 2 0xFFFF) (Riscv.example_const 3 16)
              0xFFFF 16 16 _ _ _ _ _ _ _ _ _).
    all: try (split; reflexivity).
    all: try reflexivity.
    all: lia.
  - refine (proj1 (proj2 (proj2 (shift_fusion (H := Riscv.example_env))
              Riscv.example_sar_shl
              (Riscv.InputAt Riscv.example_sar_shl 0) Riscv.example_x
              (Riscv.example_const 2 24) (Riscv.example_const 3 24)
              24 _ _ _ _ _)) _).
    all: try (split; reflexivity).
    all: reflexivity.
Defined.

(** ** C7: the bounds checks compare unsigned *)
















(** * Further properties of the dispatchers *)

Section TurbofanMore.
Context `{CompilerEnv}.

Lemma pending_length (d : Turbofan.Dispatcher) :
  length (Turbofan.pending d) = Z.to_nat (Turbofan.input_queue_length_ d).
Proof. apply pending_from_length. Qed.

Lemma NextInput_capacity (d : Turbofan.Dispatcher) :
  Turbofan.input_queue_capacity_ (snd (Turbofan.NextInput d))
  = Turbofan.input_queue_capacity_ d.
Proof.
  unfold Turbofan.NextInput.
  destruct (Turbofan.input_queue_length_ d =? 0); reflexivity.
Qed.

Lemma NextInput_output (d : Turbofan.Dispatcher) :
  Turbofan.output_queue_ (snd (Turbofan.NextInput d))
  = Turbofan.output_queue_ d.
Proof.
  unfold Turbofan.NextInput.
  destruct (Turbofan.input_queue_length_ d =? 0); reflexivity.
Qed.

(** With a delegate that never yields, the loop of [Run] takes every
    pending job. *)
Lemma Turbofan_Run_loop_all (fuel : nat) (delegate : nat -> bool) :
  (forall n, delegate n = false) ->
  forall (calls : nat) (d : Turbofan.Dispatcher) (js : list Job),
  Turbofan.ring_ok d ->
  Turbofan.pending d = map Some js ->
  (Z.to_nat (Turbofan.input_queue_length_ d) < fuel)%nat ->
  let d' := Turbofan.Run_loop fuel delegate calls d in
  Turbofan.output_queue_ d' = Turbofan.output_queue_ d ++ js /\
  Turbofan.input_queue_length_ d' = 0 /\
  Turbofan.ring_ok d' /\
  Turbofan.in_flight_ d' = Turbofan.in_flight_ d /\
  Turbofan.job_handle_ d' = Turbofan.job_handle_ d /\
  Turbofan.heap d' = Turbofan.heap d /\
  disposals (Turbofan.trace d') = disposals (Turbofan.trace d) /\
  handle_calls (Turbofan.trace d') = handle_calls (Turbofan.trace d).
Proof.
  intros Hnever. induction fuel as [|fuel IH];
    intros calls d js Hok Hp Hfuel; [lia|].
  cbn [Turbofan.Run_loop]. cbn zeta. rewrite Hnever.
  destruct (Z.eq_dec (Turbofan.input_queue_length_ d) 0) as [E|E].
  - rewrite NextInput_empty by exact E.
    assert (js = []).
    { apply (f_equal (@length _)) in Hp.
      rewrite pending_length, length_map, E in Hp.
      destruct js; [reflexivity | discriminate]. }
    subst js. rewrite app_nil_r. auto 10.
  - assert (Hpos : 0 < Turbofan.input_queue_length_ d)
      by (destruct Hok as (_ & _ & _ & ?); lia).
    destruct (NextInput_ring d Hok Hpos) as (Hok1 & Hl1 & Hp1).
    pose proof (NextInput_output d) as Ho1.
    assert (Hsame : Turbofan.in_flight_ (snd (Turbofan.NextInput d))
                    = Turbofan.in_flight_ d /\
                    Turbofan.job_handle_ (snd (Turbofan.NextInput d))
                    = Turbofan.job_handle_ d /\
                    Turbofan.heap (snd (Turbofan.NextInput d))
                    = Turbofan.heap d /\
                    Turbofan.trace (snd (Turbofan.NextInput d))
                    = Turbofan.trace d).
    { unfold Turbofan.NextInput.
      destruct (Turbofan.input_queue_length_ d =? 0); auto. }
    destruct Hsame as (Sf & Sh & Shp & St).
    destruct (Turbofan.NextInput d) as [j' d1]. cbn [fst snd] in *.
    rewrite Hp in Hp1. destruct js as [|j js]; [discriminate|].
    simpl in Hp1. injection Hp1 as Hj Hrest. subst j'.
    destruct (CompileNext_frame j d1)
      as (G1 & G2 & G3 & G4 & G5 & G6 & G7 & G8 & G9 & G10 & G11).
    cbn zeta in *.
    destruct (IH (S calls) (Turbofan.CompileNext (Some j) d1) js)
      as (I1 & I2 & I3 & I4 & I5 & I6 & I7 & I8).
    + apply CompileNext_ring_ok. exact Hok1.
    + rewrite CompileNext_pending. symmetry. exact Hrest.
    + rewrite G4, Hl1. lia.
    + rewrite I1, I2, I4, I5, I6, I7, I8, G1, G6, G7, G9, G10, G11,
        Ho1, Sf, Sh, Shp, St, <- app_assoc.
      auto 10.
Qed.

End TurbofanMore.


Lemma Maglev_Run_loop_all (incoming : Maglev.QueueT) (delegate : nat -> bool) :
  (forall n, delegate n = false) ->
  forall (calls : nat) (d : Maglev.Dispatcher),
  Maglev.Run_loop incoming delegate calls d
  = Maglev.mkDispatcher
      (match incoming with [] => Maglev.incoming_queue_ d | _ => [] end)
      (Maglev.outgoing_queue_ d ++ List.filter succeeded incoming)
      (Maglev.job_handle_ d) (Maglev.in_flight_ d)
      (Maglev.destroyed d
       ++ List.filter (fun j => negb (succeeded j)) incoming)
      (Maglev.trace d).
Proof.
  intros Hnever. induction incoming as [|job rest IH]; intros calls d.
  - simpl. rewrite !app_nil_r. destruct d; reflexivity.
  - cbn [Maglev.Run_loop]. rewrite Hnever, IH.
    unfold Maglev.Run_body, succeeded. cbn [List.filter].
    destruct (Status_eqb (ExecuteJob job) SUCCEEDED);
      cbn [negb Maglev.incoming_queue_ Maglev.outgoing_queue_
           Maglev.job_handle_ Maglev.in_flight_ Maglev.destroyed Maglev.trace];
      unfold Maglev.Enqueue; rewrite <- ?app_assoc;
      destruct rest; reflexivity.
Qed.

Lemma FinalizeFinishedJobs_loop_spec (q : Maglev.QueueT)
    (d : Maglev.Dispatcher) :
  Maglev.outgoing_queue_ d = q ->
  Maglev.FinalizeFinishedJobs_loop q d
  = Maglev.mkDispatcher (Maglev.incoming_queue_ d) [] (Maglev.job_handle_ d)
      (Maglev.in_flight_ d) (Maglev.destroyed d ++ q)
      (Maglev.trace d ++ map EvFinalize q).
Proof.
  revert d. induction q as [|j q IH]; intros d Hq.
  - simpl. rewrite !app_nil_r. destruct d; simpl in *. subst. reflexivity.
  - simpl. rewrite IH by reflexivity. simpl. rewrite <- !app_assoc.
    reflexivity.
Qed.


(** X1.  The input queue of the optimizing dispatcher behaves as a
    first-in first-out list under every interleaving of
    [QueueForOptimization] and [NextInput] that never enqueues into a full
    queue: each [NextInput] returns the oldest job still queued, or null
    when none is, and the ring stays sound. *)
Theorem input_queue_refines_fifo `{CompilerEnv}
    (ops : list Turbofan.QueueOp) (d : Turbofan.Dispatcher) (q : list Job) :
  Turbofan.ring_ok d ->
  Turbofan.pending d = map Some q ->
  Turbofan.within_capacity (Z.to_nat (Turbofan.input_queue_capacity_ d)) ops
    (length q) = true ->
  fst (Turbofan.run_ops ops d) = fst (Turbofan.fifo_ops ops q) /\
  Turbofan.pending (snd (Turbofan.run_ops ops d))
    = map Some (snd (Turbofan.fifo_ops ops q)) /\
  Turbofan.ring_ok (snd (Turbofan.run_ops ops d)).
Proof.
  revert d q. induction ops as [|op ops IH]; intros d q Hok Hp Hcap.
  - simpl. auto.
  - assert (Hlen : Z.to_nat (Turbofan.input_queue_length_ d) = length q).
    { rewrite <- pending_length, Hp, length_map. reflexivity. }
    destruct op as [job|]; cbn [Turbofan.run_ops Turbofan.fifo_ops].
    + cbn [Turbofan.within_capacity] in Hcap.
      apply andb_true_iff in Hcap. destruct Hcap as [Hlt Hcap].
      apply Nat.ltb_lt in Hlt.
      destruct (QueueForOptimization_ring job d Hok)
        as (Hok1 & Hl1 & Hp1).
      { destruct Hok as (_ & _ & _ & ?). lia. }
      apply IH.
      * exact Hok1.
      * rewrite Hp1, Hp, map_app. reflexivity.
      * rewrite length_app. cbn [length].
        replace (length q + 1)%nat with (S (length q)) by lia. exact Hcap.
    + cbn [Turbofan.within_capacity] in Hcap.
      destruct q as [|j q1].
      * assert (E : Turbofan.input_queue_length_ d = 0)
          by (destruct Hok as (_ & _ & _ & ?); simpl in Hlen; lia).
        rewrite (NextInput_empty d E).
        destruct (IH d [] Hok Hp Hcap) as (Hf & Hq & Hr).
        destruct (Turbofan.run_ops ops d) as [js d2].
        destruct (Turbofan.fifo_ops ops []) as [js' q'].
        simpl in *. subst. auto.
      * assert (Hpos : 0 < Turbofan.input_queue_length_ d)
          by (simpl in Hlen; lia).
        destruct (NextInput_ring d Hok Hpos) as (Hok1 & Hl1 & Hp1).
        pose proof (NextInput_capacity d) as Hc1.
        destruct (Turbofan.NextInput d) as [j' d1]. cbn [fst snd] in *.
        rewrite Hp in Hp1. simpl in Hp1. injection Hp1 as Hj Hrest.
        destruct (IH d1 q1 Hok1) as (Hf & Hq & Hr).
        { symmetry. exact Hrest. }
        { rewrite Hc1. exact Hcap. }
        destruct (Turbofan.run_ops ops d1) as [js d2].
        destruct (Turbofan.fifo_ops ops q1) as [js' q'].
        simpl in *. subst. auto.
Qed.

Lemma input_queue_refines_fifo_witness :
  fst (Turbofan.run_ops Examples.example_ops Examples.turbofan0)
  = [Some Examples.job_a; Some Examples.job_b; Some Examples.job_c; None].
Proof.
  refine (proj1 (input_queue_refines_fifo Examples.example_ops
                   Examples.turbofan0 [] _ _ _)).
  - unfold Turbofan.ring_ok. simpl. lia.
  - reflexivity.
  - reflexivity.
Defined.

(** X2.  A worker of the optimizing dispatcher that is never asked to
    yield empties the input queue and pushes every pending job to the
    output queue in the order of the queue, without disposing of any and
    without touching the job handle; a worker that is asked to yield at
    once leaves the dispatcher as it is. *)
Theorem Run_drains_input_queue `{CompilerEnv} (delegate : nat -> bool)
    (d : Turbofan.Dispatcher) (js : list Job) :
  Turbofan.ring_ok d ->
  Turbofan.pending d = map Some js ->
  ((forall n, delegate n = false) ->
   Turbofan.output_queue_ (Turbofan.Run delegate d)
     = Turbofan.output_queue_ d ++ js /\
   Turbofan.input_queue_length_ (Turbofan.Run delegate d) = 0 /\
   disposals (Turbofan.trace (Turbofan.Run delegate d))
     = disposals (Turbofan.trace d) /\
   handle_calls (Turbofan.trace (Turbofan.Run delegate d))
     = handle_calls (Turbofan.trace d)) /\
  (delegate 0%nat = true -> Turbofan.Run delegate d = d).
Proof.
  intros Hok Hp. split.
  - intros Hnever.
    destruct (Turbofan_Run_loop_all
                (S (Z.to_nat (Turbofan.input_queue_length_ d))) delegate
                Hnever 0 d js Hok Hp)
      as (I1 & I2 & I3 & I4 & I5 & I6 & I7 & I8); [lia|].
    unfold Turbofan.Run. auto.
  - intros Hy. unfold Turbofan.Run. cbn [Turbofan.Run_loop].
    rewrite Hy. reflexivity.
Qed.

Lemma Run_drains_input_queue_witness :
  Turbofan.output_queue_
    (Turbofan.Run (fun _ => false) Examples.turbofan_with_output)
  = [Examples.job_b; Examples.job_a].
Proof.
  refine (proj1 (proj1 (Run_drains_input_queue (fun _ => false)
                          Examples.turbofan_with_output [Examples.job_a]
                          _ _) _)).
  - unfold Turbofan.ring_ok. simpl. lia.
  - reflexivity.
  - reflexivity.
Defined.

(** X3.  [AwaitCompileTasks] returns with an empty input queue, as its
    debug check says, whatever the workers do meanwhile: the jobs that
    were in flight and the jobs that were pending have all been pushed to
    the output queue, behind the jobs that were there, in the order the
    workers completed them; no job is in flight, none has been disposed
    of, and a fresh job handle has been posted after one join. *)
Theorem AwaitCompileTasks_drains `{CompilerEnv}
    (schedule : list Turbofan.WorkerStep) (d : Turbofan.Dispatcher)
    (js : list Job) :
  Turbofan.ring_ok d ->
  Turbofan.pending d = map Some js ->
  let d' := Turbofan.AwaitCompileTasks schedule d in
  exists order : list Job,
    Permutation order (Turbofan.in_flight_ d ++ js) /\
    Turbofan.output_queue_ d' = Turbofan.output_queue_ d ++ order /\
    Turbofan.input_queue_length_ d' = 0 /\
    Turbofan.in_flight_ d' = [] /\
    Turbofan.job_handle_ d' = S (Turbofan.job_handle_ d) /\
    disposals (Turbofan.trace d') = disposals (Turbofan.trace d) /\
    handle_calls (Turbofan.trace d')
      = handle_calls (Turbofan.trace d)
        ++ [EvJoin (Turbofan.job_handle_ d);
            EvPostJob (S (Turbofan.job_handle_ d))].
Proof.
  intros Hok Hp d'. subst d'.
  destruct (Join_spec schedule d js Hok Hp)
    as (order & Hperm & _ & J1 & J2 & J3 & _ & _ & _ & J7 & _ & J9 & J10).
  cbn zeta in *.
  exists order. split; [exact Hperm|].
  unfold Turbofan.AwaitCompileTasks.
  cbn [Turbofan.PostJob Turbofan.emit Turbofan.set_job_handle
       Turbofan.input_queue_length_ Turbofan.output_queue_
       Turbofan.in_flight_ Turbofan.job_handle_ Turbofan.trace].
  rewrite J1, J2, J3, J7, disposals_app, handle_calls_app, J9, J10.
  cbn [disposals handle_calls omap List.filter].
  rewrite app_nil_r, <- app_assoc.
  auto 10.
Qed.

Lemma AwaitCompileTasks_drains_witness :
  exists order : list Job,
    Permutation order
      (Turbofan.in_flight_ Examples.turbofan_busy ++ [Examples.job_a]) /\
    Turbofan.output_queue_
      (Turbofan.AwaitCompileTasks [Turbofan.Take; Turbofan.Finish 1]
         Examples.turbofan_busy)
    = Turbofan.output_queue_ Examples.turbofan_busy ++ order.
Proof.
  destruct (AwaitCompileTasks_drains [Turbofan.Take; Turbofan.Finish 1]
              Examples.turbofan_busy [Examples.job_a])
    as (order & Hperm & Hout & _).
  - unfold Turbofan.ring_ok. simpl. lia.
  - reflexivity.
  - exists order. split; [exact Hperm | exact Hout].
Defined.

(** X4.  Flushing is idempotent: after a flush of either kind, a second,
    non-blocking flush changes nothing, in either dispatcher and whatever
    the workers do during the first; no job is disposed of or destroyed
    twice. *)
Theorem Flush_twice `{CompilerEnv} (st st' : list Turbofan.WorkerStep)
    (sm sm' : list Maglev.WorkerStep) (b : BlockingBehavior)
    (dt : Turbofan.Dispatcher) (js : list Job) (dm : Maglev.Dispatcher) :
  Turbofan.ring_ok dt ->
  Turbofan.pending dt = map Some js ->
  Turbofan.Flush st' kDontBlock (Turbofan.Flush st b dt)
    = Turbofan.Flush st b dt /\
  Maglev.Flush sm' kDontBlock (Maglev.Flush sm b dm) = Maglev.Flush sm b dm.
Proof.
  intros Hok Hp. split.
  - unfold Turbofan.Flush at 2 3.
    destruct (FlushQueues_spec st b true dt js Hok Hp)
      as (shift' & hp' & tr' & order & -> & _).
    reflexivity.
  - destruct (Maglev_Flush_spec sm b dm) as (order & n & _ & ->).
    reflexivity.
Qed.

Lemma Flush_twice_witness :
  Turbofan.Flush [] kDontBlock
    (Turbofan.Flush [Turbofan.Finish 0] kBlock Examples.turbofan_busy)
  = Turbofan.Flush [Turbofan.Finish 0] kBlock Examples.turbofan_busy.
Proof.
  refine (proj1 (Flush_twice [Turbofan.Finish 0] [] [] [] kBlock
                   Examples.turbofan_busy [Examples.job_a]
                   Examples.maglev_busy _ _)).
  - unfold Turbofan.ring_ok. simpl. lia.
  - reflexivity.
Defined.

(** X5.  [Stop] leaves the input queue empty, as its debug check says,
    and both other queues empty; it disposes of the pending input jobs
    with the function code restored, and of the finished and the
    in-flight jobs without restoring it, the in-flight jobs in the order
    the workers complete them (the order they are held in when the
    workers finish one after the other). *)
Theorem Stop_effect `{CompilerEnv} (schedule : list Turbofan.WorkerStep)
    (d : Turbofan.Dispatcher) (js : list Job) :
  Turbofan.ring_ok d ->
  Turbofan.pending d = map Some js ->
  let d' := Turbofan.Stop schedule d in
  exists order : list Job,
    Permutation order (Turbofan.in_flight_ d) /\
    (schedule = [] -> order = Turbofan.in_flight_ d) /\
    Turbofan.input_queue_length_ d' = 0 /\
    Turbofan.output_queue_ d' = [] /\
    Turbofan.in_flight_ d' = [] /\
    disposals (Turbofan.trace d')
      = disposals (Turbofan.trace d) ++ map (fun j => (j, true)) js
        ++ map (fun j => (j, false)) (Turbofan.output_queue_ d ++ order).
Proof.
  intros Hok Hp d'. subst d'. unfold Turbofan.Stop.
  destruct (FlushQueues_spec schedule kBlock false d js Hok Hp)
    as (shift' & hp' & tr' & order & -> & [Hperm Hdefault] & Hd & _).
  cbn [Turbofan.input_queue_length_ Turbofan.output_queue_
       Turbofan.in_flight_ Turbofan.trace].
  exists order. auto 10.
Qed.

Lemma Stop_effect_witness :
  exists order : list Job,
    Permutation order (Turbofan.in_flight_ Examples.turbofan_busy) /\
    disposals (Turbofan.trace (Turbofan.Stop [] Examples.turbofan_busy))
    = disposals (Turbofan.trace Examples.turbofan_busy)
      ++ map (fun j => (j, true)) [Examples.job_a]
      ++ map (fun j => (j, false))
           (Turbofan.output_queue_ Examples.turbofan_busy ++ order).
Proof.
  destruct (Stop_effect [] Examples.turbofan_busy [Examples.job_a])
    as (order & Hperm & _ & _ & _ & _ & Hd).
  - unfold Turbofan.ring_ok. simpl. lia.
  - reflexivity.
  - exists order. split; [exact Hperm | exact Hd].
Defined.

Lemma install_events_jobs (out : list Job) (evs : list Event) :
  Forall2 install_event out evs ->
  omap Turbofan.event_job evs = out /\
  Forall (fun e => exists j, e = EvFinalize j \/ e = EvDispose j false) evs.
Proof.
  induction 1 as [|j e out evs He Hall [IH1 IH2]].
  - split; [reflexivity | constructor].
  - split.
    + destruct He as [-> | [_ ->]]; simpl;
        unfold omap in IH1; simpl; rewrite IH1; reflexivity.
    + constructor; [|exact IH2].
      exists j. destruct He as [-> | [_ ->]]; auto.
Qed.

(** X6.  [InstallOptimizedFunctions] deals with every job of the output
    queue exactly once and in the order of the queue, by finalizing it or
    by disposing of it without restoring the function code; the job at
    the front is disposed of exactly when it is not an OSR job and its
    function has code of the requested kind available. *)
Theorem InstallOptimizedFunctions_each_once `{CompilerEnv}
    (d : Turbofan.Dispatcher) :
  exists evs,
    Turbofan.trace (Turbofan.InstallOptimizedFunctions d)
      = Turbofan.trace d ++ evs /\
    omap Turbofan.event_job evs = Turbofan.output_queue_ d /\
    Forall (fun e => exists j, e = EvFinalize j \/ e = EvDispose j false) evs /\
    (forall j rest, Turbofan.output_queue_ d = j :: rest ->
       hd_error evs
       = Some (if negb (is_osr j)
                  && HasAvailableCodeKind (Turbofan.heap d) (closure j)
                       (code_kind j)
               then EvDispose j false else EvFinalize j)).
Proof.
  destruct (InstallOptimizedFunctions_loop_trace (Turbofan.output_queue_ d) d
              eq_refl) as (evs & Htr & Hall & _).
  exists evs. destruct (install_events_jobs _ _ Hall) as [Hjobs Hkinds].
  split; [exact Htr|]. split; [exact Hjobs|]. split; [exact Hkinds|].
  intros j rest Hq.
  unfold Turbofan.InstallOptimizedFunctions in Htr. rewrite Hq in Htr.
  cbn [Turbofan.InstallOptimizedFunctions_loop] in Htr.
  set (d1 := Turbofan.install_one (Turbofan.set_output d rest) j) in Htr.
  destruct (InstallOptimizedFunctions_loop_trace rest d1) as (evs1 & Htr1 & _).
  { subst d1. unfold Turbofan.install_one.
    destruct (negb (is_osr j) && _); reflexivity. }
  rewrite Htr1 in Htr. subst d1. unfold Turbofan.install_one in Htr.
  cbn [Turbofan.set_output Turbofan.heap] in Htr.
  destruct (negb (is_osr j)
            && HasAvailableCodeKind (Turbofan.heap d) (closure j) (code_kind j));
    cbn [Turbofan.dispose Turbofan.emit Turbofan.set_heap Turbofan.set_output
         Turbofan.trace] in Htr;
    rewrite <- app_assoc in Htr; apply app_inv_head in Htr;
    subst evs; reflexivity.
Qed.

Lemma InstallOptimizedFunctions_each_once_witness :
  exists evs,
    Turbofan.trace (Turbofan.InstallOptimizedFunctions Examples.turbofan_osr)
      = Turbofan.trace Examples.turbofan_osr ++ evs /\
    hd_error evs = Some (EvDispose Examples.job_a false).
Proof.
  destruct (InstallOptimizedFunctions_each_once Examples.turbofan_osr)
    as (evs & Htr & _ & _ & Hhd).
  exists evs. split; [exact Htr|].
  exact (Hhd Examples.job_a [Examples.job_osr] eq_refl).
Defined.

(** X7.  With a positive configured maximum, [GetMaxConcurrency] of either
    dispatcher never asks for more workers than the maximum and never for
    a negative number, for every queue length and worker count, also
    where their sum wraps around. *)
Theorem GetMaxConcurrency_capped `{CompilerEnv} (dt : Turbofan.Dispatcher)
    (dm : Maglev.Dispatcher) (max_threads worker_count : Z) :
  0 < max_threads ->
  0 <= Turbofan.GetMaxConcurrency max_threads dt worker_count <= max_threads /\
  0 <= Maglev.GetMaxConcurrency max_threads dm worker_count <= max_threads.
Proof.
  intros Hmax.
  unfold Turbofan.GetMaxConcurrency, Maglev.GetMaxConcurrency, wrap_size_t.
  replace (0 <? max_threads) with true by (symmetry; apply Z.ltb_lt; lia).
  assert (Hm : 0 < size_t_mod) by (unfold size_t_mod, size_t_bits; lia).
  split.
  - pose proof (Z.mod_pos_bound
                  (Turbofan.InputQueueLength dt mod size_t_mod + worker_count)
                  size_t_mod Hm).
    lia.
  - pose proof (Z.mod_pos_bound
                  (Maglev.size (Maglev.incoming_queue_ dm) + worker_count)
                  size_t_mod Hm).
    lia.
Qed.

Lemma GetMaxConcurrency_capped_witness :
  0 <= Turbofan.GetMaxConcurrency 4 Examples.turbofan_busy (2 ^ 64 - 1) <= 4.
Proof.
  refine (proj1 (GetMaxConcurrency_capped Examples.turbofan_busy
                   Examples.maglev_busy 4 (2 ^ 64 - 1) _)).
  lia.
Defined.

(** X8.  In the Maglev dispatcher, a worker that is never asked to yield
    followed by [FinalizeFinishedJobs] finalizes the jobs that were
    waiting in the outgoing queue and then, in the order they were
    enqueued, exactly the incoming jobs whose Execute phase succeeded; a
    job whose Execute phase failed is not finalized; both queues end
    empty. *)
Theorem Maglev_finalizes_successes (delegate : nat -> bool)
    (d : Maglev.Dispatcher) :
  (forall n, delegate n = false) ->
  let d' := Maglev.FinalizeFinishedJobs (Maglev.Run delegate d) in
  Maglev.trace d'
    = Maglev.trace d ++ [EvRequestInstallMaglevCode]
      ++ map EvFinalize
           (Maglev.outgoing_queue_ d
            ++ List.filter succeeded (Maglev.incoming_queue_ d)) /\
  Maglev.incoming_queue_ d' = [] /\
  Maglev.outgoing_queue_ d' = [] /\
  (forall j, In j (Maglev.incoming_queue_ d) ->
     ExecuteJob j = FAILED ->
     ~ In j (Maglev.outgoing_queue_ d) ->
     ~ In (EvFinalize j) (Maglev.trace d) ->
     ~ In (EvFinalize j) (Maglev.trace d')).
Proof.
  intros Hnever d'. subst d'.
  unfold Maglev.FinalizeFinishedJobs, Maglev.Run.
  rewrite (Maglev_Run_loop_all _ delegate Hnever).
  unfold Maglev.emit.
  cbn [Maglev.emit Maglev.incoming_queue_ Maglev.outgoing_queue_
       Maglev.job_handle_ Maglev.in_flight_ Maglev.destroyed Maglev.trace].
  rewrite FinalizeFinishedJobs_loop_spec by reflexivity.
  cbn [Maglev.incoming_queue_ Maglev.outgoing_queue_ Maglev.trace].
  split; [rewrite <- app_assoc; reflexivity|].
  split; [destruct (Maglev.incoming_queue_ d); reflexivity|].
  split; [reflexivity|].
  intros j Hin Hfail Hout Htr Hfin.
  rewrite !in_app_iff in Hfin. destruct Hfin as [[Hfin | Hfin] | Hfin].
  - exact (Htr Hfin).
  - destruct Hfin as [Hfin | []]. discriminate Hfin.
  - apply in_map_iff in Hfin. destruct Hfin as (j' & Hj & Hin').
    injection Hj as ->. apply in_app_iff in Hin'.
    destruct Hin' as [Hin' | Hin']; [exact (Hout Hin')|].
    apply List.filter_In in Hin'. destruct Hin' as [_ Hs].
    unfold succeeded in Hs. rewrite Hfail in Hs. discriminate Hs.
Qed.

Lemma Maglev_finalizes_successes_witness :
  Maglev.trace
    (Maglev.FinalizeFinishedJobs
       (Maglev.Run (fun _ => false) Examples.maglev_busy))
  = [EvRequestInstallMaglevCode; EvFinalize Examples.job_b;
     EvFinalize Examples.job_a].
Proof.
  refine (proj1 (Maglev_finalizes_successes (fun _ => false)
                   Examples.maglev_busy _)).
  reflexivity.
Defined.

(** X9.  [AwaitCompileJobs] returns with an empty incoming queue, as
    its debug check says, whatever the workers do meanwhile: no job is in
    flight and a fresh job handle has been posted; of the jobs that were
    in flight or incoming, taken in the order the workers completed them,
    those that succeeded have been added to the outgoing queue and the
    others destroyed; every worker that held a job has sent its request
    to install code, and at least one request was sent when a job was
    waiting in the incoming queue. *)
Theorem AwaitCompileJobs_drains (schedule : list Maglev.WorkerStep)
    (d : Maglev.Dispatcher) :
  let d' := Maglev.AwaitCompileJobs schedule d in
  exists (order : list Job) (n : nat),
    Permutation order (Maglev.in_flight_ d ++ Maglev.incoming_queue_ d) /\
    (length (Maglev.in_flight_ d) <= n)%nat /\
    (Maglev.incoming_queue_ d <> [] -> (1 <= n)%nat) /\
    Maglev.incoming_queue_ d' = [] /\
    Maglev.in_flight_ d' = [] /\
    Maglev.job_handle_ d' = S (Maglev.job_handle_ d) /\
    Maglev.outgoing_queue_ d'
      = Maglev.outgoing_queue_ d ++ List.filter succeeded order /\
    Maglev.destroyed d'
      = Maglev.destroyed d
        ++ List.filter (fun j => negb (succeeded j)) order /\
    Maglev.trace d'
      = Maglev.trace d ++ replicate n EvRequestInstallMaglevCode
        ++ [EvJoin (Maglev.job_handle_ d);
            EvPostJob (S (Maglev.job_handle_ d))].
Proof.
  intros d'. subst d'.
  unfold Maglev.AwaitCompileJobs, Maglev.Join.
  destruct (Maglev_worker_steps_spec schedule d)
    as (done & taken & n & A1 & A2 & A3 & A4 & A5 & A6 & A7 & A8 & _).
  cbn zeta in *.
  set (d1 := foldl Maglev.worker_step d schedule) in *.
  rewrite finish_workers_spec.
  cbn [Maglev.incoming_queue_].
  destruct (Maglev.incoming_queue_ d1) as [|job rest] eqn:Hinc.
  - exists (done ++ Maglev.in_flight_ d1),
      (n + length (Maglev.in_flight_ d1))%nat.
    rewrite app_nil_r in A1.
    split; [rewrite A1; exact A2|].
    split; [exact A7|].
    split.
    { intros Hne. pose proof (Permutation_length A2) as Hlen.
      rewrite !length_app in Hlen.
      assert (0 < length taken)%nat
        by (rewrite <- A1; destruct (Maglev.incoming_queue_ d);
            [congruence | simpl; lia]).
      destruct done; simpl in *; lia. }
    unfold Maglev.PostJob, Maglev.emit, Maglev.IsEmpty.
    cbn [Maglev.incoming_queue_ Maglev.outgoing_queue_ Maglev.job_handle_
         Maglev.in_flight_ Maglev.destroyed Maglev.trace].
    rewrite A3, A4, A5, A6, !List.filter_app, replicate_add, <- !app_assoc.
    auto 10.
  - exists (done ++ Maglev.in_flight_ d1 ++ job :: rest),
      (n + length (Maglev.in_flight_ d1) + 1)%nat.
    split.
    { rewrite A1, !app_assoc. apply Permutation_app_tail. exact A2. }
    split; [lia|]. split; [intros _; lia|].
    unfold Maglev.IsEmpty, Maglev.Run.
    cbn [Maglev.incoming_queue_].
    rewrite (Maglev_Run_loop_all _ (fun _ => false) (fun _ => eq_refl)).
    unfold Maglev.PostJob, Maglev.emit.
    cbn [Maglev.incoming_queue_ Maglev.outgoing_queue_ Maglev.job_handle_
         Maglev.in_flight_ Maglev.destroyed Maglev.trace].
    rewrite A3, A4, A5, A6, !List.filter_app, !replicate_add,
      <- !app_assoc.
    auto 10.
Qed.

(** ** The RISC-V selector: switches, shifts and comparisons *)

(** X10.  [VisitSwitch] generates a table switch only with jump tables
    enabled, for at least one case, a least case value above the least
    [int32_t] and a value range of at most [2 << 16], whatever the costs
    wrap around to; the table is then indexed by the switched value
    itself when the least case value is 0, and otherwise by a temporary
    that a 32-bit subtraction of the least case value defines. *)
Theorem table_switch_guards `{Riscv.SelectorEnv}
    (e : Riscv.EnableSwitchJumpTable) (node : Riscv.Node)
    (sw : Riscv.SwitchInfo) :
  Riscv.switch_opcode (Riscv.VisitSwitch e node sw)
    = Some Riscv.kArchTableSwitch ->
  e = Riscv.kEnableSwitchJumpTable /\
  0 < Riscv.case_count sw /\
  - 2 ^ 31 < Riscv.min_value sw /\
  Riscv.value_range sw <= 131072 /\
  let value := Riscv.UseRegister (Riscv.id (Riscv.InputAt node 0)) in
  ((Riscv.min_value sw = 0 /\
    Riscv.VisitSwitch e node sw
    = [Riscv.mkInstruction Riscv.kArchTableSwitch [] [value] None]) \/
   (Riscv.min_value sw <> 0 /\
    Riscv.VisitSwitch e node sw
    = [Riscv.mkInstruction Riscv.kRiscvSub32 [Riscv.TempRegister]
         [value; Riscv.TempImmediate (Riscv.min_value sw)] None;
       Riscv.mkInstruction Riscv.kArchTableSwitch [] [Riscv.TempRegister]
         None])).
Proof.
  unfold Riscv.VisitSwitch. destruct e; [discriminate|].
  destruct (Riscv.use_table_switch sw) eqn:Etable; [|discriminate].
  intros _. unfold Riscv.use_table_switch in Etable.
  rewrite !andb_true_iff in Etable.
  destruct Etable as [[[Hcount _] Hmin] Hrange].
  apply Z.ltb_lt in Hcount, Hmin. apply Z.leb_le in Hrange.
  change Riscv.int32_min with (- 2 ^ 31) in Hmin.
  change Riscv.kMaxTableSwitchValueRange with 131072 in Hrange.
  split; [reflexivity|]. split; [exact Hcount|]. split; [exact Hmin|].
  split; [exact Hrange|]. cbv zeta.
  destruct (Riscv.min_value sw =? 0) eqn:E0.
  - left. apply Z.eqb_eq in E0. auto.
  - right. apply Z.eqb_neq in E0. auto.
Qed.

Lemma table_switch_guards_witness :
  Riscv.VisitSwitch (H := Riscv.example_env) Riscv.kEnableSwitchJumpTable
    (Riscv.mkNode 9 Riscv.kSwitch 0 [Riscv.example_x])
    (Riscv.mkSwitchInfo 6 6 1)
  = [Riscv.mkInstruction Riscv.kRiscvSub32 [Riscv.TempRegister]
       [Riscv.UseRegister 1; Riscv.TempImmediate 1] None;
     Riscv.mkInstruction Riscv.kArchTableSwitch [] [Riscv.TempRegister] None].
Proof.
  destruct (table_switch_guards (H := Riscv.example_env)
              Riscv.kEnableSwitchJumpTable
              (Riscv.mkNode 9 Riscv.kSwitch 0 [Riscv.example_x])
              (Riscv.mkSwitchInfo 6 6 1) eq_refl)
    as (_ & _ & _ & _ & [[H0 _] | [_ Hsub]]).
  - discriminate H0.
  - exact Hsub.
Defined.

Lemma popcount_below_bounds (n : nat) (x : Z) :
  0 <= Riscv.popcount_below n x <= Z.of_nat n.
Proof.
  induction n as [|k IH]; cbn [Riscv.popcount_below]; [lia|].
  destruct (Z.testbit x (Z.of_nat k)); lia.
Qed.

Lemma leading_zeros_below_bounds (n : nat) (x : Z) :
  0 <= Riscv.leading_zeros_below n x <= Z.of_nat n.
Proof.
  induction n as [|k IH]; cbn [Riscv.leading_zeros_below]; [lia|].
  destruct (Z.testbit x (Z.of_nat k)); lia.
Qed.

Lemma popcount_below_full (n : nat) (x : Z) :
  Riscv.popcount_below n x = Z.of_nat n ->
  forall i, 0 <= i < Z.of_nat n -> Z.testbit x i = true.
Proof.
  induction n as [|k IH]; cbn [Riscv.popcount_below]; intros Hpop i Hi; [lia|].
  pose proof (popcount_below_bounds k x) as Hb.
  destruct (Z.testbit x (Z.of_nat k)) eqn:Ek; [|lia].
  destruct (Z.eq_dec i (Z.of_nat k)) as [-> | Hne]; [exact Ek|].
  apply IH; lia.
Qed.

(** The bits counted by [leading_zeros_below] are clear. *)
Lemma leading_zeros_below_clear (n : nat) (x : Z) (i : Z) :
  Z.of_nat n - Riscv.leading_zeros_below n x <= i < Z.of_nat n ->
  Z.testbit x i = false.
Proof.
  induction n as [|k IH]; cbn [Riscv.leading_zeros_below]; intros Hi; [lia|].
  destruct (Z.testbit x (Z.of_nat k)) eqn:Ek; [lia|].
  destruct (Z.eq_dec i (Z.of_nat k)) as [-> | Hne]; [exact Ek|].
  apply IH; lia.
Qed.

(** When the leading zeros and the set bits make up the whole word, every
    bit below the leading zeros is set. *)
Lemma contiguous_low_bits (n : nat) (x : Z) (i : Z) :
  Riscv.leading_zeros_below n x + Riscv.popcount_below n x = Z.of_nat n ->
  0 <= i < Z.of_nat n - Riscv.leading_zeros_below n x ->
  Z.testbit x i = true.
Proof.
  induction n as [|k IH];
    cbn [Riscv.leading_zeros_below Riscv.popcount_below]; intros Hsum Hi;
    [lia|].
  destruct (Z.testbit x (Z.of_nat k)) eqn:Ek.
  - apply (popcount_below_full (S k)); [|lia].
    cbn [Riscv.popcount_below]. rewrite Ek. lia.
  - apply IH; lia.
Qed.

(** The test of [VisitWord32Shl] on the mask holds of the runs of set
    bits from bit 0 only. *)
Lemma contiguous_mask_is_low (mask : Z) :
  0 <= mask < 2 ^ 32 ->
  Riscv.CountLeadingZeros32 mask + Riscv.CountPopulation mask = 32 ->
  mask = 2 ^ Riscv.CountPopulation mask - 1.
Proof.
  intros Hrange Hsum. unfold Riscv.CountLeadingZeros32, Riscv.CountPopulation in *.
  pose proof (popcount_below_bounds 32 mask) as Hp.
  pose proof (leading_zeros_below_bounds 32 mask) as Hl.
  set (w := Riscv.popcount_below 32 mask) in *.
  replace (2 ^ w - 1) with (Z.ones w) by (rewrite Z.ones_equiv; lia).
  apply Z.bits_inj'. intros i Hi.
  destruct (Z.lt_ge_cases i w) as [Hlow | Hhigh].
  - rewrite Z.ones_spec_low by lia.
    apply (contiguous_low_bits 32); [exact Hsum | lia].
  - rewrite Z.ones_spec_high by lia.
    destruct (Z.lt_ge_cases i 32) as [H32 | H32].
    + apply (leading_zeros_below_clear 32). lia.
    + rewrite <- (Z.mod_small mask (2 ^ 32)) by lia.
      rewrite Z.testbit_mod_pow2 by lia.
      replace (i <? 32) with false by (symmetry; apply Z.ltb_ge; lia).
      reflexivity.
Qed.

(** X11.  Whenever [VisitWord32Shl] does not fall back to the plain
    register-operand shift, the shifted node is a covered bitwise-and
    with a constant mask, the shift amount is a constant in 1..31, the
    one emitted instruction shifts the other operand of the and by that
    immediate, and dropping the and is sound: on every 32-bit word the
    shift of the masked word and the shift of the word itself agree. *)
Theorem VisitWord32Shl_fusion_sound `{Riscv.SelectorEnv} (node : Riscv.Node) :
  Riscv.VisitWord32Shl node <> Riscv.VisitRRO Riscv.kRiscvShl32 node ->
  let m := Riscv.Int32BinopMatcher node in
  let mleft := Riscv.Int32BinopMatcher (Riscv.m_left m) in
  let mask := Riscv.ResolvedValue (Riscv.m_right mleft) in
  let k := Riscv.ResolvedValue (Riscv.m_right m) in
  Riscv.opcode (Riscv.m_left m) = Riscv.kWord32And /\
  Riscv.CanCover node (Riscv.m_left m) = true /\
  Riscv.HasResolvedValue (Riscv.m_right mleft) = true /\
  Riscv.HasResolvedValue (Riscv.m_right m) = true /\
  1 <= k <= 31 /\
  Riscv.VisitWord32Shl node
  = [Riscv.mkInstruction Riscv.kRiscvShl32
       [Riscv.DefineAsRegister (Riscv.id node)]
       [Riscv.UseRegister (Riscv.id (Riscv.m_left mleft));
        Riscv.UseImmediate (Riscv.id (Riscv.m_right m))] None] /\
  forall x, Riscv.word32_shl (Riscv.word32_and x mask) k = Riscv.word32_shl x k.
Proof.
  intros Hfused m mleft mask k. revert Hfused.
  unfold Riscv.VisitWord32Shl. fold m. fold mleft.
  destruct (Riscv.IrOpcode_eqb (Riscv.opcode (Riscv.m_left m)) Riscv.kWord32And)
    eqn:Eop; [|intros Hc; contradiction Hc; reflexivity].
  destruct (Riscv.CanCover node (Riscv.m_left m)) eqn:Ecover;
    [|intros Hc; contradiction Hc; reflexivity].
  destruct (Riscv.IsInRange (Riscv.m_right m) 1 31) eqn:Erange;
    [|intros Hc; contradiction Hc; reflexivity].
  cbn [andb].
  destruct (Riscv.HasResolvedValue (Riscv.m_right mleft)) eqn:Emask;
    [|intros Hc; contradiction Hc; reflexivity].
  fold mask. fold k.
  destruct (Riscv.CountPopulation (Riscv.wrap32 mask) =? 0) eqn:Ezero;
    [intros Hc; contradiction Hc; reflexivity|].
  destruct (Riscv.wrap32 (Riscv.CountLeadingZeros32 (Riscv.wrap32 mask)
                          + Riscv.CountPopulation (Riscv.wrap32 mask)) =? 32)
    eqn:Esum; [|intros Hc; contradiction Hc; reflexivity].
  cbn [negb andb].
  destruct (32 <=? Riscv.wrap32
                     (Riscv.wrap32 k + Riscv.CountPopulation (Riscv.wrap32 mask)))
    eqn:Ereach; [|intros Hc; contradiction Hc; reflexivity].
  intros _.
  unfold Riscv.IsInRange in Erange. fold k in Erange.
  rewrite !andb_true_iff, !Z.leb_le in Erange.
  destruct Erange as [[Hconst Hk1] Hk31].
  assert (Hmrange : 0 <= Riscv.wrap32 mask < 2 ^ 32)
    by (unfold Riscv.wrap32; apply Z.mod_pos_bound; lia).
  pose proof (popcount_below_bounds 32 (Riscv.wrap32 mask)) as Hp.
  pose proof (leading_zeros_below_bounds 32 (Riscv.wrap32 mask)) as Hl.
  fold (Riscv.CountPopulation (Riscv.wrap32 mask)) in Hp.
  fold (Riscv.CountLeadingZeros32 (Riscv.wrap32 mask)) in Hl.
  apply Z.eqb_eq in Esum. apply Z.leb_le in Ereach.
  unfold Riscv.wrap32 at 1 in Esum. rewrite Z.mod_small in Esum by lia.
  unfold Riscv.wrap32 at 1 2 in Ereach.
  rewrite (Z.mod_small k) in Ereach by lia.
  rewrite Z.mod_small in Ereach by lia.
  pose proof (contiguous_mask_is_low _ Hmrange Esum) as Hlow.
  set (w := Riscv.CountPopulation (Riscv.wrap32 mask)) in *.
  split; [|split; [reflexivity|split; [reflexivity|split; [exact Hconst|]]]].
  { destruct (Riscv.opcode (Riscv.m_left m)); try discriminate Eop.
    reflexivity. }
  split; [lia|]. split; [reflexivity|].
  intros x. rewrite <- (shl_of_low_mask x k w) by lia.
  assert (Hw : Riscv.wrap32 (2 ^ w - 1) = 2 ^ w - 1).
  { unfold Riscv.wrap32. apply Z.mod_small.
    assert (2 ^ w <= 2 ^ 32) by (apply Z.pow_le_mono_r; lia). lia. }
  unfold Riscv.word32_and. rewrite Hw, <- Hlow. reflexivity.
Qed.

Lemma VisitWord32Shl_fusion_sound_witness :
  Riscv.word32_shl (Riscv.word32_and 0x12345678 0xFFFF) 16
  = Riscv.word32_shl 0x12345678 16.
Proof.
  refine (proj2 (proj2 (proj2 (proj2 (proj2 (proj2
            (VisitWord32Shl_fusion_sound (H := Riscv.example_env)
               Riscv.example_shl_low_mask _)))))) 0x12345678).
  vm_compute. discriminate.
Defined.

(** X12.  Whenever [VisitWord32Sar] does not fall back to the plain
    register-operand shift, the shifted node is a covered [Word32Shl],
    both shift amounts are constants and equal as 32-bit words, and the
    amount is 16, 24 or 32; in particular a shift-left that is not
    covered, because it has another user, is never folded away.  The node
    is a [Word32Sar], as at the one call of the function. *)
Theorem VisitWord32Sar_fusion_only `{Riscv.SelectorEnv} (node : Riscv.Node) :
  Riscv.opcode node = Riscv.kWord32Sar ->
  Riscv.VisitWord32Sar node <> Riscv.VisitRRO Riscv.kRiscvSar32 node ->
  let shl_node := Riscv.InputAt node 0 in
  let sar := Riscv.InputAt node 1 in
  let shl := Riscv.InputAt shl_node 1 in
  Riscv.CanCover node shl_node = true /\
  Riscv.opcode shl_node = Riscv.kWord32Shl /\
  Riscv.opcode sar = Riscv.kInt32Constant /\
  Riscv.opcode shl = Riscv.kInt32Constant /\
  Riscv.wrap32 (Riscv.param sar) = Riscv.wrap32 (Riscv.param shl) /\
  (Riscv.wrap32 (Riscv.param sar) = 16 \/
   Riscv.wrap32 (Riscv.param sar) = 24 \/
   Riscv.wrap32 (Riscv.param sar) = 32).
Proof.
  intros Hnode Hfused shl_node sar shl. revert Hfused.
  unfold Riscv.VisitWord32Sar, Riscv.Int32BinopMatcher.
  rewrite Hnode. cbn [Riscv.IsCommutative Riscv.m_left Riscv.m_right].
  fold shl_node. fold sar.
  destruct (Riscv.CanCover node shl_node) eqn:Ecover;
    [|intros Hc; contradiction Hc; reflexivity].
  destruct (Riscv.IrOpcode_eqb (Riscv.opcode shl_node) Riscv.kWord32Shl)
    eqn:Eop; [|intros Hc; contradiction Hc; reflexivity].
  assert (Hop : Riscv.opcode shl_node = Riscv.kWord32Shl)
    by (destruct (Riscv.opcode shl_node); try discriminate Eop; reflexivity).
  rewrite Hop. cbn [Riscv.IsCommutative Riscv.m_left Riscv.m_right].
  fold shl.
  unfold Riscv.HasResolvedValue, Riscv.ResolvedValue.
  destruct (Riscv.IrOpcode_eqb (Riscv.opcode sar) Riscv.kInt32Constant)
    eqn:Esar; [|intros Hc; contradiction Hc; reflexivity].
  destruct (Riscv.IrOpcode_eqb (Riscv.opcode shl) Riscv.kInt32Constant)
    eqn:Eshl; [|intros Hc; contradiction Hc; reflexivity].
  cbn [andb].
  destruct (Riscv.wrap32 (Riscv.param sar) =? Riscv.wrap32 (Riscv.param shl))
    eqn:Eeq; [|intros Hc; contradiction Hc; reflexivity].
  cbn [andb]. apply Z.eqb_eq in Eeq.
  assert (Hs : Riscv.opcode sar = Riscv.kInt32Constant)
    by (destruct (Riscv.opcode sar); try discriminate Esar; reflexivity).
  assert (Hl : Riscv.opcode shl = Riscv.kInt32Constant)
    by (destruct (Riscv.opcode shl); try discriminate Eshl; reflexivity).
  destruct (Riscv.wrap32 (Riscv.param sar) =? 16) eqn:E16;
    [apply Z.eqb_eq in E16; auto 10|].
  destruct (Riscv.wrap32 (Riscv.param sar) =? 24) eqn:E24;
    [apply Z.eqb_eq in E24; auto 10|].
  destruct (Riscv.wrap32 (Riscv.param sar) =? 32) eqn:E32;
    [apply Z.eqb_eq in E32; auto 10|].
  intros Hc; contradiction Hc; reflexivity.
Qed.

Lemma VisitWord32Sar_fusion_only_witness :
  Riscv.wrap32 (Riscv.param (Riscv.InputAt Riscv.example_sar_shl 1)) = 16 \/
  Riscv.wrap32 (Riscv.param (Riscv.InputAt Riscv.example_sar_shl 1)) = 24 \/
  Riscv.wrap32 (Riscv.param (Riscv.InputAt Riscv.example_sar_shl 1)) = 32.
Proof.
  refine (proj2 (proj2 (proj2 (proj2 (proj2
            (VisitWord32Sar_fusion_only (H := Riscv.example_env)
               Riscv.example_sar_shl eq_refl _)))))).
  vm_compute. discriminate.
Defined.

(** X13.  When the right operand of a comparison can be an immediate, or
    the left one cannot, [VisitWordCompare] keeps the operands in their
    order and the continuation as given: the instruction compares the
    left operand (or, for a test of a truncation, the truncated value)
    with the right one, or the left operand with zero; when neither
    operand can be an immediate it is the plain register-register
    comparison; and the second input is an immediate only of the right
    operand and only when that can be an immediate of the opcode. *)
Theorem VisitWordCompare_no_swap `{Riscv.SelectorEnv} (node : Riscv.Node)
    (opcode : Riscv.InstructionCode) (cont : Riscv.FlagsContinuation)
    (commutative : bool) :
  Riscv.CanBeImmediate (Riscv.InputAt node 1) opcode = true \/
  Riscv.CanBeImmediate (Riscv.InputAt node 0) opcode = false ->
  let left := Riscv.InputAt node 0 in
  let right := Riscv.InputAt node 1 in
  let i := Riscv.VisitWordCompare node opcode cont commutative in
  Riscv.instr_cont i = Some cont /\
  Riscv.instr_outputs i = [] /\
  (Riscv.CanBeImmediate right opcode = false ->
   i = Riscv.VisitCompare opcode (Riscv.UseRegister (Riscv.id left))
         (Riscv.UseRegister (Riscv.id right)) cont) /\
  (forall n, nth_error (Riscv.instr_inputs i) 1 = Some (Riscv.UseImmediate n) ->
     n = Riscv.id right /\ Riscv.CanBeImmediate right opcode = true) /\
  ((Riscv.instr_opcode i = Riscv.kRiscvCmpZero /\
    Riscv.instr_inputs i = [Riscv.UseRegisterOrImmediateZero left]) \/
   (Riscv.instr_opcode i = opcode /\
    exists l op2,
      (l = left \/ (Riscv.is_Tst opcode = true /\ l = Riscv.InputAt left 0)) /\
      (op2 = Riscv.UseImmediate (Riscv.id right) \/
       op2 = Riscv.UseRegister (Riscv.id right)) /\
      Riscv.instr_inputs i = [Riscv.UseRegister (Riscv.id l); op2])).
Proof.
  intros Hno left right i.
  assert (Hswap : negb (Riscv.CanBeImmediate right opcode)
                  && Riscv.CanBeImmediate left opcode = false).
  { subst left right. destruct Hno as [-> | ->]; [reflexivity|].
    apply andb_false_r. }
  subst i. unfold Riscv.VisitWordCompare. fold left. fold right.
  rewrite Hswap.
  destruct (Riscv.CanBeImmediate right opcode) eqn:Eimm.
  2:{ cbn [Riscv.VisitCompare Riscv.instr_cont Riscv.instr_outputs
           Riscv.instr_opcode Riscv.instr_inputs nth_error].
      split; [reflexivity|]. split; [reflexivity|]. split; [reflexivity|].
      split; [intros n Hn; discriminate Hn|].
      right. split; [reflexivity|]. exists left, (Riscv.UseRegister (Riscv.id right)).
      auto. }
  destruct (Riscv.is_Tst opcode) eqn:ET.
  - destruct (Riscv.IrOpcode_eqb (Riscv.opcode left)
                Riscv.kTruncateInt64ToInt32);
      cbn [Riscv.VisitCompare Riscv.instr_cont Riscv.instr_outputs
           Riscv.instr_opcode Riscv.instr_inputs nth_error];
      (split; [reflexivity|]); (split; [reflexivity|]);
      (split; [intros Hc; discriminate Hc|]);
      (split; [intros n Hn; injection Hn as <-; auto|]);
      right; (split; [reflexivity|]).
    + exists (Riscv.InputAt left 0), (Riscv.UseImmediate (Riscv.id right)).
      auto.
    + exists left, (Riscv.UseImmediate (Riscv.id right)). auto.
  - destruct cont as [m c].
    destruct c, (Riscv.IsSet (Riscv.mkCont m _)) eqn:ES;
      cbn [Riscv.condition Riscv.mode] in *;
      rewrite ?ES;
      destruct (Riscv.Is (Riscv.m_right (Riscv.Int32BinopMatcher_swap node)) 0)
        eqn:EZ;
      cbn [orb];
      try destruct (Riscv.IsZero
                      (Riscv.m_right (Riscv.NumberBinopMatcher_swap node)));
      cbn [Riscv.VisitCompare Riscv.VisitWordCompareZero Riscv.instr_cont
           Riscv.instr_outputs Riscv.instr_opcode Riscv.instr_inputs
           nth_error];
      (split; [reflexivity|]); (split; [reflexivity|]);
      (split; [intros Hc; discriminate Hc|]);
      (split; [intros n Hn; first [discriminate Hn | injection Hn as <-; auto]|]);
      first [ left; split; reflexivity
            | right; split; [reflexivity|];
              first [ exists left, (Riscv.UseImmediate (Riscv.id right));
                      split; [auto|split; [auto|reflexivity]]
                    | exists left, (Riscv.UseRegister (Riscv.id right));
                      split; [auto|split; [auto|reflexivity]] ] ].
Qed.

Lemma VisitWordCompare_no_swap_witness :
  Riscv.instr_cont
    (Riscv.VisitWordCompare (H := Riscv.example_env)
       (Riscv.mkNode 3 Riscv.kInt32LessThan 0
          [Riscv.example_x; Riscv.example_const 2 5])
       Riscv.kRiscvCmp
       (Riscv.mkCont Riscv.kFlags_branch Riscv.kSignedLessThan) false)
  = Some (Riscv.mkCont Riscv.kFlags_branch Riscv.kSignedLessThan).
Proof.
  refine (proj1 (VisitWordCompare_no_swap (H := Riscv.example_env)
                   (Riscv.mkNode 3 Riscv.kInt32LessThan 0
                      [Riscv.example_x; Riscv.example_const 2 5])
                   Riscv.kRiscvCmp
                   (Riscv.mkCont Riscv.kFlags_branch Riscv.kSignedLessThan)
                   false _)).
  left. reflexivity.
Defined.

(** ** The ARM64 code of the [Int32] arithmetic nodes *)

Lemma read_W_range (s : Arm64Arith.State) (r : Arm64Arith.Register) :
  0 <= Arm64Arith.read s (Arm64Arith.W r) < 2 ^ 32.
Proof. unfold Arm64Arith.read. apply Z.mod_pos_bound. lia. Qed.

Lemma signed32_range (x : Z) :
  0 <= x < 2 ^ 32 -> - 2 ^ 31 <= Arm64Arith.signed 32 x < 2 ^ 31.
Proof.
  intros Hx. unfold Arm64Arith.signed. change (32 - 1) with 31.
  destruct (x <? 2 ^ 31) eqn:E;
    [apply Z.ltb_lt in E | apply Z.ltb_ge in E]; lia.
Qed.

Lemma signed32_mod (e : Z) :
  - 2 ^ 31 <= e < 2 ^ 31 -> Arm64Arith.signed 32 (e mod 2 ^ 32) = e.
Proof.
  intros He. unfold Arm64Arith.signed. change (32 - 1) with 31.
  destruct (Z.lt_ge_cases e 0) as [Hneg | Hpos].
  - replace (e mod 2 ^ 32) with (e + 2 ^ 32)
      by (apply (Z.mod_unique _ _ (-1)); lia).
    replace (e + 2 ^ 32 <? 2 ^ 31) with false
      by (symmetry; apply Z.ltb_ge; lia).
    lia.
  - rewrite Z.mod_small by lia.
    replace (e <? 2 ^ 31) with true by (symmetry; apply Z.ltb_lt; lia).
    reflexivity.
Qed.

Lemma signed32_eqm (x : Z) :
  0 <= x < 2 ^ 32 -> Arm64Arith.signed 32 x mod 2 ^ 32 = x.
Proof.
  intros Hx. unfold Arm64Arith.signed. change (32 - 1) with 31.
  destruct (x <? 2 ^ 31).
  - apply Z.mod_small. lia.
  - symmetry. apply (Z.mod_unique _ _ (-1)); lia.
Qed.

Lemma int32_of_eqm (s : Arm64Arith.State) (r : Arm64Arith.Register) :
  Arm64Arith.int32_of s r mod 2 ^ 32 = Arm64Arith.read s (Arm64Arith.W r).
Proof. apply signed32_eqm, read_W_range. Qed.

Lemma int32_of_range (s : Arm64Arith.State) (r : Arm64Arith.Register) :
  - 2 ^ 31 <= Arm64Arith.int32_of s r < 2 ^ 31.
Proof. apply signed32_range, read_W_range. Qed.

(** A 32-bit result that agrees with an [int32_t] value modulo [2 ^ 32]
    is that value. *)
Lemma signed32_of_congruent (v e : Z) :
  v mod 2 ^ 32 = e mod 2 ^ 32 -> - 2 ^ 31 <= e < 2 ^ 31 ->
  Arm64Arith.signed 32 (v mod 2 ^ 32) = e.
Proof. intros -> He. apply signed32_mod, He. Qed.

Lemma read_write_same (s : Arm64Arith.State) (r : Arm64Arith.Register) (v : Z) :
  Arm64Arith.read (Arm64Arith.write s (Arm64Arith.W r) v) (Arm64Arith.W r)
  = v mod 2 ^ 32.
Proof.
  unfold Arm64Arith.read, Arm64Arith.write.
  cbn [Arm64Arith.regs Arm64Arith.code Arm64Arith.SizeInBits Arm64Arith.W].
  rewrite Nat.eqb_refl. apply Z.mod_mod. lia.
Qed.

Lemma read_write_other (s : Arm64Arith.State) (r r' : Arm64Arith.Register)
    (v : Z) :
  Arm64Arith.code r' <> Arm64Arith.code r ->
  Arm64Arith.read (Arm64Arith.write s r v) r' = Arm64Arith.read s r'.
Proof.
  intros Hne. unfold Arm64Arith.read, Arm64Arith.write.
  cbn [Arm64Arith.regs].
  destruct (Nat.eqb_spec (Arm64Arith.code r') (Arm64Arith.code r));
    [contradiction | reflexivity].
Qed.

Lemma regs_write_other (s : Arm64Arith.State) (r : Arm64Arith.Register)
    (v : Z) (c : nat) :
  c <> Arm64Arith.code r ->
  Arm64Arith.regs (Arm64Arith.write s r v) c = Arm64Arith.regs s c.
Proof.
  intros Hne. unfold Arm64Arith.write. cbn [Arm64Arith.regs].
  destruct (Nat.eqb_spec c (Arm64Arith.code r)); [contradiction | reflexivity].
Qed.

Lemma int32_of_write (s : Arm64Arith.State) (r : Arm64Arith.Register)
    (v e : Z) (f : Arm64.Flags) :
  v mod 2 ^ 32 = e mod 2 ^ 32 -> - 2 ^ 31 <= e < 2 ^ 31 ->
  Arm64Arith.int32_of
    (Arm64Arith.set_flags (Arm64Arith.write s (Arm64Arith.W r) v) f) r = e.
Proof.
  intros Hv He. unfold Arm64Arith.int32_of.
  change (Arm64Arith.read (Arm64Arith.set_flags ?s0 f) ?r0)
    with (Arm64Arith.read s0 r0).
  rewrite read_write_same. apply signed32_of_congruent; assumption.
Qed.

Lemma in_signed_range32 (x : Z) :
  Arm64Arith.in_signed_range 32 x = true <-> - 2 ^ 31 <= x < 2 ^ 31.
Proof.
  unfold Arm64Arith.in_signed_range. change (32 - 1) with 31.
  rewrite andb_true_iff, Z.leb_le, Z.ltb_lt. reflexivity.
Qed.

(** The shape shared by the nodes that are one flag-setting instruction
    and a deopt on signed overflow. *)
Lemma run_arith_vs (i : Arm64Arith.Instr) (s : Arm64Arith.State)
    (out : Arm64Arith.Register) (v exact : Z) (f : Arm64.Flags) :
  Arm64Arith.exec i s
    = Arm64Arith.Next
        (Arm64Arith.set_flags (Arm64Arith.write s (Arm64Arith.W out) v) f) ->
  Arm64.flagV f = negb (Arm64Arith.in_signed_range 32 exact) ->
  v mod 2 ^ 32 = exact mod 2 ^ 32 ->
  let o := Arm64Arith.run
             [Arm64Arith.Plain i;
              Arm64Arith.Plain
                (Arm64Arith.EmitEagerDeoptIf Arm64.vs Arm64Arith.kOverflow)]
             Arm64Arith.Running s in
  (Arm64Arith.is_int32 exact ->
   exists s', o = Arm64Arith.Done s' /\
     Arm64Arith.int32_of s' out = exact /\
     forall c, c <> Arm64Arith.code out ->
       Arm64Arith.regs s' c = Arm64Arith.regs s c) /\
  (~ Arm64Arith.is_int32 exact ->
   o = Arm64Arith.Deoptimized Arm64Arith.kOverflow).
Proof.
  intros Hexec HV Hv o. subst o.
  cbn [Arm64Arith.run]. rewrite Hexec.
  cbn [Arm64Arith.exec Arm64Arith.set_flags Arm64Arith.flags Arm64.holds].
  rewrite HV.
  destruct (Arm64Arith.in_signed_range 32 exact) eqn:E; cbn [negb].
  - apply in_signed_range32 in E. split; [|intros Hn; contradiction (Hn E)].
    intros _. eexists. split; [reflexivity|]. split.
    + apply int32_of_write; assumption.
    + intros c Hc. cbn [Arm64Arith.regs Arm64Arith.set_flags].
      apply (regs_write_other s (Arm64Arith.W out)). exact Hc.
  - split; [|reflexivity].
    intros Hin. apply in_signed_range32 in Hin. congruence.
Qed.

Lemma eqm_add (a b a' b' : Z) :
  a' mod 2 ^ 32 = a -> b' mod 2 ^ 32 = b ->
  (a + b) mod 2 ^ 32 = (a' + b') mod 2 ^ 32.
Proof.
  intros <- <-. rewrite <- Zplus_mod. reflexivity.
Qed.

Lemma eqm_sub (a b a' b' : Z) :
  a' mod 2 ^ 32 = a -> b' mod 2 ^ 32 = b ->
  (a - b) mod 2 ^ 32 = (a' - b') mod 2 ^ 32.
Proof.
  intros <- <-. rewrite <- Zminus_mod. reflexivity.
Qed.

(** X14.  The code of [Int32AddWithOverflow] and of
    [Int32SubtractWithOverflow] leaves the sum, resp. the difference, of
    the two [int32_t] inputs in the result register, with every other
    register unchanged, when that number is an [int32_t], and
    deoptimizes with reason [kOverflow] otherwise; the result register
    may be one of the input registers. *)
Theorem Int32AddSubWithOverflow_correct
    (left right out : Arm64Arith.Register) (s : Arm64Arith.State) :
  let a := Arm64Arith.int32_of s left in
  let b := Arm64Arith.int32_of s right in
  let add := Arm64Arith.run
               (Arm64Arith.Int32AddWithOverflow_GenerateCode left right out)
               Arm64Arith.Running s in
  let sub := Arm64Arith.run
               (Arm64Arith.Int32SubtractWithOverflow_GenerateCode left right out)
               Arm64Arith.Running s in
  ((Arm64Arith.is_int32 (a + b) ->
    exists s', add = Arm64Arith.Done s' /\
      Arm64Arith.int32_of s' out = a + b /\
      forall c, c <> Arm64Arith.code out ->
        Arm64Arith.regs s' c = Arm64Arith.regs s c) /\
   (~ Arm64Arith.is_int32 (a + b) ->
    add = Arm64Arith.Deoptimized Arm64Arith.kOverflow)) /\
  ((Arm64Arith.is_int32 (a - b) ->
    exists s', sub = Arm64Arith.Done s' /\
      Arm64Arith.int32_of s' out = a - b /\
      forall c, c <> Arm64Arith.code out ->
        Arm64Arith.regs s' c = Arm64Arith.regs s c) /\
   (~ Arm64Arith.is_int32 (a - b) ->
    sub = Arm64Arith.Deoptimized Arm64Arith.kOverflow)).
Proof.
  intros a b add sub. split.
  - eapply (run_arith_vs _ s out).
    + reflexivity.
    + reflexivity.
    + apply eqm_add; apply int32_of_eqm.
  - eapply (run_arith_vs _ s out).
    + reflexivity.
    + reflexivity.
    + apply eqm_sub; apply int32_of_eqm.
Qed.

Lemma Int32AddSubWithOverflow_correct_witness :
  exists s',
    Arm64Arith.run
      (Arm64Arith.Int32AddWithOverflow_GenerateCode Arm64Arith.x0
         Arm64Arith.x1 Arm64Arith.x0)
      Arm64Arith.Running (Arm64Arith.example_state (-5) 3)
    = Arm64Arith.Done s' /\
    Arm64Arith.int32_of s' Arm64Arith.x0 = -5 + 3 /\
    forall c, c <> Arm64Arith.code Arm64Arith.x0 ->
      Arm64Arith.regs s' c
      = Arm64Arith.regs (Arm64Arith.example_state (-5) 3) c.
Proof.
  refine (proj1 (proj1 (Int32AddSubWithOverflow_correct Arm64Arith.x0
                          Arm64Arith.x1 Arm64Arith.x0
                          (Arm64Arith.example_state (-5) 3))) _).
  vm_compute. split; [discriminate | reflexivity].
Defined.

(** X15.  The code of [Int32IncrementWithOverflow] and of
    [Int32DecrementWithOverflow] leaves the input plus one, resp. minus
    one, in the result register and deoptimizes with reason [kOverflow]
    exactly for the greatest, resp. the least, [int32_t]. *)
Theorem Int32IncrementDecrement_correct
    (value out : Arm64Arith.Register) (s : Arm64Arith.State) :
  let a := Arm64Arith.int32_of s value in
  let inc := Arm64Arith.run
               (Arm64Arith.Int32IncrementWithOverflow_GenerateCode value out)
               Arm64Arith.Running s in
  let dec := Arm64Arith.run
               (Arm64Arith.Int32DecrementWithOverflow_GenerateCode value out)
               Arm64Arith.Running s in
  ((a <> 2 ^ 31 - 1 ->
    exists s', inc = Arm64Arith.Done s' /\
      Arm64Arith.int32_of s' out = a + 1 /\
      forall c, c <> Arm64Arith.code out ->
        Arm64Arith.regs s' c = Arm64Arith.regs s c) /\
   (a = 2 ^ 31 - 1 -> inc = Arm64Arith.Deoptimized Arm64Arith.kOverflow)) /\
  ((a <> - 2 ^ 31 ->
    exists s', dec = Arm64Arith.Done s' /\
      Arm64Arith.int32_of s' out = a - 1 /\
      forall c, c <> Arm64Arith.code out ->
        Arm64Arith.regs s' c = Arm64Arith.regs s c) /\
   (a = - 2 ^ 31 -> dec = Arm64Arith.Deoptimized Arm64Arith.kOverflow)).
Proof.
  intros a inc dec.
  pose proof (int32_of_range s value) as Ha. fold a in Ha.
  split.
  - destruct (run_arith_vs
                (Arm64Arith.Adds (Arm64Arith.W out) (Arm64Arith.W value)
                   (Arm64Arith.Immediate 1))
                s out (Arm64Arith.read s (Arm64Arith.W value) + 1) (a + 1)
                (Arm64Arith.add_flags 32
                   (Arm64Arith.read s (Arm64Arith.W value)) 1))
      as [Hok Hdeopt].
    + reflexivity.
    + reflexivity.
    + apply eqm_add; [apply int32_of_eqm | reflexivity].
    + split.
      * intros Hne. apply Hok. unfold Arm64Arith.is_int32. lia.
      * intros Heq. apply Hdeopt. unfold Arm64Arith.is_int32. lia.
  - destruct (run_arith_vs
                (Arm64Arith.Subs (Arm64Arith.W out) (Arm64Arith.W value)
                   (Arm64Arith.Immediate 1))
                s out (Arm64Arith.read s (Arm64Arith.W value) - 1) (a - 1)
                (Arm64Arith.sub_flags 32
                   (Arm64Arith.read s (Arm64Arith.W value)) 1))
      as [Hok Hdeopt].
    + reflexivity.
    + reflexivity.
    + apply eqm_sub; [apply int32_of_eqm | reflexivity].
    + split.
      * intros Hne. apply Hok. unfold Arm64Arith.is_int32. lia.
      * intros Heq. apply Hdeopt. unfold Arm64Arith.is_int32. lia.
Qed.

Lemma Int32IncrementDecrement_correct_witness :
  Arm64Arith.run
    (Arm64Arith.Int32IncrementWithOverflow_GenerateCode Arm64Arith.x0
       Arm64Arith.x2)
    Arm64Arith.Running (Arm64Arith.example_state (2 ^ 31 - 1) 0)
  = Arm64Arith.Deoptimized Arm64Arith.kOverflow.
Proof.
  refine (proj2 (proj1 (Int32IncrementDecrement_correct Arm64Arith.x0
                          Arm64Arith.x2
                          (Arm64Arith.example_state (2 ^ 31 - 1) 0))) _).
  reflexivity.
Defined.

Lemma int32_of_zero (s : Arm64Arith.State) (r : Arm64Arith.Register) :
  Arm64Arith.read s (Arm64Arith.W r) = 0 <-> Arm64Arith.int32_of s r = 0.
Proof.
  pose proof (read_W_range s r) as Hr.
  unfold Arm64Arith.int32_of, Arm64Arith.signed. change (32 - 1) with 31.
  destruct (Arm64Arith.read s (Arm64Arith.W r) <? 2 ^ 31) eqn:E;
    [apply Z.ltb_lt in E | apply Z.ltb_ge in E]; lia.
Qed.

(** X16.  The code of [Int32NegateWithOverflow] deoptimizes with reason
    [kOverflow] for the input 0, whose negation is minus zero, and for
    the least [int32_t], whose negation is not an [int32_t]; for every
    other input it leaves the negated input in the result register and
    every other register unchanged. *)
Theorem Int32NegateWithOverflow_correct
    (value out : Arm64Arith.Register) (s : Arm64Arith.State) :
  let a := Arm64Arith.int32_of s value in
  let o := Arm64Arith.run
             (Arm64Arith.Int32NegateWithOverflow_GenerateCode value out)
             Arm64Arith.Running s in
  (a = 0 \/ a = - 2 ^ 31 -> o = Arm64Arith.Deoptimized Arm64Arith.kOverflow) /\
  (a <> 0 -> a <> - 2 ^ 31 ->
   exists s', o = Arm64Arith.Done s' /\
     Arm64Arith.int32_of s' out = - a /\
     forall c, c <> Arm64Arith.code out ->
       Arm64Arith.regs s' c = Arm64Arith.regs s c).
Proof.
  intros a o.
  pose proof (int32_of_range s value) as Ha. fold a in Ha.
  pose proof (int32_of_zero s value) as Hzero. fold a in Hzero.
  subst o. unfold Arm64Arith.Int32NegateWithOverflow_GenerateCode.
  cbn [Arm64Arith.run Arm64Arith.exec Arm64Arith.GetDeoptLabel
       Arm64Arith.branch].
  destruct (Arm64Arith.read s (Arm64Arith.W value) =? 0) eqn:E0.
  - apply Z.eqb_eq in E0. apply Hzero in E0.
    split; [reflexivity|]. intros Hne. contradiction.
  - apply Z.eqb_neq in E0.
    assert (Hnz : a <> 0) by (intros Hc; apply E0, Hzero, Hc).
    destruct (run_arith_vs
                (Arm64Arith.Negs (Arm64Arith.W out)
                   (Arm64Arith.OpRegister (Arm64Arith.W value)))
                s out (0 - Arm64Arith.read s (Arm64Arith.W value)) (0 - a)
                (Arm64Arith.sub_flags 32 0
                   (Arm64Arith.read s (Arm64Arith.W value))))
      as [Hok Hdeopt].
    + reflexivity.
    + reflexivity.
    + apply eqm_sub; [reflexivity | apply int32_of_eqm].
    + cbv zeta in Hok, Hdeopt.
      cbn [Arm64Arith.run Arm64Arith.exec] in Hok, Hdeopt.
      split.
      * intros [H0 | Hmin]; [contradiction|].
        apply Hdeopt. unfold Arm64Arith.is_int32. lia.
      * intros _ Hmin.
        destruct Hok as (s' & Hrun & Hout & Hregs);
          [unfold Arm64Arith.is_int32; lia|].
        exists s'. split; [exact Hrun|]. split; [lia | exact Hregs].
Qed.

Lemma Int32NegateWithOverflow_correct_witness :
  Arm64Arith.run
    (Arm64Arith.Int32NegateWithOverflow_GenerateCode Arm64Arith.x0
       Arm64Arith.x2)
    Arm64Arith.Running (Arm64Arith.example_state 0 0)
  = Arm64Arith.Deoptimized Arm64Arith.kOverflow.
Proof.
  refine (proj1 (Int32NegateWithOverflow_correct Arm64Arith.x0 Arm64Arith.x2
                   (Arm64Arith.example_state 0 0)) _).
  left. reflexivity.
Defined.

Lemma testbit31 (x : Z) :
  0 <= x < 2 ^ 32 -> Z.testbit x 31 = (2 ^ 31 <=? x).
Proof.
  intros Hx. destruct (2 ^ 31 <=? x) eqn:E.
  - apply Z.leb_le in E. apply Z.testbit_true; [lia|].
    replace (x / 2 ^ 31) with 1; [reflexivity|].
    apply (Z.div_unique x (2 ^ 31) 1 (x - 2 ^ 31)); lia.
  - apply Z.leb_gt in E. apply Z.testbit_false; [lia|].
    rewrite Z.div_small by lia. reflexivity.
Qed.

Lemma lor32_range (x y : Z) :
  0 <= x < 2 ^ 32 -> 0 <= y < 2 ^ 32 -> 0 <= Z.lor x y < 2 ^ 32.
Proof.
  intros Hx Hy.
  assert (Hmod : Z.lor x y mod 2 ^ 32 = Z.lor x y).
  { apply Z.bits_inj'. intros n Hn.
    rewrite Z.testbit_mod_pow2 by lia.
    destruct (n <? 32) eqn:E; [reflexivity|]. apply Z.ltb_ge in E.
    rewrite Z.lor_spec.
    rewrite <- (Z.mod_small x (2 ^ 32)), <- (Z.mod_small y (2 ^ 32)) by lia.
    rewrite !Z.testbit_mod_pow2 by lia.
    replace (n <? 32) with false by (symmetry; apply Z.ltb_ge; lia).
    reflexivity. }
  rewrite <- Hmod. apply Z.mod_pos_bound. lia.
Qed.

Lemma lor32_sign (x y : Z) :
  0 <= x < 2 ^ 32 -> 0 <= y < 2 ^ 32 ->
  (2 ^ 31 <=? Z.lor x y) = (2 ^ 31 <=? x) || (2 ^ 31 <=? y).
Proof.
  intros Hx Hy.
  rewrite <- !testbit31 by (try apply lor32_range; assumption).
  apply Z.lor_spec.
Qed.

Lemma signed32_negative (x : Z) :
  0 <= x < 2 ^ 32 -> (2 ^ 31 <=? x) = (Arm64Arith.signed 32 x <? 0).
Proof.
  intros Hx. unfold Arm64Arith.signed. change (32 - 1) with 31.
  destruct (x <? 2 ^ 31) eqn:E;
    [apply Z.ltb_lt in E | apply Z.ltb_ge in E].
  - replace (2 ^ 31 <=? x) with false by (symmetry; apply Z.leb_gt; lia).
    symmetry. apply Z.ltb_ge. lia.
  - replace (2 ^ 31 <=? x) with true by (symmetry; apply Z.leb_le; lia).
    symmetry. apply Z.ltb_lt. lia.
Qed.

(** The flags of a 32-bit comparison with the immediate 0. *)
Lemma cmp32_zero_flags (x : Z) :
  0 <= x < 2 ^ 32 ->
  Arm64Arith.sub_flags 32 x (0 mod 2 ^ 32)
  = Arm64.mkFlags (Arm64Arith.signed 32 x <? 0) (x =? 0) true false.
Proof.
  intros Hx. unfold Arm64Arith.sub_flags.
  change (0 mod 2 ^ 32) with 0. rewrite Z.sub_0_r, Z.mod_small by lia.
  change (Arm64Arith.signed 32 0) with 0. rewrite Z.sub_0_r.
  change (32 - 1) with 31.
  rewrite signed32_negative by lia.
  replace (0 <=? x) with true by (symmetry; apply Z.leb_le; lia).
  replace (Arm64Arith.in_signed_range 32 (Arm64Arith.signed 32 x)) with true
    by (symmetry; apply in_signed_range32, signed32_range; lia).
  reflexivity.
Qed.

Lemma mod64_mod32 (p : Z) : (p mod 2 ^ 64) mod 2 ^ 32 = p mod 2 ^ 32.
Proof.
  apply Z.mod_mod_divide. exists (2 ^ 32). reflexivity.
Qed.

(** Whether the 64-bit product is the sign extension of its low word. *)
Lemma smull_overflow_test (p : Z) :
  - 2 ^ 62 <= p <= 2 ^ 62 ->
  ((p mod 2 ^ 64
    - Arm64Arith.signed 32 ((p mod 2 ^ 64) mod 2 ^ 32) mod 2 ^ 64)
   mod 2 ^ 64 =? 0)
  = Arm64Arith.in_signed_range 32 p.
Proof.
  intros Hp.
  rewrite mod64_mod32, <- Zminus_mod.
  set (q := Arm64Arith.signed 32 (p mod 2 ^ 32)).
  assert (Hq : - 2 ^ 31 <= q < 2 ^ 31)
    by (apply signed32_range, Z.mod_pos_bound; lia).
  destruct (Arm64Arith.in_signed_range 32 p) eqn:E.
  - apply in_signed_range32 in E.
    subst q. rewrite signed32_mod by lia. rewrite Z.sub_diag.
    reflexivity.
  - apply Z.eqb_neq. intros Hc.
    assert (Hne : p <> q).
    { intros Heq. rewrite Heq in E.
      apply in_signed_range32 in Hq. congruence. }
    apply Z.mod_divide in Hc; [|lia].
    destruct Hc as [k Hk]. lia.
Qed.

Lemma read_X_write_X (s : Arm64Arith.State) (r : Arm64Arith.Register) (v : Z) :
  Arm64Arith.SizeInBits r = 64 ->
  Arm64Arith.read (Arm64Arith.write s r v) r = v mod 2 ^ 64.
Proof.
  intros H64. unfold Arm64Arith.read, Arm64Arith.write.
  cbn [Arm64Arith.regs]. rewrite Nat.eqb_refl, H64. apply Z.mod_mod. lia.
Qed.

Lemma read_W_write_X (s : Arm64Arith.State) (r : Arm64Arith.Register) (v : Z) :
  Arm64Arith.SizeInBits r = 64 ->
  Arm64Arith.read (Arm64Arith.write s r v) (Arm64Arith.W r)
  = (v mod 2 ^ 64) mod 2 ^ 32.
Proof.
  intros H64. unfold Arm64Arith.read, Arm64Arith.write.
  cbn [Arm64Arith.regs Arm64Arith.W Arm64Arith.code Arm64Arith.SizeInBits].
  rewrite Nat.eqb_refl, H64. reflexivity.
Qed.

Lemma run_plain (i : Arm64Arith.Instr) (rest : list Arm64Arith.Code)
    (s : Arm64Arith.State) :
  Arm64Arith.run (Arm64Arith.Plain i :: rest) Arm64Arith.Running s
  = match Arm64Arith.exec i s with
    | Arm64Arith.Next s' => Arm64Arith.run rest Arm64Arith.Running s'
    | Arm64Arith.Goto l s' => Arm64Arith.run rest (Arm64Arith.Seeking l) s'
    | Arm64Arith.Leave reason => Arm64Arith.Deoptimized reason
    end.
Proof. reflexivity. Qed.

Lemma read_set_flags (s : Arm64Arith.State) (f : Arm64.Flags)
    (r : Arm64Arith.Register) :
  Arm64Arith.read (Arm64Arith.set_flags s f) r = Arm64Arith.read s r.
Proof. reflexivity. Qed.

Lemma regs_set_flags (s : Arm64Arith.State) (f : Arm64.Flags) (c : nat) :
  Arm64Arith.regs (Arm64Arith.set_flags s f) c = Arm64Arith.regs s c.
Proof. reflexivity. Qed.

Lemma flags_set_flags (s : Arm64Arith.State) (f : Arm64.Flags) :
  Arm64Arith.flags (Arm64Arith.set_flags s f) = f.
Proof. reflexivity. Qed.

(** The body of the multiplication: product, overflow test and the test
    for minus zero, on a 64-bit register [res] and a 32-bit register
    [temp] that differ from each other and from the inputs. *)
Lemma multiply_body (left right res temp : Arm64Arith.Register)
    (tail : list Arm64Arith.Code) (s : Arm64Arith.State) :
  Arm64Arith.SizeInBits res = 64 ->
  Arm64Arith.code res <> Arm64Arith.code left ->
  Arm64Arith.code res <> Arm64Arith.code right ->
  Arm64Arith.code temp <> Arm64Arith.code res ->
  let a := Arm64Arith.int32_of s left in
  let b := Arm64Arith.int32_of s right in
  let o :=
    Arm64Arith.run
      ([Arm64Arith.Plain (Arm64Arith.Smull res (Arm64Arith.W left)
                            (Arm64Arith.W right));
        Arm64Arith.Plain (Arm64Arith.Cmp res
                            (Arm64Arith.OperandSXTW (Arm64Arith.W res)));
        Arm64Arith.Plain (Arm64Arith.EmitEagerDeoptIf Arm64.ne
                            Arm64Arith.kOverflow);
        Arm64Arith.Plain (Arm64Arith.CompareAndBranch res
                            (Arm64Arith.Immediate 0) Arm64.ne
                            (Arm64Arith.mkLabel 0));
        Arm64Arith.Plain (Arm64Arith.Orr (Arm64Arith.W temp)
                            (Arm64Arith.W left) (Arm64Arith.W right));
        Arm64Arith.Plain (Arm64Arith.Cmp (Arm64Arith.W temp)
                            (Arm64Arith.Immediate 0));
        Arm64Arith.Plain (Arm64Arith.EmitEagerDeoptIf Arm64.lt
                            Arm64Arith.kOverflow);
        Arm64Arith.Plain (Arm64Arith.Bind (Arm64Arith.mkLabel 0))] ++ tail)
      Arm64Arith.Running s in
  (~ Arm64Arith.is_int32 (a * b) \/ (a * b = 0 /\ (a < 0 \/ b < 0)) ->
   o = Arm64Arith.Deoptimized Arm64Arith.kOverflow) /\
  (Arm64Arith.is_int32 (a * b) -> (a * b <> 0 \/ (0 <= a /\ 0 <= b)) ->
   exists s', o = Arm64Arith.run tail Arm64Arith.Running s' /\
     Arm64Arith.read s' (Arm64Arith.W res) = (a * b) mod 2 ^ 32 /\
     forall c, c <> Arm64Arith.code res -> c <> Arm64Arith.code temp ->
       Arm64Arith.regs s' c = Arm64Arith.regs s c).
Proof.
  intros H64 Hrl Hrr Htr a b o.
  pose proof (int32_of_range s left) as Ha. fold a in Ha.
  pose proof (int32_of_range s right) as Hb. fold b in Hb.
  assert (Hp : - 2 ^ 62 <= a * b <= 2 ^ 62) by nia.
  subst o. cbn [app].
  (* Smull *)
  rewrite run_plain. cbn [Arm64Arith.exec].
  change (Arm64Arith.W (Arm64Arith.W left)) with (Arm64Arith.W left).
  change (Arm64Arith.W (Arm64Arith.W right)) with (Arm64Arith.W right).
  fold (Arm64Arith.int32_of s left) (Arm64Arith.int32_of s right).
  fold a b.
  set (s1 := Arm64Arith.write s res (a * b)).
  assert (Hres1 : Arm64Arith.read s1 res = (a * b) mod 2 ^ 64)
    by (apply read_X_write_X; exact H64).
  assert (Hlow1 : Arm64Arith.read s1 (Arm64Arith.W res) = (a * b) mod 2 ^ 32)
    by (subst s1; rewrite read_W_write_X by exact H64; apply mod64_mod32).
  assert (Hl1 : Arm64Arith.read s1 (Arm64Arith.W left)
                = Arm64Arith.read s (Arm64Arith.W left))
    by (apply read_write_other; cbn; congruence).
  assert (Hr1 : Arm64Arith.read s1 (Arm64Arith.W right)
                = Arm64Arith.read s (Arm64Arith.W right))
    by (apply read_write_other; cbn; congruence).
  assert (Hregs1 : forall c, c <> Arm64Arith.code res ->
                     Arm64Arith.regs s1 c = Arm64Arith.regs s c)
    by (intros c Hc; apply regs_write_other; exact Hc).
  clearbody s1.
  (* Cmp with the sign-extended low word, and the deopt *)
  rewrite run_plain. cbn [Arm64Arith.exec Arm64Arith.operand_value].
  change (Arm64Arith.W (Arm64Arith.W res)) with (Arm64Arith.W res).
  rewrite run_plain. cbn [Arm64Arith.exec].
  rewrite flags_set_flags.
  cbn [Arm64.holds Arm64Arith.sub_flags Arm64.flagZ].
  rewrite H64, Hres1, Hlow1, <- mod64_mod32, smull_overflow_test by exact Hp.
  destruct (Arm64Arith.in_signed_range 32 (a * b)) eqn:Erange; cbn [negb].
  2:{ split; [reflexivity|]. intros Hc. apply in_signed_range32 in Hc.
      congruence. }
  apply in_signed_range32 in Erange.
  match goal with
  | |- context [Arm64Arith.set_flags s1 ?f] =>
      set (s2 := Arm64Arith.set_flags s1 f)
  end.
  (* CompareAndBranch *)
  rewrite run_plain.
  cbn [Arm64Arith.exec Arm64Arith.operand_value Arm64Arith.is_zero_immediate
       andb Arm64.holds Arm64Arith.sub_flags Arm64.flagZ].
  rewrite H64. subst s2. rewrite read_set_flags, Hres1.
  change (0 mod 2 ^ 64) with 0. rewrite Z.sub_0_r.
  rewrite (Z.mod_mod (a * b) (2 ^ 64)) by lia.
  match goal with
  | |- context [Arm64Arith.set_flags s1 ?f] =>
      set (s2 := Arm64Arith.set_flags s1 f)
  end.
  destruct ((a * b) mod 2 ^ 64 =? 0) eqn:Ezero; cbn [negb Arm64Arith.branch].
  - (* the product is zero: the sign of the inputs decides *)
    apply Z.eqb_eq in Ezero.
    assert (Hzero : a * b = 0).
    { apply Z.mod_divide in Ezero; [|lia]. destruct Ezero as [k Hk]. lia. }
    rewrite run_plain. cbn [Arm64Arith.exec].
    subst s2. rewrite !read_set_flags, Hl1, Hr1.
    set (t := Z.lor (Arm64Arith.read s (Arm64Arith.W left))
                (Arm64Arith.read s (Arm64Arith.W right))).
    pose proof (read_W_range s left) as Hlr.
    pose proof (read_W_range s right) as Hrr'.
    pose proof (lor32_range _ _ Hlr Hrr') as Ht. fold t in Ht.
    match goal with
    | |- context [Arm64Arith.write ?s0 (Arm64Arith.W temp) t] =>
        set (s3 := Arm64Arith.write s0 (Arm64Arith.W temp) t)
    end.
    assert (Htemp3 : Arm64Arith.read s3 (Arm64Arith.W temp) = t)
      by (subst s3; rewrite read_write_same; apply Z.mod_small; lia).
    rewrite run_plain. cbn [Arm64Arith.exec Arm64Arith.operand_value].
    change (Arm64Arith.SizeInBits (Arm64Arith.W temp)) with 32.
    rewrite Htemp3, cmp32_zero_flags by lia.
    rewrite run_plain. cbn [Arm64Arith.exec].
    rewrite flags_set_flags. cbn [Arm64.holds Arm64.flagN Arm64.flagV].
    rewrite <- signed32_negative by lia.
    subst t. rewrite lor32_sign by assumption.
    rewrite !signed32_negative by assumption.
    fold (Arm64Arith.int32_of s left) (Arm64Arith.int32_of s right).
    fold a b.
    destruct (a <? 0) eqn:Ea; destruct (b <? 0) eqn:Eb;
      cbn [orb Bool.eqb negb];
      try apply Z.ltb_lt in Ea; try apply Z.ltb_ge in Ea;
      try apply Z.ltb_lt in Eb; try apply Z.ltb_ge in Eb.
    1-3: split; [reflexivity | intros _ [Hc | Hc]; lia].
    split; [intros [Hc | Hc]; [contradiction | lia]|].
    intros _ _. rewrite run_plain. cbn [Arm64Arith.exec].
    eexists. split; [reflexivity|]. split.
    + rewrite read_set_flags. subst s3.
      rewrite read_write_other by (cbn; congruence).
      rewrite read_set_flags, ?mod64_mod32. exact Hlow1.
    + intros c Hc1 Hc2. rewrite regs_set_flags. subst s3.
      rewrite (regs_write_other _ (Arm64Arith.W temp)) by (cbn; congruence).
      rewrite regs_set_flags. apply Hregs1. exact Hc1.
  - (* a nonzero product: the branch skips the test of the signs *)
    apply Z.eqb_neq in Ezero.
    assert (Hnz : a * b <> 0) by (intros Hc; rewrite Hc in Ezero; auto).
    cbn [Arm64Arith.run Arm64Arith.Label_eqb Nat.eqb].
    split; [intros [Hc | Hc]; [contradiction | lia]|].
    intros _ _. exists s2. split; [reflexivity|]. split.
    + subst s2. rewrite read_set_flags, ?mod64_mod32. exact Hlow1.
    + intros c Hc1 Hc2. subst s2. rewrite regs_set_flags. apply Hregs1.
      exact Hc1.
Qed.

Lemma Register_eqb_W_false (r r' : Arm64Arith.Register) :
  Arm64Arith.Register_eqb (Arm64Arith.W r) (Arm64Arith.W r') = false ->
  Arm64Arith.code r <> Arm64Arith.code r'.
Proof.
  unfold Arm64Arith.Register_eqb.
  cbn [Arm64Arith.W Arm64Arith.code Arm64Arith.SizeInBits].
  rewrite Z.eqb_refl, andb_true_r. apply Nat.eqb_neq.
Qed.

(** X17.  The code of [Int32MultiplyWithOverflow] deoptimizes with reason
    [kOverflow] when the product of the two [int32_t] inputs is not an
    [int32_t], and when the product is zero with a negative input, which
    is minus zero; otherwise it leaves the product in the result
    register, also when that is one of the input registers, and changes
    no register but the result and the scratch registers. *)
Theorem Int32MultiplyWithOverflow_correct
    (left right out scratch0 scratch1 : Arm64Arith.Register)
    (s : Arm64Arith.State) :
  Arm64Arith.SizeInBits scratch0 = 64 ->
  Arm64Arith.code scratch0 <> Arm64Arith.code left ->
  Arm64Arith.code scratch0 <> Arm64Arith.code right ->
  Arm64Arith.code scratch0 <> Arm64Arith.code out ->
  Arm64Arith.code scratch1 <> Arm64Arith.code scratch0 ->
  let a := Arm64Arith.int32_of s left in
  let b := Arm64Arith.int32_of s right in
  let o := Arm64Arith.run
             (Arm64Arith.Int32MultiplyWithOverflow_GenerateCode left right out
                scratch0 scratch1)
             Arm64Arith.Running s in
  (~ Arm64Arith.is_int32 (a * b) \/ (a * b = 0 /\ (a < 0 \/ b < 0)) ->
   o = Arm64Arith.Deoptimized Arm64Arith.kOverflow) /\
  (Arm64Arith.is_int32 (a * b) -> (a * b <> 0 \/ (0 <= a /\ 0 <= b)) ->
   exists s', o = Arm64Arith.Done s' /\
     Arm64Arith.int32_of s' out = a * b /\
     forall c, c <> Arm64Arith.code out ->
       c <> Arm64Arith.code scratch0 -> c <> Arm64Arith.code scratch1 ->
       Arm64Arith.regs s' c = Arm64Arith.regs s c).
Proof.
  intros H64 H0l H0r H0o H10 a b o. subst o.
  unfold Arm64Arith.Int32MultiplyWithOverflow_GenerateCode.
  destruct (Arm64Arith.Register_eqb (Arm64Arith.W out) (Arm64Arith.W left)
            || Arm64Arith.Register_eqb (Arm64Arith.W out) (Arm64Arith.W right))
    eqn:Ealias.
  - (* the result register is an input: the product goes through a scratch *)
    destruct (multiply_body left right scratch0 scratch1
                [Arm64Arith.Plain
                   (Arm64Arith.Move (Arm64Arith.W out) (Arm64Arith.W scratch0))]
                s H64 H0l H0r H10) as [Hdeopt Hok].
    fold a b in Hdeopt, Hok. split; [exact Hdeopt|].
    intros Hin Hsign. destruct (Hok Hin Hsign) as (s' & Hrun & Hres & Hregs).
    rewrite Hrun, run_plain. cbn [Arm64Arith.exec Arm64Arith.run].
    eexists. split; [reflexivity|]. split.
    + unfold Arm64Arith.int32_of. rewrite read_write_same, Hres.
      rewrite Z.mod_mod by lia. apply signed32_mod. exact Hin.
    + intros c Hco Hc0 Hc1.
      rewrite (regs_write_other s' (Arm64Arith.W out)) by exact Hco.
      apply Hregs; assumption.
  - apply orb_false_iff in Ealias. destruct Ealias as [El Er].
    apply Register_eqb_W_false in El, Er.
    destruct (multiply_body left right (Arm64Arith.X (Arm64Arith.W out))
                scratch0 [] s eq_refl)
      as [Hdeopt Hok]; try (cbn; congruence).
    fold a b in Hdeopt, Hok. split; [exact Hdeopt|].
    intros Hin Hsign. destruct (Hok Hin Hsign) as (s' & Hrun & Hres & Hregs).
    exists s'. split; [exact Hrun|]. split.
    + unfold Arm64Arith.int32_of.
      change (Arm64Arith.W out)
        with (Arm64Arith.W (Arm64Arith.X (Arm64Arith.W out))).
      rewrite Hres. apply signed32_mod. exact Hin.
    + intros c Hco Hc0 Hc1. apply Hregs; assumption.
Qed.

Lemma Int32MultiplyWithOverflow_correct_witness :
  Arm64Arith.run
    (Arm64Arith.Int32MultiplyWithOverflow_GenerateCode Arm64Arith.x0
       Arm64Arith.x1 Arm64Arith.x0 Arm64Arith.x16 Arm64Arith.x17)
    Arm64Arith.Running (Arm64Arith.example_state 0 (-4))
  = Arm64Arith.Deoptimized Arm64Arith.kOverflow.
Proof.
  refine (proj1 (Int32MultiplyWithOverflow_correct Arm64Arith.x0
                   Arm64Arith.x1 Arm64Arith.x0 Arm64Arith.x16 Arm64Arith.x17
                   (Arm64Arith.example_state 0 (-4)) _ _ _ _ _) _).
  1: reflexivity.
  1-4: cbn; lia.
  right. vm_compute. split; [reflexivity | right; reflexivity].
Defined.

Lemma run_deferred_if (c : Arm64.Condition) (deferred : list Arm64Arith.Instr)
    (rest : list Arm64Arith.Code) (s : Arm64Arith.State) :
  Arm64Arith.run (Arm64Arith.JumpToDeferredIf c deferred :: rest)
    Arm64Arith.Running s
  = if Arm64.holds c (Arm64Arith.flags s) then
      match Arm64Arith.run_deferred deferred s with
      | Some (Arm64Arith.Goto l s') =>
          Arm64Arith.run rest (Arm64Arith.Seeking l) s'
      | Some (Arm64Arith.Leave reason) => Arm64Arith.Deoptimized reason
      | Some (Arm64Arith.Next _) | None => Arm64Arith.Undefined
      end
    else Arm64Arith.run rest Arm64Arith.Running s.
Proof. reflexivity. Qed.

Lemma run_deferred_cons (i : Arm64Arith.Instr) (rest : list Arm64Arith.Instr)
    (s : Arm64Arith.State) :
  Arm64Arith.run_deferred (i :: rest) s
  = match Arm64Arith.exec i s with
    | Arm64Arith.Next s' => Arm64Arith.run_deferred rest s'
    | stop => Some stop
    end.
Proof. reflexivity. Qed.

(** The zero flag of a 32-bit comparison. *)
Lemma cmp32_flagZ (x y : Z) :
  0 <= x < 2 ^ 32 -> 0 <= y < 2 ^ 32 ->
  Arm64.flagZ (Arm64Arith.sub_flags 32 x y) = (x =? y).
Proof.
  intros Hx Hy. unfold Arm64Arith.sub_flags. cbn [Arm64.flagZ].
  destruct (x =? y) eqn:E.
  - apply Z.eqb_eq in E. subst. rewrite Z.sub_diag. reflexivity.
  - apply Z.eqb_neq in E. apply Z.eqb_neq. intros Hc.
    apply Z.mod_divide in Hc; [|lia]. destruct Hc as [k Hk]. lia.
Qed.

Lemma read_W_of_int32 (s : Arm64Arith.State) (r : Arm64Arith.Register)
    (v : Z) :
  - 2 ^ 31 <= v < 2 ^ 31 ->
  (Arm64Arith.read s (Arm64Arith.W r) =? v mod 2 ^ 32)
  = (Arm64Arith.int32_of s r =? v).
Proof.
  intros Hv. pose proof (read_W_range s r) as Hr.
  destruct (Arm64Arith.int32_of s r =? v) eqn:E.
  - apply Z.eqb_eq in E. apply Z.eqb_eq. rewrite <- E. symmetry.
    apply int32_of_eqm.
  - apply Z.eqb_neq in E. apply Z.eqb_neq. intros Hc. apply E.
    unfold Arm64Arith.int32_of. rewrite Hc. apply signed32_mod. exact Hv.
Qed.

Lemma eqm_intro (x y k : Z) :
  x = y + k * 2 ^ 32 -> x mod 2 ^ 32 = y mod 2 ^ 32.
Proof. intros ->. apply Z.mod_add. lia. Qed.

(** The multiply-subtract of the remainder check, on 32-bit patterns. *)
Lemma eqm_msub (l r a b q : Z) :
  a mod 2 ^ 32 = l -> b mod 2 ^ 32 = r ->
  (l - (q mod 2 ^ 32) * r) mod 2 ^ 32 = (a - q * b) mod 2 ^ 32.
Proof.
  intros <- <-.
  rewrite (Z.mod_eq a (2 ^ 32)), (Z.mod_eq b (2 ^ 32)), (Z.mod_eq q (2 ^ 32))
    by lia.
  apply (eqm_intro _ _
           (- (a / 2 ^ 32) + q * (b / 2 ^ 32) + (q / 2 ^ 32) * b
            - 2 ^ 32 * (q / 2 ^ 32) * (b / 2 ^ 32))).
  ring.
Qed.

Lemma quot_int32 (a b : Z) :
  - 2 ^ 31 <= a < 2 ^ 31 -> b <> 0 -> ~ (a = - 2 ^ 31 /\ b = -1) ->
  - 2 ^ 31 <= Z.quot a b < 2 ^ 31.
Proof.
  intros Ha Hb Hmin.
  assert (Habs : Z.abs (Z.quot a b) = Z.abs a / Z.abs b).
  { rewrite <- Z.quot_abs by exact Hb.
    apply Z.quot_div_nonneg; lia. }
  destruct (Z.eq_dec (Z.abs b) 1) as [H1 | H1].
  - rewrite H1, Z.div_1_r in Habs.
    destruct (Z.eq_dec b 1) as [-> | Hb1].
    + rewrite Z.quot_1_r. exact Ha.
    + assert (b = -1) by lia. subst b.
      assert (a <> - 2 ^ 31) by tauto.
      replace (Z.quot a (-1)) with (- a); [lia|].
      change (-1) with (Z.opp 1).
      rewrite Z.quot_opp_r, Z.quot_1_r by lia. reflexivity.
  - assert (Hle : Z.abs a / Z.abs b <= Z.abs a / 2).
    { apply Z.div_le_compat_l; lia. }
    assert (Hhalf : Z.abs a / 2 <= 2 ^ 30).
    { apply Z.div_le_upper_bound; lia. }
    lia.
Qed.

Lemma rem_mod32_zero (a b : Z) :
  - 2 ^ 31 <= b < 2 ^ 31 -> b <> 0 ->
  ((a - Z.quot a b * b) mod 2 ^ 32 =? 0) = (Z.rem a b =? 0).
Proof.
  intros Hb Hnz.
  replace (a - Z.quot a b * b) with (Z.rem a b)
    by (rewrite Z.rem_eq by exact Hnz; ring).
  pose proof (Z.rem_bound_abs a b Hnz) as Hr.
  destruct (Z.rem a b =? 0) eqn:E.
  - apply Z.eqb_eq in E. rewrite E. reflexivity.
  - apply Z.eqb_neq in E. apply Z.eqb_neq. intros Hc.
    apply Z.mod_divide in Hc; [|lia]. destruct Hc as [k Hk]. lia.
Qed.

Lemma read_W_zero (s : Arm64Arith.State) (r : Arm64Arith.Register) :
  (Arm64Arith.read s (Arm64Arith.W r) =? 0) = (Arm64Arith.int32_of s r =? 0).
Proof. apply (read_W_of_int32 s r 0). lia. Qed.

(** The checks before the division: the zero divisor, minus zero, and the
    one quotient that is not an [int32_t]. *)
Lemma divide_checks (left right : Arm64Arith.Register)
    (tail : list Arm64Arith.Code) (s : Arm64Arith.State) :
  let a := Arm64Arith.int32_of s left in
  let b := Arm64Arith.int32_of s right in
  let o :=
    Arm64Arith.run
      ([Arm64Arith.Plain (Arm64Arith.Cmp (Arm64Arith.W right)
                            (Arm64Arith.Immediate 0));
        Arm64Arith.JumpToDeferredIf Arm64.le
          [Arm64Arith.EmitEagerDeoptIf Arm64.eq Arm64Arith.kNotInt32;
           Arm64Arith.Cmp (Arm64Arith.W left) (Arm64Arith.Immediate 0);
           Arm64Arith.EmitEagerDeoptIf Arm64.eq Arm64Arith.kNotInt32;
           Arm64Arith.Cmp (Arm64Arith.W left)
             (Arm64Arith.Immediate Arm64Arith.kMinInt);
           Arm64Arith.JumpIf Arm64.ne (Arm64Arith.mkLabel 0);
           Arm64Arith.Cmp (Arm64Arith.W right) (Arm64Arith.Immediate (-1));
           Arm64Arith.JumpIf Arm64.ne (Arm64Arith.mkLabel 0);
           Arm64Arith.EmitEagerDeopt Arm64Arith.kNotInt32];
        Arm64Arith.Plain (Arm64Arith.Bind (Arm64Arith.mkLabel 0))] ++ tail)
      Arm64Arith.Running s in
  (b = 0 \/ (a = 0 /\ b < 0) \/ (a = - 2 ^ 31 /\ b = -1) ->
   o = Arm64Arith.Deoptimized Arm64Arith.kNotInt32) /\
  (~ (b = 0 \/ (a = 0 /\ b < 0) \/ (a = - 2 ^ 31 /\ b = -1)) ->
   exists s', o = Arm64Arith.run tail Arm64Arith.Running s' /\
     forall c, Arm64Arith.regs s' c = Arm64Arith.regs s c).
Proof.
  intros a b o.
  pose proof (read_W_range s left) as Hl.
  pose proof (read_W_range s right) as Hr.
  pose proof (int32_of_range s left) as Ha. fold a in Ha.
  pose proof (int32_of_range s right) as Hb. fold b in Hb.
  subst o. cbn [app].
  rewrite run_plain. cbn [Arm64Arith.exec Arm64Arith.operand_value].
  change (Arm64Arith.SizeInBits (Arm64Arith.W right)) with 32.
  rewrite cmp32_zero_flags by exact Hr.
  fold (Arm64Arith.int32_of s right). fold b.
  rewrite (read_W_zero s right). fold b.
  rewrite run_deferred_if, flags_set_flags.
  cbn [Arm64.holds Arm64.flagZ Arm64.flagN Arm64.flagV].
  destruct (b =? 0) eqn:Eb0.
  { (* a zero divisor *)
    apply Z.eqb_eq in Eb0. cbn [orb].
    rewrite run_deferred_cons. cbn [Arm64Arith.exec].
    rewrite flags_set_flags. cbn [Arm64.holds Arm64.flagZ].
    split; [reflexivity|]. intros Hn. contradiction Hn. auto. }
  apply Z.eqb_neq in Eb0. cbn [orb].
  destruct (b <? 0) eqn:Ebneg; cbn [Bool.eqb negb].
  2:{ (* a positive divisor *)
      apply Z.ltb_ge in Ebneg.
      rewrite run_plain. cbn [Arm64Arith.exec].
      split; [intros [Hc | [[_ Hc] | [_ Hc]]]; lia|].
      intros _. eexists. split; [reflexivity|].
      intros c. apply regs_set_flags. }
  apply Z.ltb_lt in Ebneg.
  rewrite run_deferred_cons. cbn [Arm64Arith.exec].
  rewrite flags_set_flags. cbn [Arm64.holds Arm64.flagZ].
  match goal with
  | |- context [Arm64Arith.set_flags s ?f] =>
      set (s1 := Arm64Arith.set_flags s f)
  end.
  (* is the dividend zero? *)
  rewrite run_deferred_cons. cbn [Arm64Arith.exec Arm64Arith.operand_value].
  change (Arm64Arith.SizeInBits (Arm64Arith.W left)) with 32.
  assert (Hl1 : Arm64Arith.read s1 (Arm64Arith.W left)
                = Arm64Arith.read s (Arm64Arith.W left)) by reflexivity.
  assert (Hr1 : Arm64Arith.read s1 (Arm64Arith.W right)
                = Arm64Arith.read s (Arm64Arith.W right)) by reflexivity.
  rewrite Hl1, cmp32_zero_flags by exact Hl.
  rewrite (read_W_zero s left). fold a.
  rewrite run_deferred_cons. cbn [Arm64Arith.exec].
  rewrite flags_set_flags. cbn [Arm64.holds Arm64.flagZ].
  destruct (a =? 0) eqn:Ea0.
  { apply Z.eqb_eq in Ea0. split; [reflexivity|].
    intros Hn. contradiction Hn. auto. }
  apply Z.eqb_neq in Ea0.
  (* is the dividend the least [int32_t]? *)
  rewrite run_deferred_cons. cbn [Arm64Arith.exec Arm64Arith.operand_value].
  change (Arm64Arith.SizeInBits (Arm64Arith.W left)) with 32.
  rewrite !read_set_flags, Hl1.
  rewrite run_deferred_cons. cbn [Arm64Arith.exec].
  rewrite flags_set_flags. cbn [Arm64.holds].
  rewrite cmp32_flagZ by (try apply Z.mod_pos_bound; lia).
  rewrite (read_W_of_int32 s left Arm64Arith.kMinInt)
    by (unfold Arm64Arith.kMinInt; lia).
  fold a. change Arm64Arith.kMinInt with (- 2 ^ 31).
  destruct (a =? - 2 ^ 31) eqn:Eamin; cbn [negb Arm64Arith.branch].
  2:{ apply Z.eqb_neq in Eamin.
      cbn [Arm64Arith.run Arm64Arith.Label_eqb Nat.eqb].
      split; [intros [Hc | [[Hc _] | [Hc _]]]; contradiction|].
      intros _. eexists. split; [reflexivity|]. intros c. reflexivity. }
  apply Z.eqb_eq in Eamin.
  (* is the divisor -1? *)
  rewrite run_deferred_cons. cbn [Arm64Arith.exec Arm64Arith.operand_value].
  change (Arm64Arith.SizeInBits (Arm64Arith.W right)) with 32.
  rewrite !read_set_flags, Hr1.
  rewrite run_deferred_cons. cbn [Arm64Arith.exec].
  rewrite flags_set_flags. cbn [Arm64.holds].
  rewrite cmp32_flagZ by (try apply Z.mod_pos_bound; lia).
  rewrite (read_W_of_int32 s right (-1)) by lia.
  fold b.
  destruct (b =? -1) eqn:Ebm1; cbn [negb Arm64Arith.branch].
  - apply Z.eqb_eq in Ebm1.
    rewrite run_deferred_cons. cbn [Arm64Arith.exec].
    split; [reflexivity|]. intros Hn. contradiction Hn. auto.
  - apply Z.eqb_neq in Ebm1.
    cbn [Arm64Arith.run Arm64Arith.Label_eqb Nat.eqb].
    split; [intros [Hc | [[Hc _] | [_ Hc]]]; contradiction|].
    intros _. eexists. split; [reflexivity|]. intros c. reflexivity.
Qed.

Lemma int32_of_ext (s s' : Arm64Arith.State) (r : Arm64Arith.Register) :
  (forall c, Arm64Arith.regs s' c = Arm64Arith.regs s c) ->
  Arm64Arith.int32_of s' r = Arm64Arith.int32_of s r.
Proof.
  intros Hregs. unfold Arm64Arith.int32_of, Arm64Arith.read.
  rewrite Hregs. reflexivity.
Qed.

(** The division itself and the check that it is exact. *)
Lemma divide_tail (left right out res temp : Arm64Arith.Register)
    (s : Arm64Arith.State) :
  Arm64Arith.code res <> Arm64Arith.code left ->
  Arm64Arith.code res <> Arm64Arith.code right ->
  Arm64Arith.code temp <> Arm64Arith.code res ->
  let a := Arm64Arith.int32_of s left in
  let b := Arm64Arith.int32_of s right in
  b <> 0 -> ~ (a = - 2 ^ 31 /\ b = -1) ->
  let o :=
    Arm64Arith.run
      [Arm64Arith.Plain (Arm64Arith.Sdiv (Arm64Arith.W res)
                           (Arm64Arith.W left) (Arm64Arith.W right));
       Arm64Arith.Plain (Arm64Arith.Msub (Arm64Arith.W temp)
                           (Arm64Arith.W res) (Arm64Arith.W right)
                           (Arm64Arith.W left));
       Arm64Arith.Plain (Arm64Arith.Cmp (Arm64Arith.W temp)
                           (Arm64Arith.Immediate 0));
       Arm64Arith.Plain (Arm64Arith.EmitEagerDeoptIf Arm64.ne
                           Arm64Arith.kNotInt32);
       Arm64Arith.Plain (Arm64Arith.Move (Arm64Arith.W out)
                           (Arm64Arith.W res))]
      Arm64Arith.Running s in
  (Z.rem a b <> 0 -> o = Arm64Arith.Deoptimized Arm64Arith.kNotInt32) /\
  (Z.rem a b = 0 ->
   exists s', o = Arm64Arith.Done s' /\
     Arm64Arith.int32_of s' out = Z.quot a b /\
     forall c, c <> Arm64Arith.code out -> c <> Arm64Arith.code res ->
       c <> Arm64Arith.code temp ->
       Arm64Arith.regs s' c = Arm64Arith.regs s c).
Proof.
  intros Hrl Hrr Htr a b Hb0 Hmin o.
  pose proof (int32_of_range s left) as Ha. fold a in Ha.
  pose proof (int32_of_range s right) as Hb. fold b in Hb.
  pose proof (quot_int32 a b Ha Hb0 Hmin) as Hq.
  subst o.
  (* Sdiv *)
  rewrite run_plain. cbn [Arm64Arith.exec].
  change (Arm64Arith.SizeInBits (Arm64Arith.W res)) with 32.
  fold (Arm64Arith.int32_of s left) (Arm64Arith.int32_of s right).
  fold a b.
  set (s1 := Arm64Arith.write s (Arm64Arith.W res) (Z.quot a b)).
  assert (Hres1 : Arm64Arith.read s1 (Arm64Arith.W res)
                  = Z.quot a b mod 2 ^ 32) by apply read_write_same.
  assert (Hl1 : Arm64Arith.read s1 (Arm64Arith.W left)
                = Arm64Arith.read s (Arm64Arith.W left))
    by (apply read_write_other; cbn; congruence).
  assert (Hr1 : Arm64Arith.read s1 (Arm64Arith.W right)
                = Arm64Arith.read s (Arm64Arith.W right))
    by (apply read_write_other; cbn; congruence).
  assert (Hregs1 : forall c, c <> Arm64Arith.code res ->
                     Arm64Arith.regs s1 c = Arm64Arith.regs s c)
    by (intros c Hc; apply (regs_write_other s (Arm64Arith.W res)); exact Hc).
  clearbody s1.
  (* Msub *)
  rewrite run_plain. cbn [Arm64Arith.exec].
  rewrite Hres1, Hl1, Hr1.
  match goal with
  | |- context [Arm64Arith.write s1 (Arm64Arith.W temp) ?v] =>
      set (s2 := Arm64Arith.write s1 (Arm64Arith.W temp) v);
      assert (Htemp2 : Arm64Arith.read s2 (Arm64Arith.W temp)
                       = (a - Z.quot a b * b) mod 2 ^ 32)
        by (subst s2; rewrite read_write_same;
            apply eqm_msub; apply int32_of_eqm)
  end.
  assert (Hres2 : Arm64Arith.read s2 (Arm64Arith.W res)
                  = Z.quot a b mod 2 ^ 32)
    by (subst s2; rewrite read_write_other by (cbn; congruence); exact Hres1).
  assert (Hregs2 : forall c, c <> Arm64Arith.code res ->
                     c <> Arm64Arith.code temp ->
                     Arm64Arith.regs s2 c = Arm64Arith.regs s c).
  { intros c Hc1 Hc2. subst s2.
    rewrite (regs_write_other s1 (Arm64Arith.W temp)) by exact Hc2.
    apply Hregs1. exact Hc1. }
  clearbody s2.
  (* the remainder check *)
  rewrite run_plain. cbn [Arm64Arith.exec Arm64Arith.operand_value].
  change (Arm64Arith.SizeInBits (Arm64Arith.W temp)) with 32.
  rewrite run_plain. cbn [Arm64Arith.exec].
  rewrite flags_set_flags. cbn [Arm64.holds].
  rewrite cmp32_flagZ by (try apply read_W_range; apply Z.mod_pos_bound; lia).
  change (0 mod 2 ^ 32) with 0.
  rewrite Htemp2, rem_mod32_zero by assumption.
  destruct (Z.rem a b =? 0) eqn:Erem; cbn [negb].
  - apply Z.eqb_eq in Erem. split; [intros Hc; contradiction|].
    intros _. rewrite run_plain. cbn [Arm64Arith.exec Arm64Arith.run].
    eexists. split; [reflexivity|]. split.
    + unfold Arm64Arith.int32_of. rewrite read_write_same, read_set_flags.
      rewrite Hres2, Z.mod_mod by lia. apply signed32_mod. exact Hq.
    + intros c Hc1 Hc2 Hc3.
      rewrite (regs_write_other _ (Arm64Arith.W out)) by exact Hc1.
      rewrite regs_set_flags. apply Hregs2; assumption.
  - apply Z.eqb_neq in Erem. split; [reflexivity|].
    intros Hc. contradiction.
Qed.

(** X18.  The code of [Int32DivideWithOverflow] deoptimizes with reason
    [kNotInt32] for a zero divisor, for a zero dividend with a negative
    divisor (minus zero), for the least [int32_t] divided by -1, and
    whenever the division leaves a remainder; otherwise it leaves the
    exact quotient in the result register, also when that is one of the
    input registers, and changes no register but the result and the
    scratch registers. *)
Theorem Int32DivideWithOverflow_correct
    (left right out scratch0 scratch1 : Arm64Arith.Register)
    (s : Arm64Arith.State) :
  Arm64Arith.code scratch0 <> Arm64Arith.code left ->
  Arm64Arith.code scratch0 <> Arm64Arith.code right ->
  Arm64Arith.code scratch0 <> Arm64Arith.code out ->
  Arm64Arith.code scratch1 <> Arm64Arith.code scratch0 ->
  let a := Arm64Arith.int32_of s left in
  let b := Arm64Arith.int32_of s right in
  let o := Arm64Arith.run
             (Arm64Arith.Int32DivideWithOverflow_GenerateCode left right out
                scratch0 scratch1)
             Arm64Arith.Running s in
  let deopt := b = 0 \/ (a = 0 /\ b < 0) \/ (a = - 2 ^ 31 /\ b = -1)
               \/ Z.rem a b <> 0 in
  (deopt -> o = Arm64Arith.Deoptimized Arm64Arith.kNotInt32) /\
  (~ deopt ->
   exists s', o = Arm64Arith.Done s' /\
     Arm64Arith.int32_of s' out = Z.quot a b /\
     b * Z.quot a b = a /\
     forall c, c <> Arm64Arith.code out ->
       c <> Arm64Arith.code scratch0 -> c <> Arm64Arith.code scratch1 ->
       Arm64Arith.regs s' c = Arm64Arith.regs s c).
Proof.
  intros H0l H0r H0o H10 a b o deopt. subst o.
  unfold Arm64Arith.Int32DivideWithOverflow_GenerateCode. cbv zeta.
  match goal with
  | |- context [Arm64Arith.run (_ ++ ?t) _ _] => set (tail := t)
  end.
  destruct (divide_checks left right tail s) as [Hdeopt Hok].
  fold a b in Hdeopt, Hok.
  assert (Hdec : (b = 0 \/ (a = 0 /\ b < 0) \/ (a = - 2 ^ 31 /\ b = -1)) \/
                 ~ (b = 0 \/ (a = 0 /\ b < 0) \/ (a = - 2 ^ 31 /\ b = -1)))
    by lia.
  destruct Hdec as [Hyes | Hno].
  { split; [intros _; apply Hdeopt; exact Hyes|].
    intros Hn. contradiction Hn. subst deopt. tauto. }
  destruct (Hok Hno) as (s0 & Hrun & Hregs0). rewrite Hrun.
  assert (Hb0 : b <> 0) by tauto.
  assert (Hmin : ~ (a = - 2 ^ 31 /\ b = -1)) by tauto.
  assert (Hrem : Z.rem a b = 0 -> b * Z.quot a b = a).
  { intros Hr. pose proof (Z.quot_rem' a b) as Hq. lia. }
  subst tail.
  destruct (Arm64Arith.Register_eqb (Arm64Arith.W out) (Arm64Arith.W left)
            || Arm64Arith.Register_eqb (Arm64Arith.W out) (Arm64Arith.W right))
    eqn:Ealias.
  - destruct (divide_tail left right out scratch0 scratch1 s0 H0l H0r H10)
      as [Hd Hdone];
      rewrite ?(int32_of_ext s s0 left Hregs0),
              ?(int32_of_ext s s0 right Hregs0); fold a b; try assumption.
    rewrite !(int32_of_ext s s0 _ Hregs0) in Hd, Hdone. fold a b in Hd, Hdone.
    split.
    + intros [Hc | [Hc | [Hc | Hc]]]; tauto.
    + intros Hn. assert (Hr : Z.rem a b = 0) by (subst deopt; lia).
      destruct (Hdone Hr) as (s' & Hrun' & Hout & Hregs').
      exists s'. split; [exact Hrun'|]. split; [exact Hout|].
      split; [apply Hrem, Hr|].
      intros c Hc1 Hc2 Hc3. rewrite Hregs' by assumption. apply Hregs0.
  - apply orb_false_iff in Ealias. destruct Ealias as [El Er].
    apply Register_eqb_W_false in El, Er.
    destruct (divide_tail left right out out scratch0 s0 El Er H0o)
      as [Hd Hdone];
      rewrite ?(int32_of_ext s s0 left Hregs0),
              ?(int32_of_ext s s0 right Hregs0); fold a b; try assumption.
    rewrite !(int32_of_ext s s0 _ Hregs0) in Hd, Hdone. fold a b in Hd, Hdone.
    split.
    + intros [Hc | [Hc | [Hc | Hc]]]; tauto.
    + intros Hn. assert (Hr : Z.rem a b = 0) by (subst deopt; lia).
      destruct (Hdone Hr) as (s' & Hrun' & Hout & Hregs').
      exists s'. split; [exact Hrun'|]. split; [exact Hout|].
      split; [apply Hrem, Hr|].
      intros c Hc1 Hc2 Hc3. rewrite Hregs' by assumption. apply Hregs0.
Qed.

Lemma Int32DivideWithOverflow_correct_witness :
  Arm64Arith.run
    (Arm64Arith.Int32DivideWithOverflow_GenerateCode Arm64Arith.x0
       Arm64Arith.x1 Arm64Arith.x1 Arm64Arith.x16 Arm64Arith.x17)
    Arm64Arith.Running (Arm64Arith.example_state 7 2)
  = Arm64Arith.Deoptimized Arm64Arith.kNotInt32.
Proof.
  refine (proj1 (Int32DivideWithOverflow_correct Arm64Arith.x0
                   Arm64Arith.x1 Arm64Arith.x1 Arm64Arith.x16 Arm64Arith.x17
                   (Arm64Arith.example_state 7 2) _ _ _ _) _).
  1-4: cbn; lia.
  right. right. right. vm_compute. discriminate.
Defined.

(** A positive number that shares no bit with its predecessor is a power
    of two, and masking with the predecessor is the remainder. *)
Lemma land_pred_pow2 (n x : Z) :
  0 < n -> Z.land (n - 1) n = 0 -> Z.land (n - 1) x = x mod n.
Proof.
  intros Hn Hland.
  pose proof (Z.log2_spec n Hn) as Hlog.
  pose proof (Z.log2_nonneg n) as Hk.
  set (k := Z.log2 n) in *.
  assert (Hpow : n = 2 ^ k).
  { destruct (Z.eq_dec n (2 ^ k)) as [E | E]; [exact E|].
    assert (Hpred : Z.log2 (n - 1) = k) by (apply Z.log2_unique; lia).
    assert (Hb1 : Z.testbit (n - 1) k = true)
      by (rewrite <- Hpred; apply Z.bit_log2; lia).
    assert (Hb2 : Z.testbit n k = true) by (apply Z.bit_log2; lia).
    assert (Hb : Z.testbit (Z.land (n - 1) n) k = true)
      by (rewrite Z.land_spec, Hb1, Hb2; reflexivity).
    rewrite Hland, Z.bits_0 in Hb. discriminate Hb. }
  rewrite Hpow.
  replace (2 ^ k - 1) with (Z.ones k) by (rewrite Z.ones_equiv; lia).
  rewrite Z.land_comm. apply Z.land_ones. exact Hk.
Qed.

Lemma read_W_signed (s : Arm64Arith.State) (r : Arm64Arith.Register) :
  Arm64Arith.read s (Arm64Arith.W r)
  = if Arm64Arith.int32_of s r <? 0 then Arm64Arith.int32_of s r + 2 ^ 32
    else Arm64Arith.int32_of s r.
Proof.
  pose proof (read_W_range s r) as Hr.
  unfold Arm64Arith.int32_of, Arm64Arith.signed. change (32 - 1) with 31.
  destruct (Arm64Arith.read s (Arm64Arith.W r) <? 2 ^ 31) eqn:E;
    [apply Z.ltb_lt in E | apply Z.ltb_ge in E].
  - replace (Arm64Arith.read s (Arm64Arith.W r) <? 0) with false
      by (symmetry; apply Z.ltb_ge; lia).
    reflexivity.
  - replace (Arm64Arith.read s (Arm64Arith.W r) - 2 ^ 32 <? 0) with true
      by (symmetry; apply Z.ltb_lt; lia).
    lia.
Qed.

(** The magnitude of a negative [int32_t], as the 32-bit negation leaves
    it. *)
Lemma neg32_abs (x v : Z) :
  - 2 ^ 31 <= v < 0 -> x = v + 2 ^ 32 -> (0 - x) mod 2 ^ 32 = - v.
Proof.
  intros Hv ->. symmetry. apply (Z.mod_unique _ _ (-1)); lia.
Qed.

(** The first check of the modulus: the divisor is replaced by its
    magnitude, and a zero divisor deoptimizes. *)
Lemma modulus_rhs_check (rhs : Arm64Arith.Register)
    (tail : list Arm64Arith.Code) (s : Arm64Arith.State) :
  let b := Arm64Arith.int32_of s rhs in
  let o :=
    Arm64Arith.run
      ([Arm64Arith.Plain (Arm64Arith.Cmp (Arm64Arith.W rhs)
                            (Arm64Arith.Immediate 0));
        Arm64Arith.JumpToDeferredIf Arm64.le
          [Arm64Arith.Negs (Arm64Arith.W rhs)
             (Arm64Arith.OpRegister (Arm64Arith.W rhs));
           Arm64Arith.EmitEagerDeoptIf Arm64.eq Arm64Arith.kDivisionByZero;
           Arm64Arith.Jump (Arm64Arith.mkLabel 1)];
        Arm64Arith.Plain (Arm64Arith.Bind (Arm64Arith.mkLabel 1))] ++ tail)
      Arm64Arith.Running s in
  (b = 0 -> o = Arm64Arith.Deoptimized Arm64Arith.kDivisionByZero) /\
  (b <> 0 ->
   exists s', o = Arm64Arith.run tail Arm64Arith.Running s' /\
     Arm64Arith.read s' (Arm64Arith.W rhs) = Z.abs b /\
     forall c, c <> Arm64Arith.code rhs ->
       Arm64Arith.regs s' c = Arm64Arith.regs s c).
Proof.
  intros b o.
  pose proof (read_W_range s rhs) as Hr.
  pose proof (int32_of_range s rhs) as Hb. fold b in Hb.
  pose proof (read_W_signed s rhs) as Hsigned. fold b in Hsigned.
  subst o. cbn [app].
  rewrite run_plain. cbn [Arm64Arith.exec Arm64Arith.operand_value].
  change (Arm64Arith.SizeInBits (Arm64Arith.W rhs)) with 32.
  rewrite cmp32_zero_flags by exact Hr.
  fold (Arm64Arith.int32_of s rhs). fold b.
  rewrite (read_W_zero s rhs). fold b.
  rewrite run_deferred_if, flags_set_flags.
  cbn [Arm64.holds Arm64.flagZ Arm64.flagN Arm64.flagV].
  destruct (b <? 0) eqn:Eneg; cbn [Bool.eqb negb];
    [apply Z.ltb_lt in Eneg | apply Z.ltb_ge in Eneg].
  - (* a negative divisor is negated *)
    replace (b =? 0) with false by (symmetry; apply Z.eqb_neq; lia).
    cbn [orb].
    rewrite run_deferred_cons. cbn [Arm64Arith.exec Arm64Arith.operand_value].
    change (Arm64Arith.SizeInBits (Arm64Arith.W rhs)) with 32.
    rewrite !read_set_flags.
    rewrite run_deferred_cons. cbn [Arm64Arith.exec].
    rewrite flags_set_flags. cbn [Arm64.holds].
    rewrite cmp32_flagZ by lia.
    replace (0 =? Arm64Arith.read s (Arm64Arith.W rhs)) with false
      by (symmetry; apply Z.eqb_neq;
          replace (Arm64Arith.read s (Arm64Arith.W rhs) <? 0) with false
            in Hsigned by (symmetry; apply Z.ltb_ge; lia);
          destruct (b <? 0); lia).
    rewrite run_deferred_cons. cbn [Arm64Arith.exec Arm64Arith.branch].
    cbn [Arm64Arith.run Arm64Arith.Label_eqb Nat.eqb].
    split; [intros Hc; lia|]. intros _.
    eexists. split; [reflexivity|]. split.
    + rewrite read_set_flags, read_write_same.
      replace (b <? 0) with true in Hsigned by (symmetry; apply Z.ltb_lt; lia).
      rewrite (neg32_abs _ b) by (try exact Hsigned; lia). lia.
    + intros c Hc. rewrite regs_set_flags.
      rewrite (regs_write_other _ (Arm64Arith.W rhs)) by exact Hc.
      apply regs_set_flags.
  - destruct (b =? 0) eqn:E0; cbn [orb];
      [apply Z.eqb_eq in E0 | apply Z.eqb_neq in E0].
    + (* zero: the negation leaves zero and the check deoptimizes *)
      rewrite run_deferred_cons.
      cbn [Arm64Arith.exec Arm64Arith.operand_value].
      change (Arm64Arith.SizeInBits (Arm64Arith.W rhs)) with 32.
      rewrite !read_set_flags.
      rewrite run_deferred_cons. cbn [Arm64Arith.exec].
      rewrite flags_set_flags. cbn [Arm64.holds].
      rewrite cmp32_flagZ by lia.
      replace (b <? 0) with false in Hsigned
        by (symmetry; apply Z.ltb_ge; lia).
      rewrite Hsigned, E0. cbn [Z.eqb].
      split; [reflexivity | intros Hc; contradiction].
    + rewrite run_plain. cbn [Arm64Arith.exec].
      split; [intros Hc; contradiction|]. intros _.
      eexists. split; [reflexivity|]. split.
      * rewrite read_set_flags.
        replace (b <? 0) with false in Hsigned
          by (symmetry; apply Z.ltb_ge; lia).
        lia.
      * intros c Hc. apply regs_set_flags.
Qed.

Lemma udiv_msub (x n : Z) :
  0 <= x < 2 ^ 32 -> 0 < n < 2 ^ 32 ->
  (x - ((x / n) mod 2 ^ 32) * n) mod 2 ^ 32 = x mod n.
Proof.
  intros Hx Hn.
  assert (Hq : 0 <= x / n <= x).
  { split; [apply Z.div_pos; lia|].
    apply Z.div_le_upper_bound; [lia|]. nia. }
  pose proof (Z.mod_pos_bound x n ltac:(lia)) as Hm.
  rewrite (Z.mod_small (x / n)) by lia.
  replace (x - x / n * n) with (x mod n)
    by (rewrite Z.mod_eq by lia; ring).
  apply Z.mod_small. lia.
Qed.

Lemma run_seeking (c : Arm64Arith.Code) (rest : list Arm64Arith.Code)
    (l : Arm64Arith.Label) (s : Arm64Arith.State) :
  Arm64Arith.run (c :: rest) (Arm64Arith.Seeking l) s
  = match c with
    | Arm64Arith.Plain (Arm64Arith.Bind l') =>
        if Arm64Arith.Label_eqb l l'
        then Arm64Arith.run rest Arm64Arith.Running s
        else Arm64Arith.run rest (Arm64Arith.Seeking l) s
    | _ => Arm64Arith.run rest (Arm64Arith.Seeking l) s
    end.
Proof. reflexivity. Qed.

(** The modulus proper, once the divisor register holds a magnitude [n]:
    a negative dividend is negated, divided unsigned and the remainder
    negated back, deoptimizing on a zero remainder; a non-negative one
    is masked when [n] is a power of two and divided otherwise. *)
Lemma modulus_body (lhs rhs out scratch0 : Arm64Arith.Register)
    (s : Arm64Arith.State) (n : Z) :
  Arm64Arith.code lhs <> Arm64Arith.code rhs ->
  Arm64Arith.code scratch0 <> Arm64Arith.code lhs ->
  Arm64Arith.code scratch0 <> Arm64Arith.code rhs ->
  Arm64Arith.read s (Arm64Arith.W rhs) = n -> 0 < n <= 2 ^ 31 ->
  let a := Arm64Arith.int32_of s lhs in
  let o :=
    Arm64Arith.run
      [Arm64Arith.Plain (Arm64Arith.Cmp (Arm64Arith.W lhs)
                           (Arm64Arith.Immediate 0));
       Arm64Arith.JumpToDeferredIf Arm64.lt
         [Arm64Arith.Neg (Arm64Arith.W lhs)
            (Arm64Arith.OpRegister (Arm64Arith.W lhs));
          Arm64Arith.Udiv (Arm64Arith.W scratch0) (Arm64Arith.W lhs)
            (Arm64Arith.W rhs);
          Arm64Arith.Msub (Arm64Arith.W out) (Arm64Arith.W scratch0)
            (Arm64Arith.W rhs) (Arm64Arith.W lhs);
          Arm64Arith.Cmp (Arm64Arith.W out) (Arm64Arith.Immediate 0);
          Arm64Arith.EmitEagerDeoptIf Arm64.eq Arm64Arith.kDivisionByZero;
          Arm64Arith.Neg (Arm64Arith.W out)
            (Arm64Arith.OpRegister (Arm64Arith.W out));
          Arm64Arith.Jump (Arm64Arith.mkLabel 0)];
       Arm64Arith.Plain (Arm64Arith.Add (Arm64Arith.W scratch0)
                           (Arm64Arith.W rhs) (Arm64Arith.Immediate (-1)));
       Arm64Arith.Plain (Arm64Arith.Tst (Arm64Arith.W scratch0)
                           (Arm64Arith.OpRegister (Arm64Arith.W rhs)));
       Arm64Arith.Plain (Arm64Arith.JumpIf Arm64.ne (Arm64Arith.mkLabel 2));
       Arm64Arith.Plain (Arm64Arith.And (Arm64Arith.W out)
                           (Arm64Arith.W scratch0) (Arm64Arith.W lhs));
       Arm64Arith.Plain (Arm64Arith.Jump (Arm64Arith.mkLabel 0));
       Arm64Arith.Plain (Arm64Arith.Bind (Arm64Arith.mkLabel 2));
       Arm64Arith.Plain (Arm64Arith.Udiv (Arm64Arith.W scratch0)
                           (Arm64Arith.W lhs) (Arm64Arith.W rhs));
       Arm64Arith.Plain (Arm64Arith.Msub (Arm64Arith.W out)
                           (Arm64Arith.W scratch0) (Arm64Arith.W rhs)
                           (Arm64Arith.W lhs));
       Arm64Arith.Plain (Arm64Arith.Bind (Arm64Arith.mkLabel 0))]
      Arm64Arith.Running s in
  (a < 0 -> Z.abs a mod n = 0 ->
   o = Arm64Arith.Deoptimized Arm64Arith.kDivisionByZero) /\
  (0 <= a \/ Z.abs a mod n <> 0 ->
   exists s', o = Arm64Arith.Done s' /\
     Arm64Arith.int32_of s' out = Z.sgn a * (Z.abs a mod n) /\
     forall c, c <> Arm64Arith.code lhs -> c <> Arm64Arith.code out ->
       c <> Arm64Arith.code scratch0 ->
       Arm64Arith.regs s' c = Arm64Arith.regs s c).
Proof.
  intros Hlr H0l H0r Hrhs Hn a o.
  pose proof (read_W_range s lhs) as Hl.
  pose proof (int32_of_range s lhs) as Ha. fold a in Ha.
  pose proof (read_W_signed s lhs) as Hsigned. fold a in Hsigned.
  pose proof (Z.mod_pos_bound (Z.abs a) n ltac:(lia)) as Hm.
  subst o.
  rewrite run_plain. cbn [Arm64Arith.exec Arm64Arith.operand_value].
  change (Arm64Arith.SizeInBits (Arm64Arith.W lhs)) with 32.
  rewrite cmp32_zero_flags by exact Hl.
  fold (Arm64Arith.int32_of s lhs). fold a.
  rewrite run_deferred_if, flags_set_flags.
  cbn [Arm64.holds Arm64.flagN Arm64.flagV].
  match goal with
  | |- context [Arm64Arith.set_flags s ?f] =>
      set (s1 := Arm64Arith.set_flags s f)
  end.
  assert (Hregs1 : forall c, Arm64Arith.regs s1 c = Arm64Arith.regs s c)
    by reflexivity.
  assert (Hl1 : Arm64Arith.read s1 (Arm64Arith.W lhs)
                = Arm64Arith.read s (Arm64Arith.W lhs)) by reflexivity.
  assert (Hr1 : Arm64Arith.read s1 (Arm64Arith.W rhs) = n) by exact Hrhs.
  clearbody s1.
  destruct (a <? 0) eqn:Eneg; cbn [Bool.eqb negb];
    [apply Z.ltb_lt in Eneg | apply Z.ltb_ge in Eneg].
  - (* a negative dividend, in the deferred code *)
    rewrite run_deferred_cons. cbn [Arm64Arith.exec Arm64Arith.operand_value].
    change (Arm64Arith.SizeInBits (Arm64Arith.W lhs)) with 32.
    rewrite Hl1.
    set (s2 := Arm64Arith.write s1 (Arm64Arith.W lhs)
                 (0 - Arm64Arith.read s (Arm64Arith.W lhs))).
    assert (Hl2 : Arm64Arith.read s2 (Arm64Arith.W lhs) = Z.abs a).
    { subst s2. rewrite read_write_same, (neg32_abs _ a) by lia. lia. }
    assert (Hr2 : Arm64Arith.read s2 (Arm64Arith.W rhs) = n)
      by (subst s2; rewrite read_write_other by (cbn; congruence); exact Hr1).
    assert (Hregs2 : forall c, c <> Arm64Arith.code lhs ->
                       Arm64Arith.regs s2 c = Arm64Arith.regs s c).
    { intros c Hc. subst s2.
      rewrite (regs_write_other s1 (Arm64Arith.W lhs)) by exact Hc.
      apply Hregs1. }
    clearbody s2.
    rewrite run_deferred_cons. cbn [Arm64Arith.exec].
    rewrite Hl2, Hr2.
    set (s3 := Arm64Arith.write s2 (Arm64Arith.W scratch0) (Z.abs a / n)).
    assert (Hq3 : Arm64Arith.read s3 (Arm64Arith.W scratch0)
                  = (Z.abs a / n) mod 2 ^ 32) by apply read_write_same.
    assert (Hl3 : Arm64Arith.read s3 (Arm64Arith.W lhs) = Z.abs a)
      by (subst s3; rewrite read_write_other by (cbn; congruence); exact Hl2).
    assert (Hr3 : Arm64Arith.read s3 (Arm64Arith.W rhs) = n)
      by (subst s3; rewrite read_write_other by (cbn; congruence); exact Hr2).
    assert (Hregs3 : forall c, c <> Arm64Arith.code lhs ->
                       c <> Arm64Arith.code scratch0 ->
                       Arm64Arith.regs s3 c = Arm64Arith.regs s c).
    { intros c Hc1 Hc2. subst s3.
      rewrite (regs_write_other s2 (Arm64Arith.W scratch0)) by exact Hc2.
      apply Hregs2. exact Hc1. }
    clearbody s3.
    rewrite run_deferred_cons. cbn [Arm64Arith.exec].
    rewrite Hq3, Hl3, Hr3.
    match goal with
    | |- context [Arm64Arith.write s3 (Arm64Arith.W out) ?v] =>
        set (s4 := Arm64Arith.write s3 (Arm64Arith.W out) v)
    end.
    assert (Ho4 : Arm64Arith.read s4 (Arm64Arith.W out) = Z.abs a mod n)
      by (subst s4; rewrite read_write_same; apply udiv_msub; lia).
    assert (Hregs4 : forall c, c <> Arm64Arith.code lhs ->
                       c <> Arm64Arith.code scratch0 ->
                       c <> Arm64Arith.code out ->
                       Arm64Arith.regs s4 c = Arm64Arith.regs s c).
    { intros c Hc1 Hc2 Hc3. subst s4.
      rewrite (regs_write_other s3 (Arm64Arith.W out)) by exact Hc3.
      apply Hregs3; assumption. }
    clearbody s4.
    rewrite run_deferred_cons. cbn [Arm64Arith.exec Arm64Arith.operand_value].
    change (Arm64Arith.SizeInBits (Arm64Arith.W out)) with 32.
    rewrite run_deferred_cons. cbn [Arm64Arith.exec].
    rewrite flags_set_flags. cbn [Arm64.holds].
    rewrite cmp32_flagZ by (try apply read_W_range; apply Z.mod_pos_bound; lia).
    change (0 mod 2 ^ 32) with 0. rewrite Ho4.
    destruct (Z.abs a mod n =? 0) eqn:Ezero;
      [apply Z.eqb_eq in Ezero | apply Z.eqb_neq in Ezero].
    + split; [reflexivity|]. intros [Hc | Hc]; [lia | contradiction].
    + rewrite run_deferred_cons.
      cbn [Arm64Arith.exec Arm64Arith.operand_value].
      rewrite read_set_flags, Ho4.
      rewrite run_deferred_cons. cbn [Arm64Arith.exec Arm64Arith.branch].
      cbn [Arm64Arith.run Arm64Arith.Label_eqb Nat.eqb].
      split; [intros _ Hc; contradiction|]. intros _.
      eexists. split; [reflexivity|]. split.
      * unfold Arm64Arith.int32_of. rewrite read_write_same.
        rewrite (signed32_of_congruent _ (- (Z.abs a mod n)));
          [| reflexivity | lia].
        rewrite (Z.sgn_neg a) by lia. lia.
      * intros c Hc1 Hc2 Hc3.
        rewrite (regs_write_other _ (Arm64Arith.W out)) by exact Hc2.
        rewrite regs_set_flags. apply Hregs4; assumption.
  - (* a non-negative dividend, in line *)
    replace (a <? 0) with false in Hsigned by (symmetry; apply Z.ltb_ge; lia).
    rewrite Hsigned in Hl1.
    assert (Hsgn : Z.sgn a * (Z.abs a mod n) = a mod n).
    { destruct (Z.eq_dec a 0) as [-> | Hnz]; [reflexivity|].
      rewrite Z.sgn_pos, Z.abs_eq by lia. lia. }
    rewrite Hsgn.
    pose proof (Z.mod_pos_bound a n ltac:(lia)) as Hm'.
    rewrite run_plain. cbn [Arm64Arith.exec Arm64Arith.operand_value].
    change (Arm64Arith.SizeInBits (Arm64Arith.W scratch0)) with 32.
    rewrite Hr1.
    set (s2 := Arm64Arith.write s1 (Arm64Arith.W scratch0)
                 (n + -1 mod 2 ^ 32)).
    assert (Hm2 : Arm64Arith.read s2 (Arm64Arith.W scratch0) = n - 1).
    { subst s2. rewrite read_write_same. symmetry.
      apply (Z.mod_unique _ _ 1); [lia|].
      change (-1 mod 2 ^ 32) with (2 ^ 32 - 1). lia. }
    assert (Hl2 : Arm64Arith.read s2 (Arm64Arith.W lhs) = a)
      by (subst s2; rewrite read_write_other by (cbn; congruence); exact Hl1).
    assert (Hr2 : Arm64Arith.read s2 (Arm64Arith.W rhs) = n)
      by (subst s2; rewrite read_write_other by (cbn; congruence); exact Hr1).
    assert (Hregs2 : forall c, c <> Arm64Arith.code scratch0 ->
                       Arm64Arith.regs s2 c = Arm64Arith.regs s c).
    { intros c Hc. subst s2.
      rewrite (regs_write_other s1 (Arm64Arith.W scratch0)) by exact Hc.
      apply Hregs1. }
    clearbody s2.
    rewrite run_plain. cbn [Arm64Arith.exec Arm64Arith.operand_value].
    rewrite Hm2, Hr2.
    rewrite run_plain. cbn [Arm64Arith.exec].
    rewrite flags_set_flags.
    cbn [Arm64.holds Arm64Arith.logic_flags Arm64.flagZ].
    split; [intros Hc; lia|]. intros _.
    destruct (Z.land (n - 1) n =? 0) eqn:Epow;
      [apply Z.eqb_eq in Epow | apply Z.eqb_neq in Epow];
      cbn [negb Arm64Arith.branch].
    + (* a power of two: mask *)
      rewrite run_plain. cbn [Arm64Arith.exec].
      rewrite !read_set_flags, Hm2, Hl2.
      rewrite run_plain. cbn [Arm64Arith.exec Arm64Arith.branch].
      cbn [Arm64Arith.run Arm64Arith.Label_eqb Nat.eqb].
      eexists. split; [reflexivity|]. split.
      * unfold Arm64Arith.int32_of. rewrite read_write_same.
        rewrite land_pred_pow2 by (try exact Epow; lia).
        apply signed32_mod. lia.
      * intros c Hc1 Hc2 Hc3.
        rewrite (regs_write_other _ (Arm64Arith.W out)) by exact Hc2.
        rewrite regs_set_flags. apply Hregs2. exact Hc3.
    + (* not a power of two: divide *)
      repeat (rewrite run_seeking; cbn [Arm64Arith.Label_eqb Nat.eqb]).
      rewrite run_plain. cbn [Arm64Arith.exec].
      rewrite !read_set_flags, Hl2, Hr2.
      match goal with
      | |- context [Arm64Arith.write ?s0 (Arm64Arith.W scratch0) (a / n)] =>
          set (s3 := Arm64Arith.write s0 (Arm64Arith.W scratch0) (a / n))
      end.
      assert (Hq3 : Arm64Arith.read s3 (Arm64Arith.W scratch0)
                    = (a / n) mod 2 ^ 32) by apply read_write_same.
      assert (Hl3 : Arm64Arith.read s3 (Arm64Arith.W lhs) = a).
      { subst s3. rewrite read_write_other by (cbn; congruence).
        rewrite read_set_flags. exact Hl2. }
      assert (Hr3 : Arm64Arith.read s3 (Arm64Arith.W rhs) = n).
      { subst s3. rewrite read_write_other by (cbn; congruence).
        rewrite read_set_flags. exact Hr2. }
      assert (Hregs3 : forall c, c <> Arm64Arith.code scratch0 ->
                         Arm64Arith.regs s3 c = Arm64Arith.regs s c).
      { intros c Hc. subst s3.
        rewrite (regs_write_other _ (Arm64Arith.W scratch0)) by exact Hc.
        rewrite regs_set_flags. apply Hregs2. exact Hc. }
      clearbody s3.
      rewrite run_plain. cbn [Arm64Arith.exec].
      rewrite Hq3, Hl3, Hr3.
      rewrite run_plain. cbn [Arm64Arith.exec Arm64Arith.run].
      eexists. split; [reflexivity|]. split.
      * unfold Arm64Arith.int32_of. rewrite read_write_same.
        rewrite udiv_msub by lia.
        rewrite <- (Z.mod_small (a mod n) (2 ^ 32)) at 1 by lia.
        apply signed32_mod. lia.
      * intros c Hc1 Hc2 Hc3.
        rewrite (regs_write_other _ (Arm64Arith.W out)) by exact Hc2.
        apply Hregs3. exact Hc3.
Qed.

(** X19.  On two different input registers, the code of
    [Int32ModulusWithOverflow] deoptimizes with reason [kDivisionByZero]
    for a zero divisor and for a negative dividend that the divisor
    divides (minus zero); otherwise it leaves in the result register the
    remainder of the truncating division, which has the sign of the
    dividend, for every pair of [int32_t] inputs, the least among them,
    and changes no register but the inputs, the result and the scratch
    register. *)
Theorem Int32ModulusWithOverflow_correct
    (lhs rhs out scratch0 : Arm64Arith.Register) (s : Arm64Arith.State) :
  Arm64Arith.code lhs <> Arm64Arith.code rhs ->
  Arm64Arith.code scratch0 <> Arm64Arith.code lhs ->
  Arm64Arith.code scratch0 <> Arm64Arith.code rhs ->
  let a := Arm64Arith.int32_of s lhs in
  let b := Arm64Arith.int32_of s rhs in
  let o := Arm64Arith.run
             (Arm64Arith.Int32ModulusWithOverflow_GenerateCode lhs rhs out
                scratch0)
             Arm64Arith.Running s in
  (b = 0 \/ (a < 0 /\ Z.rem a b = 0) ->
   o = Arm64Arith.Deoptimized Arm64Arith.kDivisionByZero) /\
  (b <> 0 -> 0 <= a \/ Z.rem a b <> 0 ->
   exists s', o = Arm64Arith.Done s' /\
     Arm64Arith.int32_of s' out = Z.rem a b /\
     forall c, c <> Arm64Arith.code lhs -> c <> Arm64Arith.code rhs ->
       c <> Arm64Arith.code out -> c <> Arm64Arith.code scratch0 ->
       Arm64Arith.regs s' c = Arm64Arith.regs s c).
Proof.
  intros Hlr H0l H0r a b o. subst o.
  pose proof (int32_of_range s rhs) as Hb. fold b in Hb.
  unfold Arm64Arith.Int32ModulusWithOverflow_GenerateCode.
  replace (Arm64Arith.Register_eqb (Arm64Arith.W lhs) (Arm64Arith.W rhs))
    with false
    by (symmetry; unfold Arm64Arith.Register_eqb;
        cbn [Arm64Arith.W Arm64Arith.code];
        apply andb_false_iff; left; apply Nat.eqb_neq; exact Hlr).
  cbv zeta. cbn [app].
  match goal with
  | |- context [Arm64Arith.run (?c1 :: ?c2 :: ?c3 :: ?t) _ _] =>
      destruct (modulus_rhs_check rhs t s) as [Hzero Hok]
  end.
  cbn [app] in Hzero, Hok. fold b in Hzero, Hok.
  destruct (Z.eq_dec b 0) as [Hb0 | Hb0].
  { split; [intros _; apply Hzero, Hb0 | intros Hc; contradiction]. }
  destruct (Hok Hb0) as (s1 & Hrun & Hrhs & Hregs1). rewrite Hrun.
  assert (Ha1 : Arm64Arith.int32_of s1 lhs = a).
  { unfold a, Arm64Arith.int32_of, Arm64Arith.read.
    cbn [Arm64Arith.W Arm64Arith.code]. rewrite Hregs1 by exact Hlr.
    reflexivity. }
  destruct (modulus_body lhs rhs out scratch0 s1 (Z.abs b) Hlr H0l H0r Hrhs)
    as [Hdeopt Hdone]; [lia|].
  rewrite Ha1 in Hdeopt, Hdone.
  rewrite (Z.rem_mod a b Hb0).
  split.
  - intros [Hc | [Hneg Hrem]]; [contradiction|].
    apply Hdeopt; [exact Hneg|].
    rewrite (Z.sgn_neg a) in Hrem by exact Hneg. lia.
  - intros _ Hcase.
    destruct Hdone as (s' & Hrun' & Hout & Hregs').
    { destruct Hcase as [Hpos | Hrem]; [left; exact Hpos|].
      right. intros Hc. apply Hrem. rewrite Hc. lia. }
    exists s'. split; [exact Hrun'|]. split; [exact Hout|].
    intros c Hc1 Hc2 Hc3 Hc4.
    rewrite Hregs' by assumption. apply Hregs1. exact Hc2.
Qed.

Lemma Int32ModulusWithOverflow_correct_witness :
  exists s',
    Arm64Arith.run
      (Arm64Arith.Int32ModulusWithOverflow_GenerateCode Arm64Arith.x0
         Arm64Arith.x1 Arm64Arith.x0 Arm64Arith.x16)
      Arm64Arith.Running (Arm64Arith.example_state (- 2 ^ 31) 3)
    = Arm64Arith.Done s' /\
    Arm64Arith.int32_of s' Arm64Arith.x0
    = Z.rem (Arm64Arith.int32_of (Arm64Arith.example_state (- 2 ^ 31) 3)
               Arm64Arith.x0)
        (Arm64Arith.int32_of (Arm64Arith.example_state (- 2 ^ 31) 3)
           Arm64Arith.x1) /\
    forall c, c <> Arm64Arith.code Arm64Arith.x0 ->
      c <> Arm64Arith.code Arm64Arith.x1 ->
      c <> Arm64Arith.code Arm64Arith.x0 ->
      c <> Arm64Arith.code Arm64Arith.x16 ->
      Arm64Arith.regs s' c
      = Arm64Arith.regs (Arm64Arith.example_state (- 2 ^ 31) 3) c.
Proof.
  refine (proj2 (Int32ModulusWithOverflow_correct Arm64Arith.x0
                   Arm64Arith.x1 Arm64Arith.x0 Arm64Arith.x16
                   (Arm64Arith.example_state (- 2 ^ 31) 3) _ _ _) _ _).
  1-3: cbn; lia.
  - vm_compute. discriminate.
  - right. vm_compute. discriminate.
Defined.

(** X20.  When both inputs of [Int32ModulusWithOverflow] are the same
    register, the code deoptimizes with reason [kDivisionByZero] for a
    negative value and leaves 0 in the result register for every other
    value, zero included. *)
Theorem Int32ModulusWithOverflow_aliased
    (lhs rhs out scratch0 : Arm64Arith.Register) (s : Arm64Arith.State) :
  Arm64Arith.code lhs = Arm64Arith.code rhs ->
  let a := Arm64Arith.int32_of s lhs in
  let o := Arm64Arith.run
             (Arm64Arith.Int32ModulusWithOverflow_GenerateCode lhs rhs out
                scratch0)
             Arm64Arith.Running s in
  (a < 0 -> o = Arm64Arith.Deoptimized Arm64Arith.kDivisionByZero) /\
  (0 <= a ->
   exists s', o = Arm64Arith.Done s' /\
     Arm64Arith.int32_of s' out = 0 /\
     forall c, c <> Arm64Arith.code out ->
       Arm64Arith.regs s' c = Arm64Arith.regs s c).
Proof.
  intros Hsame a o. subst o.
  pose proof (read_W_range s lhs) as Hl.
  unfold Arm64Arith.Int32ModulusWithOverflow_GenerateCode.
  replace (Arm64Arith.Register_eqb (Arm64Arith.W lhs) (Arm64Arith.W rhs))
    with true
    by (symmetry; unfold Arm64Arith.Register_eqb;
        cbn [Arm64Arith.W Arm64Arith.code Arm64Arith.SizeInBits];
        rewrite Hsame, Nat.eqb_refl; reflexivity).
  rewrite run_plain. cbn [Arm64Arith.exec Arm64Arith.operand_value].
  change (Arm64Arith.SizeInBits (Arm64Arith.W lhs)) with 32.
  rewrite Z.land_diag.
  rewrite run_plain. cbn [Arm64Arith.exec].
  rewrite flags_set_flags.
  cbn [Arm64.holds Arm64Arith.logic_flags Arm64.flagN].
  change (32 - 1) with 31. rewrite signed32_negative by exact Hl.
  fold (Arm64Arith.int32_of s lhs). fold a.
  destruct (a <? 0) eqn:Eneg;
    [apply Z.ltb_lt in Eneg | apply Z.ltb_ge in Eneg].
  - split; [reflexivity | intros Hc; lia].
  - split; [intros Hc; lia|]. intros _.
    rewrite run_plain. cbn [Arm64Arith.exec Arm64Arith.run].
    eexists. split; [reflexivity|]. split.
    + unfold Arm64Arith.int32_of, Arm64Arith.read, Arm64Arith.write.
      cbn [Arm64Arith.regs Arm64Arith.W Arm64Arith.code
           Arm64Arith.SizeInBits].
      rewrite Nat.eqb_refl, Z.mod_0_l by (pose proof (Z.pow_pos_nonneg 2 (Arm64Arith.SizeInBits out)); lia).
      reflexivity.
    + intros c Hc. rewrite (regs_write_other _ out) by exact Hc.
      apply regs_set_flags.
Qed.

Lemma Int32ModulusWithOverflow_aliased_witness :
  exists s',
    Arm64Arith.run
      (Arm64Arith.Int32ModulusWithOverflow_GenerateCode Arm64Arith.x0
         Arm64Arith.x0 Arm64Arith.x2 Arm64Arith.x16)
      Arm64Arith.Running (Arm64Arith.example_state 0 0)
    = Arm64Arith.Done s' /\
    Arm64Arith.int32_of s' Arm64Arith.x2 = 0 /\
    forall c, c <> Arm64Arith.code Arm64Arith.x2 ->
      Arm64Arith.regs s' c = Arm64Arith.regs (Arm64Arith.example_state 0 0) c.
Proof.
  refine (proj2 (Int32ModulusWithOverflow_aliased Arm64Arith.x0
                   Arm64Arith.x0 Arm64Arith.x2 Arm64Arith.x16
                   (Arm64Arith.example_state 0 0) _) _).
  - reflexivity.
  - vm_compute. discriminate.
Defined.

Lemma frames_length_le (f : Deopt.DeoptFrame) :
  Forall Deopt.frame_ok (Deopt.frames f) ->
  Z.of_nat (length (Deopt.frames f)) <= Deopt.spec_input_locations_size f.
Proof.
  unfold Deopt.spec_input_locations_size.
  induction f as [d | d p IH] using DeoptFrame_chain_ind;
    cbn [Deopt.frames map foldr length]; intros Hok.
  - pose proof (spec_frame_size_pos d (Forall_inv Hok)). lia.
  - pose proof (spec_frame_size_pos d (Forall_inv Hok)).
    specialize (IH (Forall_inv_tail Hok)). lia.
Qed.

(** X21.  As long as the sum fits a [size_t], the size that
    [GetInputLocationsArraySize] computes for a frame with a parent is
    the size of the frame on its own plus the size of the chain of its
    parent, and it is at least the number of frames of the chain: every
    frame, of whatever type, takes at least one input location. *)
Theorem GetInputLocationsArraySize_parent (d : Deopt.FrameData)
    (p : Deopt.DeoptFrame) :
  let f := Deopt.mkDeoptFrame d (Some p) in
  Forall Deopt.frame_ok (Deopt.frames f) ->
  Deopt.spec_input_locations_size f < size_t_mod ->
  Deopt.GetInputLocationsArraySize f
  = Deopt.GetInputLocationsArraySize (Deopt.mkDeoptFrame d None)
    + Deopt.GetInputLocationsArraySize p /\
  Z.of_nat (length (Deopt.frames f)) <= Deopt.GetInputLocationsArraySize f.
Proof.
  intros f Hok Hfit.
  pose proof (frames_length_le f Hok) as Hlen.
  assert (Hsplit : Deopt.spec_input_locations_size f
                   = Deopt.spec_frame_size d
                     + Deopt.spec_input_locations_size p) by reflexivity.
  assert (Hd : Deopt.frame_ok d) by exact (Forall_inv Hok).
  assert (Hp : Forall Deopt.frame_ok (Deopt.frames p))
    by exact (Forall_inv_tail Hok).
  pose proof (spec_frame_size_pos d Hd) as Hdpos.
  pose proof (spec_input_locations_size_pos p Hp) as Hppos.
  unfold Deopt.GetInputLocationsArraySize.
  rewrite (GetInputLocationsArraySize_loop_spec f 0 Hok) by lia.
  rewrite (GetInputLocationsArraySize_loop_spec p 0 Hp) by lia.
  rewrite (GetInputLocationsArraySize_loop_spec (Deopt.mkDeoptFrame d None) 0).
  - unfold Deopt.spec_input_locations_size at 2.
    cbn [Deopt.frames map foldr]. lia.
  - constructor; [exact Hd | constructor].
  - lia.
  - unfold Deopt.spec_input_locations_size. cbn [Deopt.frames map foldr]. lia.
Qed.

Lemma GetInputLocationsArraySize_parent_witness :
  Z.of_nat (length (Deopt.frames Deopt.example_frame))
  <= Deopt.GetInputLocationsArraySize Deopt.example_frame.
Proof.
  refine (proj2 (GetInputLocationsArraySize_parent (Deopt.kInterpretedFrame 7)
                   (Deopt.mkDeoptFrame
                      (Deopt.kInlinedArgumentsFrame [1; 2; 3]%nat)
                      (Some (Deopt.mkDeoptFrame
                               (Deopt.kConstructStubFrame [4; 5]%nat)
                               (Some (Deopt.mkDeoptFrame
                                        (Deopt.kBuiltinContinuationFrame
                                           [6]%nat) None))))) _ _)).
  - repeat constructor. simpl. lia.
  - reflexivity.
Defined.

Lemma EmitPrepareResults_loop_slots (results : list Riscv.PushParameter) :
  forall reverse_slot : Z,
  Forall (fun output => 0 < Riscv.GetSizeInPointers (Riscv.location output))
    (Riscv.caller_frame_results results) ->
  0 <= reverse_slot ->
  reverse_slot
  + foldr Z.add 0
      (map (fun output => Riscv.GetSizeInPointers (Riscv.location output))
         (Riscv.caller_frame_results results)) < 2 ^ 31 ->
  Forall (fun slot => reverse_slot <= slot)
    (Riscv.peeked_slots (Riscv.EmitPrepareResults_loop results reverse_slot)) /\
  StronglySorted Z.lt
    (Riscv.peeked_slots (Riscv.EmitPrepareResults_loop results reverse_slot)) /\
  length (Riscv.peeked_slots
            (Riscv.EmitPrepareResults_loop results reverse_slot))
  = length (List.filter
              (fun output => match Riscv.node output with
                             | Some _ => true
                             | None => false
                             end)
              (Riscv.caller_frame_results results)).
Proof.
  unfold Riscv.caller_frame_results.
  induction results as [|output rest IH]; intros reverse_slot Hpos Hslot Hfit.
  - cbn. split; [constructor|]. split; [constructor | reflexivity].
  - cbn [Riscv.EmitPrepareResults_loop List.filter] in *.
    destruct (Riscv.IsCallerFrameSlot (Riscv.location output)) eqn:Ecaller;
      cbn [negb].
    + cbn [map foldr List.filter] in *.
      pose proof (Forall_inv Hpos) as Hsize. cbn beta in Hsize.
      set (size := Riscv.GetSizeInPointers (Riscv.location output)) in *.
      assert (Hwrap : Riscv.wrap_int (reverse_slot + size)
                      = reverse_slot + size).
      { unfold Riscv.wrap_int.
        assert (Hsum : 0 <= foldr Z.add 0
                         (map (fun o => Riscv.GetSizeInPointers
                                          (Riscv.location o))
                            (List.filter
                               (fun o => Riscv.IsCallerFrameSlot
                                           (Riscv.location o)) rest))).
        { pose proof (Forall_inv_tail Hpos) as Hrest. clear -Hrest.
          induction Hrest as [|o l Ho _ IHl]; cbn [map foldr]; lia. }
        rewrite Z.mod_small by lia. lia. }
      rewrite Hwrap.
      assert (Hsum : 0 <= foldr Z.add 0
                       (map (fun o => Riscv.GetSizeInPointers
                                        (Riscv.location o))
                          (List.filter
                             (fun o => Riscv.IsCallerFrameSlot
                                         (Riscv.location o)) rest))).
      { pose proof (Forall_inv_tail Hpos) as Hrest. clear -Hrest.
        induction Hrest as [|o l Ho _ IHl]; cbn [map foldr]; lia. }
      destruct (IH (reverse_slot + size) (Forall_inv_tail Hpos))
        as (Hge & Hsorted & Hlen); [lia | lia |].
      unfold Riscv.peeked_slots in *. rewrite omap_app.
      destruct (Riscv.node output) as [n|].
      * rewrite omap_app.
        replace (omap _ match Riscv.GetType (Riscv.location output) with
                        | Riscv.Float32 => [Riscv.MarkAsFloat32 n]
                        | Riscv.Float64 => [Riscv.MarkAsFloat64 n]
                        | Riscv.OtherMachineType => []
                        end) with (@nil Z)
          by (destruct (Riscv.GetType (Riscv.location output)); reflexivity).
        cbn [omap app List.filter length].
        split; [|split].
        -- constructor; [lia|].
           eapply Forall_impl; [exact Hge|]. cbn beta. intros slot Hs. lia.
        -- constructor; [exact Hsorted|].
           eapply Forall_impl; [exact Hge|]. cbn beta. intros slot Hs. lia.
        -- cbn. f_equal. exact Hlen.
      * cbn [omap app]. split; [|split].
        -- eapply Forall_impl; [exact Hge|]. cbn beta. intros slot Hs. lia.
        -- exact Hsorted.
        -- exact Hlen.
    + apply IH; assumption.
Qed.

(** X22.  When every result in a caller frame slot takes at least one
    pointer and the sizes add up to an [int], the peeks that
    [EmitPrepareResults] emits read strictly increasing slots, starting
    from slot 1 at the least, so that no two results are read from the
    same slot; and there is one peek for each result in a caller frame
    slot that is not an alignment hole. *)
Theorem EmitPrepareResults_slots (results : list Riscv.PushParameter) :
  Forall (fun output => 0 < Riscv.GetSizeInPointers (Riscv.location output))
    (Riscv.caller_frame_results results) ->
  1 + foldr Z.add 0
        (map (fun output => Riscv.GetSizeInPointers (Riscv.location output))
           (Riscv.caller_frame_results results)) < 2 ^ 31 ->
  let slots := Riscv.peeked_slots (Riscv.EmitPrepareResults results) in
  Forall (fun slot => 1 <= slot) slots /\
  StronglySorted Z.lt slots /\
  NoDup slots /\
  length slots
  = length (List.filter
              (fun output => match Riscv.node output with
                             | Some _ => true
                             | None => false
                             end)
              (Riscv.caller_frame_results results)).
Proof.
  intros Hpos Hfit slots. subst slots. unfold Riscv.EmitPrepareResults.
  destruct (EmitPrepareResults_loop_slots results 1 Hpos) as (Hge & Hs & Hlen);
    [lia | exact Hfit |].
  split; [exact Hge|]. split; [exact Hs|]. split; [|exact Hlen].
  clear -Hs. induction Hs as [|slot l Hs IH Hall]; constructor.
  - intros Hin. rewrite Forall_forall in Hall. specialize (Hall _ Hin). lia.
  - exact IH.
Qed.

Lemma EmitPrepareResults_slots_witness :
  StronglySorted Z.lt
    (Riscv.peeked_slots (Riscv.EmitPrepareResults Riscv.example_results)).
Proof.
  refine (proj1 (proj2 (EmitPrepareResults_slots Riscv.example_results _ _))).
  - repeat constructor.
  - reflexivity.
Defined.

(** ** The frame set-up of the Maglev prologue on ARM *)

Lemma Prologue_run_step (fuel : nat) (code : list ArmPrologue.Instr)
    (pc : nat) (s s' : ArmPrologue.State) (i : ArmPrologue.Instr) :
  nth_error code pc = Some i ->
  (forall c l, i <> ArmPrologue.b c l) ->
  ArmPrologue.exec i s = Some s' ->
  ArmPrologue.run (S fuel) code pc s = ArmPrologue.run fuel code (S pc) s'.
Proof.
  intros Hat Hnb Hexec. cbn [ArmPrologue.run]. rewrite Hat.
  destruct i; try (rewrite Hexec; reflexivity).
  contradiction (Hnb c l). reflexivity.
Qed.

Lemma Prologue_run_end (fuel : nat) (code : list ArmPrologue.Instr)
    (pc : nat) (s : ArmPrologue.State) :
  nth_error code pc = None ->
  ArmPrologue.run (S fuel) code pc s = Some s.
Proof. intros Hat. cbn [ArmPrologue.run]. rewrite Hat. reflexivity. Qed.

Lemma nth_error_middle {A} (pre seg post : list A) (j : nat) :
  (j < length seg)%nat ->
  nth_error (pre ++ seg ++ post) (length pre + j) = nth_error seg j.
Proof.
  intros Hj. rewrite nth_error_app2 by lia.
  replace (length pre + j - length pre)%nat with j by lia.
  apply nth_error_app1. exact Hj.
Qed.

Lemma nth_error_replicate {A} (n j : nat) (x : A) :
  (j < n)%nat -> nth_error (replicate n x) j = Some x.
Proof.
  revert j. induction n as [|n IH]; intros j Hj; [lia|].
  destruct j as [|j]; [reflexivity|]. cbn. apply IH. lia.
Qed.

(** What a run of pushes of one register does to the stack. *)
Lemma Prologue_run_pushes (n : nat) :
  forall (code : list ArmPrologue.Instr) (pc : nat) (s : ArmPrologue.State)
         (r : ArmPrologue.Register),
  (forall j, (j < n)%nat ->
     nth_error code (pc + j) = Some (ArmPrologue.Push r)) ->
  r <> ArmPrologue.sp ->
  4 * Z.of_nat n <= ArmPrologue.regs s ArmPrologue.sp < 2 ^ 32 ->
  exists s',
    (forall fuel, ArmPrologue.run (n + fuel) code pc s
                  = ArmPrologue.run fuel code (pc + n) s') /\
    ArmPrologue.regs s' ArmPrologue.sp
      = ArmPrologue.regs s ArmPrologue.sp - 4 * Z.of_nat n /\
    (forall r', r' <> ArmPrologue.sp ->
       ArmPrologue.regs s' r' = ArmPrologue.regs s r') /\
    ArmPrologue.flags_ s' = ArmPrologue.flags_ s /\
    (forall i, 0 <= i < Z.of_nat n ->
       ArmPrologue.mem s' (ArmPrologue.regs s ArmPrologue.sp - 4 * (i + 1))
       = Some (ArmPrologue.regs s r)) /\
    (forall a, a < ArmPrologue.regs s ArmPrologue.sp - 4 * Z.of_nat n \/
               ArmPrologue.regs s ArmPrologue.sp <= a ->
       ArmPrologue.mem s' a = ArmPrologue.mem s a).
Proof.
  induction n as [|n IH]; intros code pc s r Hcode Hr Hsp.
  - exists s. split; [intros fuel; rewrite Nat.add_0_r; reflexivity|].
    split; [lia|]. split; [reflexivity|]. split; [reflexivity|].
    split; [intros i Hi; lia | reflexivity].
  - set (sp0 := ArmPrologue.regs s ArmPrologue.sp) in *.
    set (s1 := ArmPrologue.set_reg
                 (ArmPrologue.store s (sp0 - 4) (ArmPrologue.regs s r))
                 ArmPrologue.sp (sp0 - 4)).
    assert (Hexec : ArmPrologue.exec (ArmPrologue.Push r) s = Some s1).
    { cbn [ArmPrologue.exec]. fold sp0.
      unfold ArmPrologue.kSystemPointerSize, ArmPrologue.wrap32.
      rewrite (Z.mod_small (sp0 - 4)) by lia. reflexivity. }
    assert (Hsp1 : ArmPrologue.regs s1 ArmPrologue.sp = sp0 - 4).
    { subst s1. unfold ArmPrologue.set_reg, ArmPrologue.wrap32.
      cbn [ArmPrologue.regs]. rewrite Nat.eqb_refl. apply Z.mod_small. lia. }
    assert (Hregs1 : forall r', r' <> ArmPrologue.sp ->
                       ArmPrologue.regs s1 r' = ArmPrologue.regs s r').
    { intros r' Hr'. subst s1. unfold ArmPrologue.set_reg.
      cbn [ArmPrologue.regs ArmPrologue.store].
      destruct (Nat.eqb_spec r' ArmPrologue.sp); [contradiction|reflexivity]. }
    assert (Hmem1 : forall a, ArmPrologue.mem s1 a
                      = if a =? sp0 - 4 then Some (ArmPrologue.regs s r)
                        else ArmPrologue.mem s a) by reflexivity.
    destruct (IH code (S pc) s1 r) as (s' & Hrun & Hsp' & Hregs' & Hfl & Hset & Hkeep).
    { intros j Hj. replace (S pc + j)%nat with (pc + S j)%nat by lia.
      apply Hcode. lia. }
    { exact Hr. }
    { rewrite Hsp1. lia. }
    exists s'. split; [|split; [|split; [|split; [|split]]]].
    + intros fuel. cbn [Nat.add].
      rewrite (Prologue_run_step _ code pc s s1 (ArmPrologue.Push r)).
      * rewrite Hrun. f_equal. lia.
      * replace pc with (pc + 0)%nat by lia. apply Hcode. lia.
      * intros c l Hc. discriminate Hc.
      * exact Hexec.
    + rewrite Hsp', Hsp1. lia.
    + intros r' Hr'. rewrite Hregs' by exact Hr'. apply Hregs1. exact Hr'.
    + rewrite Hfl. reflexivity.
    + intros i Hi. destruct (Z.eq_dec i 0) as [-> | Hnz].
      * rewrite Hkeep by (rewrite Hsp1; lia).
        rewrite Hmem1. replace (sp0 - 4 * (0 + 1)) with (sp0 - 4) by lia.
        rewrite Z.eqb_refl. reflexivity.
      * specialize (Hset (i - 1)). rewrite Hsp1, (Hregs1 r Hr) in Hset.
        replace (sp0 - 4 - 4 * (i - 1 + 1)) with (sp0 - 4 * (i + 1)) in Hset
          by lia.
        apply Hset. lia.
    + intros a Ha. rewrite Hkeep by (rewrite Hsp1; lia).
      rewrite Hmem1.
      replace (a =? sp0 - 4) with false by (symmetry; apply Z.eqb_neq; lia).
      reflexivity.
Qed.

Lemma find_label_skip (l : ArmPrologue.Label)
    (pre rest : list ArmPrologue.Instr) :
  Forall (fun i => forall l', i <> ArmPrologue.bind l') pre ->
  ArmPrologue.find_label l (pre ++ ArmPrologue.bind l :: rest)
  = Some (S (length pre)).
Proof.
  induction 1 as [|i pre Hi _ IH]; cbn [app ArmPrologue.find_label length].
  - destruct l; reflexivity.
  - destruct i; try (rewrite IH; reflexivity).
    contradiction (Hi l0). reflexivity.
Qed.

(** The loop counter after the decrement: the loop goes on while it is
    positive. *)
Lemma gt_after_decrement (x : Z) :
  0 < x < 2 ^ 31 ->
  ArmPrologue.holds ArmPrologue.kGreaterThan
    (Arm64Arith.sub_flags 32 x (ArmPrologue.wrap32 1))
  = (1 <? x).
Proof.
  intros Hx. unfold ArmPrologue.holds, Arm64Arith.sub_flags.
  cbn [Arm64.holds Arm64.flagZ Arm64.flagN Arm64.flagV].
  change (ArmPrologue.wrap32 1) with 1. change (32 - 1) with 31.
  rewrite (Z.mod_small (x - 1)) by lia.
  replace (2 ^ 31 <=? x - 1) with false by (symmetry; apply Z.leb_gt; lia).
  replace (Arm64Arith.signed 32 x) with x
    by (unfold Arm64Arith.signed; change (32 - 1) with 31;
        replace (x <? 2 ^ 31) with true by (symmetry; apply Z.ltb_lt; lia);
        reflexivity).
  change (Arm64Arith.signed 32 1) with 1.
  replace (Arm64Arith.in_signed_range 32 (x - 1)) with true
    by (symmetry; apply in_signed_range32; lia).
  cbn [negb Bool.eqb]. rewrite andb_true_r.
  destruct (Z.eq_dec x 1) as [-> | Hne]; [reflexivity|].
  replace (x - 1 =? 0) with false by (symmetry; apply Z.eqb_neq; lia).
  symmetry. apply Z.ltb_lt. lia.
Qed.

(** One round of the unrolled loop: eight pushes, the decrement of the
    counter, and the branch back while the counter is positive. *)
Lemma Prologue_loop_round (pre post : list ArmPrologue.Instr)
    (s : ArmPrologue.State) (r cnt : ArmPrologue.Register) (c : Z) :
  let code :=
    (pre ++ [ArmPrologue.bind ArmPrologue.loop])
    ++ replicate 8 (ArmPrologue.Push r)
    ++ [ArmPrologue.sub cnt cnt 1 ArmPrologue.SetCC;
        ArmPrologue.b ArmPrologue.kGreaterThan ArmPrologue.loop]
    ++ post in
  ArmPrologue.find_label ArmPrologue.loop code = Some (S (length pre)) ->
  r <> ArmPrologue.sp -> cnt <> ArmPrologue.sp -> cnt <> r ->
  ArmPrologue.regs s cnt = c -> 0 < c < 2 ^ 31 ->
  32 <= ArmPrologue.regs s ArmPrologue.sp < 2 ^ 32 ->
  exists s',
    (forall fuel,
       ArmPrologue.run (10 + fuel) code (S (length pre)) s
       = ArmPrologue.run fuel code
           (if 1 <? c then S (length pre) else (length pre + 11)%nat) s') /\
    ArmPrologue.regs s' ArmPrologue.sp
      = ArmPrologue.regs s ArmPrologue.sp - 32 /\
    ArmPrologue.regs s' cnt = c - 1 /\
    (forall r', r' <> ArmPrologue.sp -> r' <> cnt ->
       ArmPrologue.regs s' r' = ArmPrologue.regs s r') /\
    (forall i, 0 <= i < 8 ->
       ArmPrologue.mem s' (ArmPrologue.regs s ArmPrologue.sp - 4 * (i + 1))
       = Some (ArmPrologue.regs s r)) /\
    (forall a, a < ArmPrologue.regs s ArmPrologue.sp - 32 \/
               ArmPrologue.regs s ArmPrologue.sp <= a ->
       ArmPrologue.mem s' a = ArmPrologue.mem s a).
Proof.
  intros code Hlabel Hr Hc Hcr Hcnt Hk Hsp.
  set (sp0 := ArmPrologue.regs s ArmPrologue.sp) in *.
  assert (Hat : forall j, (j < 8)%nat ->
                nth_error code (S (length pre) + j)
                = Some (ArmPrologue.Push r)).
  { intros j Hj. subst code.
    replace (S (length pre) + j)%nat
      with (length (pre ++ [ArmPrologue.bind ArmPrologue.loop]) + j)%nat
      by (rewrite length_app; cbn [length]; lia).
    rewrite nth_error_middle by (rewrite length_replicate; exact Hj).
    apply nth_error_replicate. exact Hj. }
  assert (Hsub : nth_error code (length pre + 9)
                = Some (ArmPrologue.sub cnt cnt 1 ArmPrologue.SetCC)).
  { subst code. rewrite app_assoc.
    rewrite nth_error_app2
      by (rewrite !length_app, length_replicate; cbn [length]; lia).
    rewrite !length_app, length_replicate. cbn [length].
    replace (length pre + 9 - (length pre + 1 + 8))%nat with 0%nat by lia.
    reflexivity. }
  assert (Hb : nth_error code (length pre + 10)
                = Some (ArmPrologue.b ArmPrologue.kGreaterThan
                          ArmPrologue.loop)).
  { subst code. rewrite app_assoc.
    rewrite nth_error_app2
      by (rewrite !length_app, length_replicate; cbn [length]; lia).
    rewrite !length_app, length_replicate. cbn [length].
    replace (length pre + 10 - (length pre + 1 + 8))%nat with 1%nat by lia.
    reflexivity. }
  destruct (Prologue_run_pushes 8 code (S (length pre)) s r Hat Hr)
    as (s1 & Hrun1 & Hsp1 & Hregs1 & Hfl1 & Hset1 & Hkeep1); [fold sp0; lia|].
  fold sp0 in Hsp1, Hset1, Hkeep1.
  set (s2 := ArmPrologue.with_flags ArmPrologue.SetCC
               (Arm64Arith.sub_flags 32 (ArmPrologue.regs s1 cnt)
                  (ArmPrologue.wrap32 1))
               (ArmPrologue.set_reg s1 cnt
                  (ArmPrologue.regs s1 cnt - ArmPrologue.wrap32 1))).
  assert (Hexec2 : ArmPrologue.exec
                     (ArmPrologue.sub cnt cnt 1 ArmPrologue.SetCC) s1
                   = Some s2) by reflexivity.
  assert (Hcnt1 : ArmPrologue.regs s1 cnt = c)
    by (rewrite Hregs1 by exact Hc; exact Hcnt).
  assert (Hcnt2 : ArmPrologue.regs s2 cnt = c - 1).
  { subst s2. unfold ArmPrologue.with_flags, ArmPrologue.set_flags,
      ArmPrologue.set_reg. cbn [ArmPrologue.regs].
    rewrite Nat.eqb_refl, Hcnt1. change (ArmPrologue.wrap32 1) with 1.
    unfold ArmPrologue.wrap32. apply Z.mod_small. lia. }
  assert (Hregs2 : forall r', r' <> cnt ->
            ArmPrologue.regs s2 r' = ArmPrologue.regs s1 r').
  { intros r' Hr'. subst s2.
    unfold ArmPrologue.with_flags, ArmPrologue.set_flags, ArmPrologue.set_reg.
    cbn [ArmPrologue.regs].
    destruct (Nat.eqb_spec r' cnt); [contradiction | reflexivity]. }
  assert (Hmem2 : ArmPrologue.mem s2 = ArmPrologue.mem s1) by reflexivity.
  assert (Hgt : ArmPrologue.holds ArmPrologue.kGreaterThan
                  (ArmPrologue.flags_ s2) = (1 <? c)).
  { subst s2. cbn [ArmPrologue.with_flags ArmPrologue.set_flags
                   ArmPrologue.flags_].
    rewrite Hcnt1. apply gt_after_decrement. lia. }
  exists s2. split; [|split; [|split; [|split; [|split]]]].
  - intros fuel.
    replace (10 + fuel)%nat with (8 + S (S fuel))%nat by lia.
    rewrite Hrun1.
    replace (S (length pre) + 8)%nat with (length pre + 9)%nat by lia.
    rewrite (Prologue_run_step _ code _ s1 s2 _ Hsub)
      by (try exact Hexec2; intros c0 l Hd; discriminate Hd).
    replace (S (length pre + 9)) with (length pre + 10)%nat by lia.
    cbn [ArmPrologue.run]. rewrite Hb, Hgt.
    destruct (1 <? c).
    + fold code. rewrite Hlabel. reflexivity.
    + f_equal. lia.
  - rewrite Hregs2 by exact (not_eq_sym Hc). rewrite Hsp1. lia.
  - exact Hcnt2.
  - intros r' Hr1 Hr2. rewrite Hregs2 by exact Hr2. apply Hregs1. exact Hr1.
  - intros i Hi. rewrite Hmem2. apply Hset1. lia.
  - intros a Ha. rewrite Hmem2. apply Hkeep1. lia.
Qed.

(** The unrolled loop: [k] rounds of eight pushes each. *)
Lemma Prologue_run_loop (k : nat) :
  forall (pre post : list ArmPrologue.Instr) (s : ArmPrologue.State)
         (r cnt : ArmPrologue.Register),
  let code :=
    (pre ++ [ArmPrologue.bind ArmPrologue.loop])
    ++ replicate 8 (ArmPrologue.Push r)
    ++ [ArmPrologue.sub cnt cnt 1 ArmPrologue.SetCC;
        ArmPrologue.b ArmPrologue.kGreaterThan ArmPrologue.loop]
    ++ post in
  ArmPrologue.find_label ArmPrologue.loop code = Some (S (length pre)) ->
  r <> ArmPrologue.sp -> cnt <> ArmPrologue.sp -> cnt <> r ->
  ArmPrologue.regs s cnt = Z.of_nat (S k) ->
  Z.of_nat (S k) < 2 ^ 31 ->
  32 * Z.of_nat (S k) <= ArmPrologue.regs s ArmPrologue.sp < 2 ^ 32 ->
  exists s',
    (forall fuel,
       ArmPrologue.run (10 * S k + fuel) code (S (length pre)) s
       = ArmPrologue.run fuel code (length pre + 11) s') /\
    ArmPrologue.regs s' ArmPrologue.sp
      = ArmPrologue.regs s ArmPrologue.sp - 32 * Z.of_nat (S k) /\
    (forall r', r' <> ArmPrologue.sp -> r' <> cnt ->
       ArmPrologue.regs s' r' = ArmPrologue.regs s r') /\
    (forall i, 0 <= i < 8 * Z.of_nat (S k) ->
       ArmPrologue.mem s' (ArmPrologue.regs s ArmPrologue.sp - 4 * (i + 1))
       = Some (ArmPrologue.regs s r)) /\
    (forall a, a < ArmPrologue.regs s ArmPrologue.sp - 32 * Z.of_nat (S k) \/
               ArmPrologue.regs s ArmPrologue.sp <= a ->
       ArmPrologue.mem s' a = ArmPrologue.mem s a).
Proof.
  induction k as [|k IH]; intros pre post s r cnt code Hlabel Hr Hc Hcr Hcnt
    Hk Hsp.
  - destruct (Prologue_loop_round pre post s r cnt 1 Hlabel Hr Hc Hcr Hcnt)
      as (s2 & Hrun & Hsp2 & Hcnt2 & Hregs2 & Hset2 & Hkeep2); [lia | lia |].
    exists s2. split; [|split; [|split; [|split]]].
    + intros fuel. exact (Hrun fuel).
    + rewrite Hsp2. lia.
    + exact Hregs2.
    + intros i Hi. apply Hset2. lia.
    + intros a Ha. apply Hkeep2. lia.
  - set (sp0 := ArmPrologue.regs s ArmPrologue.sp) in *.
    destruct (Prologue_loop_round pre post s r cnt (Z.of_nat (S (S k)))
                Hlabel Hr Hc Hcr Hcnt)
      as (s2 & Hrun2 & Hsp2 & Hcnt2 & Hregs2 & Hset2 & Hkeep2);
      [lia | fold sp0; lia |].
    fold sp0 in Hsp2, Hset2, Hkeep2.
    replace (1 <? Z.of_nat (S (S k))) with true in Hrun2
      by (symmetry; apply Z.ltb_lt; lia).
    destruct (IH pre post s2 r cnt)
      as (s' & Hrun & Hsp' & Hregs' & Hset' & Hkeep').
    { exact Hlabel. } { exact Hr. } { exact Hc. } { exact Hcr. }
    { rewrite Hcnt2. lia. } { lia. } { rewrite Hsp2. lia. }
    assert (Hr2 : ArmPrologue.regs s2 r = ArmPrologue.regs s r)
      by (apply Hregs2; [exact Hr | exact (not_eq_sym Hcr)]).
    rewrite Hsp2 in Hsp', Hset', Hkeep'. rewrite Hr2 in Hset'.
    exists s'. split; [|split; [|split; [|split]]].
    + intros fuel.
      replace (10 * S (S k) + fuel)%nat
        with (10 + (10 * S k + fuel))%nat by lia.
      fold code in Hrun2, Hrun. rewrite Hrun2. apply Hrun.
    + rewrite Hsp'. lia.
    + intros r' Hr1' Hr2'. rewrite Hregs' by assumption.
      apply Hregs2; assumption.
    + intros i Hi. destruct (Z.lt_ge_cases i 8) as [Hlow | Hhigh].
      * rewrite Hkeep' by lia. apply Hset2. lia.
      * specialize (Hset' (i - 8)).
        replace (sp0 - 32 - 4 * (i - 8 + 1)) with (sp0 - 4 * (i + 1)) in Hset'
          by lia.
        apply Hset'. lia.
    + intros a Ha. rewrite Hkeep' by lia. apply Hkeep2. lia.
Qed.

Lemma nth_error_cons_S {A} (x : A) (l : list A) (n : nat) :
  nth_error (x :: l) (S n) = nth_error l n.
Proof. reflexivity. Qed.

(** The scratch register is cleared and pushed [n] times. *)
Lemma Prologue_zero_pushes (n : nat) (post : list ArmPrologue.Instr)
    (s : ArmPrologue.State) (scratch : ArmPrologue.Register) :
  scratch <> ArmPrologue.sp ->
  4 * Z.of_nat n <= ArmPrologue.regs s ArmPrologue.sp < 2 ^ 32 ->
  let code :=
    ArmPrologue.Move scratch 0
    :: replicate n (ArmPrologue.Push scratch) ++ post in
  exists s1,
    (forall fuel, ArmPrologue.run (S n + fuel) code 0 s
                  = ArmPrologue.run fuel code (S n) s1) /\
    ArmPrologue.regs s1 ArmPrologue.sp
      = ArmPrologue.regs s ArmPrologue.sp - 4 * Z.of_nat n /\
    ArmPrologue.regs s1 scratch = 0 /\
    (forall r', r' <> ArmPrologue.sp -> r' <> scratch ->
       ArmPrologue.regs s1 r' = ArmPrologue.regs s r') /\
    (forall i, 0 <= i < Z.of_nat n ->
       ArmPrologue.mem s1 (ArmPrologue.regs s ArmPrologue.sp - 4 * (i + 1))
       = Some 0) /\
    (forall a, a < ArmPrologue.regs s ArmPrologue.sp - 4 * Z.of_nat n \/
               ArmPrologue.regs s ArmPrologue.sp <= a ->
       ArmPrologue.mem s1 a = ArmPrologue.mem s a).
Proof.
  intros Hscratch Hsp code.
  set (s0 := ArmPrologue.set_reg s scratch 0).
  assert (Hsp0 : ArmPrologue.regs s0 ArmPrologue.sp
                 = ArmPrologue.regs s ArmPrologue.sp).
  { subst s0. unfold ArmPrologue.set_reg. cbn [ArmPrologue.regs].
    destruct (Nat.eqb_spec ArmPrologue.sp scratch) as [E | E];
      [symmetry in E; contradiction | reflexivity]. }
  assert (Hz0 : ArmPrologue.regs s0 scratch = 0).
  { subst s0. unfold ArmPrologue.set_reg. cbn [ArmPrologue.regs].
    rewrite Nat.eqb_refl. reflexivity. }
  assert (Hregs0 : forall r', r' <> scratch ->
                     ArmPrologue.regs s0 r' = ArmPrologue.regs s r').
  { intros r' Hr'. subst s0. unfold ArmPrologue.set_reg.
    cbn [ArmPrologue.regs].
    destruct (Nat.eqb_spec r' scratch); [contradiction | reflexivity]. }
  destruct (Prologue_run_pushes n code 1 s0 scratch)
    as (s1 & Hrun & Hsp1 & Hregs1 & _ & Hset & Hkeep).
  { intros j Hj. subst code. cbn [Nat.add]. rewrite nth_error_cons_S.
    rewrite nth_error_app1 by (rewrite length_replicate; exact Hj).
    apply nth_error_replicate. exact Hj. }
  { exact Hscratch. }
  { rewrite Hsp0. exact Hsp. }
  rewrite Hsp0 in Hsp1, Hset, Hkeep. rewrite Hz0 in Hset.
  exists s1. split; [|split; [|split; [|split; [|split]]]].
  - intros fuel. cbn [Nat.add].
    rewrite (Prologue_run_step _ code 0 s s0 (ArmPrologue.Move scratch 0));
      [| reflexivity | intros c l Hd; discriminate Hd | reflexivity].
    rewrite Hrun. f_equal.
  - exact Hsp1.
  - rewrite Hregs1 by exact Hscratch. exact Hz0.
  - intros r' Hr1 Hr2. rewrite Hregs1 by exact Hr1. apply Hregs0. exact Hr2.
  - exact Hset.
  - exact Hkeep.
Qed.

(** The tagged slots of a frame of at least [kLoopUnrollSize] of them:
    the first few unrolled, the rest in rounds of the loop. *)
Lemma Prologue_tagged_loop (first q : nat) (post : list ArmPrologue.Instr)
    (s : ArmPrologue.State) (scratch cnt : ArmPrologue.Register) :
  scratch <> ArmPrologue.sp -> cnt <> ArmPrologue.sp -> cnt <> scratch ->
  (0 < q)%nat -> Z.of_nat q < 2 ^ 31 ->
  4 * (Z.of_nat first + 8 * Z.of_nat q)
    <= ArmPrologue.regs s ArmPrologue.sp < 2 ^ 32 ->
  let code :=
    ArmPrologue.Move scratch 0
    :: replicate first (ArmPrologue.Push scratch)
       ++ [ArmPrologue.Move cnt (Z.of_nat q);
           ArmPrologue.bind ArmPrologue.loop]
       ++ replicate 8 (ArmPrologue.Push scratch)
       ++ [ArmPrologue.sub cnt cnt 1 ArmPrologue.SetCC;
           ArmPrologue.b ArmPrologue.kGreaterThan ArmPrologue.loop]
       ++ post in
  exists s1,
    (forall fuel, ArmPrologue.run (S first + 2 + 10 * q + fuel) code 0 s
                  = ArmPrologue.run fuel code (first + 13) s1) /\
    ArmPrologue.regs s1 ArmPrologue.sp
      = ArmPrologue.regs s ArmPrologue.sp
        - 4 * (Z.of_nat first + 8 * Z.of_nat q) /\
    (forall r', r' <> ArmPrologue.sp -> r' <> scratch -> r' <> cnt ->
       ArmPrologue.regs s1 r' = ArmPrologue.regs s r') /\
    (forall i, 0 <= i < Z.of_nat first + 8 * Z.of_nat q ->
       ArmPrologue.mem s1 (ArmPrologue.regs s ArmPrologue.sp - 4 * (i + 1))
       = Some 0) /\
    (forall a, a < ArmPrologue.regs s ArmPrologue.sp
                   - 4 * (Z.of_nat first + 8 * Z.of_nat q) \/
               ArmPrologue.regs s ArmPrologue.sp <= a ->
       ArmPrologue.mem s1 a = ArmPrologue.mem s a).
Proof.
  intros Hscratch Hcnt Hcs Hq Hq31 Hsp code.
  set (sp0 := ArmPrologue.regs s ArmPrologue.sp) in *.
  set (rest := [ArmPrologue.Move cnt (Z.of_nat q);
                ArmPrologue.bind ArmPrologue.loop]
               ++ replicate 8 (ArmPrologue.Push scratch)
               ++ [ArmPrologue.sub cnt cnt 1 ArmPrologue.SetCC;
                   ArmPrologue.b ArmPrologue.kGreaterThan ArmPrologue.loop]
               ++ post).
  destruct (Prologue_zero_pushes first rest s scratch Hscratch)
    as (s1 & Hrun1 & Hsp1 & Hz1 & Hregs1 & Hset1 & Hkeep1); [fold sp0; lia|].
  fold sp0 in Hsp1, Hset1, Hkeep1. fold code in Hrun1.
  (* the counter is loaded and the label bound *)
  set (s2 := ArmPrologue.set_reg s1 cnt (Z.of_nat q)).
  assert (Hcnt2 : ArmPrologue.regs s2 cnt = Z.of_nat q).
  { subst s2. unfold ArmPrologue.set_reg, ArmPrologue.wrap32.
    cbn [ArmPrologue.regs]. rewrite Nat.eqb_refl. apply Z.mod_small. lia. }
  assert (Hregs2 : forall r', r' <> cnt ->
                     ArmPrologue.regs s2 r' = ArmPrologue.regs s1 r').
  { intros r' Hr'. subst s2. unfold ArmPrologue.set_reg.
    cbn [ArmPrologue.regs].
    destruct (Nat.eqb_spec r' cnt); [contradiction | reflexivity]. }
  assert (Hmem2 : ArmPrologue.mem s2 = ArmPrologue.mem s1) by reflexivity.
  set (pre := ArmPrologue.Move scratch 0
              :: replicate first (ArmPrologue.Push scratch)
                 ++ [ArmPrologue.Move cnt (Z.of_nat q)]).
  assert (Hpre : length pre = (first + 2)%nat).
  { subst pre. cbn [length]. rewrite length_app, length_replicate.
    cbn [length]. lia. }
  assert (Hshape : code
                   = (pre ++ [ArmPrologue.bind ArmPrologue.loop])
                     ++ replicate 8 (ArmPrologue.Push scratch)
                     ++ [ArmPrologue.sub cnt cnt 1 ArmPrologue.SetCC;
                         ArmPrologue.b ArmPrologue.kGreaterThan
                           ArmPrologue.loop]
                     ++ post).
  { subst code pre. cbn [app]. rewrite <- !app_assoc. reflexivity. }
  assert (Hmove : nth_error code (S first)
                  = Some (ArmPrologue.Move cnt (Z.of_nat q))).
  { subst code. rewrite nth_error_cons_S.
    rewrite nth_error_app2 by (rewrite length_replicate; lia).
    rewrite length_replicate, Nat.sub_diag. reflexivity. }
  assert (Hbind : nth_error code (S (S first))
                  = Some (ArmPrologue.bind ArmPrologue.loop)).
  { subst code. rewrite nth_error_cons_S.
    rewrite nth_error_app2 by (rewrite length_replicate; lia).
    rewrite length_replicate.
    replace (S first - first)%nat with 1%nat by lia. reflexivity. }
  assert (Hlabel : ArmPrologue.find_label ArmPrologue.loop code
                   = Some (S (length pre))).
  { rewrite Hshape, <- app_assoc. cbn [app]. apply find_label_skip.
    subst pre. constructor; [intros l Hd; discriminate Hd|].
    apply Forall_app. split.
    - apply Forall_forall. intros i Hi l Hd. subst i.
      apply elem_of_replicate in Hi. destruct Hi as [Hi _]. discriminate Hi.
    - constructor; [intros l Hd; discriminate Hd | constructor]. }
  destruct q as [|k]; [lia|].
  destruct (Prologue_run_loop k pre post s2 scratch cnt)
    as (s3 & Hrun3 & Hsp3 & Hregs3 & Hset3 & Hkeep3).
  { rewrite <- Hshape. exact Hlabel. }
  { exact Hscratch. } { exact Hcnt. } { exact Hcs. } { exact Hcnt2. }
  { exact Hq31. }
  { rewrite Hregs2 by exact (not_eq_sym Hcnt). rewrite Hsp1. lia. }
  rewrite <- Hshape in Hrun3.
  assert (Hsp2 : ArmPrologue.regs s2 ArmPrologue.sp
                 = sp0 - 4 * Z.of_nat first)
    by (rewrite Hregs2 by exact (not_eq_sym Hcnt); exact Hsp1).
  assert (Hz2 : ArmPrologue.regs s2 scratch = 0)
    by (rewrite Hregs2 by exact (not_eq_sym Hcs); exact Hz1).
  rewrite Hsp2 in Hsp3, Hset3, Hkeep3. rewrite Hz2 in Hset3.
  exists s3. split; [|split; [|split; [|split]]].
  - intros fuel.
    replace (S first + 2 + 10 * S k + fuel)%nat
      with (S first + S (S (10 * S k + fuel)))%nat by lia.
    rewrite Hrun1.
    rewrite (Prologue_run_step _ code _ s1 s2 _ Hmove)
      by (try reflexivity; intros c l Hd; discriminate Hd).
    rewrite (Prologue_run_step _ code _ s2 s2 _ Hbind)
      by (try reflexivity; intros c l Hd; discriminate Hd).
    replace (S (S (S first))) with (S (length pre)) by lia.
    rewrite Hrun3. f_equal. lia.
  - rewrite Hsp3. lia.
  - intros r' Hr1 Hr2 Hr3. rewrite Hregs3 by assumption.
    rewrite Hregs2 by exact Hr3. apply Hregs1; assumption.
  - intros i Hi. destruct (Z.lt_ge_cases i (Z.of_nat first)) as [Hlow | Hhigh].
    + rewrite Hkeep3 by lia. rewrite Hmem2. apply Hset1. lia.
    + specialize (Hset3 (i - Z.of_nat first)).
      replace (sp0 - 4 * Z.of_nat first - 4 * (i - Z.of_nat first + 1))
        with (sp0 - 4 * (i + 1)) in Hset3 by lia.
      apply Hset3. lia.
  - intros a Ha. rewrite Hkeep3 by lia. rewrite Hmem2. apply Hkeep1. lia.
Qed.

(** The untagged slots are reserved by lowering the stack pointer. *)
Lemma Prologue_untagged_tail (tagged_part : list ArmPrologue.Instr)
    (graph : ArmPrologue.Graph) (s1 : ArmPrologue.State) :
  0 <= ArmPrologue.untagged_stack_slots graph ->
  4 * ArmPrologue.untagged_stack_slots graph
    <= ArmPrologue.regs s1 ArmPrologue.sp < 2 ^ 32 ->
  let untagged_part :=
    if 0 <? ArmPrologue.untagged_stack_slots graph then
      [ArmPrologue.sub ArmPrologue.sp ArmPrologue.sp
         (ArmPrologue.wrap32 (ArmPrologue.untagged_stack_slots graph
                              * ArmPrologue.kSystemPointerSize))
         ArmPrologue.LeaveCC]
    else [] in
  exists s2,
    ArmPrologue.run 2 (tagged_part ++ untagged_part) (length tagged_part) s1
    = Some s2 /\
    ArmPrologue.regs s2 ArmPrologue.sp
      = ArmPrologue.regs s1 ArmPrologue.sp
        - 4 * ArmPrologue.untagged_stack_slots graph /\
    (forall r', r' <> ArmPrologue.sp ->
       ArmPrologue.regs s2 r' = ArmPrologue.regs s1 r') /\
    ArmPrologue.mem s2 = ArmPrologue.mem s1.
Proof.
  intros Hu Hsp untagged_part. subst untagged_part.
  set (u := ArmPrologue.untagged_stack_slots graph) in *.
  destruct (0 <? u) eqn:Epos; [apply Z.ltb_lt in Epos | apply Z.ltb_ge in Epos].
  - set (s2 := ArmPrologue.set_reg s1 ArmPrologue.sp
                 (ArmPrologue.regs s1 ArmPrologue.sp - 4 * u)).
    exists s2. split; [|split; [|split]].
    + rewrite (Prologue_run_step 1 _ (length tagged_part) s1 s2
                 (ArmPrologue.sub ArmPrologue.sp ArmPrologue.sp
                    (ArmPrologue.wrap32 (u * ArmPrologue.kSystemPointerSize))
                    ArmPrologue.LeaveCC)).
      * apply Prologue_run_end. apply nth_error_None.
        rewrite length_app. cbn [length]. lia.
      * rewrite nth_error_app2 by lia. rewrite Nat.sub_diag. reflexivity.
      * intros c l Hd. discriminate Hd.
      * cbn [ArmPrologue.exec ArmPrologue.with_flags]. subst s2.
        unfold ArmPrologue.kSystemPointerSize, ArmPrologue.wrap32.
        rewrite Z.mod_mod by lia. rewrite (Z.mod_small (u * 4)) by lia.
        do 3 f_equal. lia.
    + subst s2. unfold ArmPrologue.set_reg, ArmPrologue.wrap32.
      cbn [ArmPrologue.regs]. rewrite Nat.eqb_refl. apply Z.mod_small. lia.
    + intros r' Hr'. subst s2. unfold ArmPrologue.set_reg.
      cbn [ArmPrologue.regs].
      destruct (Nat.eqb_spec r' ArmPrologue.sp); [contradiction|reflexivity].
    + reflexivity.
  - exists s1. split; [|split; [|split]].
    + apply Prologue_run_end. apply nth_error_None.
      rewrite length_app. cbn [length]. lia.
    + lia.
    + reflexivity.
    + reflexivity.
Qed.

(** X23.  Run from any state whose stack has room, the code that
    [Prologue] emits to initialize the stack slots terminates, having
    pushed a zero into each of the tagged slots and into no other word,
    whether it unrolls the pushes or runs them in its loop of eight, and
    having lowered the stack pointer by the tagged and the untagged
    slots together; it changes no register but the stack pointer and the
    two scratch registers. *)
Theorem Prologue_InitializeStackSlots_correct (graph : ArmPrologue.Graph)
    (scratch unroll_counter : ArmPrologue.Register) (s : ArmPrologue.State) :
  scratch <> ArmPrologue.sp -> unroll_counter <> ArmPrologue.sp ->
  unroll_counter <> scratch ->
  0 <= ArmPrologue.tagged_stack_slots graph ->
  0 <= ArmPrologue.untagged_stack_slots graph ->
  4 * (ArmPrologue.tagged_stack_slots graph
       + ArmPrologue.untagged_stack_slots graph)
    <= ArmPrologue.regs s ArmPrologue.sp < 2 ^ 32 ->
  exists fuel s',
    ArmPrologue.run fuel
      (ArmPrologue.Prologue_InitializeStackSlots graph scratch unroll_counter)
      0 s = Some s' /\
    ArmPrologue.regs s' ArmPrologue.sp
      = ArmPrologue.regs s ArmPrologue.sp
        - 4 * (ArmPrologue.tagged_stack_slots graph
               + ArmPrologue.untagged_stack_slots graph) /\
    (forall i, 0 <= i < ArmPrologue.tagged_stack_slots graph ->
       ArmPrologue.mem s' (ArmPrologue.regs s ArmPrologue.sp - 4 * (i + 1))
       = Some 0) /\
    (forall a, a < ArmPrologue.regs s ArmPrologue.sp
                   - 4 * ArmPrologue.tagged_stack_slots graph \/
               ArmPrologue.regs s ArmPrologue.sp <= a ->
       ArmPrologue.mem s' a = ArmPrologue.mem s a) /\
    (forall r', r' <> ArmPrologue.sp -> r' <> scratch ->
       r' <> unroll_counter ->
       ArmPrologue.regs s' r' = ArmPrologue.regs s r').
Proof.
  intros Hscratch Hcnt Hcs Ht Hu Hsp.
  unfold ArmPrologue.Prologue_InitializeStackSlots.
  set (t := ArmPrologue.tagged_stack_slots graph) in *.
  set (u := ArmPrologue.untagged_stack_slots graph) in *.
  set (sp0 := ArmPrologue.regs s ArmPrologue.sp) in *.
  assert (Hint : ArmPrologue.wrap_int t = t).
  { unfold ArmPrologue.wrap_int. rewrite Z.mod_small by lia. lia. }
  rewrite Hint. clear Hint.
  match goal with
  | |- context [_ ++ ?U] => set (untagged_part := U)
  end.
  destruct (0 <? t) eqn:Epos; [apply Z.ltb_lt in Epos | apply Z.ltb_ge in Epos].
  - cbv zeta. unfold ArmPrologue.kLoopUnrollSize.
    destruct (t <? 8) eqn:Esmall;
      [apply Z.ltb_lt in Esmall | apply Z.ltb_ge in Esmall].
    + (* fully unrolled *)
      cbn [app].
      destruct (Prologue_zero_pushes (Z.to_nat t) untagged_part s scratch
                  Hscratch)
        as (s1 & Hrun1 & Hsp1 & _ & Hregs1 & Hset1 & Hkeep1);
        [fold sp0; lia|].
      fold sp0 in Hsp1, Hset1, Hkeep1.
      rewrite Z2Nat.id in Hsp1, Hset1, Hkeep1 by lia.
      destruct (Prologue_untagged_tail
                  (ArmPrologue.Move scratch 0
                   :: replicate (Z.to_nat t) (ArmPrologue.Push scratch))
                  graph s1 Hu)
        as (s2 & Hrun2 & Hsp2 & Hregs2 & Hmem2); [fold u; rewrite Hsp1; lia|].
      fold u in Hrun2, Hsp2. fold untagged_part in Hrun2.
      cbn [app length] in Hrun2. rewrite length_replicate in Hrun2.
      exists (S (Z.to_nat t) + 2)%nat, s2.
      split; [rewrite Hrun1; exact Hrun2|].
      split; [rewrite Hsp2, Hsp1; lia|].
      split; [intros i Hi; rewrite Hmem2; apply Hset1; exact Hi|].
      split; [intros a Ha; rewrite Hmem2; apply Hkeep1; exact Ha|].
      intros r' Hr1 Hr2 _. rewrite Hregs2 by exact Hr1.
      apply Hregs1; assumption.
    + (* the loop *)
      change (Z.to_nat 8) with 8%nat.
      rewrite Z.rem_mod_nonneg, Z.quot_div_nonneg by lia.
      pose proof (Z.mod_pos_bound t 8 ltac:(lia)) as Hfirst.
      pose proof (Z.div_mod t 8 ltac:(lia)) as Hdiv.
      assert (Hq : 1 <= t / 8) by (apply Z.div_le_lower_bound; lia).
      set (first := Z.to_nat (t mod 8)).
      set (q := Z.to_nat (t / 8)).
      assert (Hq' : t / 8 = Z.of_nat q) by (subst q; lia).
      rewrite Hq'.
      destruct (Prologue_tagged_loop first q untagged_part s scratch
                  unroll_counter Hscratch Hcnt Hcs)
        as (s1 & Hrun1 & Hsp1 & Hregs1 & Hset1 & Hkeep1);
        [subst q; lia | subst q; lia | fold sp0; subst first q; lia |].
      fold sp0 in Hsp1, Hset1, Hkeep1.
      assert (Hsum : Z.of_nat first + 8 * Z.of_nat q = t)
        by (subst first q; lia).
      rewrite Hsum in Hsp1, Hset1, Hkeep1.
      match type of Hrun1 with
      | forall fuel, ArmPrologue.run _ ?code _ _ = _ =>
          set (code1 := code) in *
      end.
      set (tagged_part :=
             ArmPrologue.Move scratch 0
             :: replicate first (ArmPrologue.Push scratch)
                ++ [ArmPrologue.Move unroll_counter (Z.of_nat q);
                    ArmPrologue.bind ArmPrologue.loop]
                ++ replicate 8 (ArmPrologue.Push scratch)
                ++ [ArmPrologue.sub unroll_counter unroll_counter 1
                      ArmPrologue.SetCC;
                    ArmPrologue.b ArmPrologue.kGreaterThan
                      ArmPrologue.loop]).
      assert (Hcode : tagged_part ++ untagged_part = code1).
      { subst tagged_part code1. cbn [app]. rewrite <- !app_assoc.
        reflexivity. }
      assert (Hlen : length tagged_part = (first + 13)%nat).
      { subst tagged_part. cbn [length].
        rewrite !length_app, !length_replicate. cbn [length]. lia. }
      destruct (Prologue_untagged_tail tagged_part graph s1 Hu)
        as (s2 & Hrun2 & Hsp2 & Hregs2 & Hmem2); [fold u; rewrite Hsp1; lia|].
      fold u in Hrun2, Hsp2. fold untagged_part in Hrun2.
      rewrite Hcode, Hlen in Hrun2.
      match goal with
      | |- context [ArmPrologue.run _ ?c 0 s] =>
          replace c with code1
            by (rewrite <- Hcode; subst tagged_part; cbn [app];
                rewrite <- !app_assoc; reflexivity)
      end.
      exists (S first + 2 + 10 * q + 2)%nat, s2.
      split; [rewrite Hrun1; exact Hrun2|].
      split; [rewrite Hsp2, Hsp1; lia|].
      split; [intros i Hi; rewrite Hmem2; apply Hset1; exact Hi|].
      split; [intros a Ha; rewrite Hmem2; apply Hkeep1; exact Ha|].
      intros r' Hr1 Hr2 Hr3. rewrite Hregs2 by exact Hr1.
      apply Hregs1; assumption.
  - (* no tagged slot *)
    assert (t = 0) by lia.
    destruct (Prologue_untagged_tail [] graph s Hu)
      as (s2 & Hrun2 & Hsp2 & Hregs2 & Hmem2); [fold u sp0; lia|].
    fold u sp0 in Hrun2, Hsp2. fold untagged_part in Hrun2.
    exists 2%nat, s2.
    split; [exact Hrun2|].
    split; [rewrite Hsp2; lia|].
    split; [intros i Hi; lia|].
    split; [intros a Ha; rewrite Hmem2; reflexivity|].
    intros r' Hr1 _ _. apply Hregs2. exact Hr1.
Qed.

Lemma Prologue_InitializeStackSlots_correct_witness :
  exists fuel s',
    ArmPrologue.run fuel
      (ArmPrologue.Prologue_InitializeStackSlots
         (ArmPrologue.mkGraph false false 19 2 0) ArmPrologue.r4 ArmPrologue.r8)
      0 (ArmPrologue.example_state 4096) = Some s' /\
    ArmPrologue.regs s' ArmPrologue.sp = 4096 - 4 * (19 + 2).
Proof.
  destruct (Prologue_InitializeStackSlots_correct
              (ArmPrologue.mkGraph false false 19 2 0)
              ArmPrologue.r4 ArmPrologue.r8 (ArmPrologue.example_state 4096))
    as (fuel & s' & Hrun & Hsp & _).
  1-3: discriminate.
  1-2: cbn; lia.
  - cbn. lia.
  - exists fuel, s'. split; [exact Hrun | exact Hsp].
Defined.

(** Code without branches runs the same behind a prefix. *)
Lemma Prologue_run_shift (pre code : list ArmPrologue.Instr) :
  Forall (fun i => forall c l, i <> ArmPrologue.b c l) code ->
  forall (fuel pc : nat) (s : ArmPrologue.State),
  ArmPrologue.run fuel (pre ++ code) (length pre + pc) s
  = ArmPrologue.run fuel code pc s.
Proof.
  intros Hnb. induction fuel as [|fuel IH]; intros pc s; [reflexivity|].
  cbn [ArmPrologue.run].
  rewrite nth_error_app2 by lia.
  replace (length pre + pc - length pre)%nat with pc by lia.
  destruct (nth_error code pc) as [i|] eqn:Hat; [|reflexivity].
  assert (Hi : forall c l, i <> ArmPrologue.b c l).
  { apply (proj1 (List.Forall_forall _ _) Hnb).
    eapply nth_error_In. exact Hat. }
  replace (S (length pre + pc)) with (length pre + S pc)%nat by lia.
  destruct i; try (destruct (ArmPrologue.exec _ s); [apply IH | reflexivity]).
  contradiction (Hi c l). reflexivity.
Qed.

Lemma Prologue_lower_sp (tagged_part : list ArmPrologue.Instr) (n : Z)
    (s1 : ArmPrologue.State) :
  0 <= n -> 4 * n <= ArmPrologue.regs s1 ArmPrologue.sp < 2 ^ 32 ->
  exists s2,
    ArmPrologue.run 2
      (tagged_part
       ++ [ArmPrologue.sub ArmPrologue.sp ArmPrologue.sp
             (ArmPrologue.wrap32 (ArmPrologue.wrap32 n
                                  * ArmPrologue.kSystemPointerSize))
             ArmPrologue.LeaveCC])
      (length tagged_part) s1
    = Some s2 /\
    ArmPrologue.regs s2 ArmPrologue.sp
      = ArmPrologue.regs s1 ArmPrologue.sp - 4 * n /\
    (forall r', r' <> ArmPrologue.sp ->
       ArmPrologue.regs s2 r' = ArmPrologue.regs s1 r') /\
    ArmPrologue.mem s2 = ArmPrologue.mem s1.
Proof.
  intros Hn Hsp.
  set (s2 := ArmPrologue.set_reg s1 ArmPrologue.sp
               (ArmPrologue.regs s1 ArmPrologue.sp - 4 * n)).
  exists s2. split; [|split; [|split]].
  - rewrite (Prologue_run_step 1 _ (length tagged_part) s1 s2
               (ArmPrologue.sub ArmPrologue.sp ArmPrologue.sp
                  (ArmPrologue.wrap32 (ArmPrologue.wrap32 n
                                       * ArmPrologue.kSystemPointerSize))
                  ArmPrologue.LeaveCC)).
    + apply Prologue_run_end. apply nth_error_None.
      rewrite length_app. cbn [length]. lia.
    + rewrite nth_error_app2 by lia. rewrite Nat.sub_diag. reflexivity.
    + intros c l Hd. discriminate Hd.
    + cbn [ArmPrologue.exec ArmPrologue.with_flags]. subst s2.
      unfold ArmPrologue.kSystemPointerSize, ArmPrologue.wrap32.
      rewrite (Z.mod_small n) by lia.
      rewrite Z.mod_mod by lia. rewrite (Z.mod_small (n * 4)) by lia.
      do 3 f_equal. lia.
  - subst s2. unfold ArmPrologue.set_reg, ArmPrologue.wrap32.
    cbn [ArmPrologue.regs]. rewrite Nat.eqb_refl. apply Z.mod_small. lia.
  - intros r' Hr'. subst s2. unfold ArmPrologue.set_reg.
    cbn [ArmPrologue.regs].
    destruct (Nat.eqb_spec r' ArmPrologue.sp); [contradiction|reflexivity].
  - reflexivity.
Qed.

(** The stack-size assertion passes on a frame of the expected size and
    touches the scratch register and the flags only. *)
Lemma Prologue_assert_stack_size (source : Z) (scratch : ArmPrologue.Register)
    (rest : list ArmPrologue.Instr) (s : ArmPrologue.State) :
  scratch <> ArmPrologue.sp -> scratch <> ArmPrologue.fp ->
  0 <= source -> 0 <= ArmPrologue.regs s ArmPrologue.sp ->
  ArmPrologue.regs s ArmPrologue.sp + 4 * source + 12 < 2 ^ 32 ->
  ArmPrologue.regs s ArmPrologue.fp
    = ArmPrologue.regs s ArmPrologue.sp + 4 * source + 12 ->
  exists s1,
    (forall fuel,
       ArmPrologue.run (3 + fuel)
         ([ArmPrologue.add scratch ArmPrologue.sp
             (ArmPrologue.wrap32
                (ArmPrologue.wrap32 (source * ArmPrologue.kSystemPointerSize)
                 + ArmPrologue.kFixedFrameSizeFromFp)) ArmPrologue.SetCC;
            ArmPrologue.cmp scratch ArmPrologue.fp;
            ArmPrologue.Assert ArmPrologue.eq
              ArmPrologue.kOsrUnexpectedStackSize] ++ rest) 0 s
       = ArmPrologue.run fuel
           ([ArmPrologue.add scratch ArmPrologue.sp
               (ArmPrologue.wrap32
                  (ArmPrologue.wrap32
                     (source * ArmPrologue.kSystemPointerSize)
                   + ArmPrologue.kFixedFrameSizeFromFp)) ArmPrologue.SetCC;
              ArmPrologue.cmp scratch ArmPrologue.fp;
              ArmPrologue.Assert ArmPrologue.eq
                ArmPrologue.kOsrUnexpectedStackSize] ++ rest) 3 s1) /\
    (forall r', r' <> scratch ->
       ArmPrologue.regs s1 r' = ArmPrologue.regs s r') /\
    ArmPrologue.mem s1 = ArmPrologue.mem s.
Proof.
  intros Hs Hf Hsrc Hsp0 Hfit Hfp.
  set (sp0 := ArmPrologue.regs s ArmPrologue.sp) in *.
  set (imm := ArmPrologue.wrap32
                (ArmPrologue.wrap32 (source * ArmPrologue.kSystemPointerSize)
                 + ArmPrologue.kFixedFrameSizeFromFp)).
  assert (Himm : ArmPrologue.wrap32 imm = 4 * source + 12).
  { subst imm. unfold ArmPrologue.wrap32, ArmPrologue.kFixedFrameSizeFromFp,
      ArmPrologue.kSystemPointerSize.
    rewrite Z.mod_mod by lia. rewrite (Z.mod_small (source * 4)) by lia.
    rewrite Z.mod_small by lia. lia. }
  set (s1 := ArmPrologue.with_flags ArmPrologue.SetCC
               (Arm64Arith.add_flags 32 sp0 (ArmPrologue.wrap32 imm))
               (ArmPrologue.set_reg s scratch
                  (sp0 + ArmPrologue.wrap32 imm))).
  assert (Hscr1 : ArmPrologue.regs s1 scratch = sp0 + 4 * source + 12).
  { subst s1. unfold ArmPrologue.with_flags, ArmPrologue.set_flags,
      ArmPrologue.set_reg. cbn [ArmPrologue.regs].
    rewrite Nat.eqb_refl, Himm. unfold ArmPrologue.wrap32.
    rewrite Z.mod_small by lia. lia. }
  assert (Hregs1 : forall r', r' <> scratch ->
                     ArmPrologue.regs s1 r' = ArmPrologue.regs s r').
  { intros r' Hr'. subst s1.
    unfold ArmPrologue.with_flags, ArmPrologue.set_flags, ArmPrologue.set_reg.
    cbn [ArmPrologue.regs].
    destruct (Nat.eqb_spec r' scratch); [contradiction | reflexivity]. }
  set (s2 := ArmPrologue.set_flags s1
               (Arm64Arith.sub_flags 32 (ArmPrologue.regs s1 scratch)
                  (ArmPrologue.regs s1 ArmPrologue.fp))).
  assert (Hz : ArmPrologue.holds ArmPrologue.eq (ArmPrologue.flags_ s2) = true).
  { subst s2. cbn [ArmPrologue.set_flags ArmPrologue.flags_ ArmPrologue.holds
                   Arm64.holds].
    rewrite (Hregs1 ArmPrologue.fp) by exact (not_eq_sym Hf).
    rewrite Hscr1, Hfp. unfold Arm64Arith.sub_flags. cbn [Arm64.flagZ].
    rewrite Z.sub_diag. reflexivity. }
  exists s2. split; [|split].
  - intros fuel. cbn [Nat.add app]. fold imm.
    rewrite (Prologue_run_step _ _ 0 s s1
               (ArmPrologue.add scratch ArmPrologue.sp imm ArmPrologue.SetCC))
      by (try reflexivity; intros c l Hd; discriminate Hd).
    rewrite (Prologue_run_step _ _ 1 s1 s2
               (ArmPrologue.cmp scratch ArmPrologue.fp))
      by (try reflexivity; intros c l Hd; discriminate Hd).
    rewrite (Prologue_run_step _ _ 2 s2 s2
               (ArmPrologue.Assert ArmPrologue.eq
                  ArmPrologue.kOsrUnexpectedStackSize));
      [reflexivity | reflexivity | intros c l Hd; discriminate Hd |].
    cbn [ArmPrologue.exec]. rewrite Hz. reflexivity.
  - intros r' Hr'. subst s2. cbn [ArmPrologue.set_flags ArmPrologue.regs].
    apply Hregs1. exact Hr'.
  - reflexivity.
Qed.

(** The pushes of the additional tagged slots and the reservation of the
    rest of the frame. *)
Lemma Prologue_osr_body (additional n : Z) (lower : bool)
    (scratch : ArmPrologue.Register) (s : ArmPrologue.State) :
  scratch <> ArmPrologue.sp ->
  0 <= additional -> 0 <= n -> (lower = false -> n = 0) ->
  4 * (additional + n) <= ArmPrologue.regs s ArmPrologue.sp < 2 ^ 32 ->
  let code :=
    (if negb (additional =? 0) then [ArmPrologue.Move scratch 0] else [])
    ++ replicate (Z.to_nat additional) (ArmPrologue.Push scratch)
    ++ (if lower then
          [ArmPrologue.sub ArmPrologue.sp ArmPrologue.sp
             (ArmPrologue.wrap32 (ArmPrologue.wrap32 n
                                  * ArmPrologue.kSystemPointerSize))
             ArmPrologue.LeaveCC]
        else []) in
  exists fuel s',
    ArmPrologue.run fuel code 0 s = Some s' /\
    ArmPrologue.regs s' ArmPrologue.sp
      = ArmPrologue.regs s ArmPrologue.sp - 4 * (additional + n) /\
    (forall i, 0 <= i < additional ->
       ArmPrologue.mem s' (ArmPrologue.regs s ArmPrologue.sp - 4 * (i + 1))
       = Some 0) /\
    (forall a, a < ArmPrologue.regs s ArmPrologue.sp - 4 * additional \/
               ArmPrologue.regs s ArmPrologue.sp <= a ->
       ArmPrologue.mem s' a = ArmPrologue.mem s a) /\
    (forall r', r' <> ArmPrologue.sp -> r' <> scratch ->
       ArmPrologue.regs s' r' = ArmPrologue.regs s r').
Proof.
  intros Hscratch Hadd Hn Hlower Hsp code. subst code.
  set (sp0 := ArmPrologue.regs s ArmPrologue.sp) in *.
  set (tail := if lower then _ else _).
  assert (Htail : forall (tagged_part : list ArmPrologue.Instr)
                         (s1 : ArmPrologue.State),
            4 * n <= ArmPrologue.regs s1 ArmPrologue.sp < 2 ^ 32 ->
            exists s2,
              ArmPrologue.run 2 (tagged_part ++ tail) (length tagged_part) s1
              = Some s2 /\
              ArmPrologue.regs s2 ArmPrologue.sp
                = ArmPrologue.regs s1 ArmPrologue.sp - 4 * n /\
              (forall r', r' <> ArmPrologue.sp ->
                 ArmPrologue.regs s2 r' = ArmPrologue.regs s1 r') /\
              ArmPrologue.mem s2 = ArmPrologue.mem s1).
  { intros tagged_part s1 Hsp1. subst tail. destruct lower.
    - apply Prologue_lower_sp; assumption.
    - exists s1. rewrite (Hlower eq_refl). split; [|split; [lia | auto]].
      apply Prologue_run_end. apply nth_error_None.
      rewrite length_app. cbn [length]. lia. }
  destruct (additional =? 0) eqn:Ezero;
    [apply Z.eqb_eq in Ezero | apply Z.eqb_neq in Ezero]; cbn [negb app].
  - subst additional. cbn [Z.to_nat replicate app].
    destruct (Htail [] s) as (s2 & Hrun & Hsp2 & Hregs2 & Hmem2);
      [fold sp0; lia|].
    fold sp0 in Hsp2. cbn [app length] in Hrun.
    exists 2%nat, s2. split; [exact Hrun|].
    split; [rewrite Hsp2; lia|].
    split; [intros i Hi; lia|].
    split; [intros a Ha; rewrite Hmem2; reflexivity|].
    intros r' Hr1 _. apply Hregs2. exact Hr1.
  - destruct (Prologue_zero_pushes (Z.to_nat additional) tail s scratch
                Hscratch)
      as (s1 & Hrun1 & Hsp1 & _ & Hregs1 & Hset1 & Hkeep1);
      [fold sp0; lia|].
    fold sp0 in Hsp1, Hset1, Hkeep1.
    rewrite Z2Nat.id in Hsp1, Hset1, Hkeep1 by lia.
    destruct (Htail (ArmPrologue.Move scratch 0
                     :: replicate (Z.to_nat additional)
                          (ArmPrologue.Push scratch)) s1)
      as (s2 & Hrun2 & Hsp2 & Hregs2 & Hmem2); [rewrite Hsp1; lia|].
    cbn [app length] in Hrun2. rewrite length_replicate in Hrun2.
    exists (S (Z.to_nat additional) + 2)%nat, s2.
    split; [rewrite Hrun1; exact Hrun2|].
    split; [rewrite Hsp2, Hsp1; lia|].
    split; [intros i Hi; rewrite Hmem2; apply Hset1; exact Hi|].
    split; [intros a Ha; rewrite Hmem2; apply Hkeep1; exact Ha|].
    intros r' Hr1 Hr2. rewrite Hregs2 by exact Hr1. apply Hregs1; assumption.
Qed.

Lemma Prologue_osr_body_no_branch (additional : nat)
    (move tail : list ArmPrologue.Instr) (scratch : ArmPrologue.Register) :
  Forall (fun i => forall c l, i <> ArmPrologue.b c l) move ->
  Forall (fun i => forall c l, i <> ArmPrologue.b c l) tail ->
  Forall (fun i => forall c l, i <> ArmPrologue.b c l)
    (move ++ replicate additional (ArmPrologue.Push scratch) ++ tail).
Proof.
  intros Hm Ht. apply Forall_app. split; [exact Hm|].
  apply Forall_app. split; [|exact Ht].
  apply Forall_forall. intros i Hi c l Hd. subst i.
  apply elem_of_replicate in Hi. destruct Hi as [Hi _]. discriminate Hi.
Qed.

(** X24.  For a frame entered by OSR whose source frame is no larger than
    the target frame, the second size check of [Prologue] never fails,
    and the emitted code, run on a stack with room and, where the
    stack-size assertion is compiled in, on a frame of the expected
    size, terminates with the frame grown to exactly the target size:
    the stack pointer is lowered by the difference of the two sizes, the
    tagged slots beyond the source frame hold zero, and no other word of
    memory and no register but the stack pointer and the scratch
    register is changed. *)
Theorem Prologue_GrowFrameForOSR_correct (flags : ArmPrologue.Flags)
    (graph : ArmPrologue.Graph) (scratch : ArmPrologue.Register)
    (s : ArmPrologue.State) :
  let source :=
    ArmPrologue.min_maglev_stackslots_for_unoptimized_frame_size graph in
  let tagged := ArmPrologue.tagged_stack_slots graph in
  let target := tagged + ArmPrologue.untagged_stack_slots graph in
  scratch <> ArmPrologue.sp -> scratch <> ArmPrologue.fp ->
  0 <= source -> 0 <= tagged -> 0 <= ArmPrologue.untagged_stack_slots graph ->
  source <= target ->
  4 * (target - source) <= ArmPrologue.regs s ArmPrologue.sp ->
  ArmPrologue.regs s ArmPrologue.sp + 4 * source + 12 < 2 ^ 32 ->
  (ArmPrologue.maglev_assert_stack_size flags && ArmPrologue.debug_code flags
   = true ->
   ArmPrologue.regs s ArmPrologue.fp
   = ArmPrologue.regs s ArmPrologue.sp + 4 * source + 12) ->
  exists code fuel s',
    ArmPrologue.Prologue_GrowFrameForOSR flags graph scratch = Some code /\
    ArmPrologue.run fuel code 0 s = Some s' /\
    ArmPrologue.regs s' ArmPrologue.sp
      = ArmPrologue.regs s ArmPrologue.sp - 4 * (target - source) /\
    (forall i, source <= i < tagged ->
       ArmPrologue.mem s'
         (ArmPrologue.regs s ArmPrologue.sp - 4 * (i - source + 1))
       = Some 0) /\
    (forall a, a < ArmPrologue.regs s ArmPrologue.sp
                   - 4 * Z.max 0 (tagged - source) \/
               ArmPrologue.regs s ArmPrologue.sp <= a ->
       ArmPrologue.mem s' a = ArmPrologue.mem s a) /\
    (forall r', r' <> ArmPrologue.sp -> r' <> scratch ->
       ArmPrologue.regs s' r' = ArmPrologue.regs s r').
Proof.
  intros source tagged target Hs Hf Hsrc Htag Hunt Hle Hroom Hfit Hassert.
  set (sp0 := ArmPrologue.regs s ArmPrologue.sp) in *.
  unfold ArmPrologue.Prologue_GrowFrameForOSR. cbv zeta.
  fold source. fold tagged.
  assert (Htarget : ArmPrologue.wrap32
                      (tagged + ArmPrologue.untagged_stack_slots graph)
                    = target)
    by (unfold ArmPrologue.wrap32; apply Z.mod_small; subst target; lia).
  rewrite Htarget.
  replace (source <=? target) with true by (symmetry; apply Z.leb_le; lia).
  cbn [negb].
  set (assert_stack_size :=
         if ArmPrologue.maglev_assert_stack_size flags
            && ArmPrologue.debug_code flags then _ else _).
  (* the assertion, if compiled in, passes *)
  assert (Hprefix : forall rest : list ArmPrologue.Instr,
            Forall (fun i => forall c l, i <> ArmPrologue.b c l) rest ->
            exists n s1,
              (forall fuel,
                 ArmPrologue.run (n + fuel) (assert_stack_size ++ rest) 0 s
                 = ArmPrologue.run fuel rest 0 s1) /\
              (forall r', r' <> scratch ->
                 ArmPrologue.regs s1 r' = ArmPrologue.regs s r') /\
              ArmPrologue.mem s1 = ArmPrologue.mem s).
  { intros rest Hrest. subst assert_stack_size.
    destruct (ArmPrologue.maglev_assert_stack_size flags
              && ArmPrologue.debug_code flags) eqn:Eassert.
    - destruct (Prologue_assert_stack_size source scratch rest s Hs Hf Hsrc)
        as (s1 & Hrun & Hregs & Hmem);
        [fold sp0; lia | fold sp0; lia | apply Hassert; reflexivity |].
      exists 3%nat, s1. split; [|split; [exact Hregs | exact Hmem]].
      intros fuel. rewrite Hrun.
      match goal with
      | |- ArmPrologue.run _ (?pre ++ rest) 3 _ = _ =>
          apply (Prologue_run_shift pre rest Hrest fuel 0 s1)
      end.
    - exists 0%nat, s. split; [intros fuel; reflexivity | auto]. }
  destruct (source <? target) eqn:Egrow;
    [apply Z.ltb_lt in Egrow | apply Z.ltb_ge in Egrow].
  - set (additional := if source <? tagged
                       then ArmPrologue.wrap32 (tagged - source) else 0).
    assert (Hadd : additional = Z.max 0 (tagged - source)).
    { subst additional. destruct (source <? tagged) eqn:E;
        [apply Z.ltb_lt in E | apply Z.ltb_ge in E].
      - unfold ArmPrologue.wrap32. rewrite Z.mod_small by lia. lia.
      - lia. }
    assert (Hsofar : ArmPrologue.wrap32 (source + additional)
                     = source + additional)
      by (unfold ArmPrologue.wrap32; apply Z.mod_small; subst target; lia).
    rewrite Hsofar.
    replace (source + additional <=? target) with true
      by (symmetry; apply Z.leb_le; subst target; lia).
    cbn [negb].
    set (lower := source + additional <? target).
    set (n := if lower then target - (source + additional) else 0).
    assert (Hn : 0 <= n /\ additional + n = target - source).
    { subst n lower. destruct (source + additional <? target) eqn:E;
        [apply Z.ltb_lt in E | apply Z.ltb_ge in E]; subst target; lia. }
    match goal with
    | |- context [assert_stack_size ++ ?body] => set (body0 := body)
    end.
    assert (Hbody : body0
                    = (if negb (additional =? 0)
                       then [ArmPrologue.Move scratch 0] else [])
                      ++ replicate (Z.to_nat additional)
                           (ArmPrologue.Push scratch)
                      ++ (if lower then
                            [ArmPrologue.sub ArmPrologue.sp ArmPrologue.sp
                               (ArmPrologue.wrap32
                                  (ArmPrologue.wrap32 n
                                   * ArmPrologue.kSystemPointerSize))
                               ArmPrologue.LeaveCC]
                          else [])).
    { subst body0 n. destruct lower; reflexivity. }
    assert (Hnb : Forall (fun i => forall c l, i <> ArmPrologue.b c l) body0).
    { rewrite Hbody. apply Prologue_osr_body_no_branch.
      - destruct (negb (additional =? 0)); repeat constructor;
          intros c l Hd; discriminate Hd.
      - destruct lower; repeat constructor; intros c l Hd; discriminate Hd. }
    destruct (Hprefix body0 Hnb) as (n1 & s1 & Hrun1 & Hregs1 & Hmem1).
    assert (Hsp1 : ArmPrologue.regs s1 ArmPrologue.sp = sp0)
      by (apply Hregs1; exact (not_eq_sym Hs)).
    assert (H1 : 0 <= additional) by lia.
    assert (H2 : 0 <= n) by lia.
    assert (H3 : lower = false -> n = 0)
      by (intros El; subst n; rewrite El; reflexivity).
    assert (H4 : 4 * (additional + n)
                 <= ArmPrologue.regs s1 ArmPrologue.sp < 2 ^ 32)
      by (rewrite Hsp1; lia).
    destruct (Prologue_osr_body additional n lower scratch s1 Hs H1 H2 H3 H4)
      as (fuel & s' & Hrun & Hsp' & Hset & Hkeep & Hregs).
    cbv zeta in Hrun. rewrite <- Hbody in Hrun.
    rewrite Hsp1 in Hsp', Hset, Hkeep.
    exists (assert_stack_size ++ body0), (n1 + fuel)%nat, s'.
    split; [reflexivity|]. split; [rewrite Hrun1; exact Hrun|].
    split; [rewrite Hsp'; lia|].
    split.
    { intros i Hi. apply Hset. lia. }
    split.
    { intros a Ha. rewrite Hkeep by lia. rewrite Hmem1. reflexivity. }
    intros r' Hr1 Hr2. rewrite Hregs by assumption. apply Hregs1. exact Hr2.
  - (* the frame has the target size already *)
    assert (Heq : source = target) by lia.
    destruct (Hprefix [] (List.Forall_nil _)) as (n1 & s1 & Hrun1 & Hregs1 & Hmem1).
    rewrite app_nil_r in Hrun1.
    exists assert_stack_size, (n1 + 1)%nat, s1.
    split; [reflexivity|]. split; [rewrite Hrun1; reflexivity|].
    split; [rewrite Hregs1 by exact (not_eq_sym Hs); fold sp0; lia|].
    split; [intros i Hi; subst target; lia|].
    split; [intros a Ha; rewrite Hmem1; reflexivity|].
    intros r' _ Hr2. apply Hregs1. exact Hr2.
Qed.

Lemma Prologue_GrowFrameForOSR_correct_witness :
  exists code fuel s',
    ArmPrologue.Prologue_GrowFrameForOSR (ArmPrologue.mkFlags true false false)
      (ArmPrologue.mkGraph true false 5 3 2) ArmPrologue.r4 = Some code /\
    ArmPrologue.run fuel code 0 (ArmPrologue.example_state 4096) = Some s' /\
    ArmPrologue.regs s' ArmPrologue.sp = 4096 - 4 * (5 + 3 - 2).
Proof.
  destruct (Prologue_GrowFrameForOSR_correct
              (ArmPrologue.mkFlags true false false)
              (ArmPrologue.mkGraph true false 5 3 2) ArmPrologue.r4
              (ArmPrologue.example_state 4096))
    as (code & fuel & s' & Hcode & Hrun & Hsp & _).
  1-2: discriminate.
  1-4: cbn; lia.
  1-2: cbn; lia.
  - cbn. discriminate.
  - exists code, fuel, s'. split; [exact Hcode|]. split; [exact Hrun|].
    exact Hsp.
Defined.

(** X25.  For a lazy deopt whose top frame is not a construct stub and
    whose result takes zero, one or two registers, [IsResultRegister]
    holds of exactly the registers from the result location up to, and
    not including, the result location plus the result size; for a
    construct stub it holds of the virtual accumulator alone. *)
Theorem IsResultRegister_range (virtual_accumulator : Deopt.Register)
    (info : Deopt.LazyDeoptInfo) (reg : Deopt.Register) :
  0 <= Deopt.result_size info <= 2 ->
  - 2 ^ 31 <= Deopt.index (Deopt.result_location_ info) < 2 ^ 31 - 1 ->
  (Deopt.is_construct_stub_frame (Deopt.top_frame info) = false ->
   (Deopt.IsResultRegister virtual_accumulator info reg = true <->
    Deopt.index (Deopt.result_location_ info) <= Deopt.index reg
      < Deopt.index (Deopt.result_location_ info) + Deopt.result_size info)) /\
  (Deopt.is_construct_stub_frame (Deopt.top_frame info) = true ->
   (Deopt.IsResultRegister virtual_accumulator info reg = true <->
    Deopt.index reg = Deopt.index virtual_accumulator)).
Proof.
  intros Hsize Hloc. unfold Deopt.IsResultRegister, Deopt.Register_eqb.
  split; intros ->.
  - assert (Hnext : Deopt.wrap_int
                      (Deopt.index (Deopt.result_location_ info) + 1)
                    = Deopt.index (Deopt.result_location_ info) + 1)
      by (unfold Deopt.wrap_int; rewrite Z.mod_small by lia; lia).
    cbn [Deopt.index]. rewrite Hnext.
    destruct (Deopt.result_size info =? 1) eqn:E1;
      [apply Z.eqb_eq in E1 | apply Z.eqb_neq in E1].
    + rewrite Z.eqb_eq. lia.
    + destruct (Deopt.result_size info =? 0) eqn:E0;
        [apply Z.eqb_eq in E0 | apply Z.eqb_neq in E0].
      * split; [discriminate | lia].
      * rewrite orb_true_iff, !Z.eqb_eq. lia.
  - apply Z.eqb_eq.
Qed.

Lemma IsResultRegister_range_witness :
  Deopt.IsResultRegister (Deopt.mkRegister (-1))
    (Deopt.mkLazyDeoptInfo Deopt.example_frame (Deopt.mkRegister 3) 2)
    (Deopt.mkRegister 4) = true.
Proof.
  refine (proj2 (proj1 (IsResultRegister_range (Deopt.mkRegister (-1))
                          (Deopt.mkLazyDeoptInfo Deopt.example_frame
                             (Deopt.mkRegister 3) 2)
                          (Deopt.mkRegister 4) _ _) _) _).
  - cbn. lia.
  - cbn. lia.
  - reflexivity.
  - cbn. lia.
Defined.
